(** * The mempool, the block assembler and the compact-block reconstructor

    A shallow embedding of [txmempool.cpp], [miner.cpp] and
    [blockencodings.cpp], with the properties of the specification stated
    over it.

    Conventions.
    - A [uint256] is the integer that orders like the byte string of the
      hash: [std::set<uint256>] and [setEntries] iterate in ascending
      order of that integer.
    - Fixed-width integers are [Z] with the wrap-around of each operation
      written out ([u64], [i64], [u32], [u16]).
    - A [txiter] is modelled by the hash of the entry it points to; the
      entry is read from [mapTx] at each use.
    - Dereferencing [mapTx.end()] and a failed [assert] both give [Crash];
      a loop that is run on fuel gives [Timeout] when the fuel is used up. *)

From Stdlib Require Import ZArith Lia List Bool SpecFloat.
From stdpp Require Import gmap list fin_maps sorting.

Open Scope Z_scope.

(** ** Machine integers *)

Definition u64 (z : Z) : Z := z mod 2 ^ 64.
Definition u32 (z : Z) : Z := z mod 2 ^ 32.
Definition u16 (z : Z) : Z := z mod 2 ^ 16.
Definition i64 (z : Z) : Z := (z + 2 ^ 63) mod 2 ^ 64 - 2 ^ 63.
Definition i32 (z : Z) : Z := (z + 2 ^ 31) mod 2 ^ 32 - 2 ^ 31.

Definition in_u64 (z : Z) : Prop := 0 <= z < 2 ^ 64.
Definition in_i64 (z : Z) : Prop := - 2 ^ 63 <= z < 2 ^ 63.

(** [std::numeric_limits<uint64_t>::max()] *)
Definition nNoLimit : Z := 2 ^ 64 - 1.

(** ** IEEE-754 binary64, for the [(double)] comparisons of the source *)

Definition double : Type := spec_float.

(** [(double) z] for a 64-bit integer [z]: round to nearest, ties to even. *)
Definition to_double (z : Z) : double := binary_normalize 53 1024 z 0 false.
Definition dmul (x y : double) : double := SFmul 53 1024 x y.
Definition dadd (x y : double) : double := SFadd 53 1024 x y.
Definition dgt (x y : double) : bool := SFltb y x.
Definition dzero : double := S754_zero false.

(** ** Outcomes of a run *)

Inductive result (A : Type) : Type :=
| Ok (a : A)
| Crash
| Timeout.
Arguments Ok {A} a.
Arguments Crash {A}.
Arguments Timeout {A}.

#[global] Instance result_ret : MRet result := fun A a => Ok a.
#[global] Instance result_bind : MBind result := fun A B k r =>
  match r with
  | Ok a => k a
  | Crash => Crash
  | Timeout => Timeout
  end.

(** [*it] for [it = m.find(k)]: undefined when [it == m.end()]. *)
Definition deref {A : Type} (o : option A) : result A :=
  match o with
  | Some a => Ok a
  | None => Crash
  end.

(** Iteration over a [std::set] whose elements yield a state or stop the
    run. *)
Fixpoint foreach {A S : Type} (f : S -> A -> result S) (l : list A) (s : S)
  : result S :=
  match l with
  | [] => Ok s
  | a :: l' => s' ← f s a; foreach f l' s'
  end.

(** ** Transactions *)

Notation uint256 := Z (only parsing).

(** [COutPoint]: the hash of the transaction and the index of its output. *)
Definition COutPoint : Type := (uint256 * Z)%type.
Definition outpoint_hash (o : COutPoint) : uint256 := fst o.
Definition outpoint_n (o : COutPoint) : Z := snd o.

Record CTransaction : Type := mkCTransaction {
  GetHash : uint256;
  vin : list COutPoint;   (* the prevout of each CTxIn *)
  vout : list Z           (* the nValue of each CTxOut *)
}.

(** [CInPoint]: the spending transaction (by hash) and its input index. *)
Definition CInPoint : Type := (uint256 * Z)%type.

(** ** Mempool entries *)

Record CTxMemPoolEntry : Type := mkEntry {
  GetTx : CTransaction;
  nFee : Z;                    (* CAmount *)
  nTxSize : Z;                 (* size_t *)
  nModSize : Z;                (* size_t *)
  nUsageSize : Z;              (* size_t *)
  nTime : Z;                   (* int64_t *)
  dPriority : double;
  nHeight : Z;                 (* unsigned int *)
  hadNoDependencies : bool;
  nCountWithDescendants : Z;   (* uint64_t *)
  nSizeWithDescendants : Z;    (* uint64_t *)
  nFeesWithDescendants : Z     (* CAmount *)
}.

Definition with_descendants (e : CTxMemPoolEntry) (count size fees : Z)
  : CTxMemPoolEntry :=
  {| GetTx := GetTx e; nFee := nFee e; nTxSize := nTxSize e;
     nModSize := nModSize e; nUsageSize := nUsageSize e; nTime := nTime e;
     dPriority := dPriority e; nHeight := nHeight e;
     hadNoDependencies := hadNoDependencies e;
     nCountWithDescendants := count;
     nSizeWithDescendants := size;
     nFeesWithDescendants := fees |}.

(** The second constructor of [CTxMemPoolEntry]; the three sizes are
    computed from the transaction by serialisation code that is not part
    of these sources and are taken as arguments. *)
Definition newEntry (tx : CTransaction) (fee time : Z) (prio : double)
    (height : Z) (poolHasNoInputsOf : bool) (txSize modSize usageSize : Z)
  : CTxMemPoolEntry :=
  {| GetTx := tx; nFee := fee; nTxSize := txSize; nModSize := modSize;
     nUsageSize := usageSize; nTime := time; dPriority := prio;
     nHeight := height; hadNoDependencies := poolHasNoInputsOf;
     nCountWithDescendants := 1;
     nSizeWithDescendants := txSize;
     nFeesWithDescendants := fee |}.

Definition entry_hash (e : CTxMemPoolEntry) : uint256 := GetHash (GetTx e).
Definition DynamicMemoryUsage_entry (e : CTxMemPoolEntry) : Z := nUsageSize e.

Definition SetDirty (e : CTxMemPoolEntry) : CTxMemPoolEntry :=
  with_descendants e 0 (nTxSize e) (nFee e).

(** Modelled from the spec: [IsDirty] is declared in [txmempool.h], which
    is not among the sources.  The specification's dirty flag is what
    [SetDirty] sets; an entry has no field for it, and the one value
    [SetDirty] stores that a constructed entry does not have is a
    descendant count of zero. *)
Definition IsDirty (e : CTxMemPoolEntry) : bool :=
  nCountWithDescendants e =? 0.

Definition UpdateState (e : CTxMemPoolEntry) (modifySize modifyFee modifyCount : Z)
  : CTxMemPoolEntry :=
  if negb (IsDirty e) then
    with_descendants e
      (u64 (nCountWithDescendants e + modifyCount))
      (u64 (nSizeWithDescendants e + modifySize))
      (i64 (nFeesWithDescendants e + modifyFee))
  else e.

(** ** The pool *)

(** [TxLinks]: the in-mempool parents and children of an entry,
    [setEntries] ordered by hash. *)
Record TxLinks : Type := mkLinks {
  parents : gset Z;
  children : gset Z
}.

Definition noLinks : TxLinks := {| parents := ∅; children := ∅ |}.

Record CTxMemPool : Type := mkPool {
  mapTx : gmap Z CTxMemPoolEntry;
  mapLinks : gmap Z TxLinks;
  mapNextTx : gmap (Z * Z) CInPoint;
  mapDeltas : gmap Z (double * Z);
  totalTxSize : Z;             (* uint64_t *)
  cachedInnerUsage : Z;        (* uint64_t *)
  nTransactionsUpdated : Z     (* unsigned int *)
}.

Definition set_mapTx (f : gmap Z CTxMemPoolEntry -> gmap Z CTxMemPoolEntry)
    (p : CTxMemPool) : CTxMemPool :=
  mkPool (f (mapTx p)) (mapLinks p) (mapNextTx p) (mapDeltas p)
         (totalTxSize p) (cachedInnerUsage p) (nTransactionsUpdated p).
Definition set_mapLinks (f : gmap Z TxLinks -> gmap Z TxLinks)
    (p : CTxMemPool) : CTxMemPool :=
  mkPool (mapTx p) (f (mapLinks p)) (mapNextTx p) (mapDeltas p)
         (totalTxSize p) (cachedInnerUsage p) (nTransactionsUpdated p).
Definition set_mapNextTx (f : gmap (Z * Z) CInPoint -> gmap (Z * Z) CInPoint)
    (p : CTxMemPool) : CTxMemPool :=
  mkPool (mapTx p) (mapLinks p) (f (mapNextTx p)) (mapDeltas p)
         (totalTxSize p) (cachedInnerUsage p) (nTransactionsUpdated p).
Definition set_mapDeltas (f : gmap Z (double * Z) -> gmap Z (double * Z))
    (p : CTxMemPool) : CTxMemPool :=
  mkPool (mapTx p) (mapLinks p) (mapNextTx p) (f (mapDeltas p))
         (totalTxSize p) (cachedInnerUsage p) (nTransactionsUpdated p).
Definition set_totalTxSize (f : Z -> Z) (p : CTxMemPool) : CTxMemPool :=
  mkPool (mapTx p) (mapLinks p) (mapNextTx p) (mapDeltas p)
         (f (totalTxSize p)) (cachedInnerUsage p) (nTransactionsUpdated p).
Definition set_cachedInnerUsage (f : Z -> Z) (p : CTxMemPool) : CTxMemPool :=
  mkPool (mapTx p) (mapLinks p) (mapNextTx p) (mapDeltas p)
         (totalTxSize p) (f (cachedInnerUsage p)) (nTransactionsUpdated p).
Definition set_nTransactionsUpdated (f : Z -> Z) (p : CTxMemPool) : CTxMemPool :=
  mkPool (mapTx p) (mapLinks p) (mapNextTx p) (mapDeltas p)
         (totalTxSize p) (cachedInnerUsage p) (f (nTransactionsUpdated p)).

(** The elements of a [std::set] in iteration order. *)
Definition sorted_elements (s : gset Z) : list Z := merge_sort Z.le (elements s).

(** [s.size()] *)
Definition zsize (s : gset Z) : Z := Z.of_nat (size s).

(** Errors of [CalculateMemPoolAncestors], one per [errString]. *)
Inductive AncestorError : Type :=
| TooManyUnconfirmedParents
| ExceedsDescendantSizeLimit (tx : Z)
| TooManyDescendants (tx : Z)
| ExceedsAncestorSizeLimit
| TooManyUnconfirmedAncestors.

(** The types of what the sources take from files that are not among
    them. *)
Definition MapTxIndex : Type := gmap Z CTxMemPoolEntry -> list CTxMemPoolEntry.
Definition RandomStream : Type := nat -> Z.
Definition FeeOfSize : Type := Z -> Z -> Z.
Definition InputsCheck : Type := CTransaction -> gset (Z * Z) -> bool.

Section Mempool.

(** *** What the sources take from headers that are not among them *)

(** [memusage::IncrementalDynamicUsage] of a [setEntries], of [mapNextTx],
    of [mapDeltas] and of [mapLinks]: the allocation of one tree node. *)
Variable setEntriesNodeUsage : Z.
Variable mapNextTxNodeUsage : Z.
Variable mapDeltasNodeUsage : Z.
Variable mapLinksNodeUsage : Z.
(** [memusage::MallocUsage(sizeof(CTxMemPoolEntry) + 9 * sizeof(void* ))] *)
Variable entryMallocUsage : Z.

(** The iteration orders of the multi-index container [mapTx]: index 0,
    index 1 (descendant score) from [rbegin()], index 2 (entry time) from
    [begin()].  The comparators are declared in [txmempool.h]. *)
Variable index_txid : MapTxIndex.
Variable index_descendant_score_rev : MapTxIndex.
Variable index_entry_time : MapTxIndex.

(** The values [insecure_rand()] returns after [seed_insecure_rand()], in
    the order of the calls. *)
Variable insecure_rand : RandomStream.

(** [CFeeRate(nSatoshisPerK).GetFee(nSize)], from [amount.cpp]. *)
Variable CFeeRate_GetFee : FeeOfSize.

(** [CheckInputs(tx, state, view, false, 0, false, NULL)], from [main.cpp];
    a coins view is the set of its unspent outpoints. *)
Variable CheckInputs : InputsCheck.

(** Modelled from the spec: [memusage.h] is not among the sources.  By
    invariant I5 [cachedInnerUsage] is the sum of the per-entry bookkeeping,
    which for a set is one node per element. *)
Definition DynamicUsage_setEntries (s : gset Z) : Z :=
  u64 (setEntriesNodeUsage * zsize s).

(** *** Links *)

(** [mapLinks[entry]] *)
Definition links_at (m : gmap Z TxLinks) (h : Z) : TxLinks :=
  default noLinks (m !! h).

Definition GetMemPoolParents (pool : CTxMemPool) (entry : Z) : result (gset Z) :=
  _ ← deref (mapTx pool !! entry);
  l ← deref (mapLinks pool !! entry);
  Ok (parents l).

Definition GetMemPoolChildren (pool : CTxMemPool) (entry : Z) : result (gset Z) :=
  _ ← deref (mapTx pool !! entry);
  l ← deref (mapLinks pool !! entry);
  Ok (children l).

Definition UpdateChild (pool : CTxMemPool) (entry child : Z) (add : bool)
  : CTxMemPool :=
  let l := links_at (mapLinks pool) entry in
  if add then
    let pool' := set_mapLinks
      (insert entry {| parents := parents l; children := {[child]} ∪ children l |})
      pool in
    if decide (child ∈ children l) then pool'
    else set_cachedInnerUsage (fun u => u64 (u + setEntriesNodeUsage)) pool'
  else
    let pool' := set_mapLinks
      (insert entry {| parents := parents l; children := children l ∖ {[child]} |})
      pool in
    if decide (child ∈ children l)
    then set_cachedInnerUsage (fun u => u64 (u - setEntriesNodeUsage)) pool'
    else pool'.

Definition UpdateParent (pool : CTxMemPool) (entry parent : Z) (add : bool)
  : CTxMemPool :=
  let l := links_at (mapLinks pool) entry in
  if add then
    let pool' := set_mapLinks
      (insert entry {| parents := {[parent]} ∪ parents l; children := children l |})
      pool in
    if decide (parent ∈ parents l) then pool'
    else set_cachedInnerUsage (fun u => u64 (u + setEntriesNodeUsage)) pool'
  else
    let pool' := set_mapLinks
      (insert entry {| parents := parents l ∖ {[parent]}; children := children l |})
      pool in
    if decide (parent ∈ parents l)
    then set_cachedInnerUsage (fun u => u64 (u - setEntriesNodeUsage)) pool'
    else pool'.

(** *** CalculateMemPoolAncestors *)

(** The loop over [tx.vin]: the parents found so far and whether the
    ancestor-count limit still holds. *)
Fixpoint find_parents (m : gmap Z CTxMemPoolEntry) (limitAncestorCount : Z)
    (ins : list COutPoint) (parentHashes : gset Z) : gset Z * bool :=
  match ins with
  | [] => (parentHashes, true)
  | o :: ins' =>
      match m !! outpoint_hash o with
      | Some _ =>
          let parentHashes' := {[outpoint_hash o]} ∪ parentHashes in
          if limitAncestorCount <? u64 (zsize parentHashes' + 1)
          then (parentHashes', false)
          else find_parents m limitAncestorCount ins' parentHashes'
      | None => find_parents m limitAncestorCount ins' parentHashes
      end
  end.

(** The loop over [setMemPoolParents] of one staged entry. *)
Fixpoint stage_parents (setAncestors : gset Z) (limitAncestorCount : Z)
    (ps : list Z) (stageParentSet : gset Z) : option AncestorError * gset Z :=
  match ps with
  | [] => (None, stageParentSet)
  | phash :: ps' =>
      let stage' := if decide (phash ∈ setAncestors) then stageParentSet
                    else {[phash]} ∪ stageParentSet in
      if limitAncestorCount <? u64 (zsize stage' + zsize setAncestors + 1)
      then (Some TooManyUnconfirmedAncestors, stage')
      else stage_parents setAncestors limitAncestorCount ps' stage'
  end.

(** The loop over [parentHashes] inside the [while]. *)
Fixpoint process_stage (pool : CTxMemPool) (entry : CTxMemPoolEntry)
    (limitAncestorCount limitAncestorSize limitDescendantCount limitDescendantSize : Z)
    (setAncestors : gset Z) (l : list Z) (totalSizeWithAncestors : Z)
    (stageParentSet : gset Z)
  : result (option AncestorError * Z * gset Z) :=
  match l with
  | [] => Ok (None, totalSizeWithAncestors, stageParentSet)
  | stageit :: l' =>
      e ← deref (mapTx pool !! stageit);
      let total' := u64 (totalSizeWithAncestors + nTxSize e) in
      if limitDescendantSize <? u64 (nSizeWithDescendants e + nTxSize entry)
      then Ok (Some (ExceedsDescendantSizeLimit stageit), total', stageParentSet)
      else if limitDescendantCount <? u64 (nCountWithDescendants e + 1)
      then Ok (Some (TooManyDescendants stageit), total', stageParentSet)
      else if limitAncestorSize <? total'
      then Ok (Some ExceedsAncestorSizeLimit, total', stageParentSet)
      else
        setMemPoolParents ← GetMemPoolParents pool stageit;
        match stage_parents setAncestors limitAncestorCount
                (sorted_elements setMemPoolParents) stageParentSet with
        | (Some err, stage') => Ok (Some err, total', stage')
        | (None, stage') =>
            process_stage pool entry limitAncestorCount limitAncestorSize
              limitDescendantCount limitDescendantSize setAncestors l' total' stage'
        end
  end.

(** The [while (!parentHashes.empty())] loop. *)
Fixpoint ancestors_loop (fuel : nat) (pool : CTxMemPool) (entry : CTxMemPoolEntry)
    (limitAncestorCount limitAncestorSize limitDescendantCount limitDescendantSize : Z)
    (parentHashes setAncestors : gset Z) (totalSizeWithAncestors : Z)
  : result (gset Z * option AncestorError) :=
  if decide (parentHashes = ∅) then Ok (setAncestors, None)
  else
    match fuel with
    | O => Timeout
    | S fuel' =>
        let setAncestors' := setAncestors ∪ parentHashes in
        '(err, total', stageParentSet) ←
          process_stage pool entry limitAncestorCount limitAncestorSize
            limitDescendantCount limitDescendantSize setAncestors'
            (sorted_elements parentHashes) totalSizeWithAncestors ∅;
        match err with
        | Some e => Ok (setAncestors', Some e)
        | None =>
            ancestors_loop fuel' pool entry limitAncestorCount limitAncestorSize
              limitDescendantCount limitDescendantSize stageParentSet
              setAncestors' total'
        end
    end.

(** Every round but the first adds entries of the pool that were not yet
    in [setAncestors], or stops; so two rounds more than the pool has
    entries are never used up (lemma [CalculateMemPoolAncestors_not_Timeout]). *)
Definition ancestors_fuel (pool : CTxMemPool) : nat := S (S (size (mapTx pool))).

(** Returns [setAncestors] as the source leaves it and the error, [None]
    for [return true]. *)
Definition CalculateMemPoolAncestors (pool : CTxMemPool) (entry : CTxMemPoolEntry)
    (setAncestors : gset Z)
    (limitAncestorCount limitAncestorSize limitDescendantCount limitDescendantSize : Z)
  : result (gset Z * option AncestorError) :=
  match find_parents (mapTx pool) limitAncestorCount (vin (GetTx entry)) ∅ with
  | (_, false) => Ok (setAncestors, Some TooManyUnconfirmedParents)
  | (parentHashes, true) =>
      ancestors_loop (ancestors_fuel pool) pool entry limitAncestorCount
        limitAncestorSize limitDescendantCount limitDescendantSize
        parentHashes setAncestors (nTxSize entry)
  end.

(** *** Updates of the graph *)

(** [mapTx.modify(it, update_descendant_state(...))] *)
Definition modify_descendant_state (modifySize modifyFee modifyCount : Z)
    (pool : CTxMemPool) (h : Z) : result CTxMemPool :=
  e ← deref (mapTx pool !! h);
  Ok (set_mapTx (insert h (UpdateState e modifySize modifyFee modifyCount)) pool).

Definition UpdateAncestorsOf (pool : CTxMemPool) (add : bool) (hash : Z)
    (setAncestors : gset Z) : result CTxMemPool :=
  parentHashes ← GetMemPoolParents pool hash;
  pool1 ← foreach (fun p phash =>
                     _ ← deref (mapTx p !! phash);
                     Ok (UpdateChild p phash hash add))
             (sorted_elements parentHashes) pool;
  it ← deref (mapTx pool1 !! hash);
  let updateCount := if add then 1 else -1 in
  let updateSize := i64 (updateCount * nTxSize it) in
  let updateFee := i64 (updateCount * nFee it) in
  foreach (modify_descendant_state updateSize updateFee updateCount)
    (sorted_elements setAncestors) pool1.

Definition UpdateChildrenForRemoval (pool : CTxMemPool) (hash : Z)
  : result CTxMemPool :=
  setMemPoolChildren ← GetMemPoolChildren pool hash;
  foreach (fun p updateIt =>
             _ ← deref (mapTx p !! updateIt);
             Ok (UpdateParent p updateIt hash false))
    (sorted_elements setMemPoolChildren) pool.

Definition UpdateForRemoveFromMempool (pool : CTxMemPool) (hashesToRemove : gset Z)
  : result CTxMemPool :=
  pool1 ← foreach (fun p removeHash =>
             entry ← deref (mapTx p !! removeHash);
             '(setAncestors, _) ←
               CalculateMemPoolAncestors p entry ∅ nNoLimit nNoLimit nNoLimit nNoLimit;
             UpdateAncestorsOf p false removeHash setAncestors)
           (sorted_elements hashesToRemove) pool;
  foreach UpdateChildrenForRemoval (sorted_elements hashesToRemove) pool1.

(** *** Adding and removing one entry *)

(** The loop over [tx.vin] of [addUnchecked]: [mapNextTx] and
    [setParentTransactions]. *)
Fixpoint register_inputs (hash : Z) (ins : list COutPoint) (i : Z)
    (next : gmap (Z * Z) CInPoint) (setParentTransactions : gset Z)
  : gmap (Z * Z) CInPoint * gset Z :=
  match ins with
  | [] => (next, setParentTransactions)
  | prevout :: ins' =>
      register_inputs hash ins' (i + 1) (<[prevout := (hash, i)]> next)
        ({[outpoint_hash prevout]} ∪ setParentTransactions)
  end.

(** [addUnchecked(hash, entry, setAncestors, fCurrentEstimate)]; the fee
    estimator is a collaborator outside the pool and is left out. *)
Definition addUnchecked (pool : CTxMemPool) (hash : Z) (entry : CTxMemPoolEntry)
    (setAncestors : gset Z) : result CTxMemPool :=
  let newit := entry_hash entry in
  (* [insert] of a unique index keeps an entry that is already there *)
  let pool1 := set_mapTx (fun m => match m !! newit with
                                   | Some _ => m
                                   | None => <[newit := entry]> m
                                   end) pool in
  let pool2 := set_mapLinks (fun m => match m !! newit with
                                      | Some _ => m
                                      | None => <[newit := noLinks]> m
                                      end) pool1 in
  let pool3 := set_cachedInnerUsage
                 (fun u => u64 (u + DynamicMemoryUsage_entry entry)) pool2 in
  stored ← deref (mapTx pool3 !! newit);
  let tx := GetTx stored in
  let '(next, setParentTransactions) :=
    register_inputs (GetHash tx) (vin tx) 0 (mapNextTx pool3) ∅ in
  let pool4 := set_mapNextTx (fun _ => next) pool3 in
  let pool5 := fold_left (fun p phash =>
                            match mapTx p !! phash with
                            | Some _ => UpdateParent p newit phash true
                            | None => p
                            end)
                 (sorted_elements setParentTransactions) pool4 in
  pool6 ← UpdateAncestorsOf pool5 true hash setAncestors;
  Ok (set_totalTxSize (fun s => u64 (s + nTxSize entry))
        (set_nTransactionsUpdated (fun n => u32 (n + 1)) pool6)).

(** [addUnchecked(hash, entry, fCurrentEstimate)] *)
Definition addUnchecked_noAncestors (pool : CTxMemPool) (hash : Z)
    (entry : CTxMemPoolEntry) : result CTxMemPool :=
  '(setAncestors, _) ←
    CalculateMemPoolAncestors pool entry ∅ nNoLimit nNoLimit nNoLimit nNoLimit;
  addUnchecked pool hash entry setAncestors.

Definition removeUnchecked (pool : CTxMemPool) (hash : Z) : result CTxMemPool :=
  it ← deref (mapTx pool !! hash);
  let next := fold_left (fun m prevout => delete prevout m)
                (vin (GetTx it)) (mapNextTx pool) in
  let l := links_at (mapLinks pool) hash in
  Ok (mkPool (delete hash (mapTx pool))
             (delete hash (mapLinks pool))
             next
             (mapDeltas pool)
             (u64 (totalTxSize pool - nTxSize it))
             (u64 (u64 (cachedInnerUsage pool - DynamicMemoryUsage_entry it)
                   - u64 (DynamicUsage_setEntries (parents l)
                          + DynamicUsage_setEntries (children l))))
             (u32 (nTransactionsUpdated pool + 1))).

(** *** Descendants *)

(** The inner loops of [CalculateDescendants]: the children of the staged
    hashes that are not yet in [setDescendants]. *)
Definition next_descendants (pool : CTxMemPool) (setDescendants : gset Z)
    (stage : list Z) : result (gset Z) :=
  foreach (fun setNext stagehash =>
             setChildren ← GetMemPoolChildren pool stagehash;
             Ok (fold_left (fun s childhash =>
                              if decide (childhash ∈ setDescendants) then s
                              else {[childhash]} ∪ s)
                   (sorted_elements setChildren) setNext))
    stage ∅.

Fixpoint descendants_loop (fuel : nat) (pool : CTxMemPool)
    (stage setDescendants : gset Z) : result (gset Z) :=
  if decide (stage = ∅) then Ok setDescendants
  else
    match fuel with
    | O => Timeout
    | S fuel' =>
        let setDescendants' := setDescendants ∪ stage in
        setNext ← next_descendants pool setDescendants' (sorted_elements stage);
        descendants_loop fuel' pool setNext setDescendants'
    end.

(** Every round adds entries of the pool that were not yet in
    [setDescendants], or stops (lemma [CalculateDescendants_not_Timeout]). *)
Definition descendants_fuel (pool : CTxMemPool) : nat := S (size (mapTx pool)).

Definition CalculateDescendants (pool : CTxMemPool) (hash : Z)
    (setDescendants : gset Z) : result (gset Z) :=
  let stage : gset Z := if decide (hash ∈ setDescendants) then ∅ else {[hash]} in
  descendants_loop (descendants_fuel pool) pool stage setDescendants.

(** *** Removal *)

Definition RemoveStaged (pool : CTxMemPool) (stage : gset Z) : result CTxMemPool :=
  pool1 ← UpdateForRemoveFromMempool pool stage;
  foreach removeUnchecked (sorted_elements stage) pool1.

(** [0, 1, ..., n - 1] as output indices *)
Definition output_indices (n : nat) : list Z := map Z.of_nat (seq 0 n).

(** [remove(origTx, removed, fRecursive)]: the pool and [removed]. *)
Definition remove (pool : CTxMemPool) (origTx : CTransaction)
    (removed : list CTransaction) (fRecursive : bool)
  : result (CTxMemPool * list CTransaction) :=
  let txToRemove : gset Z :=
    match mapTx pool !! GetHash origTx with
    | Some _ => {[GetHash origTx]}
    | None =>
        if fRecursive then
          fold_left (fun s i =>
                       match mapNextTx pool !! (GetHash origTx, i) with
                       | None => s
                       | Some (ptx, _) => {[ptx]} ∪ s
                       end)
            (output_indices (length (vout origTx))) ∅
        else ∅
    end in
  setAllRemoves ←
    (if fRecursive then
       foreach (fun s hash => CalculateDescendants pool hash s)
         (sorted_elements txToRemove) ∅
     else Ok txToRemove);
  removed' ← foreach (fun r hash =>
                        e ← deref (mapTx pool !! hash);
                        Ok (r ++ [GetTx e]))
               (sorted_elements setAllRemoves) removed;
  pool' ← RemoveStaged pool setAllRemoves;
  Ok (pool', removed').

Definition removeConflicts (pool : CTxMemPool) (tx : CTransaction)
    (removed : list CTransaction) : result (CTxMemPool * list CTransaction) :=
  foreach (fun '(p, r) prevout =>
             match mapNextTx p !! prevout with
             | Some (ptx, _) =>
                 conflicting ← deref (mapTx p !! ptx);
                 let txConflict := GetTx conflicting in
                 if decide (GetHash txConflict = GetHash tx) then Ok (p, r)
                 else remove p txConflict r true
             | None => Ok (p, r)
             end)
    (vin tx) (pool, removed).

(** *** Prioritisation *)

Definition PrioritiseTransaction (pool : CTxMemPool) (hash : Z)
    (dPriorityDelta : double) (nFeeDelta : Z) : CTxMemPool :=
  let deltas := default (dzero, 0) (mapDeltas pool !! hash) in
  set_mapDeltas
    (insert hash (dadd (fst deltas) dPriorityDelta, i64 (snd deltas + nFeeDelta)))
    pool.

(** [ApplyDeltas(hash, dPriorityDelta, nFeeDelta)]: the two references
    after the call. *)
Definition ApplyDeltas (pool : CTxMemPool) (hash : Z)
    (dPriorityDelta : double) (nFeeDelta : Z) : double * Z :=
  match mapDeltas pool !! hash with
  | None => (dPriorityDelta, nFeeDelta)
  | Some deltas => (dadd dPriorityDelta (fst deltas), i64 (nFeeDelta + snd deltas))
  end.

Definition ClearPrioritisation (pool : CTxMemPool) (hash : Z) : CTxMemPool :=
  set_mapDeltas (delete hash) pool.

(** [removeForBlock(vtx, nBlockHeight, conflicts, fCurrentEstimate)]: the
    pool, [conflicts], and the [entries] handed to the fee estimator. *)
Definition removeForBlock (pool : CTxMemPool) (vtx : list CTransaction)
    (conflicts : list CTransaction)
  : result (CTxMemPool * list CTransaction * list CTxMemPoolEntry) :=
  let entries := fold_left (fun es tx =>
                              match mapTx pool !! GetHash tx with
                              | Some e => es ++ [e]
                              | None => es
                              end) vtx [] in
  '(pool', conflicts') ←
    foreach (fun '(p, c) tx =>
               '(p1, _) ← remove p tx [] false;
               '(p2, c') ← removeConflicts p1 tx c;
               Ok (ClearPrioritisation p2 (GetHash tx), c'))
      vtx (pool, conflicts);
  Ok (pool', conflicts', entries).

(** *** Expiry *)

Fixpoint older_than (time : Z) (l : list CTxMemPoolEntry) : gset Z :=
  match l with
  | [] => ∅
  | e :: l' => if nTime e <? time then {[entry_hash e]} ∪ older_than time l'
               else ∅
  end.

(** [Expire(time)]: the pool and the returned count. *)
Definition Expire (pool : CTxMemPool) (time : Z) : result (CTxMemPool * Z) :=
  let toremove := older_than time (index_entry_time (mapTx pool)) in
  stage ← foreach (fun s hash => CalculateDescendants pool hash s)
            (sorted_elements toremove) ∅;
  pool' ← RemoveStaged pool stage;
  Ok (pool', i32 (zsize stage)).

(** *** Memory usage *)

Definition DynamicMemoryUsage (pool : CTxMemPool) : Z :=
  u64 (entryMallocUsage * Z.of_nat (size (mapTx pool))
       + mapNextTxNodeUsage * Z.of_nat (size (mapNextTx pool))
       + mapDeltasNodeUsage * Z.of_nat (size (mapDeltas pool))
       + mapLinksNodeUsage * Z.of_nat (size (mapLinks pool))
       + cachedInnerUsage pool).

Definition GuessDynamicMemoryUsage (entry : CTxMemPoolEntry) : Z :=
  u64 (entryMallocUsage + DynamicMemoryUsage_entry entry
       + (mapNextTxNodeUsage + setEntriesNodeUsage)
         * Z.of_nat (length (vin (GetTx entry)))
       + mapLinksNodeUsage).

(** *** Eviction *)

(** The entries of [mapNextTx] from [lower_bound(COutPoint(h, 0))] while
    the key has hash [h]: the spenders of the outputs of [h], by output
    index. *)
Definition by_output_index (a b : (Z * Z) * CInPoint) : Prop :=
  snd (fst a) <= snd (fst b).

#[local] Instance by_output_index_dec a b : Decision (by_output_index a b).
Proof. unfold by_output_index. apply _. Defined.

Definition spenders_of (next : gmap (Z * Z) CInPoint) (h : Z) : list CInPoint :=
  map snd
    (merge_sort by_output_index
       (filter (fun kv => fst (fst kv) = h) (map_to_list next))).

(** [a > b] for [a = (double)fee * size] and [b = (double)fee' * size']. *)
Definition feerate_gt (fee size fee' size' : Z) : bool :=
  dgt (dmul (to_double fee) (to_double size'))
      (dmul (to_double fee') (to_double size)).

(** The locals of the breadth-first walk over the descendants of one
    candidate. *)
Record TrimWalk : Type := mkWalk {
  todo : list Z;
  now : gset Z;
  nowfee : Z;        (* CAmount *)
  nowsize : Z;       (* size_t *)
  nowusage : Z;      (* size_t *)
  walk_itertotal : Z (* int *)
}.

(** The [while (!todo.empty())] loop; the boolean is [good].  [limit] is
    [iterextra + iterperfail*(fails+1)]. *)
Fixpoint trim_walk (fuel : nat) (pool : CTxMemPool) (protect stage : gset Z)
    (nFeesReserved nFeesRemoved feeToUse limit : Z) (w : TrimWalk)
  : result (bool * TrimWalk) :=
  match todo w with
  | [] => Ok (true, w)
  | hashnow :: rest =>
      if decide (hashnow ∈ protect) then Ok (false, w)
      else
        let itertotal := walk_itertotal w + 1 in
        if limit <? itertotal
        then Ok (false, mkWalk (todo w) (now w) (nowfee w) (nowsize w)
                          (nowusage w) itertotal)
        else
          match fuel with
          | O => Timeout
          | S fuel' =>
              origTx ← deref (mapTx pool !! hashnow);
              let nowfee' := i64 (nowfee w + nFee origTx) in
              if feeToUse <? i64 (i64 (nFeesReserved + nFeesRemoved) + nowfee')
              then Ok (false, mkWalk (todo w) (now w) nowfee' (nowsize w)
                                (nowusage w) itertotal)
              else
                let now' := {[hashnow]} ∪ now w in
                let next :=
                  filter (fun nexthash => ¬ (nexthash ∈ stage ∨ nexthash ∈ now'))
                         (map fst (spenders_of (mapNextTx pool) hashnow)) in
                trim_walk fuel' pool protect stage nFeesReserved nFeesRemoved
                  feeToUse limit
                  (mkWalk (rest ++ next) now' nowfee'
                     (u64 (nowsize w + nTxSize origTx))
                     (u64 (nowusage w + GuessDynamicMemoryUsage origTx))
                     itertotal)
          end
  end.

(** Each round that goes on has counted [itertotal] up by one and found
    it within [limit] (lemma [trim_walk_not_Timeout]). *)
Definition walk_fuel (limit itertotal : Z) : nat := S (Z.to_nat (limit - itertotal)).

(** The locals of [TrimMempool] that its outer loop changes, and the two
    reference parameters. *)
Record TrimState : Type := mkTrim {
  usageRemoved : Z;    (* size_t *)
  fails : Z;           (* int *)
  itertotal : Z;       (* int *)
  stage_of : gset Z;
  nFeesRemoved_of : Z; (* CAmount *)
  rand_calls : nat
}.

Definition iterperfail : Z := 10.
Definition failmax : Z := 10.

(** The outer [while] loop of [TrimMempool] over the descendant-score
    index, from the lowest score. *)
Fixpoint trim_scan (pool : CTxMemPool) (sizeToTrim : Z) (protect : gset Z)
    (nFeesReserved sizeToUse feeToUse iterextra : Z)
    (its : list CTxMemPoolEntry) (st : TrimState) : result TrimState :=
  match its with
  | [] => Ok st
  | it :: its' =>
      if negb (usageRemoved st <? sizeToTrim) then Ok st
      else
        let st1 := mkTrim (usageRemoved st) (fails st) (itertotal st)
                     (stage_of st) (nFeesRemoved_of st) (S (rand_calls st)) in
        if negb (insecure_rand (rand_calls st) mod 10 =? 0)
        then trim_scan pool sizeToTrim protect nFeesReserved sizeToUse feeToUse
               iterextra its' st1
        else if decide (entry_hash it ∈ stage_of st)
        then trim_scan pool sizeToTrim protect nFeesReserved sizeToUse feeToUse
               iterextra its' st1
        else if feerate_gt (nFee it) (nTxSize it) feeToUse sizeToUse
        then Ok st1
        else
          let limit := iterextra + iterperfail * (fails st + 1) in
          '(good, w) ←
            trim_walk (walk_fuel limit (itertotal st)) pool protect (stage_of st)
              nFeesReserved (nFeesRemoved_of st) feeToUse limit
              (mkWalk [entry_hash it] ∅ 0 0 0 (itertotal st));
          let good' :=
            good && negb (feerate_gt (nowfee w) (nowsize w) feeToUse sizeToUse) in
          if good'
          then trim_scan pool sizeToTrim protect nFeesReserved sizeToUse feeToUse
                 iterextra its'
                 (mkTrim (u64 (usageRemoved st + nowusage w)) (fails st)
                    (walk_itertotal w) (stage_of st ∪ now w)
                    (i64 (nFeesRemoved_of st + nowfee w)) (S (rand_calls st)))
          else
            let st2 := mkTrim (usageRemoved st) (fails st + 1) (walk_itertotal w)
                         (stage_of st) (nFeesRemoved_of st) (S (rand_calls st)) in
            if failmax <? fails st + 1 then Ok st2
            else trim_scan pool sizeToTrim protect nFeesReserved sizeToUse
                   feeToUse iterextra its' st2
  end.

(** [TrimMempool]: the returned boolean, [stage] and [nFeesRemoved]. *)
Definition TrimMempool (pool : CTxMemPool) (sizeToTrim : Z) (protect : gset Z)
    (nFeesReserved sizeToUse feeToUse : Z) (mustTrimAllSize : bool)
    (iterextra : Z) (stage : gset Z) (nFeesRemoved : Z)
  : result (bool * gset Z * Z) :=
  st ← trim_scan pool sizeToTrim protect nFeesReserved sizeToUse feeToUse
         iterextra (index_descendant_score_rev (mapTx pool))
         (mkTrim 0 0 0 stage nFeesRemoved O);
  if mustTrimAllSize && (usageRemoved st <? sizeToTrim)
  then Ok (false, stage_of st, nFeesRemoved_of st)
  else if bool_decide (stage_of st = ∅) && (0 <? sizeToTrim)
  then Ok (false, stage_of st, nFeesRemoved_of st)
  else Ok (true, stage_of st, nFeesRemoved_of st).

Definition StageTrimToSize (pool : CTxMemPool) (sizelimit : Z)
    (toadd : CTxMemPoolEntry) (nFeesReserved : Z) (stage : gset Z)
    (nFeesRemoved : Z) : result (bool * gset Z * Z) :=
  let protect : gset Z := list_to_set (map outpoint_hash (vin (GetTx toadd))) in
  let incUsage := GuessDynamicMemoryUsage toadd in
  let expsize := u64 (DynamicMemoryUsage pool + incUsage) in
  if expsize <=? sizelimit then Ok (true, stage, nFeesRemoved)
  else
    let sizeToTrim := Z.min (u64 (expsize - sizelimit)) incUsage in
    TrimMempool pool sizeToTrim protect nFeesReserved (nTxSize toadd)
      (nFee toadd) true 10 stage nFeesRemoved.

(** [SurplusTrim(multiplier, minRelayRate, usageToTrim)], with the rate
    given by its [GetFeePerK()]. *)
Definition SurplusTrim (pool : CTxMemPool) (multiplier minRelayFeePerK usageToTrim : Z)
  : result CTxMemPool :=
  let excessRate := i64 (multiplier * minRelayFeePerK) in
  let sizeToTrim := usageToTrim / 4 in
  '(ok, stageTrimDelete, _) ←
    TrimMempool pool usageToTrim ∅ 0 sizeToTrim
      (CFeeRate_GetFee excessRate sizeToTrim) false 100 ∅ 0;
  if (ok : bool) then RemoveStaged pool stageTrimDelete else Ok pool.

(** *** The sanity check *)

(** Modelled from the spec: [CCoinsViewCache], [HaveInputs] and
    [UpdateCoins] come from [coins.h] and [main.cpp], which are not among
    the sources.  By 4.C of the specification the check resolves every
    input against the provided coins view or another mempool entry and
    admits a pending transaction once its inputs are available: a view is
    the set of unspent outpoints, a transaction has its inputs when all
    its prevouts are in the view, and admitting it spends them and makes
    its own non-null outputs available. *)
Definition CCoinsView : Type := gset (Z * Z).

Definition IsNull_txout (nValue : Z) : bool := nValue =? -1.

Definition outputs_of (tx : CTransaction) : gset (Z * Z) :=
  list_to_set
    (omap (fun '(i, v) => if IsNull_txout v then None else Some (GetHash tx, i))
          (zip (output_indices (length (vout tx))) (vout tx))).

Definition HaveInputs (view : CCoinsView) (tx : CTransaction) : bool :=
  forallb (fun prevout => bool_decide (prevout ∈ view)) (vin tx).

Definition UpdateCoins (tx : CTransaction) (view : CCoinsView) : CCoinsView :=
  (view ∖ list_to_set (vin tx)) ∪ outputs_of tx.

(** [assert(c)] *)
Definition assert (c : bool) : result unit := if c then Ok tt else Crash.

(** The loop over [tx.vin] in [check]: [fDependsWait], [setParentCheck]
    and the input counter [i]. *)
Fixpoint check_inputs (pool : CTxMemPool) (pcoins : CCoinsView) (tx : CTransaction)
    (ins : list COutPoint) (i : Z) (fDependsWait : bool) (setParentCheck : gset Z)
  : result (bool * gset Z) :=
  match ins with
  | [] => Ok (fDependsWait, setParentCheck)
  | prevout :: ins' =>
      '(fDependsWait', setParentCheck') ←
        match mapTx pool !! outpoint_hash prevout with
        | Some it2 =>
            let tx2 := GetTx it2 in
            _ ← assert ((outpoint_n prevout <? Z.of_nat (length (vout tx2)))
                        && negb (IsNull_txout
                                   (nth (Z.to_nat (outpoint_n prevout)) (vout tx2) (-1))));
            Ok (true, {[outpoint_hash prevout]} ∪ setParentCheck)
        | None =>
            _ ← assert (bool_decide (prevout ∈ pcoins));
            Ok (fDependsWait, setParentCheck)
        end;
      it3 ← deref (mapNextTx pool !! prevout);
      _ ← assert (fst it3 =? GetHash tx);
      _ ← assert (snd it3 =? i);
      check_inputs pool pcoins tx ins' (u32 (i + 1)) fDependsWait' setParentCheck'
  end.

(** The loop over the spenders of the entry's outputs in [check]. *)
Definition check_children (pool : CTxMemPool) (hash : Z)
  : result (gset Z * Z * Z) :=
  foreach (fun '(setChildrenCheck, childSizes, childFees) (spender : CInPoint) =>
             childit ← deref (mapTx pool !! fst spender);
             if decide (fst spender ∈ setChildrenCheck)
             then Ok (setChildrenCheck, childSizes, childFees)
             else Ok ({[fst spender]} ∪ setChildrenCheck,
                      i64 (childSizes + nTxSize childit),
                      i64 (childFees + nFee childit)))
    (spenders_of (mapNextTx pool) hash) (∅, 0, 0).

(** The locals of [check] that its first loop changes. *)
Record CheckState : Type := mkCheck {
  checkTotal : Z;
  innerUsage : Z;
  mempoolDuplicate : CCoinsView;
  waitingOnDependants : list CTxMemPoolEntry
}.

(** One round of the first loop of [check]. *)
Definition check_entry (pool : CTxMemPool) (pcoins : CCoinsView)
    (cs : CheckState) (it : CTxMemPoolEntry) : result CheckState :=
  let tx := GetTx it in
  let checkTotal' := u64 (checkTotal cs + nTxSize it) in
  links ← deref (mapLinks pool !! entry_hash it);
  let innerUsage' :=
    u64 (u64 (innerUsage cs + DynamicMemoryUsage_entry it)
         + u64 (DynamicUsage_setEntries (parents links)
                + DynamicUsage_setEntries (children links))) in
  '(fDependsWait, setParentCheck) ← check_inputs pool pcoins tx (vin tx) 0 false ∅;
  setMemPoolParents ← GetMemPoolParents pool (entry_hash it);
  _ ← assert (bool_decide (setParentCheck = setMemPoolParents));
  '(setChildrenCheck, childSizes, childFees) ← check_children pool (entry_hash it);
  setMemPoolChildren ← GetMemPoolChildren pool (entry_hash it);
  _ ← assert (bool_decide (setChildrenCheck = setMemPoolChildren));
  _ ← (if negb (IsDirty it) then
         _ ← assert (u64 (childSizes + i64 (nTxSize it)) <=? nSizeWithDescendants it);
         assert (i64 (childFees + nFee it) <=? nFeesWithDescendants it)
       else
         _ ← assert (nSizeWithDescendants it =? u64 (i64 (nTxSize it)));
         assert (nFeesWithDescendants it =? nFee it));
  _ ← assert (0 <=? nFeesWithDescendants it);
  if (fDependsWait : bool)
  then Ok (mkCheck checkTotal' innerUsage' (mempoolDuplicate cs)
             (waitingOnDependants cs ++ [it]))
  else
    _ ← assert (CheckInputs tx (mempoolDuplicate cs));
    Ok (mkCheck checkTotal' innerUsage' (UpdateCoins tx (mempoolDuplicate cs))
          (waitingOnDependants cs)).

(** The loop over [waitingOnDependants]: the view at the end and the
    number of rounds. *)
Fixpoint check_waiting (fuel : nat) (view : CCoinsView)
    (waiting : list CTxMemPoolEntry) (stepsSinceLastRemove : Z) (rounds : nat)
  : result (CCoinsView * nat) :=
  match waiting with
  | [] => Ok (view, rounds)
  | entry :: rest =>
      match fuel with
      | O => Timeout
      | S fuel' =>
          if negb (HaveInputs view (GetTx entry)) then
            let waiting' := rest ++ [entry] in
            let steps := u32 (stepsSinceLastRemove + 1) in
            _ ← assert (steps <? Z.of_nat (length waiting'));
            check_waiting fuel' view waiting' steps (S rounds)
          else
            _ ← assert (CheckInputs (GetTx entry) view);
            check_waiting fuel' (UpdateCoins (GetTx entry) view) rest 0 (S rounds)
      end
  end.

(** The loop over [mapNextTx] at the end of [check]. *)
Definition check_nextTx (pool : CTxMemPool) : result unit :=
  foreach (fun (_ : unit) '(prevout, (ptx, n)) =>
             it2 ← deref (mapTx pool !! ptx);
             let tx := GetTx it2 in
             _ ← assert (n <? Z.of_nat (length (vin tx)));
             assert (bool_decide (nth_error (vin tx) (Z.to_nat n) = Some prevout)))
    (map_to_list (mapNextTx pool)) tt.

(** [check(pcoins)], with [fSanityCheck] as an argument; the rounds of the
    loop over [waitingOnDependants] are returned. *)
Definition check (pool : CTxMemPool) (fSanityCheck : bool) (pcoins : CCoinsView)
  : result nat :=
  if negb fSanityCheck then Ok O
  else
    cs ← foreach (check_entry pool pcoins) (index_txid (mapTx pool))
           (mkCheck 0 0 pcoins []);
    let pending := length (waitingOnDependants cs) in
    '(_, rounds) ← check_waiting (pending * pending) (mempoolDuplicate cs)
                     (waitingOnDependants cs) 0 O;
    _ ← check_nextTx pool;
    _ ← assert (totalTxSize pool =? checkTotal cs);
    _ ← assert (innerUsage cs =? cachedInnerUsage pool);
    Ok rounds.

(** ** The compact-block reconstructor ([blockencodings.cpp]) *)

Inductive ReadStatus : Type :=
| READ_STATUS_OK
| READ_STATUS_INVALID
| READ_STATUS_FAILED.

Definition IsNull_tx (tx : CTransaction) : bool :=
  match vin tx, vout tx with
  | [], [] => true
  | _, _ => false
  end.

Record PrefilledTransaction : Type := mkPrefilled {
  index : Z;             (* uint16_t *)
  prefilled_tx : CTransaction
}.

Record CBlockHeaderAndShortTxIDs : Type := mkCmpct {
  cmpct_header_IsNull : bool;
  cmpct_header : Z;      (* the header, by its hash *)
  shorttxidk0 : Z;
  shorttxidk1 : Z;
  nonce : Z;
  shorttxids : list Z;
  prefilledtxn : list PrefilledTransaction
}.

Record PartiallyDownloadedBlock : Type := mkPartial {
  txn_available : list (option CTransaction);
  prefilled_count : Z;
  mempool_count : Z;
  header : option Z      (* [None] for a null header *)
}.

(** [MAX_BLOCK_SIZE / ::GetSerializeSize(CTransaction(), ...)], from
    [consensus.h] and the serialisation code. *)
Variable max_block_tx_count : Z.

(** [SipHashUint256(k0, k1, txhash)], from [hash.cpp]. *)
Definition KeyedHash : Type := Z -> Z -> Z -> Z.
Variable SipHashUint256 : KeyedHash.

(** [m.bucket(key)] of a [std::unordered_map<uint64_t, uint16_t>] that
    was constructed with [n] buckets asked for and holds at most [n]
    keys. *)
Definition BucketOfKey : Type := nat -> Z -> Z.
Variable unordered_map_bucket : BucketOfKey.

Definition GetShortID (cmpctblock : CBlockHeaderAndShortTxIDs) (txhash : Z) : Z :=
  Z.land (SipHashUint256 (shorttxidk0 cmpctblock) (shorttxidk1 cmpctblock) txhash)
         0xffffffffffff.

Definition BlockTxCount (cmpctblock : CBlockHeaderAndShortTxIDs) : nat :=
  (length (shorttxids cmpctblock) + length (prefilledtxn cmpctblock))%nat.

(** The loop over [prefilledtxn]: the status of an early return, if any,
    and [txn_available]. *)
Fixpoint place_prefilled (nshort : nat) (pre : list PrefilledTransaction) (i : nat)
    (lastprefilledindex : Z) (avail : list (option CTransaction))
  : result (option ReadStatus * list (option CTransaction)) :=
  match pre with
  | [] => Ok (None, avail)
  | p :: pre' =>
      if IsNull_tx (prefilled_tx p) then Ok (Some READ_STATUS_INVALID, avail)
      else
        let last := i32 (lastprefilledindex + (index p + 1)) in
        if 65535 <? last then Ok (Some READ_STATUS_INVALID, avail)
        else if Z.of_nat (nshort + i) <? u32 last
        then Ok (Some READ_STATUS_INVALID, avail)
        else
          (* [txn_available[lastprefilledindex] = ...] *)
          _ ← assert (bool_decide (0 <= last < Z.of_nat (length avail)));
          place_prefilled nshort pre' (S i) last
            (<[Z.to_nat last := Some (prefilled_tx p)]> avail)
      end.

(** [while (txn_available[i + index_offset]) index_offset++;] *)
Fixpoint skip_available (fuel : nat) (avail : list (option CTransaction)) (i : nat)
    (index_offset : Z) : result Z :=
  match avail !! (i + Z.to_nat index_offset)%nat with
  | None => Crash
  | Some None => Ok index_offset
  | Some (Some _) =>
      match fuel with
      | O => Timeout
      | S fuel' => skip_available fuel' avail i (u16 (index_offset + 1))
      end
  end.

Definition bucket_size (nbuckets : nat) (m : gmap Z Z) (key : Z) : nat :=
  length (filter (fun kv => unordered_map_bucket nbuckets (fst kv)
                            = unordered_map_bucket nbuckets key)
                 (map_to_list m)).

(** The loop over [cmpctblock.shorttxids] that fills the local map
    [shorttxids]: [Ok (inl status)] for an early return. *)
Fixpoint index_shorttxids (nbuckets : nat) (avail : list (option CTransaction))
    (ids : list Z) (i : nat) (index_offset : Z) (m : gmap Z Z)
  : result (ReadStatus + gmap Z Z) :=
  match ids with
  | [] => Ok (inr m)
  | id :: ids' =>
      index_offset' ← skip_available (S (length avail)) avail i index_offset;
      let m' := <[id := u16 (Z.of_nat i + index_offset')]> m in
      if (12 <? bucket_size nbuckets m' id)%nat then Ok (inl READ_STATUS_FAILED)
      else index_shorttxids nbuckets avail ids' (S i) index_offset' m'
  end.

(** The loop over [pool->vTxHashes]: [txn_available], [have_txn] and
    [mempool_count]. *)
Fixpoint match_mempool (cmpctblock : CBlockHeaderAndShortTxIDs) (m : gmap Z Z)
    (vTxHashes : list (Z * CTransaction))
    (avail : list (option CTransaction)) (have_txn : list bool) (count : Z)
  : result (list (option CTransaction) * Z) :=
  match vTxHashes with
  | [] => Ok (avail, count)
  | (hash, tx) :: rest =>
      '(avail', have', count') ←
        match m !! GetShortID cmpctblock hash with
        | Some idx =>
            have ← deref (have_txn !! Z.to_nat idx);
            if negb have
            then Ok (<[Z.to_nat idx := Some tx]> avail,
                     <[Z.to_nat idx := true]> have_txn, u64 (count + 1))
            else
              slot ← deref (avail !! Z.to_nat idx);
              match slot with
              | Some _ => Ok (<[Z.to_nat idx := None]> avail, have_txn,
                              u64 (count - 1))
              | None => Ok (avail, have_txn, count)
              end
        | None => Ok (avail, have_txn, count)
        end;
      if count' =? Z.of_nat (size m) then Ok (avail', count')
      else match_mempool cmpctblock m rest avail' have' count'
  end.

(** [InitData(cmpctblock)] on the object [this], with [pool->vTxHashes]:
    the status and the object after the call. *)
Definition InitData (this : PartiallyDownloadedBlock)
    (vTxHashes : list (Z * CTransaction)) (cmpctblock : CBlockHeaderAndShortTxIDs)
  : result (ReadStatus * PartiallyDownloadedBlock) :=
  if cmpct_header_IsNull cmpctblock
     || (bool_decide (shorttxids cmpctblock = [])
         && bool_decide (prefilledtxn cmpctblock = []))
  then Ok (READ_STATUS_INVALID, this)
  else if max_block_tx_count <? Z.of_nat (BlockTxCount cmpctblock)
  then Ok (READ_STATUS_INVALID, this)
  else
    _ ← assert (bool_decide (header this = None)
                && bool_decide (txn_available this = []));
    let hdr := Some (cmpct_header cmpctblock) in
    let avail0 := replicate (BlockTxCount cmpctblock) None in
    let nshort := length (shorttxids cmpctblock) in
    '(early, avail1) ←
      place_prefilled nshort (prefilledtxn cmpctblock) O (-1) avail0;
    match early with
    | Some status =>
        Ok (status, mkPartial avail1 (prefilled_count this) (mempool_count this) hdr)
    | None =>
        let this1 := mkPartial avail1 (Z.of_nat (length (prefilledtxn cmpctblock)))
                       (mempool_count this) hdr in
        indexed ← index_shorttxids nshort avail1 (shorttxids cmpctblock) O 0 ∅;
        match indexed with
        | inl status => Ok (status, this1)
        | inr m =>
            if negb (size m =? nshort)%nat
            then Ok (READ_STATUS_FAILED, this1)   (* Short ID collision *)
            else
              '(avail2, count) ←
                match_mempool cmpctblock m vTxHashes avail1
                  (replicate (length avail1) false) (mempool_count this);
              Ok (READ_STATUS_OK,
                  mkPartial avail2 (prefilled_count this1) count hdr)
        end
    end.

(** ** The block assembler ([miner.cpp]) *)

(** What [miner.cpp] reads of a mempool entry.  It is written against a
    later [txmempool.h] than the [txmempool.cpp] above: entries carry the
    aggregates over their ancestors. *)
Record MinerEntry : Type := mkMinerEntry {
  GetFee : Z;
  GetModifiedFee : Z;
  GetTxSize : Z;
  GetTxWeight : Z;
  GetSigOpCost : Z;
  GetTime : Z;
  GetSerializeSize : Z;
  HasWitness : bool;
  GetCountWithAncestors : Z;
  GetSizeWithAncestors : Z;
  GetModFeesWithAncestors : Z;
  GetSigOpCostWithAncestors : Z
}.

(** [CTxMemPoolModifiedEntry], keyed by the hash of its [iter]. *)
Record CTxMemPoolModifiedEntry : Type := mkModified {
  iter : Z;
  nSizeWithAncestors : Z;
  nModFeesWithAncestors : Z;
  nSigOpCostWithAncestors : Z
}.

Inductive CTransactionRef : Type :=
| NullTx                                   (* [vtx.emplace_back()] *)
| CoinbaseTx (nValue nHeight : Z)
| MempoolTx (txid : Z).

Record WorkingState : Type := mkWorking {
  vtx : list CTransactionRef;
  vTxFees : list Z;
  vTxSigOpsCost : list Z;
  nBlockSize : Z;
  nBlockWeight : Z;
  nBlockTx : Z;
  nBlockSigOpsCost : Z;
  nFees : Z;
  inBlock : gset Z
}.

(** The mempool as [miner.cpp] reads it: [mapTx], its [ancestor_score]
    index from [begin()], and the two graph walks. *)
Variable miner_mapTx : gmap Z MinerEntry.
Variable ancestor_score_index : list Z.
Definition GraphWalk : Type := Z -> gset Z.
(** [CalculateMemPoolAncestors( *it, ancestors, nNoLimit, ..., dummy, false)] *)
Variable miner_ancestors : GraphWalk.
(** [CalculateDescendants(it, descendants)] on an empty set *)
Variable miner_descendants : GraphWalk.

(** From [consensus.h], [miner.h], [main.cpp] and the clock. *)
Variable MAX_BLOCK_WEIGHT : Z.
Variable MAX_BLOCK_SERIALIZED_SIZE : Z.
Variable MAX_BLOCK_SIGOPS_COST : Z.
Definition WITNESS_SCALE_FACTOR : Z := 4.
Definition ModifiedEntryOrder : Type :=
  CTxMemPoolModifiedEntry -> CTxMemPoolModifiedEntry -> bool.
Definition FinalityTest : Type := Z -> Z -> Z -> bool.
Definition SubsidyOfHeight : Type := Z -> Z.
Definition BlockTest : Type := list CTransactionRef -> bool.
Variable CompareModifiedEntry : ModifiedEntryOrder.
Variable IsFinalTx : FinalityTest.
Variable GetTime_now : Z.
Variable GetBlockSubsidy : SubsidyOfHeight.
Variable TestBlockValidity : BlockTest.
(** [WorkingState()]: the size, weight and sigops set aside for the
    coinbase. *)
Variable reserved_size reserved_weight reserved_sigops : Z.

Definition RECENT_TX_THRESHOLD : Z := 10.
Definition MAX_CONSECUTIVE_FAILURES : Z := 1000.

(** The members of a [BlockAssembler]. *)
Record BlockAssembler : Type := mkAssembler {
  blockMinFeeRate : Z;      (* the rate, by its [GetFeePerK()] *)
  nBlockMaxWeight : Z;
  nBlockMaxSize : Z;
  fNeedSizeAccounting : bool;
  nHeight_of : Z;
  nLockTimeCutoff : Z;
  fIncludeWitness : bool
}.

(** [BlockAssembler(params, options)]; [nHeight], [nLockTimeCutoff] and
    [fIncludeWitness] are set by [CreateNewBlock]. *)
Definition newBlockAssembler (opt_blockMinFeeRate opt_nBlockMaxWeight opt_nBlockMaxSize : Z)
  : BlockAssembler :=
  let maxWeight := Z.max 4000 (Z.min (MAX_BLOCK_WEIGHT - 4000) opt_nBlockMaxWeight) in
  let maxSize := Z.max 1000 (Z.min (MAX_BLOCK_SERIALIZED_SIZE - 1000) opt_nBlockMaxSize) in
  mkAssembler opt_blockMinFeeRate maxWeight maxSize
    (maxSize <? MAX_BLOCK_SERIALIZED_SIZE - 1000) 0 0 false.

Definition onlyUnconfirmed (workState : WorkingState) (testSet : gset Z) : gset Z :=
  testSet ∖ inBlock workState.

Definition TestPackage (ba : BlockAssembler) (workState : WorkingState)
    (packageSize packageSigOpsCost : Z) : bool :=
  if nBlockMaxWeight ba <=? u64 (nBlockWeight workState
                                 + WITNESS_SCALE_FACTOR * packageSize)
  then false
  else if MAX_BLOCK_SIGOPS_COST <=? nBlockSigOpsCost workState + packageSigOpsCost
  then false
  else true.

Fixpoint TestPackageTransactions_from (ba : BlockAssembler) (package : list Z)
    (nPotentialBlockSize : Z) : result bool :=
  match package with
  | [] => Ok true
  | h :: package' =>
      it ← deref (miner_mapTx !! h);
      if negb (IsFinalTx h (nHeight_of ba) (nLockTimeCutoff ba)) then Ok false
      else if negb (fIncludeWitness ba) && HasWitness it then Ok false
      else if fNeedSizeAccounting ba then
        if nBlockMaxSize ba <=? u64 (nPotentialBlockSize + GetSerializeSize it)
        then Ok false
        else TestPackageTransactions_from ba package'
               (u64 (nPotentialBlockSize + GetSerializeSize it))
      else TestPackageTransactions_from ba package' nPotentialBlockSize
  end.

Definition TestPackageTransactions (ba : BlockAssembler) (workState : WorkingState)
    (package : gset Z) : result bool :=
  TestPackageTransactions_from ba (sorted_elements package) (nBlockSize workState).

Definition AddToBlock (ba : BlockAssembler) (workState : WorkingState) (h : Z)
  : result WorkingState :=
  it ← deref (miner_mapTx !! h);
  Ok (mkWorking (vtx workState ++ [MempoolTx h])
        (vTxFees workState ++ [GetFee it])
        (vTxSigOpsCost workState ++ [GetSigOpCost it])
        (if fNeedSizeAccounting ba
         then u64 (nBlockSize workState + GetSerializeSize it)
         else nBlockSize workState)
        (u64 (nBlockWeight workState + GetTxWeight it))
        (u64 (nBlockTx workState + 1))
        (i64 (nBlockSigOpsCost workState + GetSigOpCost it))
        (i64 (nFees workState + GetFee it))
        ({[h]} ∪ inBlock workState)).

(** Modelled from the spec: [update_for_parent_inclusion] is declared in
    [miner.h], which is not among the sources.  By step 8 of 4.E an entry
    that is already in [modified_tx] is mutated in place to the same
    effect as at insertion: the contributions of the added ancestor are
    taken off. *)
Definition update_for_parent_inclusion (it : MinerEntry)
    (e : CTxMemPoolModifiedEntry) : CTxMemPoolModifiedEntry :=
  mkModified (iter e)
    (u64 (nSizeWithAncestors e - GetTxSize it))
    (i64 (nModFeesWithAncestors e - GetModifiedFee it))
    (i64 (nSigOpCostWithAncestors e - GetSigOpCost it)).

(** [CTxMemPoolModifiedEntry(entry)] *)
Definition newModifiedEntry (h : Z) (e : MinerEntry) : CTxMemPoolModifiedEntry :=
  mkModified h (GetSizeWithAncestors e) (GetModFeesWithAncestors e)
    (GetSigOpCostWithAncestors e).

Definition UpdatePackagesForAdded (alreadyAdded : gset Z)
    (mapModifiedTx : gmap Z CTxMemPoolModifiedEntry)
  : result (gmap Z CTxMemPoolModifiedEntry * Z) :=
  foreach (fun acc h =>
     it ← deref (miner_mapTx !! h);
     foreach (fun '(m, nDescendantsUpdated) desc =>
        if decide (desc ∈ alreadyAdded) then Ok (m, nDescendantsUpdated)
        else
          match m !! desc with
          | None =>
              d ← deref (miner_mapTx !! desc);
              Ok (<[desc := update_for_parent_inclusion it (newModifiedEntry desc d)]> m,
                  i32 (nDescendantsUpdated + 1))
          | Some mit =>
              Ok (<[desc := update_for_parent_inclusion it mit]> m,
                  i32 (nDescendantsUpdated + 1))
          end)
       (sorted_elements (miner_descendants h)) acc)
    (sorted_elements alreadyAdded) (mapModifiedTx, 0).

Definition SkipMapTxEntry (workState : WorkingState) (h : Z)
    (mapModifiedTx : gmap Z CTxMemPoolModifiedEntry) (failedTx : gset Z)
    (fOnlyOlderTransactions : bool) : result bool :=
  it ← deref (miner_mapTx !! h);
  if bool_decide (is_Some (mapModifiedTx !! h))
     || bool_decide (h ∈ inBlock workState) || bool_decide (h ∈ failedTx)
  then Ok true
  else if fOnlyOlderTransactions && (GetTime_now - RECENT_TX_THRESHOLD <? GetTime it)
  then Ok true
  else Ok false.

(** Modelled from the spec: [CompareTxIterByAncestorCount] is declared in
    [miner.h].  By step 7 of 4.E the members are sorted by ancestor count
    ascending; entries with the same count are ordered by hash, as every
    [txiter] comparison is. *)
Definition by_ancestor_count (a b : Z * Z) : Prop :=
  fst a < fst b ∨ (fst a = fst b ∧ snd a <= snd b).

#[local] Instance by_ancestor_count_dec a b : Decision (by_ancestor_count a b).
Proof. unfold by_ancestor_count. apply _. Defined.

Definition SortForBlock (package : gset Z) : result (list Z) :=
  keyed ← foreach (fun acc h =>
                     it ← deref (miner_mapTx !! h);
                     Ok (acc ++ [(GetCountWithAncestors it, h)]))
            (sorted_elements package) [];
  Ok (map snd (merge_sort by_ancestor_count keyed)).

(** [mapModifiedTx.get<ancestor_score>().begin()] *)
Definition best_modified (m : gmap Z CTxMemPoolModifiedEntry)
  : option CTxMemPoolModifiedEntry :=
  fold_left (fun best e =>
               match best with
               | None => Some e
               | Some b => if CompareModifiedEntry e b then Some e else Some b
               end)
    (map snd (map_to_list m)) None.

(** The locals and reference parameters of [addPackageTxs]. *)
Record PackageState : Type := mkPackages {
  mi : list Z;
  mapModifiedTx : gmap Z CTxMemPoolModifiedEntry;
  failedTx : gset Z;
  nConsecutiveFailed : Z;
  workState_of : WorkingState;
  nPackagesSelected : Z;
  nDescendantsUpdated : Z
}.

(** The entry a modified package stands for failed: erase it and remember
    it, if the modified view was used. *)
Definition drop_failed (fUsingModified : bool) (h : Z) (s : PackageState)
    (mi' : list Z) (failed : Z) : PackageState :=
  mkPackages mi'
    (if fUsingModified then delete h (mapModifiedTx s) else mapModifiedTx s)
    (if fUsingModified then {[h]} ∪ failedTx s else failedTx s)
    failed (workState_of s) (nPackagesSelected s) (nDescendantsUpdated s).

(** The [while] loop of [addPackageTxs]. *)
Fixpoint addPackageTxs_loop (fuel : nat) (ba : BlockAssembler)
    (fIncludeRecentTransactions : bool) (s : PackageState) : result PackageState :=
  if bool_decide (mi s = []) && bool_decide (mapModifiedTx s = ∅) then Ok s
  else
    match fuel with
    | O => Timeout
    | S fuel' =>
        skip ← match mi s with
               | h :: _ => SkipMapTxEntry (workState_of s) h (mapModifiedTx s)
                             (failedTx s) (negb fIncludeRecentTransactions)
               | [] => Ok false
               end;
        if (skip : bool) then
          addPackageTxs_loop fuel' ba fIncludeRecentTransactions
            (mkPackages (tail (mi s)) (mapModifiedTx s) (failedTx s)
               (nConsecutiveFailed s) (workState_of s) (nPackagesSelected s)
               (nDescendantsUpdated s))
        else
          let modit := best_modified (mapModifiedTx s) in
          (* the package to consider, whether it is the modified one, and [mi] *)
          '(h, fUsingModified, mi') ←
            match mi s with
            | [] => m ← deref modit; Ok (iter m, true, [])
            | h :: rest =>
                e ← deref (miner_mapTx !! h);
                match modit with
                | Some m =>
                    if CompareModifiedEntry m (newModifiedEntry h e)
                    then Ok (iter m, true, mi s)
                    else Ok (h, false, rest)
                | None => Ok (h, false, rest)
                end
            end;
          _ ← assert (negb (bool_decide (h ∈ inBlock (workState_of s))));
          it ← deref (miner_mapTx !! h);
          '(packageSize, packageFees, packageSigOpsCost) ←
            (if (fUsingModified : bool) then
               m ← deref modit;
               Ok (nSizeWithAncestors m, nModFeesWithAncestors m,
                   nSigOpCostWithAncestors m)
             else Ok (GetSizeWithAncestors it, GetModFeesWithAncestors it,
                      GetSigOpCostWithAncestors it));
          if packageFees <? CFeeRate_GetFee (blockMinFeeRate ba) packageSize
          then Ok (mkPackages mi' (mapModifiedTx s) (failedTx s)
                     (nConsecutiveFailed s) (workState_of s)
                     (nPackagesSelected s) (nDescendantsUpdated s))
          else if negb (TestPackage ba (workState_of s) packageSize packageSigOpsCost)
          then
            let failed := i64 (nConsecutiveFailed s + 1) in
            let s' := drop_failed fUsingModified h s mi' failed in
            if (MAX_CONSECUTIVE_FAILURES <? failed)
               && (u64 (nBlockMaxWeight ba - 4000) <? nBlockWeight (workState_of s))
            then Ok s'
            else addPackageTxs_loop fuel' ba fIncludeRecentTransactions s'
          else
            let ancestors :=
              {[h]} ∪ onlyUnconfirmed (workState_of s) (miner_ancestors h) in
            final ← TestPackageTransactions ba (workState_of s) ancestors;
            if negb final
            then addPackageTxs_loop fuel' ba fIncludeRecentTransactions
                   (drop_failed fUsingModified h s mi' (nConsecutiveFailed s))
            else
              sortedEntries ← SortForBlock ancestors;
              '(ws', modified') ←
                foreach (fun '(ws, m) e =>
                           ws' ← AddToBlock ba ws e;
                           Ok (ws', delete e m))
                  sortedEntries (workState_of s, mapModifiedTx s);
              '(modified'', updated) ← UpdatePackagesForAdded ancestors modified';
              addPackageTxs_loop fuel' ba fIncludeRecentTransactions
                (mkPackages mi' modified'' (failedTx s) 0 ws'
                   (i32 (nPackagesSelected s + 1))
                   (i32 (nDescendantsUpdated s + updated)))
    end.

(** The fuel of the loop.  A round moves [mi] on, or takes an entry out
    of [mapModifiedTx], or adds to the block; the theorem below needs one
    round only. *)
Definition addPackageTxs_fuel : nat :=
  let n := S (size miner_mapTx) in S (2 * n * n).

Definition addPackageTxs (ba : BlockAssembler) (workState : WorkingState)
    (nPackagesSelected nDescendantsUpdated : Z) (fIncludeRecentTransactions : bool)
    (mapModifiedTx : gmap Z CTxMemPoolModifiedEntry) : result PackageState :=
  addPackageTxs_loop addPackageTxs_fuel ba fIncludeRecentTransactions
    (mkPackages ancestor_score_index mapModifiedTx ∅ 0 workState
       nPackagesSelected nDescendantsUpdated).

(** [CBlockTemplate], without the header. *)
Record CBlockTemplate : Type := mkTemplate {
  block_vtx : list CTransactionRef;
  template_vTxFees : list Z;
  template_vTxSigOpsCost : list Z
}.

(** [CreateNewBlock(scriptPubKeyIn, fMineWitnessTx)] at a tip of height
    [tipHeight]; [lockTimeCutoff] is the median time past or the block
    time, [witnessEnabled] is [IsWitnessEnabled(pindexPrev, ...)], and
    [coinbaseSigOps] is [GetLegacySigOpCount] of the coinbase.  A
    [TestBlockValidity] that fails throws, which is fatal. *)
Definition CreateNewBlock (ba : BlockAssembler) (tipHeight lockTimeCutoff : Z)
    (witnessEnabled fMineWitnessTx : bool) (coinbaseSigOps : Z)
  : result CBlockTemplate :=
  let workState := mkWorking [NullTx] [-1] [-1] reserved_size reserved_weight 0
                     reserved_sigops 0 ∅ in
  let nHeight := i32 (tipHeight + 1) in
  let ba' := mkAssembler (blockMinFeeRate ba) (nBlockMaxWeight ba) (nBlockMaxSize ba)
               (fNeedSizeAccounting ba) nHeight lockTimeCutoff
               (witnessEnabled && fMineWitnessTx) in
  s ← addPackageTxs ba' workState 0 0 true ∅;
  let ws := workState_of s in
  let coinbaseTx := CoinbaseTx (i64 (nFees ws + GetBlockSubsidy nHeight)) nHeight in
  let vtx' := <[O := coinbaseTx]> (vtx ws) in
  let fees' := <[O := i64 (- nFees ws)]> (vTxFees ws) in
  let sigops' := <[O := i64 (WITNESS_SCALE_FACTOR * coinbaseSigOps)]>
                   (vTxSigOpsCost ws) in
  _ ← assert (TestBlockValidity vtx');
  Ok (mkTemplate vtx' fees' sigops').
(** ** A small pool

    Transaction [tA] spends a confirmed output, [tB] spends the first
    output of [tA] and [tD] the second; [tC] spends another confirmed
    output.  The sizes are those of a typical one-input
    transaction; the node usages are what a 64-bit allocator gives. *)

Definition tA : CTransaction := mkCTransaction 1 [(100, 0)] [50; 50].
Definition tB : CTransaction := mkCTransaction 2 [(1, 0)] [40].
Definition tC : CTransaction := mkCTransaction 3 [(101, 0)] [10].
Definition tD : CTransaction := mkCTransaction 4 [(1, 1)] [40].

Definition eA : CTxMemPoolEntry := newEntry tA 1000 0 dzero 1 true 250 250 300.
Definition eB : CTxMemPoolEntry := newEntry tB 2000 0 dzero 1 false 250 250 300.
Definition eC : CTxMemPoolEntry := newEntry tC 5000 0 dzero 1 true 250 250 300.
Definition eD : CTxMemPoolEntry := newEntry tD 10000 0 dzero 1 false 250 250 300.

(** [eA] once [eB] is counted among its descendants *)
Definition eA_with_child : CTxMemPoolEntry := with_descendants eA 2 500 3000.

Definition empty_pool : CTxMemPool := mkPool ∅ ∅ ∅ ∅ 0 0 0.

(** The pool that holds [tA] alone. *)
Definition pool_A : CTxMemPool :=
  mkPool {[1 := eA]} {[1 := noLinks]} {[(100, 0) := (1, 0)]} ∅ 250 300 1.

(** The pool that holds [tA] and [tB]. *)
Definition pool_AB : CTxMemPool :=
  mkPool (<[1 := eA_with_child]> {[2 := eB]})
    (<[1 := mkLinks ∅ {[2]}]> {[2 := mkLinks {[1]} ∅]})
    (<[(100, 0) := (1, 0)]> {[(1, 0) := (2, 0)]})
    ∅ 500 696 2.

(** The pool that holds [tA] and the unrelated [tC]. *)
Definition pool_AC : CTxMemPool :=
  mkPool (<[1 := eA]> {[3 := eC]})
    (<[1 := noLinks]> {[3 := noLinks]})
    (<[(100, 0) := (1, 0)]> {[(101, 0) := (3, 0)]})
    ∅ 500 600 2.

(** [pool_A] with a fee delta of 500 registered for [tA]. *)
Definition pool_A_prioritised : CTxMemPool :=
  mkPool {[1 := eA]} {[1 := noLinks]} {[(100, 0) := (1, 0)]}
    {[1 := (dzero, 500)]} 250 300 1.

(** An index of [mapTx]: the entries in the order of their hashes. *)
Definition by_hash (m : gmap Z CTxMemPoolEntry) : list CTxMemPoolEntry :=
  (fun h => default eA (m !! h)) <$> sorted_elements (dom m).

(** A fee rate in satoshis per 1000 bytes. *)
Definition fee_per_k (rate size : Z) : Z := rate * size / 1000.
(** ** More of [txmempool.cpp] *)

(** [exists(hash)], from [txmempool.h]: [mapTx.count(hash) != 0]. *)
Definition exists_tx (pool : CTxMemPool) (hash : Z) : bool :=
  bool_decide (is_Some (mapTx pool !! hash)).

(** [HasNoInputsOf(tx)] *)
Fixpoint HasNoInputsOf_from (pool : CTxMemPool) (ins : list COutPoint) : bool :=
  match ins with
  | [] => true
  | prevout :: ins' =>
      if exists_tx pool (outpoint_hash prevout) then false
      else HasNoInputsOf_from pool ins'
  end.

Definition HasNoInputsOf (pool : CTxMemPool) (tx : CTransaction) : bool :=
  HasNoInputsOf_from pool (vin tx).

(** ** More of [blockencodings.cpp] *)

(** [CheckBlock(block, state, ...)] from [main.cpp]: whether the block
    is valid and, if not, [state.CorruptionPossible()]. *)
Definition BlockCheck : Type := Z -> list (option CTransaction) -> bool * bool.
Variable CheckBlock : BlockCheck.

(** [FillShortTxIDSelector()]: the two keys, from the SHA256 of the header
    and the nonce ([hash.h]). *)
Definition ShortIDSelector : Type := Z -> Z -> Z * Z.
Variable ShortTxIDSelector : ShortIDSelector.

(** [CBlockHeaderAndShortTxIDs(block)] for a block with the header
    [header_hash] (null or not) and the transactions [vtx], with [rand]
    what [GetRand] returned.  [block.vtx[0]] of an empty [vtx] is out of
    range. *)
Definition newCBlockHeaderAndShortTxIDs (header_IsNull : bool) (header_hash : Z)
    (vtx : list CTransaction) (rand : Z) : result CBlockHeaderAndShortTxIDs :=
  coinbase ← deref (head vtx);
  let k := ShortTxIDSelector header_hash rand in
  let this := mkCmpct header_IsNull header_hash (fst k) (snd k) rand [] [] in
  Ok (mkCmpct header_IsNull header_hash (fst k) (snd k) rand
        (map (fun tx => GetShortID this (GetHash tx)) (tail vtx))
        [mkPrefilled 0 coinbase]).

(** The loop of [FillBlock] from slot [i] on: whether it ran to the end,
    the slots of [block.vtx] it has assigned, and what is left of
    [vtx_missing] from [tx_missing_offset]. *)
Fixpoint fill_slots (avail : list (option CTransaction))
    (missing : list CTransaction) : bool * list (option CTransaction) * list CTransaction :=
  match avail with
  | [] => (true, [], missing)
  | Some tx :: avail' =>
      let '(ok, vtx, rest) := fill_slots avail' missing in
      (ok, Some tx :: vtx, rest)
  | None :: avail' =>
      match missing with
      | [] => (false, replicate (S (length avail')) None, [])
      | tx :: missing' =>
          let '(ok, vtx, rest) := fill_slots avail' missing' in
          (ok, Some tx :: vtx, rest)
      end
  end.

(** [FillBlock(block, vtx_missing)]: the status and [block.vtx], where a
    slot that was not assigned is [None]. *)
Definition FillBlock (this : PartiallyDownloadedBlock)
    (vtx_missing : list CTransaction)
  : result (ReadStatus * list (option CTransaction)) :=
  hdr ← deref (header this);
  let '(ok, vtx, rest) := fill_slots (txn_available this) vtx_missing in
  if negb ok then Ok (READ_STATUS_INVALID, vtx)
  else if negb (bool_decide (rest = [])) then Ok (READ_STATUS_INVALID, vtx)
  else
    let '(valid, corruption) := CheckBlock hdr vtx in
    if negb valid then
      if (corruption : bool) then Ok (READ_STATUS_FAILED, vtx)
      else Ok (READ_STATUS_INVALID, vtx)
    else Ok (READ_STATUS_OK, vtx).

(** ** [UpdateForDescendants] and [UpdateTransactionsFromBlock] *)

(** A loop whose body can leave the function with [return false]:
    [None]. *)
Fixpoint foreach_until {A S : Type} (f : S -> A -> result (option S)) (l : list A)
    (s : S) : result (option S) :=
  match l with
  | [] => Ok (Some s)
  | a :: l' =>
      r ← f s a;
      match r with
      | None => Ok None
      | Some s' => foreach_until f l' s'
      end
  end.

(** [cacheMap]: [std::map<txiter, setEntries, CompareIteratorByHash>] *)
Definition cacheMap : Type := gmap Z (gset Z).

(** The locals that the loops of [UpdateForDescendants] change. *)
Record VisitState : Type := mkVisit {
  setAllDescendants : gset Z;
  entriesToAdd : gset Z;
  nChildrenToVisit : Z       (* int *)
}.

(** The loop over [cacheIt->second]. *)
Definition visit_cached (pool : CTxMemPool) (setExclude : gset Z) (cached : gset Z)
    (st : VisitState) : result VisitState :=
  foreach (fun st cacheEntry =>
             if decide (cacheEntry ∈ setAllDescendants st) then Ok st
             else
               let all := {[cacheEntry]} ∪ setAllDescendants st in
               e ← deref (mapTx pool !! cacheEntry);
               if negb (bool_decide (GetHash (GetTx e) ∈ setExclude))
                  && negb (bool_decide (cacheEntry ∈ entriesToAdd st))
               then Ok (mkVisit all (entriesToAdd st) (i32 (nChildrenToVisit st + 1)))
               else Ok (mkVisit all (entriesToAdd st) (nChildrenToVisit st)))
    (sorted_elements cached) st.

(** The body of the loop over [setChildren], up to the test of
    [nChildrenToVisit]. *)
Definition visit_child (pool : CTxMemPool) (cachedDescendants : cacheMap)
    (setExclude : gset Z) (st : VisitState) (childEntry : Z) : result VisitState :=
  match cachedDescendants !! childEntry with
  | Some cached => visit_cached pool setExclude cached st
  | None =>
      if decide (childEntry ∈ setAllDescendants st) then Ok st
      else if decide (childEntry ∈ entriesToAdd st) then Ok st
      else
        let toAdd := {[childEntry]} ∪ entriesToAdd st in
        e ← deref (mapTx pool !! childEntry);
        if negb (bool_decide (GetHash (GetTx e) ∈ setExclude))
        then Ok (mkVisit (setAllDescendants st) toAdd (i32 (nChildrenToVisit st + 1)))
        else Ok (mkVisit (setAllDescendants st) toAdd (nChildrenToVisit st))
  end.

(** The loop over [stageEntries]. *)
Definition visit_stage (pool : CTxMemPool) (maxDescendantsToVisit : Z)
    (cachedDescendants : cacheMap) (setExclude : gset Z) (stageEntries : gset Z)
    (st : VisitState) : result (option VisitState) :=
  foreach_until
    (fun st cit =>
       e ← deref (mapTx pool !! cit);
       if IsDirty e then Ok None
       else
         setChildren ← GetMemPoolChildren pool cit;
         foreach_until
           (fun st childEntry =>
              st' ← visit_child pool cachedDescendants setExclude st childEntry;
              if maxDescendantsToVisit <? nChildrenToVisit st' then Ok None
              else Ok (Some st'))
           (sorted_elements setChildren) st)
    (sorted_elements stageEntries) st.

(** The [while] loop of [UpdateForDescendants]: [setAllDescendants], or
    [None] for [return false]. *)
Fixpoint all_descendants (fuel : nat) (pool : CTxMemPool) (maxDescendantsToVisit : Z)
    (cachedDescendants : cacheMap) (setExclude : gset Z) (stageEntries : gset Z)
    (all : gset Z) (n : Z) : result (option (gset Z)) :=
  if decide (stageEntries = ∅) then Ok (Some all)
  else
    match fuel with
    | O => Timeout
    | S fuel' =>
        r ← visit_stage pool maxDescendantsToVisit cachedDescendants setExclude
              stageEntries (mkVisit (stageEntries ∪ all) ∅ n);
        match r with
        | None => Ok None
        | Some st =>
            all_descendants fuel' pool maxDescendantsToVisit cachedDescendants
              setExclude (entriesToAdd st) (setAllDescendants st) (nChildrenToVisit st)
        end
    end.

(** The last loop of [UpdateForDescendants]: [modifySize], [modifyFee],
    [modifyCount] and [cachedDescendants]. *)
Definition sum_descendants (pool : CTxMemPool) (updateIt : Z) (setExclude : gset Z)
    (all : gset Z) (cachedDescendants : cacheMap) : result (Z * Z * Z * cacheMap) :=
  foreach (fun '(modifySize, modifyFee, modifyCount, cache) cit =>
             e ← deref (mapTx pool !! cit);
             if bool_decide (GetHash (GetTx e) ∈ setExclude)
             then Ok (modifySize, modifyFee, modifyCount, cache)
             else Ok (i64 (modifySize + nTxSize e), i64 (modifyFee + nFee e),
                      i64 (modifyCount + 1),
                      <[updateIt := {[cit]} ∪ default ∅ (cache !! updateIt)]> cache))
    (sorted_elements all) (0, 0, 0, cachedDescendants).

(** [UpdateForDescendants(updateIt, maxDescendantsToVisit,
    cachedDescendants, setExclude)]: what it returns, the pool and the
    cache.  A stage has entries that no earlier stage had, so there are
    no more stages than entries. *)
Definition UpdateForDescendants (pool : CTxMemPool) (updateIt : Z)
    (maxDescendantsToVisit : Z) (cachedDescendants : cacheMap) (setExclude : gset Z)
  : result (bool * CTxMemPool * cacheMap) :=
  stageEntries ← GetMemPoolChildren pool updateIt;
  r ← all_descendants (S (size (mapTx pool))) pool maxDescendantsToVisit
        cachedDescendants setExclude stageEntries ∅ 0;
  match r with
  | None => Ok (false, pool, cachedDescendants)
  | Some all =>
      '(modifySize, modifyFee, modifyCount, cache') ←
        sum_descendants pool updateIt setExclude all cachedDescendants;
      pool' ← modify_descendant_state modifySize modifyFee modifyCount pool updateIt;
      Ok (true, pool', cache')
  end.

(** The loop over the spenders of [hash] in [mapNextTx].  A spender that
    is not in [mapTx] gives the end iterator, which the sets cannot
    order. *)
Definition link_children (setAlreadyIncluded : gset Z) (hash : Z)
    (spenders : list CInPoint) (pool : CTxMemPool) : result (CTxMemPool * gset Z) :=
  foreach (fun '(p, setChildren) (spender : CInPoint) =>
             let childHash := fst spender in
             _ ← deref (mapTx p !! childHash);
             if decide (childHash ∈ setChildren) then Ok (p, setChildren)
             else if decide (childHash ∈ setAlreadyIncluded)
             then Ok (p, {[childHash]} ∪ setChildren)
             else Ok (UpdateParent (UpdateChild p hash childHash true)
                        childHash hash true,
                      {[childHash]} ∪ setChildren))
    spenders (pool, ∅).

(** [UpdateTransactionsFromBlock(vHashesToUpdate)] *)
Definition UpdateTransactionsFromBlock (pool : CTxMemPool) (vHashesToUpdate : list Z)
  : result CTxMemPool :=
  let setAlreadyIncluded : gset Z := list_to_set vHashesToUpdate in
  r ← foreach (fun '(pool, cache) hash =>
                 match mapTx pool !! hash with
                 | None => Ok (pool, cache)
                 | Some _ =>
                     '(pool1, _) ← link_children setAlreadyIncluded hash
                                     (spenders_of (mapNextTx pool) hash) pool;
                     '(ok, pool2, cache') ←
                       UpdateForDescendants pool1 hash 100 cache setAlreadyIncluded;
                     if (ok : bool) then Ok (pool2, cache')
                     else
                       e ← deref (mapTx pool2 !! hash);
                       Ok (set_mapTx (insert hash (SetDirty e)) pool2, cache')
                 end)
        (rev vHashesToUpdate) (pool, (∅ : cacheMap));
  Ok (fst r).

(** * Properties *)

(** ** Entries: the dirty flag *)

Lemma with_descendants_id (e : CTxMemPoolEntry) :
  with_descendants e (nCountWithDescendants e) (nSizeWithDescendants e)
    (nFeesWithDescendants e) = e.
Proof. by destruct e. Qed.

Lemma SetDirty_IsDirty (e : CTxMemPoolEntry) : IsDirty (SetDirty e) = true.
Proof. reflexivity. Qed.

Lemma UpdateState_dirty (e : CTxMemPoolEntry) (modifySize modifyFee modifyCount : Z) :
  IsDirty e = true -> UpdateState e modifySize modifyFee modifyCount = e.
Proof. unfold UpdateState. by intros ->. Qed.

(** C3 (as the code has it).  [SetDirty] raises the flag by storing a
    descendant count of 0, not 1, and stores the entry's own size and fee
    as the descendant size and fees; nothing else of the entry changes.
    The three values then stay: any sequence of [UpdateState] calls
    leaves the entry as [SetDirty] left it. *)
Theorem SetDirty_aggregates (e : CTxMemPoolEntry) :
  IsDirty (SetDirty e) = true
  /\ nCountWithDescendants (SetDirty e) = 0
  /\ nSizeWithDescendants (SetDirty e) = nTxSize e
  /\ nFeesWithDescendants (SetDirty e) = nFee e
  /\ nTxSize (SetDirty e) = nTxSize e
  /\ nFee (SetDirty e) = nFee e
  /\ GetTx (SetDirty e) = GetTx e
  /\ forall updates : list (Z * Z * Z),
       fold_left (fun e' '(modifySize, modifyFee, modifyCount) =>
                    UpdateState e' modifySize modifyFee modifyCount)
         updates (SetDirty e)
       = SetDirty e.
Proof.
  do 7 (split; [reflexivity|]).
  intros updates. induction updates as [|[[ms mf] mc] updates IH]; [done|].
  cbn [fold_left]. by rewrite UpdateState_dirty.
Qed.

(** C3 as stated fails on [eA]: once [SetDirty] has run the entry is
    dirty, and its descendant count is 0, not 1. *)
Lemma dirty_count_is_not_one :
  IsDirty (SetDirty eA) = true
  /\ nCountWithDescendants (SetDirty eA) = 0
  /\ nCountWithDescendants (SetDirty eA) <> 1.
Proof. repeat split. discriminate. Qed.

(** C10.  On a dirty entry [UpdateState] changes nothing, whatever the
    arguments and however often it is called: the descendant aggregates
    stay at the values [SetDirty] stored. *)
Theorem UpdateState_dirty_frozen (e : CTxMemPoolEntry) (updates : list (Z * Z * Z)) :
  IsDirty e = true ->
  fold_left (fun e' '(modifySize, modifyFee, modifyCount) =>
               UpdateState e' modifySize modifyFee modifyCount) updates e = e
  /\ forall modifySize modifyFee modifyCount,
       nSizeWithDescendants (UpdateState e modifySize modifyFee modifyCount)
         = nSizeWithDescendants e
       /\ nFeesWithDescendants (UpdateState e modifySize modifyFee modifyCount)
            = nFeesWithDescendants e
       /\ nCountWithDescendants (UpdateState e modifySize modifyFee modifyCount)
            = nCountWithDescendants e.
Proof.
  intros Hdirty. split.
  - induction updates as [|[[ms mf] mc] updates IH]; [done|].
    cbn [fold_left]. by rewrite UpdateState_dirty.
  - intros ms mf mc. by rewrite UpdateState_dirty.
Qed.

Lemma UpdateState_after_SetDirty (e : CTxMemPoolEntry) (ms mf mc : Z) :
  UpdateState (SetDirty e) ms mf mc = SetDirty e.
Proof. apply UpdateState_dirty, SetDirty_IsDirty. Qed.

(** ** Runs *)

Lemma Ok_bind {A B : Type} (a : A) (k : A -> result B) : Ok a ≫= k = k a.
Proof. reflexivity. Qed.

Lemma bind_Ok {A B : Type} (r : result A) (k : A -> result B) (b : B) :
  r ≫= k = Ok b -> exists a, r = Ok a /\ k a = Ok b.
Proof. destruct r as [a| |]; [ by exists a | done | done ]. Qed.

Lemma bind_Timeout {A B : Type} (r : result A) (k : A -> result B) :
  r ≫= k = Timeout -> r = Timeout \/ exists a, r = Ok a /\ k a = Timeout.
Proof. destruct r as [a| |]; [ right; by exists a | done | by left ]. Qed.

Lemma deref_Ok {A : Type} (o : option A) (a : A) : deref o = Ok a -> o = Some a.
Proof. destruct o; [intros [= ->] | ]; done. Qed.

Lemma deref_not_Timeout {A : Type} (o : option A) : deref o <> Timeout.
Proof. by destruct o. Qed.

Lemma assert_Ok (c : bool) (u : unit) : assert c = Ok u -> c = true.
Proof. by destruct c. Qed.

Lemma assert_not_Timeout (c : bool) : assert c <> Timeout.
Proof. by destruct c. Qed.

Lemma Ok_inj {A : Type} (a b : A) : Ok a = Ok b -> a = b.
Proof. by intros [= ->]. Qed.

(** Take a run that returned apart into the runs of its steps. *)
Ltac inv_run H :=
  repeat match type of H with
  | _ ≫= _ = Ok _ =>
      let a := fresh "a" in
      let Ha := fresh "Hrun" in
      apply bind_Ok in H as (a & Ha & H)
  | (let '(_, _) := ?p in _) = Ok _ => destruct p
  | Ok _ = Ok _ => apply Ok_inj in H
  | Crash = Ok _ => discriminate H
  | Timeout = Ok _ => discriminate H
  end.

Lemma foreach_inv {A S : Type} (P : S -> Prop) (f : S -> A -> result S)
    (l : list A) (s s' : S) :
  (forall s1 a s2, a ∈ l -> P s1 -> f s1 a = Ok s2 -> P s2) ->
  P s -> foreach f l s = Ok s' -> P s'.
Proof.
  revert s. induction l as [|a l IH]; intros s Hf Hs Hrun; cbn in Hrun.
  - by injection Hrun as <-.
  - apply bind_Ok in Hrun as (s1 & Hstep & Hrun).
    eapply IH; [ | | exact Hrun].
    + intros s2 b s3 Hb. apply Hf. by right.
    + eapply Hf; [ by left | exact Hs | exact Hstep ].
Qed.

Lemma foreach_not_Timeout {A S : Type} (f : S -> A -> result S) (l : list A) (s : S) :
  (forall s1 a, a ∈ l -> f s1 a <> Timeout) -> foreach f l s <> Timeout.
Proof.
  revert s. induction l as [|a l IH]; intros s Hf Hrun; cbn in Hrun; [done|].
  apply bind_Timeout in Hrun as [Hrun | (s1 & _ & Hrun)].
  - eapply Hf; [ by left | exact Hrun ].
  - eapply IH; [ | exact Hrun ]. intros s2 b Hb. apply Hf. by right.
Qed.

Lemma foreach_app {A S : Type} (f : S -> A -> result S) (l1 l2 : list A) (s : S) :
  foreach f (l1 ++ l2) s = foreach f l1 s ≫= foreach f l2.
Proof.
  revert s. induction l1 as [|a l1 IH]; intros s; cbn; [done|].
  destruct (f s a); cbn; [apply IH | done | done].
Qed.

(** ** The iteration order of a set *)

Lemma elem_of_sorted_elements (s : gset Z) (x : Z) : x ∈ sorted_elements s <-> x ∈ s.
Proof.
  unfold sorted_elements. rewrite merge_sort_Permutation. apply elem_of_elements.
Qed.

Lemma NoDup_sorted_elements (s : gset Z) : NoDup (sorted_elements s).
Proof.
  unfold sorted_elements. rewrite merge_sort_Permutation. apply NoDup_elements.
Qed.

Lemma sorted_elements_Permutation (s : gset Z) : sorted_elements s ≡ₚ elements s.
Proof. apply merge_sort_Permutation. Qed.

Lemma sorted_elements_empty : sorted_elements ∅ = [].
Proof. reflexivity. Qed.

Lemma length_sorted_elements (s : gset Z) : length (sorted_elements s) = size s.
Proof. unfold sorted_elements. by rewrite merge_sort_Permutation. Qed.

Lemma sorted_elements_singleton (x : Z) : sorted_elements {[x]} = [x].
Proof.
  apply Permutation_singleton_r.
  rewrite sorted_elements_Permutation. by rewrite elements_singleton.
Qed.

(** ** The prioritisation map is outside every removal *)

Lemma mapDeltas_UpdateChild pool entry child add :
  mapDeltas (UpdateChild pool entry child add) = mapDeltas pool.
Proof. unfold UpdateChild. destruct add; case_decide; reflexivity. Qed.

Lemma mapDeltas_UpdateParent pool entry parent add :
  mapDeltas (UpdateParent pool entry parent add) = mapDeltas pool.
Proof. unfold UpdateParent. destruct add; case_decide; reflexivity. Qed.

Lemma mapDeltas_UpdateAncestorsOf pool add hash setAncestors pool' :
  UpdateAncestorsOf pool add hash setAncestors = Ok pool' ->
  mapDeltas pool' = mapDeltas pool.
Proof.
  unfold UpdateAncestorsOf. intros H. inv_run H.
  transitivity (mapDeltas a0).
  - revert H. apply (foreach_inv (fun p => mapDeltas p = mapDeltas a0)); [|done].
    intros s1 h s2 _ Hs1 Hstep. unfold modify_descendant_state in Hstep.
    inv_run Hstep. by subst s2.
  - revert Hrun0. apply (foreach_inv (fun p => mapDeltas p = mapDeltas pool)); [|done].
    intros s1 h s2 _ Hs1 Hstep. inv_run Hstep. subst s2.
    by rewrite mapDeltas_UpdateChild.
Qed.

Lemma mapDeltas_UpdateChildrenForRemoval pool hash pool' :
  UpdateChildrenForRemoval pool hash = Ok pool' -> mapDeltas pool' = mapDeltas pool.
Proof.
  unfold UpdateChildrenForRemoval. intros H. inv_run H.
  revert H. apply (foreach_inv (fun p => mapDeltas p = mapDeltas pool)); [|done].
  intros s1 h s2 _ Hs1 Hstep. inv_run Hstep. subst s2.
  by rewrite mapDeltas_UpdateParent.
Qed.

Lemma mapDeltas_UpdateForRemoveFromMempool pool hashes pool' :
  UpdateForRemoveFromMempool pool hashes = Ok pool' -> mapDeltas pool' = mapDeltas pool.
Proof.
  unfold UpdateForRemoveFromMempool. intros H. inv_run H.
  transitivity (mapDeltas a).
  - revert H. apply (foreach_inv (fun p => mapDeltas p = mapDeltas a)); [|done].
    intros s1 h s2 _ Hs1 Hstep.
    by rewrite (mapDeltas_UpdateChildrenForRemoval _ _ _ Hstep).
  - revert Hrun. apply (foreach_inv (fun p => mapDeltas p = mapDeltas pool)); [|done].
    intros s1 h s2 _ Hs1 Hstep. inv_run Hstep.
    by rewrite (mapDeltas_UpdateAncestorsOf _ _ _ _ _ Hstep).
Qed.

Lemma mapDeltas_removeUnchecked pool hash pool' :
  removeUnchecked pool hash = Ok pool' -> mapDeltas pool' = mapDeltas pool.
Proof. unfold removeUnchecked. intros H. inv_run H. by subst pool'. Qed.

Lemma mapDeltas_RemoveStaged pool stage pool' :
  RemoveStaged pool stage = Ok pool' -> mapDeltas pool' = mapDeltas pool.
Proof.
  unfold RemoveStaged. intros H. inv_run H.
  rewrite <- (mapDeltas_UpdateForRemoveFromMempool _ _ _ Hrun).
  revert H. apply (foreach_inv (fun p => mapDeltas p = mapDeltas a)); [|done].
  intros s1 h s2 _ Hs1 Hstep. by rewrite (mapDeltas_removeUnchecked _ _ _ Hstep).
Qed.

Lemma mapDeltas_remove pool origTx removed fRecursive pool' removed' :
  remove pool origTx removed fRecursive = Ok (pool', removed') ->
  mapDeltas pool' = mapDeltas pool.
Proof.
  unfold remove. intros H. inv_run H. injection H as <- _.
  by apply mapDeltas_RemoveStaged in Hrun1.
Qed.

Lemma mapDeltas_removeConflicts pool tx removed pool' removed' :
  removeConflicts pool tx removed = Ok (pool', removed') ->
  mapDeltas pool' = mapDeltas pool.
Proof.
  unfold removeConflicts. intros H.
  change pool' with (fst (pool', removed')).
  revert H.
  apply (foreach_inv (fun pr : CTxMemPool * list CTransaction =>
                        mapDeltas (fst pr) = mapDeltas pool)); [|done].
  intros [p r] prevout [p' r'] _ Hs1 Hstep. cbn [fst] in *.
  destruct (mapNextTx p !! prevout) as [[ptx n]|]; [|by injection Hstep as <- _].
  inv_run Hstep. case_decide; [by injection Hstep as <- _|].
  by rewrite (mapDeltas_remove _ _ _ _ _ _ Hstep).
Qed.

Lemma mapDeltas_Expire pool time pool' n :
  Expire pool time = Ok (pool', n) -> mapDeltas pool' = mapDeltas pool.
Proof.
  unfold Expire. intros H. inv_run H. injection H as <- _.
  by apply mapDeltas_RemoveStaged in Hrun0.
Qed.

Lemma mapDeltas_SurplusTrim pool multiplier rate usage pool' :
  SurplusTrim pool multiplier rate usage = Ok pool' ->
  mapDeltas pool' = mapDeltas pool.
Proof.
  unfold SurplusTrim. intros H. inv_run H.
  match type of H with (if ?ok then _ else _) = _ => destruct ok end;
    [by apply mapDeltas_RemoveStaged in H | by injection H as <-].
Qed.

Lemma mapDeltas_removeForBlock pool vtx conflicts pool' conflicts' entries :
  removeForBlock pool vtx conflicts = Ok (pool', conflicts', entries) ->
  mapDeltas pool'
  = fold_left (fun m tx => delete (GetHash tx) m) vtx (mapDeltas pool).
Proof.
  unfold removeForBlock. intros H.
  apply bind_Ok in H as ([p c] & Hrun & H). injection H as <- _ _.
  revert pool conflicts p c Hrun.
  induction vtx as [|tx vtx IH]; intros pool conflicts p c Hrun;
    cbn [foreach] in Hrun.
  - by injection Hrun as <- _.
  - apply bind_Ok in Hrun as ([p3 c3] & Hstep & Hrun).
    apply bind_Ok in Hstep as ([p1 d1] & Hremove & Hstep).
    apply bind_Ok in Hstep as ([p2 c2] & Hconflicts & Hstep).
    injection Hstep as <- <-.
    rewrite (IH _ _ _ _ Hrun). cbn [fold_left ClearPrioritisation set_mapDeltas mapDeltas].
    do 2 f_equal.
    rewrite (mapDeltas_removeConflicts _ _ _ _ _ Hconflicts).
    by rewrite (mapDeltas_remove _ _ _ _ _ _ Hremove).
Qed.

(** ** Machine arithmetic *)

Lemma u64_range (z : Z) : 0 <= u64 z < 2 ^ 64.
Proof. unfold u64. apply Z.mod_pos_bound. lia. Qed.

Lemma u64_small (z : Z) : 0 <= z < 2 ^ 64 -> u64 z = z.
Proof. unfold u64. apply Z.mod_small. Qed.

Lemma nNoLimit_not_exceeded (z : Z) : (nNoLimit <? u64 z) = false.
Proof. pose proof (u64_range z). unfold nNoLimit. lia. Qed.

Lemma zsize_nonneg (s : gset Z) : 0 <= zsize s.
Proof. unfold zsize. lia. Qed.

Lemma zsize_empty : zsize ∅ = 0.
Proof. reflexivity. Qed.

Lemma zsize_union_disjoint (X Y : gset Z) : X ## Y -> zsize (X ∪ Y) = zsize X + zsize Y.
Proof. intros H. unfold zsize. rewrite size_union by done. lia. Qed.

Lemma zsize_subseteq (X Y : gset Z) : X ⊆ Y -> zsize X <= zsize Y.
Proof. intros H. unfold zsize. apply subseteq_size in H. lia. Qed.

Lemma zsize_pos (X : gset Z) : X ≠ ∅ -> 0 < zsize X.
Proof.
  intros H. unfold zsize.
  destruct (decide (size X = 0%nat)) as [H0|H0]; [|lia].
  apply size_empty_inv in H0. by apply leibniz_equiv in H0.
Qed.

(** ** The ancestors of an entry *)

(** [tx] spends an output of the pool transaction [p]. *)
Definition spends (m : gmap Z CTxMemPoolEntry) (tx : CTransaction) (p : Z) : Prop :=
  is_Some (m !! p) /\ exists o, o ∈ vin tx /\ outpoint_hash o = p.

(** The in-mempool ancestors of [tx]: the pool transactions one of whose
    outputs is spent by [tx], directly or through other pool
    transactions. *)
Inductive ancestor_of (m : gmap Z CTxMemPoolEntry) (tx : CTransaction) : Z -> Prop :=
| ancestor_parent p : spends m tx p -> ancestor_of m tx p
| ancestor_step a e p :
    ancestor_of m tx a -> m !! a = Some e -> spends m (GetTx e) p ->
    ancestor_of m tx p.

(** Invariant I1 for the parents: every entry has its links, and its
    [parents] are the pool transactions it spends from. *)
Definition links_are_parents (pool : CTxMemPool) : Prop :=
  forall h e, mapTx pool !! h = Some e ->
    exists l, mapLinks pool !! h = Some l
              /\ forall p, p ∈ parents l <-> spends (mapTx pool) (GetTx e) p.

Lemma ancestor_of_in_pool m tx p : ancestor_of m tx p -> is_Some (m !! p).
Proof. intros [q [H _]|a e q _ _ [H _]]; exact H. Qed.

(** [mapLinks[h].parents] *)
Definition parents_of (pool : CTxMemPool) (h : Z) : gset Z :=
  parents (links_at (mapLinks pool) h).

Definition union_parents (pool : CTxMemPool) (l : list Z) : gset Z :=
  ⋃ (parents_of pool <$> l).

Lemma elem_of_union_parents pool l p :
  p ∈ union_parents pool l <-> exists h, h ∈ l /\ p ∈ parents_of pool h.
Proof.
  unfold union_parents. rewrite elem_of_union_list. split.
  - intros (X & HX & Hp). apply list_elem_of_fmap in HX as (h & -> & Hh). eauto.
  - intros (h & Hh & Hp). exists (parents_of pool h). split; [|done].
    apply list_elem_of_fmap. eauto.
Qed.

Lemma GetMemPoolParents_Ok pool h ps :
  GetMemPoolParents pool h = Ok ps ->
  is_Some (mapTx pool !! h) /\ is_Some (mapLinks pool !! h) /\ ps = parents_of pool h.
Proof.
  unfold GetMemPoolParents, parents_of, links_at. intros H.
  apply bind_Ok in H as (e & He & H). apply bind_Ok in H as (l & Hl & H).
  apply deref_Ok in He, Hl. apply Ok_inj in H. rewrite He, Hl. by subst.
Qed.

Lemma GetMemPoolParents_not_Timeout pool h : GetMemPoolParents pool h <> Timeout.
Proof.
  unfold GetMemPoolParents.
  destruct (mapTx pool !! h); [|done]. by destruct (mapLinks pool !! h).
Qed.

Lemma GetMemPoolChildren_Ok pool h cs :
  GetMemPoolChildren pool h = Ok cs ->
  is_Some (mapTx pool !! h) /\ is_Some (mapLinks pool !! h)
  /\ cs = children (links_at (mapLinks pool) h).
Proof.
  unfold GetMemPoolChildren, links_at. intros H.
  apply bind_Ok in H as (e & He & H). apply bind_Ok in H as (l & Hl & H).
  apply deref_Ok in He, Hl. apply Ok_inj in H. rewrite He, Hl. by subst.
Qed.

Lemma GetMemPoolChildren_not_Timeout pool h : GetMemPoolChildren pool h <> Timeout.
Proof.
  unfold GetMemPoolChildren.
  destruct (mapTx pool !! h); [|done]. by destruct (mapLinks pool !! h).
Qed.

(** *** Sums of sizes *)

Definition size_of (pool : CTxMemPool) (h : Z) : Z :=
  default 0 (nTxSize <$> mapTx pool !! h).

Definition sum_sizes (pool : CTxMemPool) (l : list Z) : Z :=
  foldr (fun h acc => size_of pool h + acc) 0 l.

(** The sizes of the entries of a set, added up. *)
Definition set_sum (pool : CTxMemPool) (s : gset Z) : Z :=
  sum_sizes pool (elements s).

(** [totalSizeWithAncestors] after the entries of [l], as the machine
    adds. *)
Definition wrap_sum (pool : CTxMemPool) (total : Z) (l : list Z) : Z :=
  fold_left (fun t h => u64 (t + size_of pool h)) l total.

Definition sizes_nonneg (pool : CTxMemPool) : Prop :=
  forall h e, mapTx pool !! h = Some e -> 0 <= nTxSize e.

Lemma size_of_nonneg pool h : sizes_nonneg pool -> 0 <= size_of pool h.
Proof.
  intros H. unfold size_of. destruct (mapTx pool !! h) as [e|] eqn:He; cbn; [|lia].
  by apply (H h).
Qed.

Lemma sum_sizes_app pool l1 l2 :
  sum_sizes pool (l1 ++ l2) = sum_sizes pool l1 + sum_sizes pool l2.
Proof. unfold sum_sizes. induction l1 as [|h l1 IH]; cbn; lia. Qed.

Lemma sum_sizes_nonneg pool l : sizes_nonneg pool -> 0 <= sum_sizes pool l.
Proof.
  intros H. unfold sum_sizes. induction l as [|h l IH]; cbn; [lia|].
  pose proof (size_of_nonneg pool h H). lia.
Qed.

#[local] Instance sum_sizes_Permutation pool : Proper ((≡ₚ) ==> (=)) (sum_sizes pool).
Proof.
  intros l1 l2 Hp. unfold sum_sizes. induction Hp; cbn; lia.
Qed.

Lemma set_sum_empty pool : set_sum pool ∅ = 0.
Proof. unfold set_sum. by rewrite elements_empty. Qed.

Lemma set_sum_disj_union pool (X Y : gset Z) :
  X ## Y -> set_sum pool (X ∪ Y) = set_sum pool X + set_sum pool Y.
Proof.
  intros H. unfold set_sum. rewrite elements_disj_union by done.
  apply sum_sizes_app.
Qed.

Lemma set_sum_nonneg pool X : sizes_nonneg pool -> 0 <= set_sum pool X.
Proof. apply sum_sizes_nonneg. Qed.

Lemma set_sum_subseteq pool (X Y : gset Z) :
  sizes_nonneg pool -> X ⊆ Y -> set_sum pool X <= set_sum pool Y.
Proof.
  intros Hnn HXY. assert (Y = X ∪ (Y ∖ X)) as ->.
  { apply set_eq. intros x. rewrite elem_of_union, elem_of_difference.
    destruct (decide (x ∈ X)); set_solver. }
  rewrite set_sum_disj_union by set_solver.
  pose proof (set_sum_nonneg pool (Y ∖ X) Hnn). lia.
Qed.

Lemma set_sum_sorted pool X : sum_sizes pool (sorted_elements X) = set_sum pool X.
Proof. unfold set_sum. by rewrite sorted_elements_Permutation. Qed.

Lemma set_sum_list_to_set pool (l : list Z) :
  NoDup l -> set_sum pool (list_to_set l) = sum_sizes pool l.
Proof. intros H. unfold set_sum. by rewrite elements_list_to_set. Qed.

Lemma wrap_sum_app pool total l1 l2 :
  wrap_sum pool total (l1 ++ l2) = wrap_sum pool (wrap_sum pool total l1) l2.
Proof. apply fold_left_app. Qed.

Lemma wrap_sum_exact pool total l :
  sizes_nonneg pool -> 0 <= total -> total + sum_sizes pool l < 2 ^ 64 ->
  wrap_sum pool total l = total + sum_sizes pool l.
Proof.
  intros Hnn. revert total. unfold wrap_sum.
  induction l as [|h l IH]; intros total H0 Hlt; cbn [fold_left].
  - unfold sum_sizes. cbn. lia.
  - change (sum_sizes pool (h :: l)) with (size_of pool h + sum_sizes pool l) in *.
    pose proof (size_of_nonneg pool h Hnn).
    pose proof (sum_sizes_nonneg pool l Hnn).
    rewrite u64_small by lia. rewrite IH by lia. lia.
Qed.

(** *** The three loops of [CalculateMemPoolAncestors] *)

(** The pool transactions that the inputs [ins] spend from. *)
Definition direct_parents (m : gmap Z CTxMemPoolEntry) (ins : list COutPoint) : gset Z :=
  list_to_set (filter (fun h => is_Some (m !! h)) (outpoint_hash <$> ins)).

Lemma elem_of_direct_parents m tx p : p ∈ direct_parents m (vin tx) <-> spends m tx p.
Proof.
  unfold direct_parents, spends.
  rewrite elem_of_list_to_set, list_elem_of_filter, list_elem_of_fmap.
  split.
  - intros [Hp (o & -> & Ho)]. eauto.
  - intros [Hp (o & Ho & <-)]. eauto.
Qed.

Lemma direct_parents_cons m o ins :
  direct_parents m (o :: ins)
  = if decide (is_Some (m !! outpoint_hash o))
    then {[outpoint_hash o]} ∪ direct_parents m ins
    else direct_parents m ins.
Proof.
  unfold direct_parents. rewrite fmap_cons, filter_cons.
  case_decide; [by rewrite list_to_set_cons | done].
Qed.

Lemma find_parents_spec m lim ins ph0 ph ok :
  find_parents m lim ins ph0 = (ph, ok) ->
  ph0 ⊆ ph /\ ph ⊆ ph0 ∪ direct_parents m ins
  /\ if ok
     then ph = ph0 ∪ direct_parents m ins
          /\ (direct_parents m ins = ∅ \/ u64 (zsize ph + 1) <= lim)
     else ph ≠ ∅ /\ lim < u64 (zsize ph + 1).
Proof.
  revert ph0. induction ins as [|o ins IH]; intros ph0 H; cbn [find_parents] in H.
  - injection H as <- <-. unfold direct_parents. cbn. set_solver.
  - rewrite direct_parents_cons.
    destruct (m !! outpoint_hash o) as [e|] eqn:Ho.
    + rewrite decide_True by eauto.
      destruct (lim <? u64 (zsize ({[outpoint_hash o]} ∪ ph0) + 1)) eqn:Hlim.
      * injection H as <- <-. split; [set_solver|]. split; [set_solver|].
        split; [set_solver|lia].
      * apply IH in H as (H1 & H2 & H3). split; [set_solver|]. split; [set_solver|].
        destruct ok; [|done]. destruct H3 as [-> H3]. split; [set_solver|].
        destruct H3 as [H3|H3]; [|by right]. right. rewrite H3.
        replace ({[outpoint_hash o]} ∪ ph0 ∪ ∅) with ({[outpoint_hash o]} ∪ ph0)
          by set_solver.
        lia.
    + rewrite decide_False by (intros [? ?]; congruence).
      by apply IH in H.
Qed.

Section AncestorWalk.

Variable pool : CTxMemPool.
Variable entry : CTxMemPoolEntry.
Variables limitAncestorCount limitAncestorSize limitDescendantCount limitDescendantSize : Z.
Variable setAncestors : gset Z.

(** The two checks on one ancestor's descendants pass. *)
Definition within_descendant_limits (h : Z) : Prop :=
  forall e, mapTx pool !! h = Some e ->
    u64 (nSizeWithDescendants e + nTxSize entry) <= limitDescendantSize
    /\ u64 (nCountWithDescendants e + 1) <= limitDescendantCount.

(** The last evaluation of the ancestor-count check passed. *)
Definition count_ok (stage : gset Z) : Prop :=
  stage = ∅ \/ u64 (zsize stage + zsize setAncestors + 1) <= limitAncestorCount.

Lemma stage_parents_spec ps st err st' :
  stage_parents setAncestors limitAncestorCount ps st = (err, st') ->
  st ⊆ st' /\ st' ⊆ st ∪ (list_to_set ps ∖ setAncestors)
  /\ match err with
     | None => st' = st ∪ (list_to_set ps ∖ setAncestors)
               /\ (ps = [] \/ u64 (zsize st' + zsize setAncestors + 1)
                             <= limitAncestorCount)
     | Some e => e = TooManyUnconfirmedAncestors
                 /\ limitAncestorCount < u64 (zsize st' + zsize setAncestors + 1)
     end.
Proof.
  revert st. induction ps as [|p ps IH]; intros st H; cbn [stage_parents] in H.
  - injection H as <- <-. cbn. set_solver.
  - set (st1 := if decide (p ∈ setAncestors) then st else {[p]} ∪ st) in *.
    assert (st ⊆ st1 /\ st1 ⊆ st ∪ ({[p]} ∖ setAncestors)
            /\ st1 ∪ (list_to_set ps ∖ setAncestors)
               = st ∪ (list_to_set (p :: ps) ∖ setAncestors)) as (Hs1 & Hs2 & Hs3).
    { subst st1. rewrite list_to_set_cons. case_decide; set_solver. }
    destruct (limitAncestorCount <? u64 (zsize st1 + zsize setAncestors + 1)) eqn:Hlim.
    + injection H as <- <-. rewrite list_to_set_cons.
      split; [done|]. split; [set_solver|]. split; [done|lia].
    + apply IH in H as (H1 & H2 & H3).
      split; [set_solver|]. split; [rewrite <- Hs3; set_solver|].
      destruct err as [e|]; [done|]. destruct H3 as [-> H3].
      split; [done|]. right. destruct H3 as [->|H3]; [|done].
      cbn. replace (st1 ∪ ∅ ∖ setAncestors) with st1 by set_solver. lia.
Qed.

Lemma count_ok_stage_parents ps st st' :
  stage_parents setAncestors limitAncestorCount ps st = (None, st') ->
  count_ok st -> count_ok st'.
Proof.
  intros H Hok. apply stage_parents_spec in H as (_ & _ & -> & [->|H]).
  - replace (st ∪ list_to_set [] ∖ setAncestors) with st by set_solver. done.
  - by right.
Qed.

(** What a run of the loop over [parentHashes] that found no violation
    has established. *)
Definition stage_passed (l : list Z) (total : Z) (st : gset Z)
    (total' : Z) (st' : gset Z) : Prop :=
  (forall h, h ∈ l ->
     is_Some (mapTx pool !! h) /\ is_Some (mapLinks pool !! h)
     /\ within_descendant_limits h)
  /\ st' = st ∪ (union_parents pool l ∖ setAncestors)
  /\ total' = wrap_sum pool total l
  /\ (l ≠ [] -> total' <= limitAncestorSize)
  /\ (count_ok st -> count_ok st').

(** What the violation that stopped the loop over [parentHashes] was. *)
Definition stage_failed (l : list Z) (total : Z) (st : gset Z)
    (e : AncestorError) (total' : Z) (st' : gset Z) : Prop :=
  exists l1 h l2,
    l = l1 ++ h :: l2 /\ total' = wrap_sum pool total (l1 ++ [h])
    /\ is_Some (mapTx pool !! h)
    /\ st' ⊆ st ∪ (union_parents pool (l1 ++ [h]) ∖ setAncestors)
    /\ match e with
       | ExceedsDescendantSizeLimit h' | TooManyDescendants h' =>
           h' = h /\ ~ within_descendant_limits h
       | ExceedsAncestorSizeLimit => limitAncestorSize < total'
       | TooManyUnconfirmedAncestors =>
           limitAncestorCount < u64 (zsize st' + zsize setAncestors + 1)
       | TooManyUnconfirmedParents => False
       end.

Lemma union_parents_cons h l :
  union_parents pool (h :: l) = parents_of pool h ∪ union_parents pool l.
Proof. reflexivity. Qed.

Lemma union_parents_nil : union_parents pool [] = ∅.
Proof. reflexivity. Qed.

Lemma process_stage_spec l total st err total' st' :
  process_stage pool entry limitAncestorCount limitAncestorSize
    limitDescendantCount limitDescendantSize setAncestors l total st
  = Ok (err, total', st') ->
  match err with
  | None => stage_passed l total st total' st'
  | Some e => stage_failed l total st e total' st'
  end.
Proof.
  revert total st. induction l as [|h l IH]; intros total st H;
    cbn [process_stage] in H.
  - injection H as <- <- <-. unfold stage_passed.
    split; [by intros h ?%elem_of_nil|]. rewrite union_parents_nil.
    split; [set_solver|]. done.
  - apply bind_Ok in H as (e & He & H). apply deref_Ok in He.
    assert (size_of pool h = nTxSize e) as Hsize by (unfold size_of; by rewrite He).
    assert (forall l2, wrap_sum pool total (h :: l2)
                       = wrap_sum pool (u64 (total + nTxSize e)) l2) as Hwrap.
    { intros l2. unfold wrap_sum. cbn [fold_left]. by rewrite Hsize. }
    set (total1 := u64 (total + nTxSize e)) in *.
    destruct (limitDescendantSize <? u64 (nSizeWithDescendants e + nTxSize entry))
      eqn:Hds.
    { injection H as <- <- <-. exists [], h, l. cbn [app]. rewrite Hwrap.
      split; [done|]. split; [done|]. split; [eauto|]. split; [set_solver|].
      split; [done|]. intros Hin. destruct (Hin e He). lia. }
    destruct (limitDescendantCount <? u64 (nCountWithDescendants e + 1)) eqn:Hdc.
    { injection H as <- <- <-. exists [], h, l. cbn [app]. rewrite Hwrap.
      split; [done|]. split; [done|]. split; [eauto|]. split; [set_solver|].
      split; [done|]. intros Hin. destruct (Hin e He). lia. }
    destruct (limitAncestorSize <? total1) eqn:Has.
    { injection H as <- <- <-. exists [], h, l. cbn [app]. rewrite Hwrap.
      split; [done|]. split; [done|]. split; [eauto|]. split; [set_solver|].
      cbn. lia. }
    apply bind_Ok in H as (ps & Hps & H).
    apply GetMemPoolParents_Ok in Hps as (_ & Hlinks & ->).
    destruct (stage_parents setAncestors limitAncestorCount
                (sorted_elements (parents_of pool h)) st) as [serr st1] eqn:Hsp.
    pose proof (stage_parents_spec _ _ _ _ Hsp) as (Hst1 & Hst2 & Hst3).
    assert (list_to_set (sorted_elements (parents_of pool h)) = parents_of pool h)
      as Hset.
    { apply set_eq. intros x.
      by rewrite elem_of_list_to_set, elem_of_sorted_elements. }
    rewrite Hset in Hst2, Hst3.
    destruct serr as [serr|].
    { injection H as <- <- <-. destruct Hst3 as [-> Hst3].
      exists [], h, l. cbn [app]. rewrite Hwrap.
      split; [done|]. split; [done|]. split; [eauto|]. split; [|done].
      rewrite union_parents_cons, union_parents_nil. set_solver. }
    destruct Hst3 as [-> Hst3]. apply IH in H. destruct err as [err|].
    + destruct H as (l1 & h' & l2 & -> & -> & Hh' & Hsub & Herr).
      exists (h :: l1), h', l2. split; [done|]. split; [by rewrite <- Hwrap|].
      split; [done|]. split; [|done].
      change ((h :: l1) ++ [h']) with (h :: (l1 ++ [h'])).
      rewrite union_parents_cons. set_solver.
    + destruct H as (Hall & -> & -> & Hlast & Hcount).
      split; [|split; [|split; [|split]]].
      * intros x [->|Hx]%elem_of_cons; [|by apply Hall].
        split; [eauto|]. split; [done|]. intros e' He'.
        rewrite He in He'. injection He' as <-. lia.
      * rewrite union_parents_cons. set_solver.
      * by rewrite Hwrap.
      * intros _. destruct l as [|h2 l]; [cbn; lia|]. by apply Hlast.
      * intros Hok. apply Hcount. eapply count_ok_stage_parents; [exact Hsp|done].
Qed.

Lemma process_stage_not_Timeout l total st :
  process_stage pool entry limitAncestorCount limitAncestorSize
    limitDescendantCount limitDescendantSize setAncestors l total st <> Timeout.
Proof.
  revert total st. induction l as [|h l IH]; intros total st H;
    cbn [process_stage] in H; [done|].
  apply bind_Timeout in H as [H|(e & _ & H)]; [by apply deref_not_Timeout in H|].
  repeat match type of H with
         | (if ?c then _ else _) = _ => destruct c; [done|]
         end.
  apply bind_Timeout in H as [H|(ps & _ & H)];
    [by apply GetMemPoolParents_not_Timeout in H|].
  destruct (stage_parents _ _ _ _) as [[?|] ?]; [done|]. by apply IH in H.
Qed.

Lemma process_stage_runs l total st :
  (forall h, h ∈ l -> is_Some (mapTx pool !! h) /\ is_Some (mapLinks pool !! h)) ->
  exists r, process_stage pool entry limitAncestorCount limitAncestorSize
              limitDescendantCount limitDescendantSize setAncestors l total st
            = Ok r.
Proof.
  revert total st. induction l as [|h l IH]; intros total st Hl;
    cbn [process_stage]; [eauto|].
  destruct (Hl h) as [[e He] [lk Hlk]]; [by left|].
  rewrite He. cbn.
  repeat match goal with
         | |- exists r, (if ?c then _ else _) = _ => destruct c; [eauto|]
         end.
  unfold GetMemPoolParents. rewrite He, Hlk. cbn.
  destruct (stage_parents _ _ _ _) as [[?|] ?]; [eauto|].
  apply IH. intros x Hx. apply Hl. by right.
Qed.

End AncestorWalk.

(** *** The [while] loop of [CalculateMemPoolAncestors] *)

Lemma wrap_sum_snoc_range pool total l h :
  0 <= wrap_sum pool total (l ++ [h]) < 2 ^ 64.
Proof. rewrite wrap_sum_app. cbn. apply u64_range. Qed.

Lemma list_to_set_sorted_elements (X : gset Z) :
  list_to_set (sorted_elements X) = X.
Proof.
  apply set_eq. intros x. by rewrite elem_of_list_to_set, elem_of_sorted_elements.
Qed.

Lemma size_dom_difference_lt (X Y : gset Z) (m : gmap Z CTxMemPoolEntry) :
  Y ≠ ∅ -> Y ## X -> (forall y, y ∈ Y -> is_Some (m !! y)) ->
  (size (dom m ∖ (X ∪ Y)) < size (dom m ∖ X))%nat.
Proof.
  intros Hne Hdisj Hin. apply subset_size. split; [set_solver|].
  apply set_choose_L in Hne as [y Hy]. intros Hsub.
  assert (y ∈ dom m ∖ X) as Hy'.
  { apply elem_of_difference. split; [by apply elem_of_dom, Hin | set_solver]. }
  apply Hsub in Hy'. set_solver.
Qed.

Section AncestorLoop.

Variable pool : CTxMemPool.
Variable entry : CTxMemPoolEntry.
Variables limitAncestorCount limitAncestorSize limitDescendantCount limitDescendantSize : Z.

Hypothesis Hlinks : links_are_parents pool.

Notation is_ancestor := (ancestor_of (mapTx pool) (GetTx entry)).
Notation within := (within_descendant_limits pool entry limitDescendantCount
                      limitDescendantSize).
Notation run_loop fuel :=
  (ancestors_loop fuel pool entry limitAncestorCount limitAncestorSize
     limitDescendantCount limitDescendantSize).

Lemma parents_of_spends h e p :
  mapTx pool !! h = Some e ->
  p ∈ parents_of pool h <-> spends (mapTx pool) (GetTx e) p.
Proof.
  intros He. destruct (Hlinks h e He) as (l & Hl & Hp).
  unfold parents_of, links_at. rewrite Hl. apply Hp.
Qed.

Lemma has_links h : is_Some (mapTx pool !! h) -> is_Some (mapLinks pool !! h).
Proof. intros [e He]. destruct (Hlinks h e He) as (l & Hl & _). eauto. Qed.

(** What holds of [parentHashes], [setAncestors] and
    [totalSizeWithAncestors] at the head of the loop; [done] lists
    [setAncestors] in the order the entries were staged. *)
Definition loop_invariant (ph SA : gset Z) (total : Z) : Prop :=
  ph ## SA
  /\ (forall x, x ∈ SA ∪ ph -> is_ancestor x)
  /\ direct_parents (mapTx pool) (vin (GetTx entry)) ⊆ SA ∪ ph
  /\ (forall a, a ∈ SA -> parents_of pool a ⊆ SA ∪ ph)
  /\ (exists done, NoDup done /\ list_to_set done = SA
                   /\ total = wrap_sum pool (nTxSize entry) done)
  /\ (forall a, a ∈ SA -> within a)
  /\ (SA ≠ ∅ -> total <= limitAncestorSize)
  /\ (SA ∪ ph ≠ ∅ -> u64 (zsize (SA ∪ ph) + 1) <= limitAncestorCount).

(** What the loop has established when it ends. *)
Definition loop_result (SA : gset Z) (err : option AncestorError) : Prop :=
  (forall x, x ∈ SA -> is_ancestor x)
  /\ match err with
     | None =>
         (forall p, is_ancestor p -> p ∈ SA)
         /\ (forall a, a ∈ SA -> within a)
         /\ (SA ≠ ∅ -> exists done, NoDup done /\ list_to_set done = SA
               /\ wrap_sum pool (nTxSize entry) done <= limitAncestorSize)
         /\ (SA ≠ ∅ -> u64 (zsize SA + 1) <= limitAncestorCount)
     | Some (ExceedsDescendantSizeLimit h) | Some (TooManyDescendants h) =>
         is_ancestor h /\ ~ within h
     | Some ExceedsAncestorSizeLimit =>
         exists done h, NoDup (done ++ [h])
           /\ (forall x, x ∈ done ++ [h] -> is_ancestor x)
           /\ limitAncestorSize < wrap_sum pool (nTxSize entry) (done ++ [h])
     | Some TooManyUnconfirmedAncestors | Some TooManyUnconfirmedParents =>
         exists S : gset Z, S ≠ ∅ /\ (forall x, x ∈ S -> is_ancestor x)
           /\ limitAncestorCount < u64 (zsize S + 1)
     end.

Lemma union_parents_ancestors (l : list Z) p :
  (forall h, h ∈ l -> is_ancestor h) -> p ∈ union_parents pool l -> is_ancestor p.
Proof.
  intros Hl (h & Hh & Hp)%elem_of_union_parents.
  destruct (ancestor_of_in_pool _ _ _ (Hl h Hh)) as [e He].
  eapply ancestor_step; [by apply Hl | exact He |].
  by apply (proj1 (parents_of_spends h e p He)).
Qed.

Lemma ancestors_loop_spec fuel ph SA total :
  loop_invariant ph SA total ->
  (size (dom (mapTx pool) ∖ SA) < fuel)%nat ->
  exists SA' err, run_loop fuel ph SA total = Ok (SA', err) /\ loop_result SA' err.
Proof.
  revert ph SA total. induction fuel as [|fuel IH]; intros ph SA total Hinv Hfuel;
    [lia|].
  destruct Hinv as (Hdisj & Hanc & Hdirect & Hclosed & Hdone & Hwithin & Hsize & Hcount).
  cbn [ancestors_loop]. case_decide as Hph.
  - (* the walk is complete *)
    subst ph. exists SA, None. split; [done|].
    split; [intros x Hx; apply Hanc; set_solver|].
    split; [|split; [done|split]].
    + intros p Hp. induction Hp as [p Hp|a e p _ IHa He Hp].
      * apply elem_of_direct_parents in Hp. set_solver.
      * apply (proj2 (parents_of_spends a e p He)) in Hp.
        specialize (Hclosed a IHa). set_solver.
    + intros HSA. destruct Hdone as (done & Hnd & Hset & ->). eauto.
    + intros HSA. replace (SA ∪ ∅) with SA in Hcount by set_solver. by apply Hcount.
  - (* one more round *)
    assert (forall h, h ∈ sorted_elements ph ->
              is_Some (mapTx pool !! h) /\ is_Some (mapLinks pool !! h)) as Hrun.
    { intros h Hh%elem_of_sorted_elements.
      assert (is_Some (mapTx pool !! h)) as Hin
        by (eapply ancestor_of_in_pool, Hanc; set_solver).
      split; [done | by apply has_links]. }
    destruct (process_stage_runs pool entry limitAncestorCount limitAncestorSize
                limitDescendantCount limitDescendantSize (SA ∪ ph)
                (sorted_elements ph) total ∅ Hrun) as ([[err total'] st'] & Hps).
    rewrite Hps. cbn.
    apply process_stage_spec in Hps.
    destruct Hdone as (done & Hnd & Hset & Htotal).
    assert (NoDup (done ++ sorted_elements ph)) as Hnd'.
    { apply NoDup_app. split; [done|]. split; [|apply NoDup_sorted_elements].
      intros x Hx Hx'%elem_of_sorted_elements.
      assert (x ∈ SA) by (rewrite <- Hset; by apply elem_of_list_to_set).
      set_solver. }
    assert (forall x, x ∈ done ++ sorted_elements ph -> is_ancestor x) as Hanc'.
    { intros x [Hx|Hx%elem_of_sorted_elements]%elem_of_app; apply Hanc; [|set_solver].
      apply elem_of_union_l. rewrite <- Hset. by apply elem_of_list_to_set. }
    destruct err as [e|].
    + (* a limit is exceeded *)
      exists (SA ∪ ph), (Some e). split; [done|]. split; [done|].
      destruct Hps as (l1 & h & l2 & Hl & -> & Hh & Hst' & He).
      assert (h ∈ ph) as Hhph.
      { apply elem_of_sorted_elements. rewrite Hl. set_solver. }
      destruct e as [|h'|h'| |]; [done| | | |].
      * destruct He as [-> He]. split; [apply Hanc; set_solver|done].
      * destruct He as [-> He]. split; [apply Hanc; set_solver|done].
      * assert (done ++ sorted_elements ph = ((done ++ l1) ++ [h]) ++ l2) as Heq.
        { rewrite Hl. by rewrite <- !(assoc_L (++)). }
        exists (done ++ l1), h. split; [|split].
        -- rewrite Heq in Hnd'. by apply NoDup_app in Hnd' as (? & _ & _).
        -- intros x Hx. apply Hanc'. rewrite Heq. set_solver.
        -- rewrite <- (assoc_L (++)), wrap_sum_app, <- Htotal. exact He.
      * exists (st' ∪ (SA ∪ ph)). split; [set_solver|]. split.
        -- intros x [Hx|Hx]%elem_of_union; [|by apply Hanc].
           apply Hst' in Hx. apply elem_of_union in Hx as [Hx|Hx]; [set_solver|].
           apply elem_of_difference in Hx as [Hx _].
           eapply union_parents_ancestors; [|exact Hx].
           intros y Hy. apply Hanc. apply elem_of_union_r, elem_of_sorted_elements.
           rewrite Hl. set_solver.
        -- rewrite zsize_union_disjoint by set_solver. exact He.
    + (* the next level is staged *)
      destruct Hps as (Hall & -> & -> & Hlast & Hcnt).
      apply IH.
      * split; [set_solver|]. split.
        { intros x [Hx|Hx]%elem_of_union; [by apply Hanc|].
          apply elem_of_union in Hx as [Hx|Hx]; [set_solver|].
          apply elem_of_difference in Hx as [Hx _].
          eapply union_parents_ancestors; [|exact Hx].
          intros y Hy%elem_of_sorted_elements. apply Hanc. set_solver. }
        split; [set_solver|]. split.
        { intros a Ha x Hx. destruct (decide (x ∈ SA ∪ ph)) as [|Hn]; [set_solver|].
          apply elem_of_union_r, elem_of_union_r, elem_of_difference. split; [|done].
          apply elem_of_union in Ha as [Ha|Ha].
          - specialize (Hclosed a Ha). set_solver.
          - apply elem_of_union_parents. exists a.
            split; [by apply elem_of_sorted_elements|done]. }
        split.
        { exists (done ++ sorted_elements ph). split; [done|]. split.
          - rewrite list_to_set_app_L, Hset, list_to_set_sorted_elements. done.
          - by rewrite wrap_sum_app, <- Htotal. }
        split.
        { intros a [Ha|Ha]%elem_of_union; [by apply Hwithin|].
          by apply Hall, elem_of_sorted_elements. }
        split.
        { intros _. apply Hlast. intros Hnil.
          apply Hph. rewrite <- (list_to_set_sorted_elements ph), Hnil. done. }
        intros _.
        set (st' := ∅ ∪ union_parents pool (sorted_elements ph) ∖ (SA ∪ ph)) in *.
        destruct Hcnt as [Hst'|Hst']; [by left| |].
        -- rewrite Hst'. replace (SA ∪ ph ∪ ∅) with (SA ∪ ph) by set_solver.
           apply Hcount. set_solver.
        -- rewrite zsize_union_disjoint by set_solver.
           by rewrite (Z.add_comm (zsize (SA ∪ ph))).
      * pose proof (size_dom_difference_lt SA ph (mapTx pool) Hph Hdisj) as Hlt.
        assert (forall y, y ∈ ph -> is_Some (mapTx pool !! y)) as Hin.
        { intros y Hy. apply Hrun. by apply elem_of_sorted_elements. }
        specialize (Hlt Hin). lia.
Qed.

End AncestorLoop.

(** *** [CalculateMemPoolAncestors] never runs out of fuel *)

Lemma ancestors_loop_not_Timeout fuel pool entry lAC lAS lDC lDS ph SA total :
  ph ## SA -> (size (dom (mapTx pool) ∖ SA) < fuel)%nat ->
  ancestors_loop fuel pool entry lAC lAS lDC lDS ph SA total <> Timeout.
Proof.
  revert ph SA total. induction fuel as [|fuel IH]; intros ph SA total Hdisj Hfuel;
    [lia|].
  cbn [ancestors_loop]. case_decide as Hph; [done|].
  destruct (process_stage pool entry lAC lAS lDC lDS (SA ∪ ph) (sorted_elements ph)
              total ∅) as [[[err total'] st']| |] eqn:Hps; cbn; [|done|].
  - destruct err as [e|]; [done|].
    apply process_stage_spec in Hps as (Hall & -> & _).
    apply IH; [set_solver|].
    assert (forall y, y ∈ ph -> is_Some (mapTx pool !! y)) as Hin.
    { intros y Hy. by apply Hall, elem_of_sorted_elements. }
    pose proof (size_dom_difference_lt SA ph (mapTx pool) Hph Hdisj Hin). lia.
  - by apply process_stage_not_Timeout in Hps.
Qed.

Lemma ancestors_loop_S fuel pool entry lAC lAS lDC lDS ph SA total :
  ancestors_loop (S fuel) pool entry lAC lAS lDC lDS ph SA total
  = if decide (ph = ∅) then Ok (SA, None)
    else
      '(err, total', st) ←
        process_stage pool entry lAC lAS lDC lDS (SA ∪ ph) (sorted_elements ph)
          total ∅;
      match err with
      | Some e => Ok (SA ∪ ph, Some e)
      | None => ancestors_loop fuel pool entry lAC lAS lDC lDS st (SA ∪ ph) total'
      end.
Proof. reflexivity. Qed.

Lemma CalculateMemPoolAncestors_not_Timeout pool entry SA lAC lAS lDC lDS :
  CalculateMemPoolAncestors pool entry SA lAC lAS lDC lDS <> Timeout.
Proof.
  unfold CalculateMemPoolAncestors.
  destruct (find_parents _ _ _ _) as [ph [|]]; [|done].
  unfold ancestors_fuel. rewrite ancestors_loop_S. case_decide as Hph; [done|].
  destruct (process_stage pool entry lAC lAS lDC lDS (SA ∪ ph) (sorted_elements ph)
              (nTxSize entry) ∅) as [[[err total'] st']| |] eqn:Hps; [|done|].
  - rewrite Ok_bind. destruct err as [e|]; [done|].
    apply process_stage_spec in Hps as (_ & -> & _).
    apply ancestors_loop_not_Timeout; [set_solver|].
    assert (size (dom (mapTx pool) ∖ (SA ∪ ph)) <= size (dom (mapTx pool)))%nat
      by (apply subseteq_size; set_solver).
    rewrite size_dom in *. lia.
  - by apply process_stage_not_Timeout in Hps.
Qed.

(** *** What [CalculateMemPoolAncestors] returns *)

Lemma CalculateMemPoolAncestors_result pool entry lAC lAS lDC lDS :
  links_are_parents pool ->
  exists SA err,
    CalculateMemPoolAncestors pool entry ∅ lAC lAS lDC lDS = Ok (SA, err)
    /\ loop_result pool entry lAC lAS lDC lDS SA err.
Proof.
  intros Hlinks. unfold CalculateMemPoolAncestors.
  destruct (find_parents (mapTx pool) lAC (vin (GetTx entry)) ∅) as [ph ok] eqn:Hfp.
  apply find_parents_spec in Hfp as (_ & Hsub & Hok).
  assert (forall x, x ∈ ph -> ancestor_of (mapTx pool) (GetTx entry) x) as Hanc.
  { intros x Hx. apply ancestor_parent, elem_of_direct_parents. set_solver. }
  destruct ok.
  - destruct Hok as [-> Hok]. apply ancestors_loop_spec; [done| |].
    + split; [set_solver|]. split; [intros x Hx; apply Hanc; set_solver|].
      split; [set_solver|]. split; [set_solver|]. split.
      { exists []. split; [constructor|]. done. }
      split; [set_solver|]. split; [done|]. intros Hne.
      replace (∅ ∪ (∅ ∪ direct_parents (mapTx pool) (vin (GetTx entry))))
        with (∅ ∪ direct_parents (mapTx pool) (vin (GetTx entry)) : gset Z)
        by set_solver.
      destruct Hok as [Hok|Hok]; [|done]. set_solver.
    + unfold ancestors_fuel.
      assert (size (dom (mapTx pool) ∖ ∅) <= size (dom (mapTx pool)))%nat
        by (apply subseteq_size; set_solver).
      rewrite size_dom in *. lia.
  - destruct Hok as [Hne Hok].
    exists ∅, (Some TooManyUnconfirmedParents). split; [done|].
    split; [set_solver|]. by exists ph.
Qed.

(** Without limits the walk returns exactly the in-mempool ancestors. *)
Lemma CalculateMemPoolAncestors_nolimit pool entry :
  links_are_parents pool ->
  exists SA,
    CalculateMemPoolAncestors pool entry ∅ nNoLimit nNoLimit nNoLimit nNoLimit
    = Ok (SA, None)
    /\ forall p, p ∈ SA <-> ancestor_of (mapTx pool) (GetTx entry) p.
Proof.
  intros Hlinks.
  destruct (CalculateMemPoolAncestors_result pool entry nNoLimit nNoLimit nNoLimit
              nNoLimit Hlinks) as (SA & err & Hrun & Hsub & Herr).
  assert (forall z, ~ nNoLimit < u64 z) as Hno.
  { intros z. pose proof (u64_range z). unfold nNoLimit. lia. }
  assert (forall h, within_descendant_limits pool entry nNoLimit nNoLimit h) as Hwithin.
  { intros h e _. split.
    - pose proof (Hno (nSizeWithDescendants e + nTxSize entry)). lia.
    - pose proof (Hno (nCountWithDescendants e + 1)). lia. }
  destruct err as [[|h|h| |]|].
  - destruct Herr as (S & _ & _ & Hlt). by apply Hno in Hlt.
  - destruct Herr as [_ Hn]. by destruct Hn.
  - destruct Herr as [_ Hn]. by destruct Hn.
  - destruct Herr as (done & h & _ & _ & Hlt).
    pose proof (wrap_sum_snoc_range pool (nTxSize entry) done h).
    unfold nNoLimit in Hlt. lia.
  - destruct Herr as (S & _ & _ & Hlt). by apply Hno in Hlt.
  - exists SA. split; [done|]. intros p. split; [apply Hsub|apply Herr].
Qed.

(** ** C4: when [CalculateMemPoolAncestors] fails *)

(** The four conditions of the claim on the set [A] of ancestors.  The
    two sums over one ancestor are the 64-bit sums the code compares. *)
Definition limit_conditions (pool : CTxMemPool) (entry : CTxMemPoolEntry)
    (limitAncestorCount limitAncestorSize limitDescendantCount limitDescendantSize : Z)
    (A : gset Z) : Prop :=
  limitAncestorCount < zsize A + 1
  \/ (exists a e, a ∈ A /\ mapTx pool !! a = Some e
        /\ limitDescendantSize < u64 (nSizeWithDescendants e + nTxSize entry))
  \/ (exists a e, a ∈ A /\ mapTx pool !! a = Some e
        /\ limitDescendantCount < u64 (nCountWithDescendants e + 1))
  \/ limitAncestorSize < nTxSize entry + set_sum pool A.

Lemma not_within_descendant_limits pool entry lDC lDS h :
  is_Some (mapTx pool !! h) ->
  ~ within_descendant_limits pool entry lDC lDS h ->
  exists e, mapTx pool !! h = Some e
    /\ (lDS < u64 (nSizeWithDescendants e + nTxSize entry)
        \/ lDC < u64 (nCountWithDescendants e + 1)).
Proof.
  intros [e He] Hn. exists e. split; [done|].
  destruct (Z.lt_ge_cases lDS (u64 (nSizeWithDescendants e + nTxSize entry)));
    [by left|].
  destruct (Z.lt_ge_cases lDC (u64 (nCountWithDescendants e + 1))); [by right|].
  destruct Hn. intros e' He'. rewrite He in He'. injection He' as <-. lia.
Qed.

(** C4 (as the code has it).  For a pool whose links are the spending
    relation, with sums that do not wrap, [CalculateMemPoolAncestors]
    returns; it returns [false] exactly when the entry has an in-mempool
    ancestor and one of the four limits is exceeded; what it has put into
    [setAncestors] are ancestors, and when it returns [true] they are all
    the ancestors. *)
Theorem CalculateMemPoolAncestors_fails_iff
    (pool : CTxMemPool) (entry : CTxMemPoolEntry)
    (limitAncestorCount limitAncestorSize limitDescendantCount limitDescendantSize : Z)
    (A : gset Z) :
  links_are_parents pool ->
  sizes_nonneg pool -> 0 <= nTxSize entry ->
  (forall p, p ∈ A <-> ancestor_of (mapTx pool) (GetTx entry) p) ->
  zsize A + 1 < 2 ^ 64 ->
  nTxSize entry + set_sum pool A < 2 ^ 64 ->
  exists setAncestors err,
    CalculateMemPoolAncestors pool entry ∅ limitAncestorCount limitAncestorSize
      limitDescendantCount limitDescendantSize = Ok (setAncestors, err)
    /\ (is_Some err <->
        A ≠ ∅ /\ limit_conditions pool entry limitAncestorCount limitAncestorSize
                   limitDescendantCount limitDescendantSize A)
    /\ setAncestors ⊆ A
    /\ (err = None -> setAncestors = A).
Proof.
  intros Hlinks Hnn Hentry HA Hcount Hsum.
  destruct (CalculateMemPoolAncestors_result pool entry limitAncestorCount
              limitAncestorSize limitDescendantCount limitDescendantSize Hlinks)
    as (SA & err & Hrun & Hsub & Herr).
  exists SA, err. split; [done|].
  assert (SA ⊆ A) as HSA by (intros x Hx; by apply HA, Hsub).
  assert (forall S : gset Z, (forall x, x ∈ S -> ancestor_of (mapTx pool) (GetTx entry) x) ->
            S ⊆ A) as Hin by (intros S HS x Hx; by apply HA, HS).
  assert (forall l, NoDup l ->
            (forall x, x ∈ l -> ancestor_of (mapTx pool) (GetTx entry) x) ->
            wrap_sum pool (nTxSize entry) l = nTxSize entry + sum_sizes pool l
            /\ sum_sizes pool l <= set_sum pool A) as Hexact.
  { intros l Hnd Hl.
    assert (sum_sizes pool l <= set_sum pool A) as Hle.
    { rewrite <- (set_sum_list_to_set pool l Hnd). apply set_sum_subseteq; [done|].
      apply Hin. intros x Hx%elem_of_list_to_set. by apply Hl. }
    split; [|done]. apply wrap_sum_exact; [done|done|lia]. }
  split; [|split; [done|]].
  - split.
    + intros [e ->].
      destruct e as [|h|h| |].
      * destruct Herr as (S & Hne & HS & Hlt). apply Hin in HS.
        pose proof (zsize_subseteq _ _ HS). pose proof (zsize_nonneg S).
        rewrite u64_small in Hlt by lia.
        split; [set_solver|]. left. lia.
      * destruct Herr as [Hh Hn]. split; [apply HA in Hh; set_solver|].
        apply not_within_descendant_limits in Hn as (e & He & [Hlt|Hlt]);
          [| |by eapply ancestor_of_in_pool].
        -- right; left. exists h, e. by rewrite HA.
        -- right; right; left. exists h, e. by rewrite HA.
      * destruct Herr as [Hh Hn]. split; [apply HA in Hh; set_solver|].
        apply not_within_descendant_limits in Hn as (e & He & [Hlt|Hlt]);
          [| |by eapply ancestor_of_in_pool].
        -- right; left. exists h, e. by rewrite HA.
        -- right; right; left. exists h, e. by rewrite HA.
      * destruct Herr as (done & h & Hnd & Hl & Hlt).
        destruct (Hexact _ Hnd Hl) as [Heq Hle]. rewrite Heq in Hlt.
        split; [|right; right; right; lia].
        assert (h ∈ A) by (apply HA, Hl; set_solver). set_solver.
      * destruct Herr as (S & Hne & HS & Hlt). apply Hin in HS.
        pose proof (zsize_subseteq _ _ HS). pose proof (zsize_nonneg S).
        rewrite u64_small in Hlt by lia.
        split; [set_solver|]. left. lia.
    + intros [Hne Hcond]. destruct err as [e|]; [eauto|]. exfalso.
      destruct Herr as (Hall & Hwithin & Hsize & Hcnt).
      assert (SA = A) as -> by (apply set_eq; intros x; rewrite HA; split; auto).
      destruct Hcond as [Hc|[(a & e & Ha & He & Hc)|[(a & e & Ha & He & Hc)|Hc]]].
      * specialize (Hcnt Hne). pose proof (zsize_nonneg A).
        rewrite u64_small in Hcnt by lia. lia.
      * destruct (Hwithin a Ha e He). lia.
      * destruct (Hwithin a Ha e He). lia.
      * destruct (Hsize Hne) as (done & Hnd & Hset & Hle).
        destruct (Hexact done Hnd) as [Heq _].
        { intros x Hx. apply Hsub. rewrite <- Hset. by apply elem_of_list_to_set. }
        rewrite Heq, <- (set_sum_list_to_set pool done Hnd), Hset in Hle. lia.
  - intros ->. destruct Herr as (Hall & _).
    apply set_eq. intros x. rewrite HA. split; auto.
Qed.

(** ** Descendants *)

(** [mapLinks[h].children] *)
Definition children_of (pool : CTxMemPool) (h : Z) : gset Z :=
  children (links_at (mapLinks pool) h).

Lemma fold_new_children (SD : gset Z) (l : list Z) (acc : gset Z) :
  fold_left (fun s childhash =>
               if decide (childhash ∈ SD) then s else {[childhash]} ∪ s) l acc
  = acc ∪ (list_to_set l ∖ SD).
Proof.
  revert acc. induction l as [|c l IH]; intros acc; cbn [fold_left].
  - set_solver.
  - rewrite IH, list_to_set_cons. case_decide; set_solver.
Qed.

Lemma next_descendants_from pool (SD : gset Z) (l : list Z) (s0 s : gset Z) :
  foreach (fun setNext stagehash =>
             setChildren ← GetMemPoolChildren pool stagehash;
             Ok (fold_left (fun s childhash =>
                              if decide (childhash ∈ SD) then s
                              else {[childhash]} ∪ s)
                   (sorted_elements setChildren) setNext)) l s0 = Ok s ->
  (forall h, h ∈ l -> is_Some (mapTx pool !! h) /\ is_Some (mapLinks pool !! h))
  /\ forall x, x ∈ s <-> x ∈ s0 \/ (x ∉ SD /\ exists h, h ∈ l /\ x ∈ children_of pool h).
Proof.
  revert s0. induction l as [|h l IH]; intros s0 H; cbn [foreach] in H.
  - apply Ok_inj in H as <-. split; [by intros h ?%elem_of_nil|].
    intros x. split; [by left|]. intros [?|(_ & h & ?%elem_of_nil & _)]; done.
  - apply bind_Ok in H as (s1 & Hstep & H).
    apply bind_Ok in Hstep as (cs & Hcs & Hstep). apply Ok_inj in Hstep.
    apply GetMemPoolChildren_Ok in Hcs as (Hin & Hlk & ->).
    rewrite fold_new_children, list_to_set_sorted_elements in Hstep. subst s1.
    apply IH in H as [Hall Hs]. split.
    + intros x [->|Hx]%elem_of_cons; [done|by apply Hall].
    + intros x. rewrite Hs. fold (children_of pool h). split.
      * intros [[Hx|[Hx Hn]%elem_of_difference]%elem_of_union|(Hn & h' & Hh' & Hx)].
        -- by left.
        -- right. split; [done|]. exists h. split; [by left|done].
        -- right. split; [done|]. exists h'. split; [by right|done].
      * intros [Hx|(Hn & h' & [->|Hh']%elem_of_cons & Hx)].
        -- left. set_solver.
        -- left. set_solver.
        -- right. eauto.
Qed.

Lemma next_descendants_spec pool SD l s :
  next_descendants pool SD l = Ok s ->
  (forall h, h ∈ l -> is_Some (mapTx pool !! h) /\ is_Some (mapLinks pool !! h))
  /\ forall x, x ∈ s <-> x ∉ SD /\ exists h, h ∈ l /\ x ∈ children_of pool h.
Proof.
  intros H. apply next_descendants_from in H as [Hall Hs]. split; [done|].
  intros x. rewrite Hs. set_solver.
Qed.

Lemma next_descendants_not_Timeout pool SD l : next_descendants pool SD l <> Timeout.
Proof.
  apply foreach_not_Timeout. intros s h _ H.
  apply bind_Timeout in H as [H|(? & _ & H)]; [|done].
  by apply GetMemPoolChildren_not_Timeout in H.
Qed.

Lemma descendants_loop_not_Timeout fuel pool stage SD :
  stage ## SD -> (size (dom (mapTx pool) ∖ SD) < fuel)%nat ->
  descendants_loop fuel pool stage SD <> Timeout.
Proof.
  revert stage SD. induction fuel as [|fuel IH]; intros stage SD Hdisj Hfuel; [lia|].
  cbn [descendants_loop]. case_decide as Hstage; [done|].
  destruct (next_descendants pool (SD ∪ stage) (sorted_elements stage))
    as [s| |] eqn:Hnext; [|done|by apply next_descendants_not_Timeout in Hnext].
  rewrite Ok_bind. apply next_descendants_spec in Hnext as [Hall Hs].
  apply IH.
  - intros x Hx Hx'. apply Hs in Hx as [Hx _]. done.
  - assert (forall y, y ∈ stage -> is_Some (mapTx pool !! y)) as Hin.
    { intros y Hy. by apply Hall, elem_of_sorted_elements. }
    pose proof (size_dom_difference_lt SD stage (mapTx pool) Hstage Hdisj Hin). lia.
Qed.

Lemma CalculateDescendants_not_Timeout pool hash SD :
  CalculateDescendants pool hash SD <> Timeout.
Proof.
  unfold CalculateDescendants. apply descendants_loop_not_Timeout.
  - case_decide; set_solver.
  - unfold descendants_fuel.
    assert (size (dom (mapTx pool) ∖ SD) <= size (dom (mapTx pool)))%nat
      by (apply subseteq_size; set_solver).
    rewrite size_dom in *. lia.
Qed.

(** ** No removal runs out of fuel *)

Lemma UpdateAncestorsOf_not_Timeout pool add hash SA :
  UpdateAncestorsOf pool add hash SA <> Timeout.
Proof.
  unfold UpdateAncestorsOf. intros H.
  apply bind_Timeout in H as [H|(ps & _ & H)];
    [by apply GetMemPoolParents_not_Timeout in H|].
  apply bind_Timeout in H as [H|(p1 & _ & H)].
  - revert H. apply foreach_not_Timeout. intros s h _ H.
    apply bind_Timeout in H as [H|(? & _ & H)]; [|done].
    by apply deref_not_Timeout in H.
  - apply bind_Timeout in H as [H|(it & _ & H)]; [by apply deref_not_Timeout in H|].
    revert H. apply foreach_not_Timeout. intros s h _ H.
    unfold modify_descendant_state in H.
    apply bind_Timeout in H as [H|(? & _ & H)]; [|done].
    by apply deref_not_Timeout in H.
Qed.

Lemma UpdateChildrenForRemoval_not_Timeout pool hash :
  UpdateChildrenForRemoval pool hash <> Timeout.
Proof.
  unfold UpdateChildrenForRemoval. intros H.
  apply bind_Timeout in H as [H|(ps & _ & H)];
    [by apply GetMemPoolChildren_not_Timeout in H|].
  revert H. apply foreach_not_Timeout. intros s h _ H.
  apply bind_Timeout in H as [H|(? & _ & H)]; [|done].
  by apply deref_not_Timeout in H.
Qed.

Lemma UpdateForRemoveFromMempool_not_Timeout pool hashes :
  UpdateForRemoveFromMempool pool hashes <> Timeout.
Proof.
  unfold UpdateForRemoveFromMempool. intros H.
  apply bind_Timeout in H as [H|(p1 & _ & H)].
  - revert H. apply foreach_not_Timeout. intros s h _ H.
    apply bind_Timeout in H as [H|(e & _ & H)]; [by apply deref_not_Timeout in H|].
    apply bind_Timeout in H as [H|([SA err] & _ & H)].
    + by apply CalculateMemPoolAncestors_not_Timeout in H.
    + by apply UpdateAncestorsOf_not_Timeout in H.
  - revert H. apply foreach_not_Timeout. intros s h _.
    apply UpdateChildrenForRemoval_not_Timeout.
Qed.

Lemma removeUnchecked_not_Timeout pool hash : removeUnchecked pool hash <> Timeout.
Proof. unfold removeUnchecked. by destruct (mapTx pool !! hash). Qed.

Lemma RemoveStaged_not_Timeout pool stage : RemoveStaged pool stage <> Timeout.
Proof.
  unfold RemoveStaged. intros H.
  apply bind_Timeout in H as [H|(p1 & _ & H)];
    [by apply UpdateForRemoveFromMempool_not_Timeout in H|].
  revert H. apply foreach_not_Timeout. intros s h _.
  apply removeUnchecked_not_Timeout.
Qed.

Lemma descendants_of_all_not_Timeout pool l s :
  foreach (fun s hash => CalculateDescendants pool hash s) l s <> Timeout.
Proof.
  apply foreach_not_Timeout. intros s1 h _. apply CalculateDescendants_not_Timeout.
Qed.

Lemma remove_not_Timeout pool origTx removed fRecursive :
  remove pool origTx removed fRecursive <> Timeout.
Proof.
  unfold remove. intros H.
  apply bind_Timeout in H as [H|(all & _ & H)].
  - destruct fRecursive; [|done]. by apply descendants_of_all_not_Timeout in H.
  - apply bind_Timeout in H as [H|(r & _ & H)].
    + revert H. apply foreach_not_Timeout. intros s h _ H.
      apply bind_Timeout in H as [H|(? & _ & H)]; [|done].
      by apply deref_not_Timeout in H.
    + apply bind_Timeout in H as [H|(? & _ & H)]; [|done].
      by apply RemoveStaged_not_Timeout in H.
Qed.

Lemma removeConflicts_not_Timeout pool tx removed :
  removeConflicts pool tx removed <> Timeout.
Proof.
  unfold removeConflicts. apply foreach_not_Timeout. intros [p r] prevout _ H.
  destruct (mapNextTx p !! prevout) as [[ptx n]|]; [|done].
  apply bind_Timeout in H as [H|(e & _ & H)]; [by apply deref_not_Timeout in H|].
  cbv zeta in H. case_decide; [done|]. by apply remove_not_Timeout in H.
Qed.

Lemma removeForBlock_not_Timeout pool vtx conflicts :
  removeForBlock pool vtx conflicts <> Timeout.
Proof.
  unfold removeForBlock. intros H.
  apply bind_Timeout in H as [H|([p c] & _ & H)]; [|done].
  revert H. apply foreach_not_Timeout. intros [p c] tx _ H.
  apply bind_Timeout in H as [H|([p1 d1] & _ & H)];
    [by apply remove_not_Timeout in H|].
  apply bind_Timeout in H as [H|([p2 c2] & _ & H)]; [|done].
  by apply removeConflicts_not_Timeout in H.
Qed.

Lemma Expire_not_Timeout pool time : Expire pool time <> Timeout.
Proof.
  unfold Expire. intros H.
  apply bind_Timeout in H as [H|(stage & _ & H)];
    [by apply descendants_of_all_not_Timeout in H|].
  apply bind_Timeout in H as [H|(? & _ & H)]; [|done].
  by apply RemoveStaged_not_Timeout in H.
Qed.

(** ** The eviction walk *)

Lemma elem_of_spenders_of (next : gmap (Z * Z) CInPoint) (h : Z) (x : CInPoint) :
  x ∈ spenders_of next h <-> exists o, outpoint_hash o = h /\ next !! o = Some x.
Proof.
  unfold spenders_of. rewrite list_elem_of_fmap. split.
  - intros ([o y] & -> & Hin). rewrite merge_sort_Permutation in Hin.
    apply list_elem_of_filter in Hin as [Hh Hin]. apply elem_of_map_to_list in Hin.
    exists o. done.
  - intros (o & Hh & Ho). exists (o, x). split; [done|].
    rewrite merge_sort_Permutation. apply list_elem_of_filter. split; [done|].
    by apply elem_of_map_to_list.
Qed.

(** The transactions that spend an output of [h], as [mapNextTx] has
    them. *)
Definition spender_hashes (pool : CTxMemPool) (h : Z) : list Z :=
  map fst (spenders_of (mapNextTx pool) h).

Lemma elem_of_spender_hashes pool h c :
  c ∈ spender_hashes pool h
  <-> exists o i, outpoint_hash o = h /\ mapNextTx pool !! o = Some (c, i).
Proof.
  unfold spender_hashes.
  change (map fst (spenders_of (mapNextTx pool) h))
    with (fst <$> spenders_of (mapNextTx pool) h).
  rewrite list_elem_of_fmap. split.
  - intros ([c' i] & -> & Hin). apply elem_of_spenders_of in Hin as (o & Ho & Hn).
    by exists o, i.
  - intros (o & i & Ho & Hn). exists (c, i). split; [done|].
    apply elem_of_spenders_of. by exists o.
Qed.

(** Invariant I2, one direction: the inputs of every entry are in
    [mapNextTx] under the entry's hash. *)
Definition inputs_registered (pool : CTxMemPool) : Prop :=
  forall h e o, mapTx pool !! h = Some e -> o ∈ vin (GetTx e) ->
    exists i, mapNextTx pool !! o = Some (h, i).

(** Invariant I2, the other direction: what [mapNextTx] points to is in
    the pool. *)
Definition spenders_in_pool (pool : CTxMemPool) : Prop :=
  forall o c i, mapNextTx pool !! o = Some (c, i) -> is_Some (mapTx pool !! c).

(** A set of hashes that has, with a transaction, all the transactions
    that spend from it. *)
Definition descendant_closed (pool : CTxMemPool) (X : gset Z) : Prop :=
  forall x c, x ∈ X -> c ∈ spender_hashes pool x -> c ∈ X.

Section TrimWalk.

Variable pool : CTxMemPool.
Variables protect stage : gset Z.
Variables nFeesReserved nFeesRemoved feeToUse limit : Z.

Notation walk fuel := (trim_walk fuel pool protect stage nFeesReserved
                         nFeesRemoved feeToUse limit).

(** What holds of [now] and [todo] during the walk: nothing protected
    has been taken, and whoever spends from [now] is staged, taken or
    still to do. *)
Definition walk_invariant (w : TrimWalk) : Prop :=
  now w ## protect
  /\ forall x c, x ∈ now w -> c ∈ spender_hashes pool x ->
       c ∈ stage \/ c ∈ now w \/ c ∈ todo w.

Lemma trim_walk_good fuel w w' :
  walk fuel w = Ok (true, w') -> walk_invariant w ->
  walk_invariant w' /\ todo w' = [].
Proof.
  revert w. induction fuel as [|fuel IH]; intros w H Hinv.
  - destruct w as [[|hashnow rest] nw f s u it]; cbn in H.
    + by injection H as <-.
    + case_decide; [done|]. destruct (limit <? it + 1); done.
  - destruct w as [[|hashnow rest] nw f s u it]; cbn [trim_walk todo] in H.
    + by injection H as <-.
    + case_decide as Hprotect; [done|].
      cbn [walk_itertotal nowfee now nowsize nowusage] in H.
      destruct (limit <? it + 1); [done|].
      apply bind_Ok in H as (origTx & _ & H).
      destruct (feeToUse <? _); [done|].
      apply IH in H; [done|].
      destruct Hinv as [Hdisj Hspend]. cbn [now todo] in *. split; [set_solver|].
      intros x c Hx Hc.
      destruct (decide (c ∈ stage)) as [|Hstage]; [by left|]. right.
      destruct (decide (c ∈ {[hashnow]} ∪ nw)) as [|Hnow]; [by left|]. right.
      apply elem_of_app.
      apply elem_of_union in Hx as [->%elem_of_singleton|Hx].
      * right. apply list_elem_of_filter. split; [tauto|done].
      * destruct (Hspend x c Hx Hc) as [?|[?|Hc']]; [done|set_solver|].
        apply elem_of_cons in Hc' as [->|Hc']; [set_solver|by left].
Qed.

Lemma trim_walk_runs fuel w :
  spenders_in_pool pool ->
  (forall x, x ∈ todo w -> is_Some (mapTx pool !! x)) ->
  (Z.to_nat (limit - walk_itertotal w) < fuel)%nat ->
  exists r, walk fuel w = Ok r.
Proof.
  intros Hsp. revert w. induction fuel as [|fuel IH]; intros w Htodo Hfuel; [lia|].
  destruct w as [[|hashnow rest] nw f s u it]; cbn [trim_walk todo]; [eauto|].
  case_decide; [eauto|].
  cbn [walk_itertotal nowfee now nowsize nowusage] in *.
  destruct (limit <? it + 1) eqn:Hlim; [eauto|].
  destruct (Htodo hashnow) as [origTx Ho]; [by left|]. rewrite Ho.
  cbn [deref]. rewrite Ok_bind.
  destruct (feeToUse <? _); [eauto|].
  apply IH; cbn [todo walk_itertotal].
  - intros x [Hx|Hx]%elem_of_app; [apply Htodo; by right|].
    apply list_elem_of_filter in Hx as [_ Hx].
    apply elem_of_spender_hashes in Hx as (o & i & _ & Hn). by eapply Hsp.
  - lia.
Qed.

Lemma trim_walk_not_Timeout fuel w :
  (Z.to_nat (limit - walk_itertotal w) < fuel)%nat -> walk fuel w <> Timeout.
Proof.
  revert w. induction fuel as [|fuel IH]; intros w Hfuel; [lia|].
  destruct w as [[|hashnow rest] nw f s u it]; cbn [trim_walk todo]; [done|].
  case_decide; [done|].
  cbn [walk_itertotal nowfee now nowsize nowusage] in *.
  destruct (limit <? it + 1) eqn:Hlim; [done|].
  destruct (mapTx pool !! hashnow) as [origTx|]; [|done].
  cbn [deref]. rewrite Ok_bind.
  destruct (feeToUse <? _); [done|].
  apply IH; cbn [walk_itertotal]. lia.
Qed.

End TrimWalk.

(** ** The scan of [TrimMempool] *)

Section TrimScan.

Variable pool : CTxMemPool.
Variable sizeToTrim : Z.
Variable protect : gset Z.
Variables nFeesReserved sizeToUse feeToUse iterextra : Z.

Notation scan := (trim_scan pool sizeToTrim protect nFeesReserved sizeToUse
                    feeToUse iterextra).

(** The stage has, with every transaction, its descendants, and nothing
    that is protected. *)
Definition stage_ok (X : gset Z) : Prop :=
  descendant_closed pool X /\ X ## protect.

Lemma trim_scan_stage_ok its st st' :
  scan its st = Ok st' -> stage_ok (stage_of st) -> stage_ok (stage_of st').
Proof.
  revert st. induction its as [|it its IH]; intros st H Hok; cbn [trim_scan] in H.
  - by apply Ok_inj in H as <-.
  - destruct (negb (usageRemoved st <? sizeToTrim)); [by apply Ok_inj in H as <-|].
    destruct (negb (insecure_rand (rand_calls st) mod 10 =? 0)); [by apply IH in H|].
    case_decide; [by apply IH in H|].
    destruct (feerate_gt (nFee it) (nTxSize it) feeToUse sizeToUse);
      [by apply Ok_inj in H as <-|].
    apply bind_Ok in H as ([good w] & Hwalk & H).
    destruct good; cbn [andb] in H.
    + destruct (negb (feerate_gt (nowfee w) (nowsize w) feeToUse sizeToUse)).
      * apply IH in H; [done|]. cbn [stage_of].
        apply trim_walk_good in Hwalk as [[Hdisj Hspend] Htodo].
        -- destruct Hok as [Hclosed Hprot]. split; [|set_solver].
           intros x c [Hx|Hx]%elem_of_union Hc.
           ++ apply elem_of_union_l. by eapply Hclosed.
           ++ destruct (Hspend x c Hx Hc) as [?|[?|Hc']]; [set_solver|set_solver|].
              rewrite Htodo in Hc'. by apply elem_of_nil in Hc'.
        -- split; cbn [now]; [set_solver|]. intros x c Hx. set_solver.
      * destruct (failmax <? fails st + 1); [by apply Ok_inj in H as <-|].
        by apply IH in H.
    + destruct (failmax <? fails st + 1); [by apply Ok_inj in H as <-|].
      by apply IH in H.
Qed.

Lemma trim_scan_runs its st :
  spenders_in_pool pool ->
  (forall it, it ∈ its -> is_Some (mapTx pool !! entry_hash it)) ->
  exists st', scan its st = Ok st'.
Proof.
  intros Hsp. revert st. induction its as [|it its IH]; intros st Hits;
    cbn [trim_scan]; [eauto|].
  assert (forall st1, exists st', scan its st1 = Ok st') as IH'.
  { intros st1. apply IH. intros x Hx. apply Hits. by right. }
  destruct (negb (usageRemoved st <? sizeToTrim)); [eauto|].
  destruct (negb (insecure_rand (rand_calls st) mod 10 =? 0)); [apply IH'|].
  case_decide; [apply IH'|].
  destruct (feerate_gt (nFee it) (nTxSize it) feeToUse sizeToUse); [eauto|].
  destruct (trim_walk_runs pool protect (stage_of st) nFeesReserved
              (nFeesRemoved_of st) feeToUse
              (iterextra + iterperfail * (fails st + 1))
              (walk_fuel (iterextra + iterperfail * (fails st + 1)) (itertotal st))
              (mkWalk [entry_hash it] ∅ 0 0 0 (itertotal st)) Hsp)
    as ([good w] & Hwalk).
  { intros x ->%list_elem_of_singleton. apply Hits. by left. }
  { unfold walk_fuel. cbn [walk_itertotal]. lia. }
  rewrite Hwalk, Ok_bind.
  destruct (good && _); [apply IH'|].
  destruct (failmax <? fails st + 1); [eauto|apply IH'].
Qed.

Lemma trim_scan_not_Timeout its st : scan its st <> Timeout.
Proof.
  revert st. induction its as [|it its IH]; intros st; cbn [trim_scan]; [done|].
  destruct (negb (usageRemoved st <? sizeToTrim)); [done|].
  destruct (negb (insecure_rand (rand_calls st) mod 10 =? 0)); [apply IH|].
  case_decide as Hstaged; [apply IH|].
  destruct (feerate_gt (nFee it) (nTxSize it) feeToUse sizeToUse); [done|].
  intros H. apply bind_Timeout in H as [H|([good w] & _ & H)].
  - revert H. apply trim_walk_not_Timeout. unfold walk_fuel.
    cbn [walk_itertotal]. lia.
  - destruct (good && _); [by apply IH in H|].
    destruct (failmax <? fails st + 1); [done|by apply IH in H].
Qed.

(** The scan of a list that goes on past a prefix either stopped in the
    prefix or goes on from the state the prefix left. *)
Lemma trim_scan_app pre rest st st1 :
  scan pre st = Ok st1 ->
  scan (pre ++ rest) st = Ok st1 \/ scan (pre ++ rest) st = scan rest st1.
Proof.
  revert st. induction pre as [|it pre IH]; intros st H; cbn [trim_scan app] in *.
  - apply Ok_inj in H as <-. by right.
  - destruct (negb (usageRemoved st <? sizeToTrim)); [by left|].
    destruct (negb (insecure_rand (rand_calls st) mod 10 =? 0)); [by apply IH|].
    case_decide; [by apply IH|].
    destruct (feerate_gt (nFee it) (nTxSize it) feeToUse sizeToUse); [by left|].
    destruct (trim_walk _ _ _ _ _ _ _ _ _) as [[good w]| |]; [|done|done].
    rewrite !Ok_bind in *.
    destruct (good && _); [by apply IH|].
    destruct (failmax <? fails st + 1); [by left|by apply IH].
Qed.

(** The scan at a candidate that is sampled, is not staged and has the
    worse fee rate: nothing but the count of random draws changes. *)
Lemma trim_scan_break it post st :
  insecure_rand (rand_calls st) mod 10 = 0 ->
  entry_hash it ∉ stage_of st ->
  feerate_gt (nFee it) (nTxSize it) feeToUse sizeToUse = true ->
  exists st', scan (it :: post) st = Ok st'
    /\ stage_of st' = stage_of st
    /\ nFeesRemoved_of st' = nFeesRemoved_of st
    /\ usageRemoved st' = usageRemoved st.
Proof.
  intros Hrand Hstage Hworse. cbn [trim_scan].
  destruct (negb (usageRemoved st <? sizeToTrim)); [by exists st|].
  rewrite Hrand. cbn [Z.eqb negb]. rewrite decide_False by done. rewrite Hworse.
  eexists. split; [done|]. done.
Qed.

End TrimScan.

Lemma TrimMempool_not_Timeout pool sizeToTrim protect nFeesReserved sizeToUse
    feeToUse mustTrimAllSize iterextra stage nFeesRemoved :
  TrimMempool pool sizeToTrim protect nFeesReserved sizeToUse feeToUse
    mustTrimAllSize iterextra stage nFeesRemoved <> Timeout.
Proof.
  unfold TrimMempool. intros H.
  apply bind_Timeout in H as [H|(st & _ & H)]; [by apply trim_scan_not_Timeout in H|].
  destruct (mustTrimAllSize && _); [done|]. by destruct (bool_decide _ && _).
Qed.

Lemma TrimMempool_Ok pool sizeToTrim protect nFeesReserved sizeToUse feeToUse
    mustTrimAllSize iterextra stage nFeesRemoved ok stage' fees' :
  TrimMempool pool sizeToTrim protect nFeesReserved sizeToUse feeToUse
    mustTrimAllSize iterextra stage nFeesRemoved = Ok (ok, stage', fees') ->
  exists st,
    trim_scan pool sizeToTrim protect nFeesReserved sizeToUse feeToUse iterextra
      (index_descendant_score_rev (mapTx pool)) (mkTrim 0 0 0 stage nFeesRemoved O)
    = Ok st
    /\ stage' = stage_of st /\ fees' = nFeesRemoved_of st.
Proof.
  unfold TrimMempool. intros H. apply bind_Ok in H as (st & Hscan & H).
  exists st. split; [done|].
  destruct (mustTrimAllSize && _); [by injection H as _ <- <-|].
  destruct (bool_decide _ && _); by injection H as _ <- <-.
Qed.

Lemma SurplusTrim_not_Timeout pool multiplier rate usage :
  SurplusTrim pool multiplier rate usage <> Timeout.
Proof.
  unfold SurplusTrim. intros H.
  apply bind_Timeout in H as [H|([[ok stage] fees] & _ & H)];
    [by apply TrimMempool_not_Timeout in H|].
  destruct ok; [by apply RemoveStaged_not_Timeout in H|done].
Qed.

(** ** What a removal leaves in the pool *)

Lemma dom_mapTx_UpdateChild pool entry child add :
  mapTx (UpdateChild pool entry child add) = mapTx pool.
Proof. unfold UpdateChild. destruct add; case_decide; reflexivity. Qed.

Lemma dom_mapTx_UpdateParent pool entry parent add :
  mapTx (UpdateParent pool entry parent add) = mapTx pool.
Proof. unfold UpdateParent. destruct add; case_decide; reflexivity. Qed.

Lemma dom_modify_descendant_state ms mf mc pool h pool' :
  modify_descendant_state ms mf mc pool h = Ok pool' ->
  dom (mapTx pool') = dom (mapTx pool).
Proof.
  unfold modify_descendant_state. intros H. apply bind_Ok in H as (e & He & H).
  apply deref_Ok in He. apply Ok_inj in H as <-. cbn.
  rewrite dom_insert_L. apply elem_of_dom_2 in He. set_solver.
Qed.

Lemma dom_UpdateAncestorsOf pool add hash SA pool' :
  UpdateAncestorsOf pool add hash SA = Ok pool' ->
  dom (mapTx pool') = dom (mapTx pool).
Proof.
  unfold UpdateAncestorsOf. intros H.
  apply bind_Ok in H as (ps & _ & H). apply bind_Ok in H as (p1 & Hp1 & H).
  apply bind_Ok in H as (it & _ & H).
  transitivity (dom (mapTx p1)).
  - revert H. apply (foreach_inv (fun p => dom (mapTx p) = dom (mapTx p1))); [|done].
    intros s1 h s2 _ Hs1 Hstep. by rewrite (dom_modify_descendant_state _ _ _ _ _ _ Hstep).
  - revert Hp1. apply (foreach_inv (fun p => dom (mapTx p) = dom (mapTx pool))); [|done].
    intros s1 h s2 _ Hs1 Hstep. apply bind_Ok in Hstep as (? & _ & Hstep).
    apply Ok_inj in Hstep as <-. by rewrite dom_mapTx_UpdateChild.
Qed.

Lemma dom_UpdateChildrenForRemoval pool hash pool' :
  UpdateChildrenForRemoval pool hash = Ok pool' -> mapTx pool' = mapTx pool.
Proof.
  unfold UpdateChildrenForRemoval. intros H. apply bind_Ok in H as (cs & _ & H).
  revert H. apply (foreach_inv (fun p => mapTx p = mapTx pool)); [|done].
  intros s1 h s2 _ Hs1 Hstep. apply bind_Ok in Hstep as (? & _ & Hstep).
  apply Ok_inj in Hstep as <-. by rewrite dom_mapTx_UpdateParent.
Qed.

Lemma dom_UpdateForRemoveFromMempool pool hashes pool' :
  UpdateForRemoveFromMempool pool hashes = Ok pool' ->
  dom (mapTx pool') = dom (mapTx pool).
Proof.
  unfold UpdateForRemoveFromMempool. intros H. apply bind_Ok in H as (p1 & Hp1 & H).
  transitivity (dom (mapTx p1)).
  - revert H. apply (foreach_inv (fun p => dom (mapTx p) = dom (mapTx p1))); [|done].
    intros s1 h s2 _ Hs1 Hstep. by rewrite (dom_UpdateChildrenForRemoval _ _ _ Hstep).
  - revert Hp1. apply (foreach_inv (fun p => dom (mapTx p) = dom (mapTx pool))); [|done].
    intros s1 h s2 _ Hs1 Hstep. apply bind_Ok in Hstep as (e & _ & Hstep).
    apply bind_Ok in Hstep as ([SA err] & _ & Hstep).
    by rewrite (dom_UpdateAncestorsOf _ _ _ _ _ Hstep).
Qed.

Lemma dom_removeUnchecked_all l pool pool' :
  foreach removeUnchecked l pool = Ok pool' ->
  dom (mapTx pool') = dom (mapTx pool) ∖ list_to_set l.
Proof.
  revert pool. induction l as [|h l IH]; intros pool H; cbn [foreach] in H.
  - apply Ok_inj in H as <-. set_solver.
  - apply bind_Ok in H as (p1 & Hstep & H). apply IH in H. rewrite H.
    unfold removeUnchecked in Hstep. apply bind_Ok in Hstep as (e & _ & Hstep).
    apply Ok_inj in Hstep as <-. cbn [mapTx]. rewrite dom_delete_L. set_solver.
Qed.

Lemma dom_RemoveStaged pool stage pool' :
  RemoveStaged pool stage = Ok pool' ->
  dom (mapTx pool') = dom (mapTx pool) ∖ stage.
Proof.
  unfold RemoveStaged. intros H. apply bind_Ok in H as (p1 & Hp1 & H).
  apply dom_removeUnchecked_all in H. rewrite H.
  rewrite (dom_UpdateForRemoveFromMempool _ _ _ Hp1).
  by rewrite list_to_set_sorted_elements.
Qed.

(** ** C1: eviction spares the ancestors of the incoming transaction *)

Lemma ancestors_not_staged pool tx protect X :
  inputs_registered pool -> stage_ok pool protect X ->
  (forall o, o ∈ vin tx -> outpoint_hash o ∈ protect) ->
  forall a, ancestor_of (mapTx pool) tx a -> a ∉ X.
Proof.
  intros Hreg [Hclosed Hdisj] Hprotect a Ha.
  induction Ha as [p [_ (o & Ho & <-)]|a e p _ IH He [_ (o & Ho & <-)]].
  - specialize (Hprotect o Ho). set_solver.
  - intros Hp. apply IH. apply (Hclosed (outpoint_hash o)); [done|].
    destruct (Hreg a e o He Ho) as [i Hi].
    apply elem_of_spender_hashes. by exists o, i.
Qed.

Lemma stage_ok_empty pool protect : stage_ok pool protect ∅.
Proof. split; [intros x c Hx; set_solver | set_solver]. Qed.

(** C1.  For a pool whose [mapNextTx] holds the inputs of its entries,
    [StageTrimToSize] returns, and the stage it returns has no in-mempool
    ancestor of [toadd]: every such ancestor is still in the pool after
    [RemoveStaged], whatever its fee. *)
Theorem StageTrimToSize_spares_ancestors
    (pool : CTxMemPool) (sizelimit : Z) (toadd : CTxMemPoolEntry)
    (nFeesReserved nFeesRemoved : Z) :
  inputs_registered pool ->
  spenders_in_pool pool ->
  (forall it, it ∈ index_descendant_score_rev (mapTx pool) ->
     is_Some (mapTx pool !! entry_hash it)) ->
  exists ok stage fees,
    StageTrimToSize pool sizelimit toadd nFeesReserved ∅ nFeesRemoved
    = Ok (ok, stage, fees)
    /\ forall a, ancestor_of (mapTx pool) (GetTx toadd) a ->
         a ∉ stage
         /\ forall pool', RemoveStaged pool stage = Ok pool' ->
              is_Some (mapTx pool' !! a).
Proof.
  intros Hreg Hsp Hindex.
  assert (forall (ok : bool) (stage : gset Z) (fees : Z),
            stage_ok pool (list_to_set (map outpoint_hash (vin (GetTx toadd)))) stage ->
            exists ok' stage' fees',
              (Ok (ok, stage, fees) : result (bool * gset Z * Z))
              = Ok (ok', stage', fees')
              /\ forall a, ancestor_of (mapTx pool) (GetTx toadd) a ->
                   a ∉ stage'
                   /\ forall pool', RemoveStaged pool stage' = Ok pool' ->
                        is_Some (mapTx pool' !! a)) as Hdone.
  { intros ok stage fees Hok. exists ok, stage, fees. split; [done|].
    intros a Ha.
    assert (a ∉ stage) as Hnot.
    { eapply ancestors_not_staged; [done|exact Hok| |exact Ha].
      intros o Ho. apply elem_of_list_to_set, list_elem_of_In, in_map.
      by apply list_elem_of_In. }
    split; [done|]. intros pool' Hrm. apply elem_of_dom.
    rewrite (dom_RemoveStaged _ _ _ Hrm). apply elem_of_difference. split; [|done].
    by apply elem_of_dom, (ancestor_of_in_pool _ _ _ Ha). }
  unfold StageTrimToSize.
  destruct (_ <=? sizelimit); [apply Hdone, stage_ok_empty|].
  unfold TrimMempool.
  match goal with
  | |- context [trim_scan ?p ?s ?pr ?r ?su ?fu ?ie ?its ?st0] =>
      destruct (trim_scan_runs p s pr r su fu ie its st0 Hsp Hindex) as [st Hscan];
      pose proof (trim_scan_stage_ok p s pr r su fu ie its st0 st Hscan
                    (stage_ok_empty _ _)) as Hok
  end.
  rewrite Hscan, Ok_bind.
  destruct (true && _); [by apply Hdone|].
  destruct (bool_decide _ && _); by apply Hdone.
Qed.

(** ** C7: the scan stops at the first candidate that pays more *)

(** C7 (as the code has it).  Let the scan of [TrimMempool] have left the
    state [st1] when it comes to the candidate [it].  If [it] is sampled,
    is not yet staged, and its fee rate is higher than that of the
    incoming transaction, [(double)fee * sizeToUse > (double)feeToUse *
    size] -- which is what the comment in the source calls worse -- the
    scan ends there: [TrimMempool] returns the stage and the removed fees
    of [st1], whatever candidates follow. *)
Theorem TrimMempool_stops_at_higher_feerate
    (pool : CTxMemPool) (sizeToTrim : Z) (protect : gset Z)
    (nFeesReserved sizeToUse feeToUse : Z) (mustTrimAllSize : bool)
    (iterextra : Z) (stage : gset Z) (nFeesRemoved : Z)
    (pre post : list CTxMemPoolEntry) (it : CTxMemPoolEntry) (st1 : TrimState) :
  index_descendant_score_rev (mapTx pool) = pre ++ it :: post ->
  trim_scan pool sizeToTrim protect nFeesReserved sizeToUse feeToUse iterextra
    pre (mkTrim 0 0 0 stage nFeesRemoved O) = Ok st1 ->
  insecure_rand (rand_calls st1) mod 10 = 0 ->
  entry_hash it ∉ stage_of st1 ->
  feerate_gt (nFee it) (nTxSize it) feeToUse sizeToUse = true ->
  exists ok,
    TrimMempool pool sizeToTrim protect nFeesReserved sizeToUse feeToUse
      mustTrimAllSize iterextra stage nFeesRemoved
    = Ok (ok, stage_of st1, nFeesRemoved_of st1).
Proof.
  intros Hindex Hpre Hrand Hstaged Hworse. unfold TrimMempool. rewrite Hindex.
  destruct (trim_scan_break pool sizeToTrim protect nFeesReserved sizeToUse
              feeToUse iterextra it post st1 Hrand Hstaged Hworse)
    as (st' & Hbreak & Hstage & Hfees & Husage).
  assert (exists st2,
            trim_scan pool sizeToTrim protect nFeesReserved sizeToUse feeToUse
              iterextra (pre ++ it :: post) (mkTrim 0 0 0 stage nFeesRemoved O)
            = Ok st2
            /\ stage_of st2 = stage_of st1
            /\ nFeesRemoved_of st2 = nFeesRemoved_of st1) as (st2 & -> & <- & <-).
  { destruct (trim_scan_app pool sizeToTrim protect nFeesReserved sizeToUse
                feeToUse iterextra pre (it :: post) _ _ Hpre) as [->| ->].
    - by exists st1.
    - by exists st'. }
  rewrite Ok_bind.
  destruct (mustTrimAllSize && _); [by eexists|].
  destruct (bool_decide _ && _); by eexists.
Qed.

(** ** C8: prioritisation deltas and removal *)

(** One removal from the pool by a path other than the connection of a
    block: [remove] (recursive or not), [removeConflicts], the eviction of
    a stage, the periodic trim, and expiry. *)
Inductive removal (pool pool' : CTxMemPool) : Prop :=
| removal_remove origTx removed fRecursive removed' :
    remove pool origTx removed fRecursive = Ok (pool', removed') ->
    removal pool pool'
| removal_conflicts tx removed removed' :
    removeConflicts pool tx removed = Ok (pool', removed') ->
    removal pool pool'
| removal_eviction stage :
    RemoveStaged pool stage = Ok pool' ->
    removal pool pool'
| removal_surplus multiplier minRelayFeePerK usageToTrim :
    SurplusTrim pool multiplier minRelayFeePerK usageToTrim = Ok pool' ->
    removal pool pool'
| removal_expiry time count :
    Expire pool time = Ok (pool', count) ->
    removal pool pool'.

Lemma removal_mapDeltas pool pool' : removal pool pool' -> mapDeltas pool' = mapDeltas pool.
Proof.
  intros [tx r rec r' H|tx r r' H|stage H|m rate u H|time n H].
  - by apply mapDeltas_remove in H.
  - by apply mapDeltas_removeConflicts in H.
  - by apply mapDeltas_RemoveStaged in H.
  - by apply mapDeltas_SurplusTrim in H.
  - by apply mapDeltas_Expire in H.
Qed.

Lemma lookup_cleared (vtx : list CTransaction) (m : gmap Z (double * Z)) (h : Z) :
  fold_left (fun m tx => delete (GetHash tx) m) vtx m !! h
  = if decide (h ∈ GetHash <$> vtx) then None else m !! h.
Proof.
  revert m. induction vtx as [|tx vtx IH]; intros m; cbn [fold_left].
  - rewrite decide_False; [done|]. by intros ?%elem_of_nil.
  - rewrite IH, fmap_cons. destruct (decide (h = GetHash tx)) as [->|Hne].
    + rewrite lookup_delete_eq. rewrite (decide_True (P := _ ∈ _ :: _)) by by left.
      by case_decide.
    + rewrite lookup_delete_ne by done.
      destruct (decide (h ∈ GetHash <$> vtx)) as [Hin|Hin].
      * rewrite decide_True; [done|by right].
      * rewrite decide_False; [done|]. by intros [?|?]%elem_of_cons.
Qed.

(** C8 (as the code has it).  After a removal by [remove],
    [removeConflicts], eviction, the periodic trim or expiry,
    [ApplyDeltas] gives for every txid what it gave before.  After
    [removeForBlock] it does so for every txid that is not in the block;
    for the transactions of the block the delta is cleared, and
    [ApplyDeltas] leaves its arguments as they are. *)
Theorem prioritisation_persists_except_for_block :
  (forall pool pool' : CTxMemPool,
     removal pool pool' ->
     forall hash dPriorityDelta nFeeDelta,
       ApplyDeltas pool' hash dPriorityDelta nFeeDelta
       = ApplyDeltas pool hash dPriorityDelta nFeeDelta)
  /\ (forall (pool pool' : CTxMemPool) vtx conflicts conflicts' entries,
        removeForBlock pool vtx conflicts = Ok (pool', conflicts', entries) ->
        forall hash dPriorityDelta nFeeDelta,
          ApplyDeltas pool' hash dPriorityDelta nFeeDelta
          = if decide (hash ∈ GetHash <$> vtx)
            then (dPriorityDelta, nFeeDelta)
            else ApplyDeltas pool hash dPriorityDelta nFeeDelta).
Proof.
  split.
  - intros pool pool' Hrm hash d f. unfold ApplyDeltas.
    by rewrite (removal_mapDeltas _ _ Hrm).
  - intros pool pool' vtx c c' es Hrm hash d f. unfold ApplyDeltas.
    rewrite (mapDeltas_removeForBlock _ _ _ _ _ _ Hrm), lookup_cleared.
    by case_decide.
Qed.

(** ** The sanity check: what its first loop establishes *)

Lemma elem_of_outputs_of (tx : CTransaction) (o : COutPoint) :
  outpoint_hash o = GetHash tx ->
  0 <= outpoint_n o < Z.of_nat (length (vout tx)) ->
  IsNull_txout (nth (Z.to_nat (outpoint_n o)) (vout tx) (-1)) = false ->
  o ∈ outputs_of tx.
Proof.
  destruct o as [h n]. cbn [outpoint_hash outpoint_n fst snd]. intros -> Hn Hnull.
  unfold outputs_of. apply elem_of_list_to_set, list_elem_of_omap.
  exists (n, nth (Z.to_nat n) (vout tx) (-1)). split; [|by rewrite Hnull].
  apply list_elem_of_lookup. exists (Z.to_nat n).
  rewrite lookup_zip_with. unfold output_indices.
  assert (Z.to_nat n < length (vout tx))%nat as Hlt by lia.
  change (map Z.of_nat (seq 0 (length (vout tx))))
    with (Z.of_nat <$> seq 0 (length (vout tx))).
  rewrite list_lookup_fmap, lookup_seq_lt by done. cbn.
  destruct (nth_lookup_or_length (vout tx) (Z.to_nat n) (-1)) as [->|?]; [|lia].
  cbn. do 2 f_equal. lia.
Qed.

(** The entry spends from a transaction of the pool: [fDependsWait]. *)
Definition depends_on_pool (pool : CTxMemPool) (it : CTxMemPoolEntry) : bool :=
  existsb (fun o => bool_decide (is_Some (mapTx pool !! outpoint_hash o)))
          (vin (GetTx it)).

(** What the asserts of [check] on one input say. *)
Definition input_resolved (pool : CTxMemPool) (pcoins : CCoinsView)
    (tx : CTransaction) (o : COutPoint) : Prop :=
  (exists i, mapNextTx pool !! o = Some (GetHash tx, i))
  /\ match mapTx pool !! outpoint_hash o with
     | Some it2 =>
         outpoint_n o < Z.of_nat (length (vout (GetTx it2)))
         /\ IsNull_txout (nth (Z.to_nat (outpoint_n o)) (vout (GetTx it2)) (-1))
            = false
     | None => o ∈ pcoins
     end.

Lemma check_inputs_spec pool pcoins tx ins i dep par dep' par' :
  check_inputs pool pcoins tx ins i dep par = Ok (dep', par') ->
  (forall o, o ∈ ins -> input_resolved pool pcoins tx o)
  /\ dep' = dep || existsb (fun o => bool_decide (is_Some (mapTx pool !! outpoint_hash o)))
                     ins.
Proof.
  revert i dep par. induction ins as [|o ins IH]; intros i dep par H;
    cbn [check_inputs] in H.
  - injection H as <- <-. split; [by intros o ?%elem_of_nil|].
    by rewrite orb_false_r.
  - apply bind_Ok in H as ([dep1 par1] & Hfirst & H).
    apply bind_Ok in H as ([ptx n] & Hnext & H). apply deref_Ok in Hnext.
    apply bind_Ok in H as (_ & Hptx%assert_Ok & H).
    apply bind_Ok in H as (_ & Hn%assert_Ok & H).
    cbn [fst snd] in Hptx, Hn. apply Z.eqb_eq in Hptx as ->.
    apply IH in H as [Hall ->].
    assert (input_resolved pool pcoins tx o
            /\ dep1 = dep || bool_decide (is_Some (mapTx pool !! outpoint_hash o)))
      as [Ho ->].
    { unfold input_resolved.
      destruct (mapTx pool !! outpoint_hash o) as [it2|] eqn:Hit2.
      - apply bind_Ok in Hfirst as (_ & Ha%assert_Ok & Hfirst).
        apply Ok_inj in Hfirst. injection Hfirst as <- _.
        apply andb_true_iff in Ha as [Hlt Hnull%negb_true_iff].
        split; [split; [eauto|split; [lia|done]]|].
        rewrite bool_decide_eq_true_2 by eauto. by rewrite orb_true_r.
      - apply bind_Ok in Hfirst as (_ & Ha%assert_Ok & Hfirst).
        apply Ok_inj in Hfirst. injection Hfirst as <- _.
        apply bool_decide_eq_true in Ha.
        split; [split; [eauto|done]|].
        rewrite bool_decide_eq_false_2 by (by intros [? ?]). by rewrite orb_false_r. }
    split.
    + intros o' [->|Ho']%elem_of_cons; [done|by apply Hall].
    + cbn [existsb]. by rewrite orb_assoc.
Qed.

Lemma check_entry_spec pool pcoins cs it cs' :
  check_entry pool pcoins cs it = Ok cs' ->
  (forall o, o ∈ vin (GetTx it) -> input_resolved pool pcoins (GetTx it) o)
  /\ if depends_on_pool pool it
     then waitingOnDependants cs' = waitingOnDependants cs ++ [it]
          /\ mempoolDuplicate cs' = mempoolDuplicate cs
     else waitingOnDependants cs' = waitingOnDependants cs
          /\ mempoolDuplicate cs' = UpdateCoins (GetTx it) (mempoolDuplicate cs).
Proof.
  unfold check_entry. intros H.
  apply bind_Ok in H as (links & _ & H).
  apply bind_Ok in H as ([dep par] & Hins & H).
  apply check_inputs_spec in Hins as [Hall Hdep]. cbn [orb] in Hdep.
  fold (depends_on_pool pool it) in Hdep. subst dep.
  apply bind_Ok in H as (ps & _ & H). apply bind_Ok in H as (_ & _ & H).
  apply bind_Ok in H as ([[cc csz] cf] & _ & H).
  apply bind_Ok in H as (chs & _ & H). apply bind_Ok in H as (_ & _ & H).
  apply bind_Ok in H as (_ & _ & H). apply bind_Ok in H as (_ & _ & H).
  split; [done|].
  destruct (depends_on_pool pool it).
  - by apply Ok_inj in H as <-.
  - apply bind_Ok in H as (_ & _ & H). by apply Ok_inj in H as <-.
Qed.

(** The view after the first loop of [check]: the entries that do not
    depend on the pool have been admitted, in the order of the index. *)
Definition admit_independent (pool : CTxMemPool) (l : list CTxMemPoolEntry)
    (view : CCoinsView) : CCoinsView :=
  fold_left (fun v it => if depends_on_pool pool it then v
                         else UpdateCoins (GetTx it) v) l view.

Lemma check_entries_spec pool pcoins l cs cs' :
  foreach (check_entry pool pcoins) l cs = Ok cs' ->
  (forall it o, it ∈ l -> o ∈ vin (GetTx it) ->
     input_resolved pool pcoins (GetTx it) o)
  /\ waitingOnDependants cs'
     = waitingOnDependants cs ++ filter (fun it => depends_on_pool pool it = true) l
  /\ mempoolDuplicate cs' = admit_independent pool l (mempoolDuplicate cs).
Proof.
  revert cs. induction l as [|it l IH]; intros cs H; cbn [foreach] in H.
  - apply Ok_inj in H as <-. split; [by intros it o ?%elem_of_nil|].
    by rewrite app_nil_r.
  - apply bind_Ok in H as (cs1 & Hstep & H).
    apply check_entry_spec in Hstep as [Hit Hstep].
    apply IH in H as (Hall & Hw & Hv). split; [|split].
    + intros it' o [->|Hin]%elem_of_cons; [apply Hit|by apply Hall].
    + rewrite Hw, filter_cons. unfold admit_independent in *.
      destruct (depends_on_pool pool it) eqn:Hdep.
      * destruct Hstep as [-> _]. rewrite decide_True by done.
        by rewrite <- (assoc_L (++)).
      * destruct Hstep as [-> _]. by rewrite decide_False by done.
    + rewrite Hv. unfold admit_independent. cbn [fold_left].
      destruct (depends_on_pool pool it); by destruct Hstep as [_ ->].
Qed.

Lemma UpdateCoins_keeps tx view o : o ∈ view -> o ∉ vin tx -> o ∈ UpdateCoins tx view.
Proof.
  intros Hin Hnot. unfold UpdateCoins. apply elem_of_union_l, elem_of_difference.
  split; [done|]. by rewrite elem_of_list_to_set.
Qed.

Lemma UpdateCoins_adds tx view o : o ∈ outputs_of tx -> o ∈ UpdateCoins tx view.
Proof. intros H. unfold UpdateCoins. by apply elem_of_union_r. Qed.

Lemma admit_independent_keeps pool l view o :
  o ∈ view ->
  (forall x, x ∈ l -> depends_on_pool pool x = false -> o ∉ vin (GetTx x)) ->
  o ∈ admit_independent pool l view.
Proof.
  revert view. induction l as [|x l IH]; intros view Hin Hl; [done|].
  unfold admit_independent. cbn [fold_left]. apply IH.
  - destruct (depends_on_pool pool x) eqn:Hx; [done|].
    apply UpdateCoins_keeps; [done|]. apply Hl; [by left|done].
  - intros y Hy. apply Hl. by right.
Qed.

Lemma admit_independent_adds pool l view x o :
  x ∈ l -> depends_on_pool pool x = false -> o ∈ outputs_of (GetTx x) ->
  (forall y, y ∈ l -> depends_on_pool pool y = false -> o ∉ vin (GetTx y)) ->
  o ∈ admit_independent pool l view.
Proof.
  revert view. induction l as [|y l IH]; intros view Hx Hdep Ho Hl;
    [by apply elem_of_nil in Hx|].
  unfold admit_independent. cbn [fold_left].
  apply elem_of_cons in Hx as [<-|Hx].
  - rewrite Hdep. apply admit_independent_keeps; [by apply UpdateCoins_adds|].
    intros z Hz. apply Hl. by right.
  - apply IH; [done|done|done|]. intros z Hz. apply Hl. by right.
Qed.

Lemma depends_on_pool_true pool it :
  depends_on_pool pool it = true
  <-> exists o, o ∈ vin (GetTx it) /\ is_Some (mapTx pool !! outpoint_hash o).
Proof.
  unfold depends_on_pool. rewrite existsb_exists. split.
  - intros (o & Hin%list_elem_of_In & Ho%bool_decide_eq_true). eauto.
  - intros (o & Hin & Ho). exists o. split; [by apply list_elem_of_In|].
    by apply bool_decide_eq_true.
Qed.

Lemma depends_on_pool_false pool it o :
  depends_on_pool pool it = false -> o ∈ vin (GetTx it) ->
  mapTx pool !! outpoint_hash o = None.
Proof.
  intros Hdep Ho. destruct (mapTx pool !! outpoint_hash o) eqn:Hl; [|done].
  assert (depends_on_pool pool it = true) as Ht; [|congruence].
  apply depends_on_pool_true. exists o. split; [done|]. by rewrite Hl.
Qed.

Lemma HaveInputs_true view tx :
  HaveInputs view tx = true <-> forall o, o ∈ vin tx -> o ∈ view.
Proof.
  unfold HaveInputs. rewrite forallb_forall. split.
  - intros H o Ho%list_elem_of_In. specialize (H o Ho).
    by apply bool_decide_eq_true in H.
  - intros H o Ho%list_elem_of_In. apply bool_decide_eq_true_2. by apply H.
Qed.

(** A non-empty list has an element of least rank. *)
Lemma least_rank {A : Type} (f : A -> nat) (l : list A) :
  l ≠ [] -> exists x, x ∈ l /\ forall y, y ∈ l -> (f x <= f y)%nat.
Proof.
  induction l as [|a l IH]; [done|]. intros _.
  destruct l as [|b l].
  - exists a. split; [by left|]. by intros y ->%list_elem_of_singleton.
  - destruct IH as (x & Hx & Hmin); [done|].
    destruct (decide (f a <= f x)%nat) as [Hle|Hgt].
    + exists a. split; [by left|].
      intros y [->|Hy]%elem_of_cons; [done|]. specialize (Hmin y Hy). lia.
    + exists x. split; [by right|].
      intros y [->|Hy]%elem_of_cons; [lia|by apply Hmin].
Qed.

(** ** C9: the loop over the pending transactions ends *)

(** [1 + 2 + ... + n] *)
Fixpoint tri (n : nat) : nat :=
  match n with
  | O => O
  | S k => (S k + tri k)%nat
  end.

Lemma tri_pred (n : nat) : (n + tri (pred n) = tri n)%nat.
Proof. by destruct n. Qed.

Lemma tri_le_square (n : nat) : (tri n <= n * n)%nat.
Proof. induction n as [|n IH]; cbn; lia. Qed.

Section CheckWaiting.

Variable pool : CTxMemPool.
Variable pcoins : CCoinsView.
(** The entries of the pool in the order of the index. *)
Variable L : list CTxMemPoolEntry.
(** A rank that grows from parent to child: the graph is acyclic. *)
Variable rank : Z -> nat.

Hypothesis Hkey : forall h e, mapTx pool !! h = Some e -> entry_hash e = h.
Hypothesis Hidx : forall e, e ∈ L <-> exists h, mapTx pool !! h = Some e.
Hypothesis Hnodup : NoDup L.
Hypothesis Hres : forall it o, it ∈ L -> o ∈ vin (GetTx it) ->
  input_resolved pool pcoins (GetTx it) o.
Hypothesis Hnn : forall it o, it ∈ L -> o ∈ vin (GetTx it) -> 0 <= outpoint_n o.
Hypothesis Hrank : forall it o, it ∈ L -> o ∈ vin (GetTx it) ->
  is_Some (mapTx pool !! outpoint_hash o) ->
  (rank (outpoint_hash o) < rank (entry_hash it))%nat.
Hypothesis Hcheck : forall it view, it ∈ L ->
  HaveInputs view (GetTx it) = true -> CheckInputs (GetTx it) view = true.

Lemma in_pool it : it ∈ L -> mapTx pool !! entry_hash it = Some it.
Proof. intros (h & Hh)%Hidx. by rewrite (Hkey h it Hh). Qed.

Lemma hash_inj it it' : it ∈ L -> it' ∈ L -> entry_hash it = entry_hash it' -> it = it'.
Proof.
  intros H1%in_pool H2%in_pool Heq. rewrite Heq in H1. congruence.
Qed.

Lemma no_double_spend it it' o :
  it ∈ L -> it' ∈ L -> o ∈ vin (GetTx it) -> o ∈ vin (GetTx it') -> it = it'.
Proof.
  intros Hit Hit' Ho Ho'.
  destruct (Hres it o Hit Ho) as [[i Hi] _].
  destruct (Hres it' o Hit' Ho') as [[i' Hi'] _].
  apply hash_inj; [done|done|]. unfold entry_hash. congruence.
Qed.

Lemma parent_output it o it2 :
  it ∈ L -> o ∈ vin (GetTx it) -> mapTx pool !! outpoint_hash o = Some it2 ->
  o ∈ outputs_of (GetTx it2).
Proof.
  intros Hit Ho Hit2. destruct (Hres it o Hit Ho) as [_ Hout].
  rewrite Hit2 in Hout. destruct Hout as [Hlt Hnull].
  apply elem_of_outputs_of; [|split; [by eapply Hnn|done]|done].
  symmetry. apply (Hkey _ _ Hit2).
Qed.

(** What holds of the view and the pending list: an input of a pending
    entry that does not wait for another pending entry is available. *)
Definition pending_invariant (view : CCoinsView) (W : list CTxMemPoolEntry) : Prop :=
  (forall e, e ∈ W -> e ∈ L) /\ NoDup W
  /\ forall e o, e ∈ W -> o ∈ vin (GetTx e) ->
       (forall e', e' ∈ W -> entry_hash e' ≠ outpoint_hash o) -> o ∈ view.

Lemma pending_invariant_Permutation view W W' :
  W ≡ₚ W' -> pending_invariant view W -> pending_invariant view W'.
Proof.
  intros Hp (HL & Hnd & Hin). split; [|split].
  - intros e He. apply HL. by rewrite Hp.
  - by rewrite <- Hp.
  - intros e o He Ho Hno. apply (Hin e o); [by rewrite Hp|done|].
    intros e' He'. apply Hno. by rewrite <- Hp.
Qed.

Lemma pending_invariant_initial :
  pending_invariant (admit_independent pool L pcoins)
    (filter (fun it => depends_on_pool pool it = true) L).
Proof.
  split; [|split].
  - by intros e [_ He]%list_elem_of_filter.
  - by apply NoDup_filter.
  - intros e o [Hdep He]%list_elem_of_filter Ho Hno.
    assert (forall y, y ∈ L -> depends_on_pool pool y = false -> o ∉ vin (GetTx y))
      as Hfree.
    { intros y Hy Hdy Hoy. assert (e = y) by by eapply no_double_spend.
      subst y. congruence. }
    destruct (mapTx pool !! outpoint_hash o) as [it2|] eqn:Hit2.
    + assert (it2 ∈ L) as HitL by (apply Hidx; eauto).
      apply (admit_independent_adds pool L pcoins it2);
        [done| |by apply (parent_output e)|done].
      destruct (depends_on_pool pool it2) eqn:Hd2; [|done].
      destruct (Hno it2); [by apply list_elem_of_filter|by apply Hkey].
    + apply admit_independent_keeps; [|done].
      destruct (Hres e o He Ho) as [_ Hout]. by rewrite Hit2 in Hout.
Qed.

Lemma pending_ready view W :
  W ≠ [] -> pending_invariant view W ->
  exists e, e ∈ W /\ HaveInputs view (GetTx e) = true.
Proof.
  intros Hne (HL & Hnd & Hin).
  destruct (least_rank (fun e => rank (entry_hash e)) W Hne) as (x & Hx & Hmin).
  exists x. split; [done|]. apply HaveInputs_true. intros o Ho.
  apply (Hin x o Hx Ho). intros e' He' Heq.
  assert (rank (outpoint_hash o) < rank (entry_hash x))%nat as Hlt.
  { apply Hrank; [by apply HL|done|]. rewrite <- Heq, in_pool by by apply HL. eauto. }
  specialize (Hmin e' He'). rewrite Heq in Hmin. lia.
Qed.

Lemma pending_invariant_admit view x rest :
  pending_invariant view (x :: rest) ->
  pending_invariant (UpdateCoins (GetTx x) view) rest.
Proof.
  intros (HL & Hnd & Hin). apply NoDup_cons in Hnd as [Hx Hnd].
  split; [|split; [done|]].
  - intros e He. apply HL. by right.
  - intros e o He Ho Hno.
    destruct (decide (entry_hash x = outpoint_hash o)) as [Heq|Hne].
    + apply UpdateCoins_adds. apply (parent_output e); [apply HL; by right|done|].
      rewrite <- Heq. apply in_pool, HL. by left.
    + apply UpdateCoins_keeps.
      * apply (Hin e o); [by right|done|].
        intros e' [->|He']%elem_of_cons; [done|by apply Hno].
      * intros Hox. assert (e = x); [|by subst].
        eapply no_double_spend; [apply HL; by right|apply HL; by left|done|done].
Qed.

Lemma check_waiting_spec fuel view l2 l1 steps rounds :
  pending_invariant view (l2 ++ l1) ->
  (forall e, e ∈ l1 -> HaveInputs view (GetTx e) = false) ->
  steps = Z.of_nat (length l1) ->
  Z.of_nat (length (l2 ++ l1)) < 2 ^ 32 ->
  (length l2 + tri (pred (length (l2 ++ l1))) <= fuel)%nat ->
  exists view' r,
    check_waiting fuel view (l2 ++ l1) steps rounds = Ok (view', r)
    /\ (r <= rounds + length l2 + tri (pred (length (l2 ++ l1))))%nat.
Proof.
  revert view l2 l1 steps rounds.
  induction fuel as [|fuel IH]; intros view l2 l1 steps rounds Hinv Hl1 Hsteps Hlen Hfuel.
  - assert (l2 = []) as -> by (destruct l2; [done|cbn in Hfuel; lia]).
    destruct l1 as [|x l1]; [exists view, rounds; split; [done|cbn; lia]|].
    destruct (pending_ready view (x :: l1)) as (e & He & Hready); [done|done|].
    rewrite (Hl1 e He) in Hready. done.
  - destruct (l2 ++ l1) as [|y w] eqn:Hw.
    { exists view, rounds. split; [done|lia]. }
    destruct (pending_ready view (y :: w)) as (e & He & Hready); [done|done|].
    destruct l2 as [|x l2].
    { cbn in Hw. subst l1. rewrite (Hl1 e He) in Hready. done. }
    cbn [app] in Hw. injection Hw as -> <-.
    cbn [check_waiting].
    destruct (HaveInputs view (GetTx y)) eqn:Hy; cbn [negb].
    + (* admitted *)
      rewrite Hcheck; [|by apply Hinv; left|done]. cbn [assert]. rewrite Ok_bind.
      destruct (IH (UpdateCoins (GetTx y) view) (l2 ++ l1) [] 0 (S rounds))
        as (view' & r & Hrun & Hr).
      * rewrite app_nil_r. by apply pending_invariant_admit.
      * by intros e0 ?%elem_of_nil.
      * done.
      * rewrite app_nil_r. cbn [length] in Hlen. lia.
      * rewrite app_nil_r, tri_pred. cbn [length pred] in Hfuel. lia.
      * rewrite app_nil_r in Hrun, Hr.
        pose proof (tri_pred (length (l2 ++ l1))).
        exists view', r. split; [done|]. cbn [length pred]. lia.
    + (* put back *)
      assert (e ∈ l2) as Hel2.
      { apply elem_of_cons in He as [->|He]; [congruence|].
        apply elem_of_app in He as [He|He]; [done|].
        rewrite (Hl1 e He) in Hready. done. }
      assert (l2 ≠ []) as Hl2 by (intros ->; by apply elem_of_nil in Hel2).
      assert (length ((l2 ++ l1) ++ [y]) = S (length (l2 ++ l1))) as Hlen'
        by (rewrite length_app; cbn; lia).
      cbn [length] in Hlen.
      assert (u32 (steps + 1) = Z.of_nat (length l1) + 1) as Hu32.
      { subst steps. unfold u32. apply Z.mod_small.
        rewrite length_app in Hlen. lia. }
      rewrite Hu32, Hlen'.
      assert (Z.of_nat (length l1) + 1 <? Z.of_nat (S (length (l2 ++ l1))) = true)
        as ->.
      { apply Z.ltb_lt. rewrite length_app. destruct l2; [done|cbn; lia]. }
      cbn [assert]. rewrite Ok_bind.
      rewrite <- (assoc_L (++) l2 l1 [y]).
      destruct (IH view l2 (l1 ++ [y]) (Z.of_nat (length l1) + 1) (S rounds))
        as (view' & r & Hrun & Hr).
      * eapply pending_invariant_Permutation; [|exact Hinv].
        rewrite (assoc_L (++)). by rewrite <- Permutation_cons_append.
      * intros e0 [He0|He0%list_elem_of_singleton]%elem_of_app;
          [by apply Hl1|by subst].
      * rewrite length_app. cbn. lia.
      * rewrite (assoc_L (++)), Hlen'. lia.
      * rewrite (assoc_L (++)), Hlen'. cbn [length pred] in *. lia.
      * exists view', r. split; [done|].
        rewrite (assoc_L (++)), Hlen' in Hr. cbn [length pred] in *. lia.
Qed.

End CheckWaiting.

(** C9.  Let the entries of the pool pass the checks of the first loop
    of [check], let the graph be acyclic, and let [CheckInputs] accept a
    pool transaction whose inputs are there.  Then the loop over
    [waitingOnDependants] ends after at most [|pending|²] rounds, and
    none of its asserts fails, the bound on [stepsSinceLastRemove]
    included. *)
Theorem check_waiting_terminates
    (pool : CTxMemPool) (pcoins : CCoinsView) (rank : Z -> nat) (cs : CheckState) :
  (forall h e, mapTx pool !! h = Some e -> entry_hash e = h) ->
  (forall e, e ∈ index_txid (mapTx pool) <-> exists h, mapTx pool !! h = Some e) ->
  NoDup (index_txid (mapTx pool)) ->
  Z.of_nat (length (index_txid (mapTx pool))) < 2 ^ 32 ->
  (forall it o, it ∈ index_txid (mapTx pool) -> o ∈ vin (GetTx it) ->
     0 <= outpoint_n o) ->
  (forall it o, it ∈ index_txid (mapTx pool) -> o ∈ vin (GetTx it) ->
     is_Some (mapTx pool !! outpoint_hash o) ->
     (rank (outpoint_hash o) < rank (entry_hash it))%nat) ->
  (forall it view, it ∈ index_txid (mapTx pool) ->
     HaveInputs view (GetTx it) = true -> CheckInputs (GetTx it) view = true) ->
  foreach (check_entry pool pcoins) (index_txid (mapTx pool)) (mkCheck 0 0 pcoins [])
  = Ok cs ->
  let pending := length (waitingOnDependants cs) in
  exists view rounds,
    check_waiting (pending * pending) (mempoolDuplicate cs)
      (waitingOnDependants cs) 0 O = Ok (view, rounds)
    /\ (rounds <= pending * pending)%nat.
Proof.
  intros Hkey Hidx Hnodup Hlen Hnn Hrank Hcheck Hfirst pending.
  apply check_entries_spec in Hfirst as (Hres & Hw & Hv).
  cbn [waitingOnDependants mempoolDuplicate app] in Hw, Hv.
  subst pending. rewrite Hw, Hv.
  set (W := filter (fun it => depends_on_pool pool it = true)
              (index_txid (mapTx pool))).
  pose proof (tri_le_square (length W)) as Hsq.
  assert (length W <= length (index_txid (mapTx pool)))%nat as HWlen
    by apply length_filter.
  destruct (check_waiting_spec pool pcoins (index_txid (mapTx pool)) rank
              Hkey Hidx Hres Hnn Hrank Hcheck (length W * length W)
              (admit_independent pool (index_txid (mapTx pool)) pcoins)
              W [] 0 O) as (view & r & Hrun & Hr).
  - rewrite app_nil_r. by apply pending_invariant_initial.
  - by intros e ?%elem_of_nil.
  - done.
  - rewrite app_nil_r. lia.
  - rewrite app_nil_r, tri_pred. lia.
  - rewrite app_nil_r in Hrun, Hr. pose proof (tri_pred (length W)).
    exists view, r. split; [done|lia].
Qed.

(** ** Adding and removing: the arithmetic *)

Lemma u64_idem (z : Z) : u64 (u64 z) = u64 z.
Proof. unfold u64. apply Z.mod_mod. lia. Qed.

Lemma u64_add_l (a b : Z) : u64 (u64 a + b) = u64 (a + b).
Proof. unfold u64. apply Zplus_mod_idemp_l. Qed.

Lemma u64_add_r (a b : Z) : u64 (a + u64 b) = u64 (a + b).
Proof. unfold u64. apply Zplus_mod_idemp_r. Qed.

Lemma u64_sub_l (a b : Z) : u64 (u64 a - b) = u64 (a - b).
Proof. unfold u64. apply Zminus_mod_idemp_l. Qed.

Lemma u64_sub_r (a b : Z) : u64 (a - u64 b) = u64 (a - b).
Proof. unfold u64. apply Zminus_mod_idemp_r. Qed.

Lemma u64_i64 (z : Z) : u64 (i64 z) = u64 z.
Proof.
  unfold u64, i64. rewrite Zminus_mod_idemp_l. f_equal. lia.
Qed.

Lemma u64_add_i64 (a b : Z) : u64 (a + i64 b) = u64 (a + b).
Proof. by rewrite <- u64_add_r, u64_i64, u64_add_r. Qed.

Lemma i64_eq (a b : Z) : u64 a = u64 b -> i64 a = i64 b.
Proof.
  unfold u64, i64. intros H. f_equal.
  rewrite <- (Zplus_mod_idemp_l a), <- (Zplus_mod_idemp_l b). by rewrite H.
Qed.

Lemma i64_small (z : Z) : in_i64 z -> i64 z = z.
Proof. unfold in_i64, i64. intros H. rewrite Z.mod_small; lia. Qed.

Lemma u64_iter_add (n : nat) (c u : Z) :
  u64 (Nat.iter n (fun u => u64 (u + c)) u) = u64 (u + Z.of_nat n * c).
Proof.
  induction n as [|n IH].
  - cbn. f_equal. lia.
  - rewrite Nat.iter_succ, u64_idem.
    rewrite <- u64_add_l, IH, u64_add_l. f_equal. lia.
Qed.

Lemma u64_iter_sub (n : nat) (c u : Z) :
  u64 (Nat.iter n (fun u => u64 (u - c)) u) = u64 (u - Z.of_nat n * c).
Proof.
  induction n as [|n IH].
  - cbn. f_equal. lia.
  - rewrite Nat.iter_succ, u64_idem.
    rewrite <- u64_sub_l, IH, u64_sub_l. f_equal. lia.
Qed.

(** The fields of an entry are within their types, and one more
    descendant can be counted. *)
Definition entry_in_range (e : CTxMemPoolEntry) : Prop :=
  0 <= nCountWithDescendants e /\ nCountWithDescendants e + 1 < 2 ^ 64
  /\ in_u64 (nSizeWithDescendants e) /\ in_i64 (nFeesWithDescendants e).

(** The update for the removal of a descendant undoes the update for its
    addition. *)
Lemma UpdateState_undo (e : CTxMemPoolEntry) (size fee : Z) :
  entry_in_range e ->
  UpdateState (UpdateState e (i64 (1 * size)) (i64 (1 * fee)) 1)
    (i64 (-1 * size)) (i64 (-1 * fee)) (-1) = e.
Proof.
  intros (Hc0 & Hc1 & Hs & Hf).
  destruct e as [tx fee0 size0 msize usage time prio height nodeps c s f].
  cbn [nCountWithDescendants nSizeWithDescendants nFeesWithDescendants] in *.
  unfold UpdateState, IsDirty, with_descendants. cbn.
  destruct (c =? 0) eqn:Hdirty; cbn; [by rewrite Hdirty|].
  apply Z.eqb_neq in Hdirty. rewrite (u64_small (c + 1)) by lia.
  destruct (c + 1 =? 0) eqn:Hz; [lia|]. cbn.
  f_equal; unfold u64, i64, in_u64, in_i64 in *; Z.div_mod_to_equations; lia.
Qed.

(** ** Adding and removing: the loops over sets *)

(** [mapTx.modify] on each hash of [l]. *)
Definition modify_all (f : CTxMemPoolEntry -> CTxMemPoolEntry) (l : list Z)
    (m : gmap Z CTxMemPoolEntry) : gmap Z CTxMemPoolEntry :=
  fold_left (fun m a => alter f a m) l m.

Lemma lookup_modify_all f l m k :
  NoDup l ->
  modify_all f l m !! k = if decide (k ∈ l) then f <$> m !! k else m !! k.
Proof.
  revert m. induction l as [|a l IH]; intros m Hnd; [done|].
  apply NoDup_cons in Hnd as [Ha Hnd]. unfold modify_all in *. cbn [fold_left].
  rewrite IH by done. destruct (decide (k = a)) as [->|Hne].
  - rewrite decide_False by done. rewrite (decide_True (P := a ∈ a :: l)) by by left.
    by rewrite lookup_alter_eq.
  - rewrite lookup_alter_ne by done.
    destruct (decide (k ∈ l)) as [Hin|Hin].
    + by rewrite decide_True by by right.
    + rewrite decide_False; [done|]. by intros [?|?]%elem_of_cons.
Qed.

Lemma foreach_modify ms mf mc l M ML NX MD T U N :
  (forall a, a ∈ l -> is_Some (M !! a)) ->
  foreach (modify_descendant_state ms mf mc) l (mkPool M ML NX MD T U N)
  = Ok (mkPool (modify_all (fun e => UpdateState e ms mf mc) l M) ML NX MD T U N).
Proof.
  revert M. induction l as [|a l IH]; intros M Hl; [done|].
  cbn [foreach]. destruct (Hl a) as [e He]; [by left|].
  assert (modify_descendant_state ms mf mc (mkPool M ML NX MD T U N) a
          = Ok (mkPool (<[a := UpdateState e ms mf mc]> M) ML NX MD T U N)) as ->.
  { unfold modify_descendant_state. cbn [mapTx]. by rewrite He. }
  rewrite Ok_bind, IH.
  - unfold modify_all. cbn [fold_left].
    replace (alter (fun e => UpdateState e ms mf mc) a M)
      with (<[a := UpdateState e ms mf mc]> M); [done|].
    apply map_eq. intros k. destruct (decide (k = a)) as [->|Hne].
    + by rewrite lookup_insert_eq, lookup_alter_eq, He.
    + by rewrite lookup_insert_ne, lookup_alter_ne by done.
  - intros b Hb. destruct (decide (b = a)) as [->|Hne].
    + rewrite lookup_insert_eq. eauto.
    + rewrite lookup_insert_ne by done. apply Hl. by right.
Qed.

(** [UpdateChild(p, it, add)] for each [p] of [l]. *)
Definition set_child (add : bool) (h : Z) (l : list Z) (ml : gmap Z TxLinks)
  : gmap Z TxLinks :=
  fold_left (fun ml p =>
               <[p := {| parents := parents (links_at ml p);
                         children := if add then {[h]} ∪ children (links_at ml p)
                                     else children (links_at ml p) ∖ {[h]} |}]> ml)
    l ml.

Lemma lookup_set_child add h l ml k :
  NoDup l ->
  set_child add h l ml !! k
  = if decide (k ∈ l)
    then Some {| parents := parents (links_at ml k);
                 children := if add then {[h]} ∪ children (links_at ml k)
                             else children (links_at ml k) ∖ {[h]} |}
    else ml !! k.
Proof.
  revert ml. induction l as [|a l IH]; intros ml Hnd; [done|].
  apply NoDup_cons in Hnd as [Ha Hnd]. unfold set_child in *. cbn [fold_left].
  rewrite IH by done. destruct (decide (k = a)) as [->|Hne].
  - rewrite decide_False by done. rewrite (decide_True (P := a ∈ a :: l)) by by left.
    by rewrite lookup_insert_eq.
  - unfold links_at. rewrite !lookup_insert_ne by done.
    destruct (decide (k ∈ l)) as [Hin|Hin].
    + by rewrite decide_True by by right.
    + rewrite decide_False; [done|]. by intros [?|?]%elem_of_cons.
Qed.

Lemma foreach_UpdateChild (add : bool) h l M ML NX MD T U N :
  NoDup l ->
  (forall p, p ∈ l -> is_Some (M !! p)) ->
  (forall p, p ∈ l -> if add then h ∉ children (links_at ML p)
                      else h ∈ children (links_at ML p)) ->
  foreach (fun p phash => _ ← deref (mapTx p !! phash);
                          Ok (UpdateChild p phash h add))
    l (mkPool M ML NX MD T U N)
  = Ok (mkPool M (set_child add h l ML) NX MD T
          (Nat.iter (length l)
             (fun u => u64 (if add then u + setEntriesNodeUsage
                            else u - setEntriesNodeUsage)) U) N).
Proof.
  revert ML U. induction l as [|a l IH]; intros ML U Hnd Hl Hc; [done|].
  apply NoDup_cons in Hnd as [Ha Hnd].
  cbn [foreach mapTx]. destruct (Hl a) as [e He]; [by left|]. rewrite He.
  cbn [deref]. rewrite !Ok_bind.
  specialize (Hc a) as Hca. specialize (Hca ltac:(by left)).
  assert (UpdateChild (mkPool M ML NX MD T U N) a h add
          = mkPool M
              (<[a := {| parents := parents (links_at ML a);
                         children := if add then {[h]} ∪ children (links_at ML a)
                                     else children (links_at ML a) ∖ {[h]} |}]> ML)
              NX MD T
              (u64 (if add then U + setEntriesNodeUsage else U - setEntriesNodeUsage))
              N) as ->.
  { unfold UpdateChild. cbn [mapLinks]. destruct add.
    - by rewrite decide_False by done.
    - by rewrite decide_True by done. }
  rewrite IH; [| done | intros p Hp; apply Hl; by right |].
  - cbn [length]. rewrite Nat.iter_succ_r. done.
  - intros p Hp. assert (p ≠ a) by (by intros ->).
    unfold links_at. rewrite lookup_insert_ne by done. apply Hc. by right.
Qed.

(** The loop over [setParentTransactions] in [addUnchecked]. *)
Lemma fold_UpdateParent h l M ML NX MD T U N lk :
  NoDup l -> ML !! h = Some lk ->
  (forall p, p ∈ l -> is_Some (M !! p) -> p ∉ parents lk) ->
  fold_left (fun p phash => match mapTx p !! phash with
                            | Some _ => UpdateParent p h phash true
                            | None => p
                            end) l (mkPool M ML NX MD T U N)
  = mkPool M
      (<[h := {| parents := list_to_set (filter (fun x => is_Some (M !! x)) l)
                            ∪ parents lk;
                 children := children lk |}]> ML)
      NX MD T
      (Nat.iter (length (filter (fun x => is_Some (M !! x)) l))
         (fun u => u64 (u + setEntriesNodeUsage)) U) N.
Proof.
  revert ML U lk. induction l as [|a l IH]; intros ML U lk Hnd Hlk Hnew.
  - cbn. f_equal. rewrite insert_id; [done|]. rewrite Hlk. f_equal.
    destruct lk as [ps cs]. cbn. f_equal. set_solver.
  - apply NoDup_cons in Hnd as [Ha Hnd]. cbn [fold_left mapTx].
    rewrite filter_cons. destruct (M !! a) as [e|] eqn:He.
    + rewrite decide_True by eauto.
      assert (UpdateParent (mkPool M ML NX MD T U N) h a true
              = mkPool M
                  (<[h := {| parents := {[a]} ∪ parents lk; children := children lk |}]> ML)
                  NX MD T (u64 (U + setEntriesNodeUsage)) N) as ->.
      { unfold UpdateParent, links_at. cbn [mapLinks]. rewrite Hlk. cbn [default].
        rewrite decide_False; [done|]. apply Hnew; [by left|by rewrite He]. }
      rewrite (IH _ _ {| parents := {[a]} ∪ parents lk; children := children lk |});
        [|done|by rewrite lookup_insert_eq|].
      * cbn [length parents children]. rewrite Nat.iter_succ_r, insert_insert_eq.
        do 2 f_equal. f_equal. rewrite list_to_set_cons. set_solver.
      * intros p Hp HMp. cbn [parents]. assert (p ≠ a) by (by intros ->).
        specialize (Hnew p ltac:(by right) HMp). set_solver.
    + rewrite decide_False by (by intros [? ?]).
      apply IH; [done|done|]. intros p Hp. apply Hnew. by right.
Qed.

(** [mapNextTx] after the inputs are registered, and after they are
    erased again. *)
Lemma register_inputs_spec (h : Z) (ins : list COutPoint) (i : Z) (next : gmap (Z * Z) CInPoint) (spt : gset Z) :
  register_inputs h ins i next spt
  = (fst (register_inputs h ins i next spt),
     spt ∪ list_to_set (outpoint_hash <$> ins)).
Proof.
  revert i next spt. induction ins as [|o ins IH]; intros i next spt; cbn.
  - f_equal. set_solver.
  - rewrite IH. cbn. f_equal. set_solver.
Qed.

Lemma erase_registered (h : Z) (ins : list COutPoint) (i : Z) (next : gmap (Z * Z) CInPoint) (spt : gset Z) :
  (forall o, o ∈ ins -> next !! o = None) ->
  fold_left (fun m prevout => delete prevout m) ins
    (fst (register_inputs h ins i next spt)) = next.
Proof.
  intros Hfree.
  assert (forall (l : list (Z * Z)) (m : gmap (Z * Z) CInPoint) k,
            fold_left (fun m prevout => delete prevout m) l m !! k
            = if decide (k ∈ l) then None else m !! k) as Hdel.
  { induction l as [|a l IH]; intros m k; cbn [fold_left]; [done|].
    rewrite IH. destruct (decide (k = a)) as [->|Hne].
    - rewrite lookup_delete_eq. rewrite (decide_True (P := a ∈ a :: l)) by by left.
      by case_decide.
    - rewrite lookup_delete_ne by done. destruct (decide (k ∈ l)) as [Hin|Hin].
      + by rewrite decide_True by by right.
      + rewrite decide_False; [done|]. by intros [?|?]%elem_of_cons. }
  assert (forall l i (m : gmap (Z * Z) CInPoint) s k,
            k ∉ l -> fst (register_inputs h l i m s) !! k = m !! k) as Hreg.
  { induction l as [|a l IH]; intros j m s k Hk; cbn; [done|].
    rewrite IH by set_solver. apply lookup_insert_ne. set_solver. }
  apply map_eq. intros k. rewrite Hdel. case_decide as Hk.
  - symmetry. by apply Hfree.
  - by apply Hreg.
Qed.
(** ** Adding and removing: the round trip *)

Lemma GetTx_UpdateState e ms mf mc : GetTx (UpdateState e ms mf mc) = GetTx e.
Proof. unfold UpdateState. by destruct (IsDirty e). Qed.

Lemma nTxSize_UpdateState e ms mf mc : nTxSize (UpdateState e ms mf mc) = nTxSize e.
Proof. unfold UpdateState. by destruct (IsDirty e). Qed.

(** The ancestors of [tx] are the same in two pools that hold the same
    transactions apart from [h], when nothing spends from [h]. *)
Lemma ancestor_of_ext (M M' : gmap Z CTxMemPoolEntry) (tx : CTransaction) (h : Z) :
  M !! h = None ->
  (forall k, k ≠ h -> GetTx <$> (M' !! k) = GetTx <$> (M !! k)) ->
  (forall o, o ∈ vin tx -> outpoint_hash o ≠ h) ->
  (forall k ek o, M !! k = Some ek -> o ∈ vin (GetTx ek) -> outpoint_hash o ≠ h) ->
  forall p, ancestor_of M' tx p <-> ancestor_of M tx p.
Proof.
  intros Hh Hsame Hself Hnone p.
  assert (forall k, k ≠ h -> is_Some (M' !! k) <-> is_Some (M !! k)) as Hdom.
  { intros k Hk. specialize (Hsame k Hk). rewrite <- !fmap_is_Some with (f := GetTx).
    by rewrite Hsame. }
  split.
  - induction 1 as [p [Hp (o & Ho & Hop)]|a e' p _ IH He' [Hp (o & Ho & Hop)]].
    + apply ancestor_parent. split; [|by exists o].
      apply Hdom; [|done]. subst p. by apply Hself.
    + assert (a ≠ h) as Ha.
      { intros ->. apply ancestor_of_in_pool in IH. rewrite Hh in IH. by destruct IH. }
      specialize (Hsame a Ha). rewrite He' in Hsame. cbn in Hsame.
      destruct (M !! a) as [ea|] eqn:Hea; [|done]. cbn in Hsame.
      apply (ancestor_step _ _ a ea); [done|done|].
      assert (GetTx ea = GetTx e') as Htx by congruence. rewrite Htx.
      split; [|by exists o].
      apply Hdom; [|done]. subst p. apply (Hnone a ea o); [done|by rewrite Htx].
  - induction 1 as [p [Hp (o & Ho & Hop)]|a ea p HA IH Hea [Hp (o & Ho & Hop)]].
    + apply ancestor_parent. split; [|by exists o].
      apply Hdom; [|done]. subst p. by apply Hself.
    + assert (a ≠ h) as Ha by (intros ->; congruence).
      specialize (Hsame a Ha). rewrite Hea in Hsame. cbn in Hsame.
      destruct (M' !! a) as [e'|] eqn:He'; [|done]. cbn in Hsame.
      assert (GetTx e' = GetTx ea) as Htx by congruence.
      apply (ancestor_step _ _ a e'); [done|done|].
      rewrite Htx. split; [|by exists o].
      apply Hdom; [|done]. subst p. by apply (Hnone a ea o).
Qed.

(** The pool transactions that [tx] spends from, in the order of the loop
    over [setParentTransactions]. *)
Definition parents_in (M : gmap Z CTxMemPoolEntry) (tx : CTransaction) : list Z :=
  filter (fun x => is_Some (M !! x))
    (sorted_elements (list_to_set (outpoint_hash <$> vin tx))).

Lemma elem_of_parents_in M tx (p : Z) : p ∈ parents_in M tx <-> spends M tx p.
Proof.
  unfold parents_in, spends.
  rewrite list_elem_of_filter, elem_of_sorted_elements, elem_of_list_to_set,
    list_elem_of_fmap.
  split.
  - intros [Hp (o & -> & Ho)]. split; [done|]. by exists o.
  - intros [Hp (o & Ho & <-)]. split; [done|]. by exists o.
Qed.

Lemma NoDup_parents_in M tx : NoDup (parents_in M tx).
Proof. apply NoDup_filter, NoDup_sorted_elements. Qed.

(** [UpdateAncestorsOf] on an entry whose parents and ancestors are in the
    pool. *)
Lemma UpdateAncestorsOf_Ok (add : bool) (hh : Z) (SA : gset Z) M ML NX MD T U N e lk :
  M !! hh = Some e -> ML !! hh = Some lk ->
  (forall p, p ∈ parents lk -> is_Some (M !! p)) ->
  (forall p, p ∈ parents lk -> if add then hh ∉ children (links_at ML p)
                               else hh ∈ children (links_at ML p)) ->
  (forall a, a ∈ SA -> is_Some (M !! a)) ->
  UpdateAncestorsOf (mkPool M ML NX MD T U N) add hh SA
  = Ok (mkPool
          (modify_all (fun a => UpdateState a
                                  (i64 ((if add then 1 else -1) * nTxSize e))
                                  (i64 ((if add then 1 else -1) * nFee e))
                                  (if add then 1 else -1))
             (sorted_elements SA) M)
          (set_child add hh (sorted_elements (parents lk)) ML) NX MD T
          (Nat.iter (size (parents lk))
             (fun u => u64 (if add then u + setEntriesNodeUsage
                            else u - setEntriesNodeUsage)) U) N).
Proof.
  intros He Hlk Hps Hch HSA. unfold UpdateAncestorsOf, GetMemPoolParents.
  cbn [mapTx mapLinks]. rewrite He, Hlk. cbn [deref]. rewrite !Ok_bind.
  rewrite foreach_UpdateChild.
  - rewrite Ok_bind. cbn [mapTx]. rewrite He. cbn [deref]. rewrite Ok_bind.
    rewrite foreach_modify.
    + by rewrite length_sorted_elements.
    + intros a Ha%elem_of_sorted_elements. by apply HSA.
  - apply NoDup_sorted_elements.
  - intros p Hp%elem_of_sorted_elements. by apply Hps.
  - intros p Hp%elem_of_sorted_elements. by apply Hch.
Qed.

Section RoundTrip.
Variables (M : gmap Z CTxMemPoolEntry) (ML : gmap Z TxLinks)
  (NX : gmap (Z * Z) CInPoint) (MD : gmap Z (double * Z)) (T U N : Z)
  (e : CTxMemPoolEntry).

Notation h := (entry_hash e).
Notation tx := (GetTx e).
Notation pool := (mkPool M ML NX MD T U N).

Hypothesis Hlinks : links_are_parents pool.
Hypothesis Hnew : M !! h = None.
Hypothesis Hnolinks : ML !! h = None.
Hypothesis Hnochild : forall p l, ML !! p = Some l -> h ∉ children l.
Hypothesis Hfree : forall o, o ∈ vin tx -> NX !! o = None.
Hypothesis Hself : forall o, o ∈ vin tx -> outpoint_hash o ≠ h.
Hypothesis Hnone :
  forall k ek o, M !! k = Some ek -> o ∈ vin (GetTx ek) -> outpoint_hash o ≠ h.

(** The parents of the new entry *)
Definition new_parents : gset Z := list_to_set (parents_in (<[h := e]> M) tx).

Lemma elem_of_new_parents (p : Z) : p ∈ new_parents <-> spends M tx p.
Proof.
  unfold new_parents. rewrite elem_of_list_to_set, elem_of_parents_in.
  unfold spends. split; intros [Hp (o & Ho & Hop)]; (split; [|by exists o]).
  - rewrite lookup_insert_ne in Hp; [done|]. subst p. intros Heq.
    by apply (Hself o).
  - rewrite lookup_insert_ne; [done|]. subst p. intros Heq. by apply (Hself o).
Qed.

Lemma new_parents_in_pool (p : Z) : p ∈ new_parents -> is_Some (M !! p) /\ p ≠ h.
Proof.
  intros [Hp _]%elem_of_new_parents. split; [done|].
  intros ->. rewrite Hnew in Hp. by destruct Hp.
Qed.

Lemma size_new_parents : size new_parents = length (parents_in (<[h := e]> M) tx).
Proof.
  unfold new_parents. rewrite <- (length_sorted_elements _).
  apply Permutation_length. rewrite sorted_elements_Permutation.
  apply elements_list_to_set, NoDup_parents_in.
Qed.

(** The pool after [addUnchecked] *)
Definition added (SA : gset Z) : CTxMemPool :=
  mkPool
    (modify_all (fun a => UpdateState a (i64 (1 * nTxSize e)) (i64 (1 * nFee e)) 1)
       (sorted_elements SA) (<[h := e]> M))
    (set_child true h (sorted_elements new_parents)
       (<[h := {| parents := new_parents; children := ∅ |}]> (<[h := noLinks]> ML)))
    (fst (register_inputs h (vin tx) 0 NX ∅))
    MD
    (u64 (T + nTxSize e))
    (Nat.iter (size new_parents) (fun u => u64 (u + setEntriesNodeUsage))
       (Nat.iter (size new_parents) (fun u => u64 (u + setEntriesNodeUsage))
          (u64 (U + DynamicMemoryUsage_entry e))))
    (u32 (N + 1)).

Lemma addUnchecked_added (SA : gset Z) :
  (forall a, a ∈ SA -> is_Some (M !! a)) ->
  addUnchecked pool h e SA = Ok (added SA).
Proof.
  intros HSA. unfold addUnchecked.
  cbn [set_mapTx set_mapLinks set_cachedInnerUsage set_mapNextTx mapTx mapLinks
       mapNextTx mapDeltas totalTxSize cachedInnerUsage nTransactionsUpdated].
  rewrite Hnew, lookup_insert_eq. cbn [deref]. rewrite Ok_bind.
  rewrite register_inputs_spec, (left_id_L ∅ (∪)).
  unfold set_mapTx, set_mapLinks, set_cachedInnerUsage, set_mapNextTx.
  cbn [mapTx mapLinks mapNextTx mapDeltas totalTxSize cachedInnerUsage
       nTransactionsUpdated].
  rewrite Hnew, Hnolinks.
  rewrite (fold_UpdateParent _ _ _ _ _ _ _ _ _ noLinks);
    [|apply NoDup_sorted_elements|by rewrite lookup_insert_eq|set_solver].
  change (filter _ _) with (parents_in (<[h := e]> M) tx).
  fold new_parents. rewrite <- size_new_parents.
  cbn [parents children noLinks]. rewrite (right_id_L ∅ (∪)).
  rewrite (UpdateAncestorsOf_Ok true h SA _ _ _ _ _ _ _ e
             {| parents := new_parents; children := ∅ |}).
  - rewrite Ok_bind. reflexivity.
  - by rewrite lookup_insert_eq.
  - by rewrite lookup_insert_eq.
  - cbn [parents]. intros p [Hp Hne]%new_parents_in_pool.
    by rewrite lookup_insert_ne.
  - cbn [parents]. intros p [[ep Hp] Hne]%new_parents_in_pool.
    unfold links_at. rewrite !lookup_insert_ne by done.
    destruct (Hlinks p ep Hp) as (l & Hl & _). cbn [mapLinks] in Hl. rewrite Hl.
    cbn [default]. by apply (Hnochild p).
  - intros a Ha. destruct (decide (a = h)) as [->|Hne].
    + rewrite lookup_insert_eq. eauto.
    + rewrite lookup_insert_ne by done. by apply HSA.
Qed.


(** *** The pool after the addition *)

Section Added.
Variable SA : gset Z.
Hypothesis HSA : forall p, p ∈ SA <-> ancestor_of M tx p.

Lemma ancestors_in_pool (a : Z) : a ∈ SA -> is_Some (M !! a) /\ a ≠ h.
Proof.
  intros Ha%HSA%ancestor_of_in_pool. split; [done|].
  intros ->. rewrite Hnew in Ha. by destruct Ha.
Qed.

Lemma lookup_added (k : Z) :
  mapTx (added SA) !! k
  = if decide (k = h) then Some e
    else if decide (k ∈ SA)
         then (fun a => UpdateState a (i64 (1 * nTxSize e)) (i64 (1 * nFee e)) 1)
                <$> M !! k
         else M !! k.
Proof.
  unfold added. cbn [mapTx].
  rewrite lookup_modify_all by apply NoDup_sorted_elements.
  destruct (decide (k = h)) as [->|Hne].
  - rewrite decide_False, lookup_insert_eq; [done|].
    intros Hin%elem_of_sorted_elements%ancestors_in_pool. by destruct Hin.
  - rewrite lookup_insert_ne by done.
    destruct (decide (k ∈ SA)) as [Hin|Hin].
    + by rewrite decide_True by by apply elem_of_sorted_elements.
    + rewrite decide_False; [done|]. by rewrite elem_of_sorted_elements.
Qed.

Lemma links_added (k : Z) :
  mapLinks (added SA) !! k
  = if decide (k = h) then Some {| parents := new_parents; children := ∅ |}
    else if decide (k ∈ new_parents)
         then Some {| parents := parents (links_at ML k);
                      children := {[h]} ∪ children (links_at ML k) |}
         else ML !! k.
Proof.
  unfold added. cbn [mapLinks].
  rewrite lookup_set_child by apply NoDup_sorted_elements.
  destruct (decide (k = h)) as [->|Hne].
  - rewrite decide_False, lookup_insert_eq; [done|].
    intros Hin%elem_of_sorted_elements%new_parents_in_pool. by destruct Hin.
  - unfold links_at. rewrite !lookup_insert_ne by done.
    destruct (decide (k ∈ new_parents)) as [Hin|Hin].
    + by rewrite decide_True by by apply elem_of_sorted_elements.
    + rewrite decide_False; [done|]. by rewrite elem_of_sorted_elements.
Qed.

Lemma GetTx_added (k : Z) :
  k ≠ h -> GetTx <$> (mapTx (added SA) !! k) = GetTx <$> (M !! k).
Proof.
  intros Hne. rewrite lookup_added, decide_False by done.
  case_decide; [|done]. destruct (M !! k) as [ek|]; [|done].
  cbn. by rewrite GetTx_UpdateState.
Qed.

Lemma ancestor_of_added (p : Z) :
  ancestor_of (mapTx (added SA)) tx p <-> ancestor_of M tx p.
Proof. apply (ancestor_of_ext M _ tx h); auto using GetTx_added. Qed.

Lemma added_links_are_parents : links_are_parents (added SA).
Proof.
  intros k ek Hk. rewrite links_added. rewrite lookup_added in Hk.
  assert (forall t p, (forall o, o ∈ vin t -> outpoint_hash o ≠ h) ->
            spends (mapTx (added SA)) t p <-> spends M t p) as Hsp.
  { intros t p Ht. unfold spends. split; intros [Hp (o & Ho & Hop)];
      (split; [|by exists o]); assert (p ≠ h) by (subst p; by apply Ht).
    - rewrite <- fmap_is_Some with (f := GetTx) in Hp.
      rewrite GetTx_added in Hp by done. by rewrite fmap_is_Some in Hp.
    - rewrite <- fmap_is_Some with (f := GetTx).
      rewrite GetTx_added by done. by rewrite fmap_is_Some. }
  destruct (decide (k = h)) as [->|Hne].
  - apply (inj Some) in Hk as <-. eexists. split; [done|]. cbn [parents].
    intros p. rewrite elem_of_new_parents. symmetry. by apply Hsp.
  - assert (exists e0, M !! k = Some e0 /\ GetTx ek = GetTx e0) as (e0 & He0 & Htx).
    { case_decide.
      - destruct (M !! k) as [e0|]; [|done]. cbn in Hk. apply (inj Some) in Hk as <-.
        exists e0. by rewrite GetTx_UpdateState.
      - by exists ek. }
    destruct (Hlinks k e0 He0) as (l & Hl & Hpar). cbn [mapLinks mapTx] in Hl, Hpar.
    rewrite Htx.
    assert (forall p, spends (mapTx (added SA)) (GetTx e0) p <-> spends M (GetTx e0) p)
      as Hsp'.
    { intros p. apply Hsp. intros o Ho. by apply (Hnone k e0 o). }
    unfold links_at. rewrite Hl. cbn [default].
    destruct (decide (k ∈ new_parents)); (eexists; split; [done|]);
      cbn [parents id]; intros p; by rewrite Hsp', Hpar.
Qed.

Hypothesis Hrange : forall a ea, a ∈ SA -> M !! a = Some ea -> entry_in_range ea.
Hypothesis HT : in_u64 T.
Hypothesis HU : in_u64 U.

Lemma CalculateDescendants_added : CalculateDescendants (added SA) h ∅ = Ok {[h]}.
Proof.
  unfold CalculateDescendants, descendants_fuel.
  rewrite decide_False by set_solver. cbn [descendants_loop].
  rewrite decide_False by set_solver.
  rewrite sorted_elements_singleton. unfold next_descendants. cbn [foreach].
  unfold GetMemPoolChildren. rewrite lookup_added, links_added, !decide_True by done.
  cbn [deref]. rewrite !Ok_bind. cbn [children].
  rewrite sorted_elements_empty. cbn [fold_left].
  rewrite (left_id_L ∅ (∪)).
  destruct (size (mapTx (added SA))); cbn [descendants_loop]; by rewrite decide_True.
Qed.

(** [mapTx] after the removal *)
Lemma removed_mapTx :
  delete h (modify_all (fun a => UpdateState a (i64 (-1 * nTxSize e))
                                   (i64 (-1 * nFee e)) (-1))
              (sorted_elements SA) (mapTx (added SA))) = M.
Proof.
  apply map_eq. intros k. destruct (decide (k = h)) as [->|Hne].
  - by rewrite lookup_delete_eq, Hnew.
  - rewrite lookup_delete_ne by done.
    rewrite lookup_modify_all by apply NoDup_sorted_elements.
    rewrite lookup_added, (decide_False (P := k = h)) by done.
    destruct (decide (k ∈ SA)) as [Hin|Hin].
    + rewrite decide_True by by apply elem_of_sorted_elements.
      destruct (ancestors_in_pool k Hin) as [[ek Hk] _]. rewrite Hk. cbn [fmap option_fmap option_map].
      f_equal. apply UpdateState_undo. by apply (Hrange k).
    + rewrite decide_False; [done|]. by rewrite elem_of_sorted_elements.
Qed.

(** [mapLinks] after the removal *)
Lemma removed_mapLinks :
  delete h (set_child false h (sorted_elements new_parents) (mapLinks (added SA))) = ML.
Proof.
  apply map_eq. intros k. destruct (decide (k = h)) as [->|Hne].
  - by rewrite lookup_delete_eq, Hnolinks.
  - rewrite lookup_delete_ne by done.
    rewrite lookup_set_child by apply NoDup_sorted_elements.
    unfold links_at. rewrite links_added, (decide_False (P := k = h)) by done.
    destruct (decide (k ∈ new_parents)) as [Hin|Hin].
    + rewrite decide_True by by apply elem_of_sorted_elements.
      destruct (new_parents_in_pool k Hin) as [[ek Hk] _].
      destruct (Hlinks k ek Hk) as (l & Hl & _). cbn [mapLinks] in Hl.
      unfold links_at. rewrite Hl. cbn [default id parents children].
      pose proof (Hnochild k l Hl) as Hno. destruct l as [ps cs].
      cbn [parents children] in *. do 2 f_equal. set_solver.
    + rewrite decide_False; [done|]. by rewrite elem_of_sorted_elements.
Qed.

(** [cachedInnerUsage] after the removal *)
Lemma removed_cachedInnerUsage :
  u64 (u64 (Nat.iter (size new_parents) (fun u => u64 (u - setEntriesNodeUsage))
              (cachedInnerUsage (added SA))
            - DynamicMemoryUsage_entry e)
       - u64 (DynamicUsage_setEntries new_parents + DynamicUsage_setEntries ∅)) = U.
Proof.
  unfold added, DynamicUsage_setEntries, zsize. cbn [cachedInnerUsage].
  rewrite size_empty.
  set (n := size new_parents). set (c := setEntriesNodeUsage).
  set (D := DynamicMemoryUsage_entry e).
  pose proof (u64_iter_sub n c
                (Nat.iter n (fun u => u64 (u + c))
                   (Nat.iter n (fun u => u64 (u + c)) (u64 (U + D))))) as H1.
  pose proof (u64_iter_add n c (Nat.iter n (fun u => u64 (u + c)) (u64 (U + D)))) as H2.
  pose proof (u64_iter_add n c (u64 (U + D))) as H3.
  revert H1 H2 H3.
  generalize (Nat.iter n (fun u => u64 (u - c))
                (Nat.iter n (fun u => u64 (u + c))
                   (Nat.iter n (fun u => u64 (u + c)) (u64 (U + D))))).
  generalize (Nat.iter n (fun u => u64 (u + c))
                (Nat.iter n (fun u => u64 (u + c)) (u64 (U + D)))).
  generalize (Nat.iter n (fun u => u64 (u + c)) (u64 (U + D))).
  replace (c * Z.of_nat n) with (Z.of_nat n * c) by lia.
  generalize (Z.of_nat n * c). intros k x y z H1 H2 H3.
  replace (c * Z.of_nat 0) with 0 by lia.
  unfold u64, in_u64 in *. Z.div_mod_to_equations. lia.
Qed.

(** The removal of the entry that was just added *)
Lemma remove_added :
  remove (added SA) tx [] true
  = Ok (mkPool M ML NX MD T U (u32 (u32 (N + 1) + 1)), [tx]).
Proof.
  unfold remove. change (GetHash tx) with h.
  rewrite lookup_added, decide_True by done.
  rewrite sorted_elements_singleton. cbn [foreach].
  rewrite CalculateDescendants_added, !Ok_bind.
  rewrite sorted_elements_singleton. cbn [foreach].
  rewrite lookup_added, decide_True by done. cbn [deref]. rewrite !Ok_bind.
  cbn [app].
  unfold RemoveStaged, UpdateForRemoveFromMempool.
  rewrite sorted_elements_singleton. cbn [foreach].
  rewrite lookup_added, decide_True by done. cbn [deref]. rewrite !Ok_bind.
  destruct (CalculateMemPoolAncestors_nolimit (added SA) e added_links_are_parents)
    as (SA' & -> & HSA').
  assert (SA' = SA) as ->.
  { apply set_eq. intros p. by rewrite HSA', HSA, ancestor_of_added. }
  rewrite Ok_bind.
  assert (h ∉ sorted_elements SA) as HhSA.
  { intros Hin%elem_of_sorted_elements%ancestors_in_pool. by destruct Hin. }
  assert (h ∉ sorted_elements new_parents) as HhNP.
  { intros Hin%elem_of_sorted_elements%new_parents_in_pool. by destruct Hin. }
  pose proof (UpdateAncestorsOf_Ok false h SA (mapTx (added SA)) (mapLinks (added SA))
                (mapNextTx (added SA)) MD (totalTxSize (added SA))
                (cachedInnerUsage (added SA)) (nTransactionsUpdated (added SA)) e
                {| parents := new_parents; children := ∅ |}) as Hupd.
  change (mkPool (mapTx (added SA)) _ _ _ _ _ _) with (added SA) in Hupd.
  cbn [parents] in Hupd. rewrite Hupd; clear Hupd.
  - rewrite !Ok_bind.
    unfold UpdateChildrenForRemoval, GetMemPoolChildren. cbn [mapTx mapLinks].
    rewrite lookup_modify_all by apply NoDup_sorted_elements.
    rewrite (decide_False (P := h ∈ sorted_elements SA)) by done.
    rewrite lookup_added, decide_True by done.
    rewrite lookup_set_child by apply NoDup_sorted_elements.
    rewrite (decide_False (P := h ∈ sorted_elements new_parents)) by done.
    rewrite links_added, decide_True by done.
    cbn [deref]. rewrite !Ok_bind. cbn [children].
    rewrite sorted_elements_empty. cbn [foreach]. rewrite !Ok_bind.
    unfold removeUnchecked. cbn [mapTx mapLinks mapNextTx mapDeltas totalTxSize
      cachedInnerUsage nTransactionsUpdated].
    rewrite lookup_modify_all by apply NoDup_sorted_elements.
    rewrite (decide_False (P := h ∈ sorted_elements SA)) by done.
    rewrite lookup_added, decide_True by done.
    cbn [deref]. rewrite !Ok_bind. unfold links_at.
    rewrite lookup_set_child by apply NoDup_sorted_elements.
    rewrite (decide_False (P := h ∈ sorted_elements new_parents)) by done.
    rewrite links_added, decide_True by done. cbn [default id parents children].
    do 2 f_equal. f_equal.
    + exact removed_mapTx.
    + exact removed_mapLinks.
    + by apply erase_registered.
    + unfold added. cbn [totalTxSize].
      unfold u64, in_u64 in *. Z.div_mod_to_equations. lia.
    + exact removed_cachedInnerUsage.
  - by rewrite lookup_added, decide_True.
  - by rewrite links_added, decide_True.
  - intros p [Hp Hne]%new_parents_in_pool.
    rewrite <- fmap_is_Some with (f := GetTx). rewrite GetTx_added by done.
    by rewrite fmap_is_Some.
  - intros p Hp. destruct (new_parents_in_pool p Hp) as [_ Hne].
    unfold links_at. rewrite links_added, decide_False, decide_True by done.
    cbn [default children]. set_solver.
  - intros a Ha. destruct (ancestors_in_pool a Ha) as [Hin Hne].
    rewrite <- fmap_is_Some with (f := GetTx). rewrite GetTx_added by done.
    by rewrite fmap_is_Some.
Qed.

End Added.

End RoundTrip.

(** Claim C2. For a transaction that is not in the pool and whose admission
    preconditions hold -- the pool links every entry to the pool
    transactions it spends from, the transaction has no links record and
    is nobody's child yet, none of its inputs is spent by a pool entry, it
    does not spend from itself, no pool entry spends from it, and the
    aggregates of its ancestors and the two counters of the pool are
    within their integer types -- [addUnchecked(tx.GetHash(), entry)]
    followed by [remove(tx, removed, true)] both return, [removed] is
    [tx] alone, and [mapTx] (with every entry's aggregates), [mapNextTx],
    [mapLinks], [totalTxSize] and [cachedInnerUsage] are what they were
    before the two calls. [mapDeltas] is untouched by both calls, and
    [nTransactionsUpdated] has advanced by two. *)
Theorem addUnchecked_then_remove_restores (pool : CTxMemPool) (e : CTxMemPoolEntry) :
  links_are_parents pool ->
  mapTx pool !! entry_hash e = None ->
  mapLinks pool !! entry_hash e = None ->
  (forall p l, mapLinks pool !! p = Some l -> entry_hash e ∉ children l) ->
  (forall o, o ∈ vin (GetTx e) -> mapNextTx pool !! o = None) ->
  (forall o, o ∈ vin (GetTx e) -> outpoint_hash o ≠ entry_hash e) ->
  (forall k ek o, mapTx pool !! k = Some ek -> o ∈ vin (GetTx ek) ->
                  outpoint_hash o ≠ entry_hash e) ->
  (forall a ea, ancestor_of (mapTx pool) (GetTx e) a -> mapTx pool !! a = Some ea ->
                entry_in_range ea) ->
  in_u64 (totalTxSize pool) ->
  in_u64 (cachedInnerUsage pool) ->
  exists pool1 pool2,
    addUnchecked_noAncestors pool (entry_hash e) e = Ok pool1
    /\ mapTx pool1 !! entry_hash e = Some e
    /\ mapDeltas pool1 = mapDeltas pool
    /\ remove pool1 (GetTx e) [] true = Ok (pool2, [GetTx e])
    /\ mapTx pool2 = mapTx pool
    /\ mapNextTx pool2 = mapNextTx pool
    /\ mapLinks pool2 = mapLinks pool
    /\ totalTxSize pool2 = totalTxSize pool
    /\ cachedInnerUsage pool2 = cachedInnerUsage pool
    /\ mapDeltas pool2 = mapDeltas pool
    /\ nTransactionsUpdated pool2 = u32 (u32 (nTransactionsUpdated pool + 1) + 1).
Proof.
  destruct pool as [M ML NX MD T U N].
  cbn [mapTx mapLinks mapNextTx mapDeltas totalTxSize cachedInnerUsage
       nTransactionsUpdated].
  intros Hlinks Hnew Hnolinks Hnochild Hfree Hself Hnone Hrange HT HU.
  destruct (CalculateMemPoolAncestors_nolimit (mkPool M ML NX MD T U N) e Hlinks)
    as (SA & Hanc & HSA).
  cbn [mapTx] in HSA.
  assert (forall a, a ∈ SA -> is_Some (M !! a)) as Hin.
  { intros a Ha%HSA. by apply ancestor_of_in_pool in Ha. }
  exists (added M ML NX MD T U N e SA), (mkPool M ML NX MD T U (u32 (u32 (N + 1) + 1))).
  split; [|split; [|split; [|split]]].
  - unfold addUnchecked_noAncestors. rewrite Hanc, Ok_bind.
    by apply addUnchecked_added.
  - by rewrite lookup_added, decide_True.
  - done.
  - apply remove_added; try done. intros a ea Ha. apply Hrange. by apply HSA.
  - done.
Qed.
(** ** The compact-block reconstructor: colliding short ids *)

(** The slots of [txn_available] that hold a transaction, and those that
    do not. *)
Fixpoint filled (l : list (option CTransaction)) : nat :=
  match l with
  | [] => 0
  | Some _ :: l' => S (filled l')
  | None :: l' => filled l'
  end.

Fixpoint empties (l : list (option CTransaction)) : nat :=
  match l with
  | [] => 0
  | Some _ :: l' => empties l'
  | None :: l' => S (empties l')
  end.

Lemma filled_app l1 l2 : filled (l1 ++ l2) = (filled l1 + filled l2)%nat.
Proof. induction l1 as [|[t|] l1 IH]; cbn; lia. Qed.

Lemma filled_empties l : (filled l + empties l)%nat = length l.
Proof. induction l as [|[t|] l IH]; cbn; lia. Qed.

Lemma filled_take n l : (filled (take n l) <= filled l)%nat.
Proof. rewrite <- (take_drop n l) at 2. rewrite filled_app. lia. Qed.

Lemma filled_replicate n : filled (replicate n None) = 0%nat.
Proof. induction n; cbn; lia. Qed.

Lemma filled_insert n t l : (filled (<[n := Some t]> l) <= S (filled l))%nat.
Proof.
  revert n. induction l as [|[t'|] l IH]; intros [|n]; simpl; try lia.
  - specialize (IH n). simpl in IH. lia.
  - specialize (IH n). simpl in IH. lia.
Qed.

Lemma filled_take_S n l x :
  l !! n = Some x ->
  filled (take (S n) l) = (filled (take n l) + match x with Some _ => 1 | None => 0 end)%nat.
Proof.
  intros H. rewrite (take_S_r _ _ _ H), filled_app. by destruct x.
Qed.

Lemma empties_drop n l x :
  l !! n = Some x ->
  empties (drop n l) = (empties (drop (S n) l) + match x with Some _ => 0 | None => 1 end)%nat.
Proof.
  intros H. rewrite (drop_S _ _ _ H). destruct x; cbn; lia.
Qed.

(** A list with a repeated element has fewer distinct elements than
    positions. *)
Lemma size_list_to_set_le (l : list Z) : (size (list_to_set (C := gset Z) l) <= length l)%nat.
Proof.
  induction l as [|a l IH]; cbn [list_to_set length].
  - by rewrite size_empty.
  - pose proof (size_union_alt (C := gset Z) {[a]} (list_to_set l)) as Hu.
    rewrite size_singleton in Hu.
    assert (size (list_to_set (C := gset Z) l ∖ {[a]}) <= size (list_to_set (C := gset Z) l))%nat
      by (apply subseteq_size; set_solver).
    lia.
Qed.

Lemma size_list_to_set_dup (l : list Z) :
  ~ NoDup l -> (size (list_to_set (C := gset Z) l) < length l)%nat.
Proof.
  induction l as [|a l IH]; intros Hdup.
  - destruct Hdup. constructor.
  - cbn [list_to_set length]. destruct (decide (a ∈ l)) as [Hin|Hin].
    + replace ({[a]} ∪ list_to_set l : gset Z) with (list_to_set l : gset Z)
        by set_solver.
      pose proof (size_list_to_set_le l). lia.
    + assert (~ NoDup l) as Hl by (intros Hnd; apply Hdup; by constructor).
      specialize (IH Hl).
      pose proof (size_union_alt (C := gset Z) {[a]} (list_to_set l)) as Hu.
      rewrite size_singleton in Hu.
      assert (size (list_to_set (C := gset Z) l ∖ {[a]}) <= size (list_to_set (C := gset Z) l))%nat
        by (apply subseteq_size; set_solver).
      lia.
Qed.

(** The loop over the prefilled transactions keeps the length of
    [txn_available] and fills at most one slot for each of them. *)
Lemma place_prefilled_spec nshort pre i last avail avail1 :
  place_prefilled nshort pre i last avail = Ok (None, avail1) ->
  length avail1 = length avail /\ (filled avail1 <= filled avail + length pre)%nat.
Proof.
  revert i last avail. induction pre as [|p pre IH]; intros i last avail H;
    cbn [place_prefilled] in H.
  - apply Ok_inj in H. injection H as <-. cbn. lia.
  - destruct (IsNull_tx (prefilled_tx p)); [by apply Ok_inj in H|].
    destruct (65535 <? _); [by apply Ok_inj in H|].
    destruct (_ <? u32 _); [by apply Ok_inj in H|].
    apply bind_Ok in H as (_ & _ & H). apply IH in H as [Hlen Hfill].
    rewrite length_insert in Hlen. split; [done|].
    pose proof (filled_insert (Z.to_nat (i32 (last + (index p + 1))))
                  (prefilled_tx p) avail).
    cbn [length]. lia.
Qed.

(** [while (txn_available[i + index_offset]) index_offset++] stops at the
    next empty slot, when there is one and fewer than 65536 slots are
    filled. *)
Lemma skip_available_spec fuel avail i o :
  0 <= o ->
  (Z.to_nat o <= filled (take (i + Z.to_nat o) avail))%nat ->
  Z.of_nat (filled avail) < 65536 ->
  (1 <= empties (drop (i + Z.to_nat o) avail))%nat ->
  (length avail <= fuel + (i + Z.to_nat o))%nat ->
  exists o',
    skip_available fuel avail i o = Ok o'
    /\ 0 <= o'
    /\ (Z.to_nat o' <= filled (take (i + Z.to_nat o') avail))%nat
    /\ avail !! (i + Z.to_nat o')%nat = Some None
    /\ empties (drop (i + Z.to_nat o') avail) = empties (drop (i + Z.to_nat o) avail).
Proof.
  revert o. induction fuel as [|fuel IH]; intros o Ho Hfill Hmax Hemp Hfuel.
  - rewrite drop_ge in Hemp by lia. cbn in Hemp. lia.
  - cbn [skip_available].
    destruct (avail !! (i + Z.to_nat o)%nat) as [[t|]|] eqn:Hat.
    + pose proof (filled_take_S _ _ _ Hat) as HS.
      pose proof (empties_drop _ _ _ Hat) as HD.
      pose proof (filled_take (S (i + Z.to_nat o)) avail) as Hle.
      cbv beta iota in HS, HD.
      pose proof (lookup_lt_Some _ _ _ Hat) as Hlt.
      assert (u16 (o + 1) = o + 1) as ->.
      { unfold u16. apply Z.mod_small. change (2 ^ 16) with 65536. lia. }
      assert ((i + Z.to_nat (o + 1))%nat = S (i + Z.to_nat o)) as Hpos by lia.
      destruct (IH (o + 1)) as (o' & Hrun & Ho' & Hfill' & Hat' & Hemp');
        rewrite ?Hpos; try lia.
      exists o'. rewrite Hpos in Hemp'. repeat split; try done; lia.
    + exists o. repeat split; done.
    + apply lookup_ge_None in Hat. rewrite drop_ge in Hemp by lia. cbn in Hemp. lia.
Qed.

(** The loop over the short ids returns: either a bucket overflows, or
    every short id is a key of the map. *)
Lemma index_shorttxids_spec nbuckets avail ids i o (m : gmap Z Z) :
  0 <= o ->
  (Z.to_nat o <= filled (take (i + Z.to_nat o) avail))%nat ->
  Z.of_nat (filled avail) < 65536 ->
  (length ids <= empties (drop (i + Z.to_nat o) avail))%nat ->
  exists r,
    index_shorttxids nbuckets avail ids i o m = Ok r
    /\ match r with
       | inl status => status = READ_STATUS_FAILED
       | inr m' => dom m' = dom m ∪ list_to_set ids
       end.
Proof.
  revert i o m. induction ids as [|id ids IH]; intros i o m Ho Hfill Hmax Hemp.
  - exists (inr m). split; [done|]. cbn. set_solver.
  - cbn [index_shorttxids length] in *.
    destruct (skip_available_spec (S (length avail)) avail i o)
      as (o' & -> & Ho' & Hfill' & Hat & Hemp'); try done; try lia.
    rewrite Ok_bind. destruct (12 <? _)%nat.
    + by exists (inl READ_STATUS_FAILED).
    + pose proof (filled_take_S _ _ _ Hat) as HS.
      pose proof (empties_drop _ _ _ Hat) as HD.
      cbv beta iota in HS, HD.
      destruct (IH (S i) o' (<[id := u16 (Z.of_nat i + o')]> m))
        as (r & Hrun & Hr); try done.
      * cbn [Nat.add]. lia.
      * cbn [Nat.add]. lia.
      * exists r. split; [done|]. destruct r as [status|m']; [done|].
        rewrite Hr, dom_insert_L. cbn [list_to_set]. set_solver.
Qed.

(** Claim C6. A compact block that passes the checks on its header, its
    transaction count and its prefilled transactions (fewer than 65536 of
    them), and in which two of the short ids are the same, makes
    [InitData] on a fresh object return [READ_STATUS_FAILED]: either a
    bucket of the map overflows on the way, or the map ends up with fewer
    keys than the message has short ids. The object keeps the header and
    the prefilled transactions. *)
Theorem InitData_short_id_collision (this : PartiallyDownloadedBlock)
    (vTxHashes : list (Z * CTransaction)) (cmpctblock : CBlockHeaderAndShortTxIDs)
    (avail1 : list (option CTransaction)) :
  cmpct_header_IsNull cmpctblock = false ->
  Z.of_nat (BlockTxCount cmpctblock) <= max_block_tx_count ->
  header this = None ->
  txn_available this = [] ->
  Z.of_nat (length (prefilledtxn cmpctblock)) < 65536 ->
  place_prefilled (length (shorttxids cmpctblock)) (prefilledtxn cmpctblock) O (-1)
    (replicate (BlockTxCount cmpctblock) None) = Ok (None, avail1) ->
  ~ NoDup (shorttxids cmpctblock) ->
  InitData this vTxHashes cmpctblock
  = Ok (READ_STATUS_FAILED,
        mkPartial avail1 (Z.of_nat (length (prefilledtxn cmpctblock)))
          (mempool_count this) (Some (cmpct_header cmpctblock))).
Proof.
  intros Hnull Hcount Hheader Havail Hpre Hplace Hdup. unfold InitData.
  assert (shorttxids cmpctblock ≠ []) as Hne.
  { intros Heq. apply Hdup. rewrite Heq. constructor. }
  rewrite Hnull, (bool_decide_eq_false_2 _ Hne). cbn [orb andb].
  destruct (max_block_tx_count <? _) eqn:Hmax; [apply Z.ltb_lt in Hmax; lia|].
  rewrite Hheader, Havail, !bool_decide_eq_true_2 by done.
  cbn [andb assert]. rewrite Ok_bind, Hplace, Ok_bind.
  apply place_prefilled_spec in Hplace as [Hlen Hfill].
  rewrite length_replicate in Hlen. rewrite filled_replicate in Hfill.
  pose proof (filled_empties avail1) as Hsum. unfold BlockTxCount in Hlen.
  destruct (index_shorttxids_spec (length (shorttxids cmpctblock)) avail1
              (shorttxids cmpctblock) 0 0 ∅) as (r & -> & Hr);
    [done|simpl; lia|lia|change (Z.to_nat 0) with 0%nat; rewrite drop_0; lia|].
  rewrite Ok_bind. destruct r as [status|m]; [by subst|].
  rewrite dom_empty_L, (left_id_L ∅ (∪)) in Hr.
  pose proof (size_list_to_set_dup _ Hdup) as Hlt.
  rewrite <- Hr, size_dom in Hlt.
  destruct (size m =? _)%nat eqn:Hsize; [apply Nat.eqb_eq in Hsize; lia|].
  done.
Qed.
(** ** The block assembler: a minimum fee rate above every package *)

Lemma best_modified_empty : best_modified ∅ = None.
Proof. unfold best_modified. by rewrite map_to_list_empty. Qed.

(** The first round of [addPackageTxs] on a block that holds nothing yet:
    the package of the first entry of the index is below the minimum fee
    rate, and the function returns. *)
Lemma addPackageTxs_loop_below_min (fuel : nat) (ba : BlockAssembler)
    (idx : list Z) (ws : WorkingState) (np nd : Z) :
  inBlock ws = ∅ ->
  (forall h, h ∈ idx ->
     exists it, miner_mapTx !! h = Some it
                /\ GetModFeesWithAncestors it
                   < CFeeRate_GetFee (blockMinFeeRate ba) (GetSizeWithAncestors it)) ->
  addPackageTxs_loop (S fuel) ba true (mkPackages idx ∅ ∅ 0 ws np nd)
  = Ok (mkPackages (tail idx) ∅ ∅ 0 ws np nd).
Proof.
  intros Hblock Hbelow. cbn [addPackageTxs_loop mi mapModifiedTx failedTx
    workState_of nConsecutiveFailed nPackagesSelected nDescendantsUpdated].
  destruct idx as [|h rest].
  - by rewrite !bool_decide_eq_true_2.
  - rewrite (bool_decide_eq_false_2 (h :: rest = [])) by done. cbn [andb].
    destruct (Hbelow h) as (it & Hit & Hfee); [by left|].
    unfold SkipMapTxEntry. rewrite Hit. cbn [deref]. rewrite Ok_bind.
    rewrite Hblock, lookup_empty.
    rewrite (bool_decide_eq_false_2 (is_Some None)) by (by intros [? ?]).
    rewrite !(bool_decide_eq_false_2 (h ∈ ∅)) by set_solver.
    cbn [orb andb negb]. rewrite Ok_bind, best_modified_empty.
    cbn [deref]. rewrite !Ok_bind.
    rewrite (bool_decide_eq_false_2 (h ∈ ∅)) by set_solver.
    cbn [negb assert]. rewrite !Ok_bind, Hit. cbn [deref]. rewrite !Ok_bind.
    apply Z.ltb_lt in Hfee. by rewrite Hfee.
Qed.

(** Claim C5. When every entry of the mempool has package fees below
    [blockMinFeeRate.GetFee] of its package size (and the block with the
    coinbase alone is valid, as [CreateNewBlock] requires of its result),
    [CreateNewBlock] returns a template whose only transaction is the
    coinbase, paying the subsidy and no fees: [addPackageTxs] returns at
    the first package it looks at. *)
Theorem CreateNewBlock_only_coinbase (ba : BlockAssembler) (tipHeight lockTimeCutoff : Z)
    (witnessEnabled fMineWitnessTx : bool) (coinbaseSigOps : Z) :
  (forall h, h ∈ ancestor_score_index ->
     exists it, miner_mapTx !! h = Some it
                /\ GetModFeesWithAncestors it
                   < CFeeRate_GetFee (blockMinFeeRate ba) (GetSizeWithAncestors it)) ->
  TestBlockValidity
    [CoinbaseTx (i64 (0 + GetBlockSubsidy (i32 (tipHeight + 1)))) (i32 (tipHeight + 1))]
  = true ->
  CreateNewBlock ba tipHeight lockTimeCutoff witnessEnabled fMineWitnessTx coinbaseSigOps
  = Ok (mkTemplate
          [CoinbaseTx (i64 (0 + GetBlockSubsidy (i32 (tipHeight + 1))))
             (i32 (tipHeight + 1))]
          [i64 (- 0)]
          [i64 (WITNESS_SCALE_FACTOR * coinbaseSigOps)]).
Proof.
  intros Hbelow Hvalid. unfold CreateNewBlock, addPackageTxs, addPackageTxs_fuel.
  cbv zeta. rewrite addPackageTxs_loop_below_min; [|done|done].
  rewrite Ok_bind. cbn [workState_of vtx vTxFees vTxSigOpsCost nFees].
  cbn [insert list_insert]. rewrite Hvalid. cbn [assert]. by rewrite Ok_bind.
Qed.
(** * Further properties of the mempool *)

(** ** Ancestors without limits *)

(** X1.  With all four limits at [nNoLimit], as [addUnchecked(hash, entry,
    fCurrentEstimate)] and [UpdateForRemoveFromMempool] call it,
    [CalculateMemPoolAncestors] never fails, whatever the sizes and counts
    stored in the pool: on a pool whose links are the spending relation it
    returns [true] with exactly the in-mempool ancestors of the entry. *)
Theorem CalculateMemPoolAncestors_unlimited (pool : CTxMemPool) (entry : CTxMemPoolEntry) :
  links_are_parents pool ->
  exists setAncestors,
    CalculateMemPoolAncestors pool entry ∅ nNoLimit nNoLimit nNoLimit nNoLimit
    = Ok (setAncestors, None)
    /\ forall p, p ∈ setAncestors <-> ancestor_of (mapTx pool) (GetTx entry) p.
Proof. apply CalculateMemPoolAncestors_nolimit. Qed.

(** ** [HasNoInputsOf] *)

Lemma HasNoInputsOf_from_true pool ins :
  HasNoInputsOf_from pool ins = true
  <-> forall o, o ∈ ins -> mapTx pool !! outpoint_hash o = None.
Proof.
  induction ins as [|o ins IH]; cbn [HasNoInputsOf_from].
  - split; [by intros _ o ?%elem_of_nil|done].
  - unfold exists_tx. case_bool_decide as Hin.
    + split; [done|]. intros H. specialize (H o ltac:(by left)).
      rewrite H in Hin. by destruct Hin.
    + rewrite IH. apply eq_None_not_Some in Hin. split.
      * intros H x [->|Hx]%elem_of_cons; [done|by apply H].
      * intros H x Hx. apply H. by right.
Qed.

(** X2.  [HasNoInputsOf(tx)] is [true] exactly when [tx] has no
    in-mempool ancestor; and then [CalculateMemPoolAncestors] accepts the
    entry with an empty [setAncestors], whatever the four limits are. *)
Theorem HasNoInputsOf_no_ancestors (pool : CTxMemPool) (entry : CTxMemPoolEntry) :
  (HasNoInputsOf pool (GetTx entry) = true
   <-> forall a, ~ ancestor_of (mapTx pool) (GetTx entry) a)
  /\ (HasNoInputsOf pool (GetTx entry) = true ->
      forall limitAncestorCount limitAncestorSize limitDescendantCount
             limitDescendantSize,
        CalculateMemPoolAncestors pool entry ∅ limitAncestorCount limitAncestorSize
          limitDescendantCount limitDescendantSize = Ok (∅, None)).
Proof.
  unfold HasNoInputsOf. rewrite HasNoInputsOf_from_true. split; [split|].
  - intros Hnone a Ha.
    assert (exists p, spends (mapTx pool) (GetTx entry) p) as (p & Hp & o & Ho & <-).
    { induction Ha as [p Hp|a e p _ IH _ _]; [by exists p|done]. }
    rewrite (Hnone o Ho) in Hp. by destruct Hp.
  - intros Hnone o Ho. apply eq_None_not_Some. intros Hin.
    apply (Hnone (outpoint_hash o)). apply ancestor_parent. split; [done|].
    by exists o.
  - intros Hnone lac las ldc lds. unfold CalculateMemPoolAncestors.
    assert (forall ins ph, (forall o, o ∈ ins -> mapTx pool !! outpoint_hash o = None) ->
              find_parents (mapTx pool) lac ins ph = (ph, true)) as Hfind.
    { induction ins as [|o ins IH]; intros ph Hins; cbn [find_parents]; [done|].
      rewrite (Hins o) by by left. apply IH. intros x Hx. apply Hins. by right. }
    rewrite Hfind by done. unfold ancestors_fuel. cbn [ancestors_loop].
    by rewrite decide_True.
Qed.

(** ** Prioritisation *)

(** [PrioritiseTransaction] called for [hash] with each delta of [l]. *)
Definition prioritise_all (pool : CTxMemPool) (hash : Z) (l : list (double * Z))
  : CTxMemPool :=
  fold_left (fun p d => PrioritiseTransaction p hash (fst d) (snd d)) l pool.

(** The fee delta stored for [hash], 0 when there is none. *)
Definition fee_delta (pool : CTxMemPool) (hash : Z) : Z :=
  snd (default (dzero, 0) (mapDeltas pool !! hash)).

Lemma i64_idem (z : Z) : i64 (i64 z) = i64 z.
Proof. unfold i64. Z.div_mod_to_equations. lia. Qed.

Lemma i64_add_l (a b : Z) : i64 (i64 a + b) = i64 (a + b).
Proof. unfold i64. Z.div_mod_to_equations. lia. Qed.

Lemma i64_add_r (a b : Z) : i64 (a + i64 b) = i64 (a + b).
Proof. unfold i64. Z.div_mod_to_equations. lia. Qed.

Lemma prioritise_all_cons pool hash d l :
  prioritise_all pool hash (d :: l)
  = prioritise_all (PrioritiseTransaction pool hash (fst d) (snd d)) hash l.
Proof. reflexivity. Qed.

Lemma fee_delta_PrioritiseTransaction pool hash dp df :
  fee_delta (PrioritiseTransaction pool hash dp df) hash
  = i64 (fee_delta pool hash + df).
Proof.
  unfold fee_delta, PrioritiseTransaction, set_mapDeltas. cbn [mapDeltas].
  by rewrite lookup_insert_eq.
Qed.

Lemma fee_delta_prioritise_all pool hash l :
  i64 (fee_delta (prioritise_all pool hash l) hash)
  = i64 (fee_delta pool hash + fold_right Z.add 0 (map snd l)).
Proof.
  revert pool. induction l as [|[dp df] l IH]; intros pool.
  - cbn. f_equal. lia.
  - rewrite prioritise_all_cons, IH. cbn [fst snd map fold_right].
    rewrite fee_delta_PrioritiseTransaction, i64_add_l. f_equal. lia.
Qed.

Lemma mapDeltas_prioritise_all_ne pool hash l h' :
  h' ≠ hash -> mapDeltas (prioritise_all pool hash l) !! h' = mapDeltas pool !! h'.
Proof.
  intros Hne. revert pool. induction l as [|d l IH]; intros pool; [done|].
  rewrite prioritise_all_cons, IH. unfold PrioritiseTransaction, set_mapDeltas. cbn [mapDeltas].
  by rewrite lookup_insert_ne.
Qed.

Lemma ApplyDeltas_fee pool hash dp nf :
  in_i64 nf -> snd (ApplyDeltas pool hash dp nf) = i64 (nf + fee_delta pool hash).
Proof.
  intros Hnf. unfold ApplyDeltas, fee_delta.
  destruct (mapDeltas pool !! hash) as [d|]; cbn; [done|].
  by rewrite Z.add_0_r, i64_small.
Qed.

(** X3.  The fee deltas of successive [PrioritiseTransaction] calls for
    one txid add up (in 64-bit arithmetic) on top of what was stored:
    [ApplyDeltas] then adds the stored delta and their sum to its
    [nFeeDelta] argument, and what it does for any other txid has not
    changed. *)
Theorem PrioritiseTransaction_accumulates (pool : CTxMemPool) (hash : Z)
    (l : list (double * Z)) (dPriorityDelta : double) (nFeeDelta : Z) :
  in_i64 nFeeDelta ->
  snd (ApplyDeltas (prioritise_all pool hash l) hash dPriorityDelta nFeeDelta)
  = i64 (nFeeDelta + fee_delta pool hash + fold_right Z.add 0 (map snd l))
  /\ forall h' dp nf, h' ≠ hash ->
       ApplyDeltas (prioritise_all pool hash l) h' dp nf = ApplyDeltas pool h' dp nf.
Proof.
  intros Hfee. split.
  - rewrite ApplyDeltas_fee by done.
    rewrite <- i64_add_r, fee_delta_prioritise_all, i64_add_r. f_equal. lia.
  - intros h' dp nf Hne. unfold ApplyDeltas.
    by rewrite mapDeltas_prioritise_all_ne.
Qed.
(** * Further properties of the compact-block reconstructor *)

(** ** [FillBlock] *)

Lemma fill_slots_length avail missing :
  length (snd (fst (fill_slots avail missing))) = length avail.
Proof.
  revert missing. induction avail as [|[tx|] avail IH]; intros missing;
    cbn [fill_slots]; [done| |].
  - specialize (IH missing). destruct (fill_slots avail missing) as [[ok vtx] rest].
    cbn in *. by rewrite IH.
  - destruct missing as [|tx missing'].
    + cbn. by rewrite length_replicate.
    + specialize (IH missing').
      destruct (fill_slots avail missing') as [[ok vtx] rest]. cbn in *. by rewrite IH.
Qed.

Lemma fill_slots_short avail missing :
  (length missing < empties avail)%nat -> fst (fst (fill_slots avail missing)) = false.
Proof.
  revert missing. induction avail as [|[tx|] avail IH]; intros missing Hlen;
    cbn [fill_slots empties] in *; [lia| |].
  - specialize (IH missing Hlen).
    by destruct (fill_slots avail missing) as [[ok vtx] rest].
  - destruct missing as [|tx missing']; [done|]. cbn [length] in Hlen.
    specialize (IH missing' ltac:(lia)).
    by destruct (fill_slots avail missing') as [[ok vtx] rest].
Qed.

Lemma fill_slots_enough avail missing :
  (empties avail <= length missing)%nat ->
  fst (fst (fill_slots avail missing)) = true
  /\ snd (fill_slots avail missing) = drop (empties avail) missing.
Proof.
  revert missing. induction avail as [|[tx|] avail IH]; intros missing Hlen;
    cbn [fill_slots empties] in *; [done| |].
  - specialize (IH missing Hlen).
    by destruct (fill_slots avail missing) as [[ok vtx] rest].
  - destruct missing as [|tx missing']; cbn [length] in Hlen; [lia|].
    specialize (IH missing' ltac:(lia)).
    by destruct (fill_slots avail missing') as [[ok vtx] rest].
Qed.

(** X4.  [FillBlock] wants exactly one transaction in [vtx_missing] for
    every empty slot of [txn_available]: with fewer or with more it
    returns [READ_STATUS_INVALID], whatever [CheckBlock] would say of the
    block, and [block.vtx] has been resized to the number of slots. *)
Theorem FillBlock_wrong_count (this : PartiallyDownloadedBlock)
    (vtx_missing : list CTransaction) :
  is_Some (header this) ->
  length vtx_missing ≠ empties (txn_available this) ->
  exists vtx,
    FillBlock this vtx_missing = Ok (READ_STATUS_INVALID, vtx)
    /\ length vtx = length (txn_available this).
Proof.
  intros [hdr Hhdr] Hlen. unfold FillBlock. rewrite Hhdr. cbn [deref]. rewrite Ok_bind.
  pose proof (fill_slots_length (txn_available this) vtx_missing) as Hl.
  destruct (decide (length vtx_missing < empties (txn_available this))%nat) as [Hlt|Hge].
  - pose proof (fill_slots_short _ _ Hlt) as Hok.
    destruct (fill_slots (txn_available this) vtx_missing) as [[ok vtx] rest].
    cbn in Hok, Hl. subst ok. cbn. by exists vtx.
  - destruct (fill_slots_enough (txn_available this) vtx_missing ltac:(lia)) as [Hok Hrest].
    destruct (fill_slots (txn_available this) vtx_missing) as [[ok vtx] rest].
    cbn in Hok, Hl, Hrest. subst ok. cbn [negb]. cbv iota.
    rewrite bool_decide_eq_false_2.
    + cbn. by exists vtx.
    + subst rest. intros Hnil. apply (f_equal length) in Hnil.
      rewrite length_drop in Hnil. cbn in Hnil. lia.
Qed.

(** A block of which some transactions are held back: [true] marks a
    transaction that is available. *)
Definition available_of (l : list (bool * CTransaction)) : list (option CTransaction) :=
  map (fun bt : bool * CTransaction => if fst bt then Some (snd bt) else None) l.

Definition missing_of (l : list (bool * CTransaction)) : list CTransaction :=
  map snd (filter (fun bt : bool * CTransaction => fst bt = false) l).

Lemma fill_slots_available l :
  fill_slots (available_of l) (missing_of l) = (true, map (fun bt : bool * CTransaction => Some (snd bt)) l, []).
Proof.
  induction l as [|[[|] tx] l IH]; [done| |].
  - cbn [available_of map fst snd fill_slots].
    replace (missing_of ((true, tx) :: l)) with (missing_of l).
    + fold (available_of l). by rewrite IH.
    + unfold missing_of. by rewrite filter_cons_False.
  - cbn [available_of map fst snd].
    replace (missing_of ((false, tx) :: l)) with (tx :: missing_of l).
    + cbn [fill_slots]. fold (available_of l). by rewrite IH.
    + unfold missing_of. by rewrite filter_cons_True.
Qed.

(** X5.  [FillBlock] puts a block back together: when the slots of
    [txn_available] hold some of the transactions of a block, in place,
    and [vtx_missing] is the others in block order, [block.vtx] is the
    whole block again, and the status is what [CheckBlock] says of it:
    [READ_STATUS_OK] for a valid block, [READ_STATUS_FAILED] when
    corruption is possible, [READ_STATUS_INVALID] otherwise. *)
Theorem FillBlock_restores_block (this : PartiallyDownloadedBlock) (hdr : Z)
    (l : list (bool * CTransaction)) :
  header this = Some hdr ->
  txn_available this = available_of l ->
  FillBlock this (missing_of l)
  = Ok (match CheckBlock hdr (map (fun bt : bool * CTransaction => Some (snd bt)) l) with
        | (true, _) => READ_STATUS_OK
        | (false, true) => READ_STATUS_FAILED
        | (false, false) => READ_STATUS_INVALID
        end,
        map (fun bt : bool * CTransaction => Some (snd bt)) l).
Proof.
  intros Hhdr Havail. unfold FillBlock. rewrite Hhdr, Havail. cbn [deref].
  rewrite Ok_bind, fill_slots_available. cbn [negb]. cbv iota.
  rewrite bool_decide_eq_true_2 by done. cbn [negb].
  by destruct (CheckBlock hdr _) as [[|] [|]].
Qed.
(** * Descendants and removal *)

(** ** What [CalculateDescendants] computes *)

(** [d] descends from [h]: it is [h], or a child (by [mapLinks]) of a
    descendant of [h]. *)
Inductive descends (pool : CTxMemPool) (h : Z) : Z -> Prop :=
| descends_self : descends pool h h
| descends_child d c :
    descends pool h d -> c ∈ children_of pool d -> descends pool h c.

(** Every child of an entry is an entry with links of its own. *)
Definition children_linked (pool : CTxMemPool) : Prop :=
  forall h c, is_Some (mapTx pool !! h) -> c ∈ children_of pool h ->
    is_Some (mapTx pool !! c) /\ is_Some (mapLinks pool !! c).

Lemma descends_trans pool a b c :
  descends pool a b -> descends pool b c -> descends pool a c.
Proof.
  intros Hab Hbc. induction Hbc as [|d c _ IH Hc]; [done|].
  by apply descends_child with d.
Qed.

Lemma foreach_runs {A S : Type} (f : S -> A -> result S) (l : list A) (s : S) :
  (forall s1 a, a ∈ l -> exists s2, f s1 a = Ok s2) -> exists s', foreach f l s = Ok s'.
Proof.
  revert s. induction l as [|a l IH]; intros s Hf; cbn [foreach]; [by exists s|].
  destruct (Hf s a) as [s1 ->]; [by left|]. rewrite Ok_bind.
  apply IH. intros s2 b Hb. apply Hf. by right.
Qed.

Lemma GetMemPoolChildren_runs pool h :
  is_Some (mapTx pool !! h) -> is_Some (mapLinks pool !! h) ->
  GetMemPoolChildren pool h = Ok (children_of pool h).
Proof.
  intros [e He] [l Hl]. unfold GetMemPoolChildren, children_of, links_at.
  by rewrite He, Hl.
Qed.

Lemma next_descendants_runs pool SD l :
  (forall h, h ∈ l -> is_Some (mapTx pool !! h) /\ is_Some (mapLinks pool !! h)) ->
  exists s, next_descendants pool SD l = Ok s.
Proof.
  intros Hl. apply foreach_runs. intros s1 h Hh. destruct (Hl h Hh) as [He Hlk].
  rewrite GetMemPoolChildren_runs by done. rewrite Ok_bind. eauto.
Qed.

Lemma descendants_loop_exact fuel pool stage SD :
  children_linked pool ->
  (forall s, s ∈ stage -> is_Some (mapTx pool !! s) /\ is_Some (mapLinks pool !! s)) ->
  stage ## SD ->
  (forall d c, d ∈ SD -> c ∈ children_of pool d -> c ∈ SD ∪ stage) ->
  (size (dom (mapTx pool) ∖ SD) < fuel)%nat ->
  exists R,
    descendants_loop fuel pool stage SD = Ok R
    /\ forall x, x ∈ R <-> x ∈ SD \/ exists s, s ∈ stage /\ descends pool s x.
Proof.
  intros Hpool. revert stage SD.
  induction fuel as [|fuel IH]; intros stage SD Hstage Hdisj Hclosed Hfuel; [lia|].
  cbn [descendants_loop]. case_decide as Hempty.
  { exists SD. split; [done|]. intros x. split; [by left|].
    intros [Hx|(s & Hs & _)]; [done|]. subst stage. by apply elem_of_empty in Hs. }
  destruct (next_descendants_runs pool (SD ∪ stage) (sorted_elements stage))
    as [next Hnext].
  { intros h Hh. by apply Hstage, elem_of_sorted_elements. }
  rewrite Hnext, Ok_bind. apply next_descendants_spec in Hnext as [_ Hnext].
  assert (forall x, x ∈ next <->
            x ∉ SD ∪ stage /\ exists s, s ∈ stage /\ x ∈ children_of pool s) as Hn.
  { intros x. rewrite Hnext. split; intros [Hx (s & Hs & Hc)]; (split; [done|]);
      exists s; (split; [|done]); by apply elem_of_sorted_elements. }
  clear Hnext.
  destruct (IH next (SD ∪ stage)) as (R & HR & Hspec).
  - intros s [_ (t & Ht & Hc)]%Hn. apply (Hpool t); [|done]. by apply Hstage.
  - intros x [Hx _]%Hn Hx'. done.
  - intros d c [Hd|Hd]%elem_of_union Hc.
    + apply elem_of_union_l. by apply (Hclosed d).
    + destruct (decide (c ∈ SD ∪ stage)) as [Hin|Hout]; [by apply elem_of_union_l|].
      apply elem_of_union_r, Hn. split; [done|]. by exists d.
  - assert (forall y, y ∈ stage -> is_Some (mapTx pool !! y)) as Hin
      by (intros y Hy; by apply Hstage).
    pose proof (size_dom_difference_lt SD stage (mapTx pool) Hempty Hdisj Hin). lia.
  - exists R. split; [done|]. intros x. rewrite Hspec. split.
    + intros [[Hx|Hx]%elem_of_union|(s & [_ (t & Ht & Hc)]%Hn & Hx)].
      * by left.
      * right. exists x. split; [done|apply descends_self].
      * right. exists t. split; [done|].
        apply descends_trans with s; [|done].
        apply descends_child with t; [apply descends_self|done].
    + intros [Hx|(s & Hs & Hx)]; [left; by apply elem_of_union_l|].
      induction Hx as [|d c _ IHd Hc].
      * left. by apply elem_of_union_r.
      * destruct IHd as [[Hd|Hd]%elem_of_union|(t & Ht & Hd)].
        -- left. by apply (Hclosed d).
        -- destruct (decide (c ∈ SD ∪ stage)) as [Hin|Hout]; [by left|].
           right. exists c. split; [|apply descends_self].
           apply Hn. split; [done|]. by exists d.
        -- right. exists t. split; [done|]. by apply descends_child with d.
Qed.

Lemma CalculateDescendants_descends (pool : CTxMemPool) (hash : Z)
    (setDescendants : gset Z) :
  children_linked pool ->
  is_Some (mapTx pool !! hash) ->
  is_Some (mapLinks pool !! hash) ->
  (forall d c, d ∈ setDescendants -> c ∈ children_of pool d -> c ∈ setDescendants) ->
  exists setDescendants',
    CalculateDescendants pool hash setDescendants = Ok setDescendants'
    /\ forall x, x ∈ setDescendants' <-> x ∈ setDescendants \/ descends pool hash x.
Proof.
  intros Hpool He Hl Hclosed. unfold CalculateDescendants.
  destruct (descendants_loop_exact (descendants_fuel pool) pool
              (if decide (hash ∈ setDescendants) then ∅ else {[hash]}) setDescendants)
    as (R & HR & Hspec); [done| | | | |].
  - intros s. case_decide; [by intros ?%elem_of_empty|].
    by intros ->%elem_of_singleton.
  - case_decide; set_solver.
  - intros d c Hd Hc. apply elem_of_union_l. by apply (Hclosed d).
  - unfold descendants_fuel.
    assert (size (dom (mapTx pool) ∖ setDescendants) <= size (dom (mapTx pool)))%nat
      by (apply subseteq_size; set_solver).
    rewrite size_dom in *. lia.
  - exists R. split; [done|]. intros x. rewrite Hspec. split.
    + intros [Hx|(s & Hs & Hx)]; [by left|]. case_decide as Hin.
      * by apply elem_of_empty in Hs.
      * apply elem_of_singleton in Hs as ->. by right.
    + intros [Hx|Hx]; [by left|]. case_decide as Hin.
      * left. induction Hx as [|d c _ IHd Hc]; [done|]. by apply (Hclosed d).
      * right. exists hash. split; [by apply elem_of_singleton|done].
Qed.

(** X6.  [CalculateDescendants(hash, setDescendants)] adds to
    [setDescendants] the entry and everything reached from it through
    [children] links, and nothing else, provided (as the source assumes)
    that [setDescendants] already holds the children of its members. *)
Theorem CalculateDescendants_exact (pool : CTxMemPool) (hash : Z)
    (setDescendants : gset Z) :
  children_linked pool ->
  is_Some (mapTx pool !! hash) ->
  is_Some (mapLinks pool !! hash) ->
  (forall d c, d ∈ setDescendants -> c ∈ children_of pool d -> c ∈ setDescendants) ->
  exists setDescendants',
    CalculateDescendants pool hash setDescendants = Ok setDescendants'
    /\ forall x, x ∈ setDescendants' <-> x ∈ setDescendants \/ descends pool hash x.
Proof. apply CalculateDescendants_descends. Qed.
(** * Eviction: what is staged *)

Section TrimPaid.

Variable pool : CTxMemPool.
Variable sizeToTrim : Z.
Variable protect : gset Z.
Variables nFeesReserved sizeToUse feeToUse iterextra : Z.

(** A walk that ends well has checked its last [nowfee] against
    [feeToUse]. *)
Lemma trim_walk_paid fuel stage nFeesRemoved limit w w' :
  trim_walk fuel pool protect stage nFeesReserved nFeesRemoved feeToUse limit w
  = Ok (true, w') ->
  (todo w = [] -> i64 (i64 (nFeesReserved + nFeesRemoved) + nowfee w) <= feeToUse) ->
  i64 (i64 (nFeesReserved + nFeesRemoved) + nowfee w') <= feeToUse.
Proof.
  revert w. induction fuel as [|fuel IH]; intros w H Hw.
  - destruct w as [[|hashnow rest] nw f s u it]; cbn in H.
    + injection H as <-. by apply Hw.
    + case_decide; [done|]. destruct (limit <? it + 1); done.
  - destruct w as [[|hashnow rest] nw f s u it]; cbn [trim_walk todo] in H.
    + injection H as <-. by apply Hw.
    + case_decide as Hprotect; [done|].
      cbn [walk_itertotal nowfee now nowsize nowusage] in H.
      destruct (limit <? it + 1); [done|].
      apply bind_Ok in H as (origTx & _ & H).
      destruct (feeToUse <? _) eqn:Hfee; [done|].
      apply IH in H; [done|]. intros _. cbn [nowfee]. lia.
Qed.

(** What the scan keeps: the stage grows, and once something is staged
    the fees removed, with the fees reserved, are within [feeToUse]. *)
Definition scan_paid (stage : gset Z) (nFeesRemoved : Z) (st : TrimState) : Prop :=
  stage ⊆ stage_of st
  /\ ((stage_of st = stage /\ nFeesRemoved_of st = nFeesRemoved)
      \/ i64 (nFeesReserved + nFeesRemoved_of st) <= feeToUse).

Lemma trim_scan_paid stage nFeesRemoved its st st' :
  trim_scan pool sizeToTrim protect nFeesReserved sizeToUse feeToUse iterextra its st
  = Ok st' ->
  scan_paid stage nFeesRemoved st -> scan_paid stage nFeesRemoved st'.
Proof.
  revert st. induction its as [|it its IH]; intros st H Hok; cbn [trim_scan] in H.
  - by apply Ok_inj in H as <-.
  - destruct (negb (usageRemoved st <? sizeToTrim)); [by apply Ok_inj in H as <-|].
    destruct (negb (insecure_rand (rand_calls st) mod 10 =? 0)); [by apply IH in H|].
    case_decide; [by apply IH in H|].
    destruct (feerate_gt (nFee it) (nTxSize it) feeToUse sizeToUse);
      [by apply Ok_inj in H as <-|].
    apply bind_Ok in H as ([good w] & Hwalk & H).
    destruct good; cbn [andb] in H.
    + destruct (negb (feerate_gt (nowfee w) (nowsize w) feeToUse sizeToUse)).
      * apply IH in H; [done|]. destruct Hok as [Hsub _].
        split; cbn [stage_of nFeesRemoved_of]; [set_solver|]. right.
        apply trim_walk_paid in Hwalk; [|done].
        rewrite i64_add_r. rewrite i64_add_l in Hwalk.
        by replace (nFeesReserved + (nFeesRemoved_of st + nowfee w))
          with (nFeesReserved + nFeesRemoved_of st + nowfee w) by lia.
      * destruct (failmax <? fails st + 1); [by apply Ok_inj in H as <-|].
        by apply IH in H.
    + destruct (failmax <? fails st + 1); [by apply Ok_inj in H as <-|].
      by apply IH in H.
Qed.

End TrimPaid.

(** X7.  On a pool whose [mapNextTx] and index point into [mapTx],
    [TrimMempool] returns, and what it has staged is safe to remove:
    the stage has grown, it still holds, with every transaction, the
    transactions that spend from it (if it did before), it holds nothing
    of [protect], and unless nothing was staged the fees reserved plus
    the fees removed (in 64-bit arithmetic) are within [feeToUse]. *)
Theorem TrimMempool_stage_closed_and_paid (pool : CTxMemPool) (sizeToTrim : Z)
    (protect : gset Z) (nFeesReserved sizeToUse feeToUse : Z) (mustTrimAllSize : bool)
    (iterextra : Z) (stage : gset Z) (nFeesRemoved : Z) :
  spenders_in_pool pool ->
  (forall it, it ∈ index_descendant_score_rev (mapTx pool) ->
     is_Some (mapTx pool !! entry_hash it)) ->
  descendant_closed pool stage ->
  stage ## protect ->
  exists ok stage' nFeesRemoved',
    TrimMempool pool sizeToTrim protect nFeesReserved sizeToUse feeToUse
      mustTrimAllSize iterextra stage nFeesRemoved = Ok (ok, stage', nFeesRemoved')
    /\ stage ⊆ stage'
    /\ descendant_closed pool stage'
    /\ stage' ## protect
    /\ ((stage' = stage /\ nFeesRemoved' = nFeesRemoved)
        \/ i64 (nFeesReserved + nFeesRemoved') <= feeToUse).
Proof.
  intros Hsp Hidx Hclosed Hprot.
  destruct (trim_scan_runs pool sizeToTrim protect nFeesReserved sizeToUse feeToUse
              iterextra (index_descendant_score_rev (mapTx pool))
              (mkTrim 0 0 0 stage nFeesRemoved O) Hsp Hidx) as [st Hscan].
  assert (exists ok, TrimMempool pool sizeToTrim protect nFeesReserved sizeToUse
            feeToUse mustTrimAllSize iterextra stage nFeesRemoved
          = Ok (ok, stage_of st, nFeesRemoved_of st)) as [ok Hrun].
  { unfold TrimMempool. rewrite Hscan, Ok_bind.
    destruct (mustTrimAllSize && _); [eauto|].
    destruct (bool_decide _ && _); eauto. }
  exists ok, (stage_of st), (nFeesRemoved_of st). split; [done|].
  pose proof (trim_scan_stage_ok _ _ _ _ _ _ _ _ _ _ Hscan) as Hok.
  destruct Hok as [Hc Hp]; [by split|].
  pose proof (trim_scan_paid _ _ _ _ _ _ _ stage nFeesRemoved _ _ _ Hscan) as Hpaid.
  destruct Hpaid as [Hsub Hfee]; [split; [done|by left]|].
  done.
Qed.
(** * What a passing [check] establishes *)

(** The invariants that [check] asserts of the graph: the links of every
    entry are the spending relation, in both directions, and [mapNextTx]
    holds the inputs of the entries and nothing else. *)
Record graph_consistent (pool : CTxMemPool) : Prop := mkGraphConsistent {
  gc_parents : links_are_parents pool;
  gc_children : forall h c, is_Some (mapTx pool !! h) ->
    (c ∈ children_of pool h <-> is_Some (mapTx pool !! c) /\ h ∈ parents_of pool c);
  gc_inputs : inputs_registered pool;
  gc_spenders : forall o c i, mapNextTx pool !! o = Some (c, i) :> option CInPoint ->
    exists e, mapTx pool !! c = Some e /\ o ∈ vin (GetTx e)
}.

(** A consistent pool: besides, [mapLinks] has a record for the entries
    of [mapTx] only. *)
Record consistent (pool : CTxMemPool) : Prop := mkConsistent {
  cons_parents : links_are_parents pool;
  cons_children : forall h c, is_Some (mapTx pool !! h) ->
    (c ∈ children_of pool h <-> is_Some (mapTx pool !! c) /\ h ∈ parents_of pool c);
  cons_inputs : inputs_registered pool;
  cons_spenders : forall o c i, mapNextTx pool !! o = Some (c, i) :> option CInPoint ->
    exists e, mapTx pool !! c = Some e /\ o ∈ vin (GetTx e);
  cons_links_dom : forall h, is_Some (mapLinks pool !! h) -> is_Some (mapTx pool !! h)
}.

Lemma consistent_graph pool : consistent pool -> graph_consistent pool.
Proof. intros [H1 H2 H3 H4 _]. by split. Qed.

Lemma check_inputs_parents pool pcoins tx ins i dep par dep' par' :
  check_inputs pool pcoins tx ins i dep par = Ok (dep', par') ->
  forall p, p ∈ par' <->
    p ∈ par \/ (is_Some (mapTx pool !! p) /\ exists o, o ∈ ins /\ outpoint_hash o = p).
Proof.
  revert i dep par. induction ins as [|o ins IH]; intros i dep par H p;
    cbn [check_inputs] in H.
  - injection H as _ <-. split; [by left|].
    intros [Hp|[_ (o & ?%elem_of_nil & _)]]; done.
  - apply bind_Ok in H as ([dep1 par1] & Hfirst & H).
    apply bind_Ok in H as (it3 & _ & H).
    apply bind_Ok in H as (_ & _ & H). apply bind_Ok in H as (_ & _ & H).
    apply IH with (p := p) in H. rewrite H. clear H IH.
    destruct (mapTx pool !! outpoint_hash o) as [it2|] eqn:Hit2.
    + apply bind_Ok in Hfirst as (_ & _ & Hfirst). apply Ok_inj in Hfirst.
      injection Hfirst as _ <-. split.
      * intros [[->%elem_of_singleton|Hp]%elem_of_union|[Hp (o' & Ho' & Heq)]].
        -- right. split; [by rewrite Hit2|]. exists o. split; [by left|done].
        -- by left.
        -- right. split; [done|]. exists o'. split; [by right|done].
      * intros [Hp|[Hp (o' & [->|Ho']%elem_of_cons & Heq)]].
        -- left. by apply elem_of_union_r.
        -- left. apply elem_of_union_l, elem_of_singleton. by symmetry.
        -- right. split; [done|]. by exists o'.
    + apply bind_Ok in Hfirst as (_ & _ & Hfirst). apply Ok_inj in Hfirst.
      injection Hfirst as _ <-. split.
      * intros [Hp|[Hp (o' & Ho' & Heq)]]; [by left|].
        right. split; [done|]. exists o'. split; [by right|done].
      * intros [Hp|[Hp (o' & [->|Ho']%elem_of_cons & Heq)]]; [by left| |].
        -- subst p. rewrite Hit2 in Hp. by destruct Hp.
        -- right. split; [done|]. by exists o'.
Qed.

Lemma check_children_from pool (l : list CInPoint) (s : gset Z * Z * Z)
    (cc : gset Z) (sz fee : Z) :
  foreach (fun '(setChildrenCheck, childSizes, childFees) (spender : CInPoint) =>
             childit ← deref (mapTx pool !! fst spender);
             if decide (fst spender ∈ setChildrenCheck)
             then Ok (setChildrenCheck, childSizes, childFees)
             else Ok ({[fst spender]} ∪ setChildrenCheck,
                      i64 (childSizes + nTxSize childit),
                      i64 (childFees + nFee childit)))
    l s = Ok (cc, sz, fee) ->
  forall c, c ∈ cc <-> c ∈ fst (fst s) \/ c ∈ map fst l.
Proof.
  revert s. induction l as [|x l IH]; intros [[cc0 sz0] fee0] H c; cbn [foreach] in H.
  - apply Ok_inj in H. injection H as <- _ _. cbn. split; [by left|].
    intros [?|?%elem_of_nil]; done.
  - apply bind_Ok in H as ([[cc1 sz1] fee1] & Hstep & H).
    apply IH with (c := c) in H. rewrite H. clear H IH. cbn [fst map].
    apply bind_Ok in Hstep as (childit & _ & Hstep).
    rewrite elem_of_cons. case_decide as Hin.
    + apply Ok_inj in Hstep. injection Hstep as <- _ _. split; [tauto|].
      intros [?|[->|?]]; auto.
    + apply Ok_inj in Hstep. injection Hstep as <- _ _.
      rewrite elem_of_union, elem_of_singleton. tauto.
Qed.

Lemma check_children_spec pool h cc sz fee :
  check_children pool h = Ok (cc, sz, fee) ->
  forall c, c ∈ cc <-> c ∈ spender_hashes pool h.
Proof.
  intros H c. apply check_children_from with (c := c) in H. rewrite H. cbn [fst].
  unfold spender_hashes. split; [|by right]. by intros [?%elem_of_empty|?].
Qed.

(** What the asserts of one round of the first loop say of the links of
    the entry. *)
Definition entry_linked (pool : CTxMemPool) (it : CTxMemPoolEntry) : Prop :=
  exists l, mapLinks pool !! entry_hash it = Some l
    /\ (forall p, p ∈ parents l <-> spends (mapTx pool) (GetTx it) p)
    /\ (forall c, c ∈ children l <-> c ∈ spender_hashes pool (entry_hash it)).

Lemma check_entry_linked pool pcoins cs it cs' :
  check_entry pool pcoins cs it = Ok cs' ->
  entry_linked pool it /\ checkTotal cs' = u64 (checkTotal cs + nTxSize it).
Proof.
  unfold check_entry. intros H.
  apply bind_Ok in H as (links & Hlinks%deref_Ok & H).
  apply bind_Ok in H as ([dep par] & Hins & H).
  pose proof (check_inputs_parents _ _ _ _ _ _ _ _ _ Hins) as Hpar.
  apply bind_Ok in H as (ps & Hps & H).
  apply GetMemPoolParents_Ok in Hps as (_ & _ & ->).
  apply bind_Ok in H as (_ & Hpeq%assert_Ok & H).
  apply bool_decide_eq_true in Hpeq.
  apply bind_Ok in H as ([[cc csz] cf] & Hch & H).
  pose proof (check_children_spec _ _ _ _ _ Hch) as Hcc.
  apply bind_Ok in H as (chs & Hchs & H).
  apply GetMemPoolChildren_Ok in Hchs as (_ & _ & ->).
  apply bind_Ok in H as (_ & Hceq%assert_Ok & H).
  apply bool_decide_eq_true in Hceq.
  apply bind_Ok in H as (_ & _ & H). apply bind_Ok in H as (_ & _ & H).
  split.
  - exists links. split; [done|]. unfold parents_of, links_at in Hpeq.
    unfold links_at in Hceq. rewrite Hlinks in Hpeq, Hceq. cbn in Hpeq, Hceq.
    split.
    + intros p. rewrite <- Hpeq, Hpar. unfold spends. split.
      * by intros [?%elem_of_empty|?].
      * by right.
    + intros c. by rewrite <- Hceq, Hcc.
  - destruct (dep : bool).
    + by apply Ok_inj in H as <-.
    + apply bind_Ok in H as (_ & _ & H). by apply Ok_inj in H as <-.
Qed.

Lemma check_entries_linked pool pcoins l cs cs' :
  foreach (check_entry pool pcoins) l cs = Ok cs' ->
  (forall it, it ∈ l -> entry_linked pool it)
  /\ checkTotal cs' = fold_left (fun t e => u64 (t + nTxSize e)) l (checkTotal cs).
Proof.
  revert cs. induction l as [|it l IH]; intros cs H; cbn [foreach] in H.
  - apply Ok_inj in H as <-. split; [by intros it ?%elem_of_nil|done].
  - apply bind_Ok in H as (cs1 & Hstep & H).
    apply check_entry_linked in Hstep as [Hit Htot].
    apply IH in H as [Hall ->]. split.
    + intros x [->|Hx]%elem_of_cons; [done|by apply Hall].
    + cbn [fold_left]. by rewrite Htot.
Qed.

Lemma foreach_unit_all {A : Type} (f : unit -> A -> result unit) (l : list A) (u : unit) :
  foreach f l tt = Ok u -> forall a, a ∈ l -> f tt a = Ok tt.
Proof.
  induction l as [|x l IH]; intros H a Ha; cbn [foreach] in H.
  - by apply elem_of_nil in Ha.
  - apply bind_Ok in H as ([] & Hx & H).
    apply elem_of_cons in Ha as [->|Ha]; [done|by apply IH].
Qed.

Lemma check_nextTx_spec pool u :
  check_nextTx pool = Ok u ->
  forall o c i, mapNextTx pool !! o = Some (c, i) ->
    exists e, mapTx pool !! c = Some e
      /\ nth_error (vin (GetTx e)) (Z.to_nat i) = Some o.
Proof.
  unfold check_nextTx. intros H o c i Hoc.
  apply foreach_unit_all with (a := (o, (c, i))) in H;
    [|by apply elem_of_map_to_list].
  cbv beta iota in H. apply bind_Ok in H as (e & He%deref_Ok & H).
  apply bind_Ok in H as (_ & _ & H). apply assert_Ok in H.
  apply bool_decide_eq_true in H. by exists e.
Qed.

(** X8.  A pool on which [check] passes (with the sanity check switched
    on, entries stored under their txids and reached by the index) keeps
    the mempool's invariants: every entry has its links, with [parents]
    the pool transactions it spends from and [children] the transactions
    that [mapNextTx] has as spenders of its outputs; every input of every
    entry is in [mapNextTx] under the entry; every item of [mapNextTx]
    names a pool transaction and the index of the input that spends the
    outpoint; and [totalTxSize] is the sum of the entries' sizes. *)
Theorem check_passes_means_consistent (pool : CTxMemPool) (pcoins : CCoinsView)
    (rounds : nat) :
  (forall h e, mapTx pool !! h = Some e -> entry_hash e = h) ->
  (forall h e, mapTx pool !! h = Some e -> e ∈ index_txid (mapTx pool)) ->
  check pool true pcoins = Ok rounds ->
  links_are_parents pool
  /\ (forall h l c, is_Some (mapTx pool !! h) -> mapLinks pool !! h = Some l ->
        (c ∈ children l <-> c ∈ spender_hashes pool h))
  /\ inputs_registered pool
  /\ (forall o c i, mapNextTx pool !! o = Some (c, i) ->
        exists e, mapTx pool !! c = Some e
          /\ nth_error (vin (GetTx e)) (Z.to_nat i) = Some o)
  /\ totalTxSize pool
     = fold_left (fun t e => u64 (t + nTxSize e)) (index_txid (mapTx pool)) 0.
Proof.
  intros Hkey Hidx H. unfold check in H. cbn [negb] in H.
  apply bind_Ok in H as (cs & Hfirst & H).
  pose proof (check_entries_spec _ _ _ _ _ Hfirst) as (Hres & _ & _).
  apply check_entries_linked in Hfirst as [Hlinked Htotal].
  apply bind_Ok in H as ([view r] & _ & H).
  apply bind_Ok in H as (u & Hnext & H).
  apply bind_Ok in H as (_ & Htot%assert_Ok & H).
  apply Z.eqb_eq in Htot. cbn [checkTotal] in Htotal.
  split; [|split; [|split; [|split]]].
  - intros h e He. destruct (Hlinked e (Hidx h e He)) as (l & Hl & Hp & _).
    rewrite (Hkey h e He) in Hl. by exists l.
  - intros h l c [e He] Hl'.
    destruct (Hlinked e (Hidx h e He)) as (l' & Hl & _ & Hc).
    rewrite (Hkey h e He) in Hl, Hc. rewrite Hl' in Hl. injection Hl as <-.
    apply Hc.
  - intros h e o He Ho.
    destruct (Hres e o (Hidx h e He) Ho) as [[i Hi] _]. exists i.
    fold (entry_hash e) in Hi. by rewrite (Hkey h e He) in Hi.
  - by apply check_nextTx_spec with u.
  - by rewrite Htot, Htotal.
Qed.

(** The two loops of [check] over the entries and over [mapNextTx] show
    that a pool without stray links records is consistent. *)
Lemma checked_consistent (pool : CTxMemPool) (pcoins : CCoinsView) (cs : CheckState)
    (u : unit) :
  (forall h e, mapTx pool !! h = Some e -> entry_hash e = h) ->
  (forall h e, mapTx pool !! h = Some e -> e ∈ index_txid (mapTx pool)) ->
  (forall h, is_Some (mapLinks pool !! h) -> is_Some (mapTx pool !! h)) ->
  foreach (check_entry pool pcoins) (index_txid (mapTx pool)) (mkCheck 0 0 pcoins [])
  = Ok cs ->
  check_nextTx pool = Ok u ->
  consistent pool.
Proof.
  intros Hkey Hidx Hdom Hfirst Hnext.
  pose proof (check_entries_spec _ _ _ _ _ Hfirst) as (Hres & _ & _).
  apply check_entries_linked in Hfirst as [Hlinked _].
  pose proof (check_nextTx_spec _ _ Hnext) as Hsp.
  assert (forall h e, mapTx pool !! h = Some e ->
            exists l, mapLinks pool !! h = Some l
              /\ (forall p, p ∈ parents l <-> spends (mapTx pool) (GetTx e) p)
              /\ (forall c, c ∈ children l <-> c ∈ spender_hashes pool h)) as Hl.
  { intros h e He. destruct (Hlinked e (Hidx h e He)) as (l & Hl & Hp & Hc).
    rewrite (Hkey h e He) in Hl, Hc. by exists l. }
  assert (inputs_registered pool) as Hin.
  { intros h e o He Ho. destruct (Hres e o (Hidx h e He) Ho) as [[i Hi] _]. exists i.
    fold (entry_hash e) in Hi. by rewrite (Hkey h e He) in Hi. }
  split.
  - intros h e He. destruct (Hl h e He) as (l & ? & ? & _). by exists l.
  - intros h c [e He]. destruct (Hl h e He) as (l & Hlk & _ & Hc).
    unfold children_of, links_at. rewrite Hlk. cbn [default id]. rewrite Hc.
    rewrite elem_of_spender_hashes. split.
    + intros (o & i & Ho & Hoc). destruct (Hsp o c i Hoc) as (ec & Hec & Hnth).
      split; [by rewrite Hec|]. destruct (Hl c ec Hec) as (lc & Hlc & Hpc & _).
      unfold parents_of, links_at. rewrite Hlc. cbn [default id]. apply Hpc.
      split; [by rewrite He|]. exists o. split; [|done].
      apply list_elem_of_In. by apply nth_error_In in Hnth.
    + intros [[ec Hec] Hpar]. destruct (Hl c ec Hec) as (lc & Hlc & Hpc & _).
      unfold parents_of, links_at in Hpar. rewrite Hlc in Hpar. cbn [default id] in Hpar.
      apply Hpc in Hpar as [_ (o & Ho & Heq)].
      destruct (Hin c ec o Hec Ho) as [i Hi]. by exists o, i.
  - done.
  - intros o c i Hoc. destruct (Hsp o c i Hoc) as (ec & Hec & Hnth).
    exists ec. split; [done|]. apply list_elem_of_In. by apply nth_error_In in Hnth.
  - done.
Qed.
(** * Removal keeps the pool consistent *)

(** ** The updates of the links, one at a time *)

Lemma UpdateChild_false_spec p ph h :
  mapTx (UpdateChild p ph h false) = mapTx p
  /\ mapNextTx (UpdateChild p ph h false) = mapNextTx p
  /\ mapLinks (UpdateChild p ph h false)
     = <[ph := mkLinks (parents_of p ph) (children_of p ph ∖ {[h]})]> (mapLinks p).
Proof. unfold UpdateChild, parents_of, children_of. by case_decide. Qed.

Lemma UpdateParent_false_spec p c h :
  mapTx (UpdateParent p c h false) = mapTx p
  /\ mapNextTx (UpdateParent p c h false) = mapNextTx p
  /\ mapLinks (UpdateParent p c h false)
     = <[c := mkLinks (parents_of p c ∖ {[h]}) (children_of p c)]> (mapLinks p).
Proof. unfold UpdateParent, parents_of, children_of. by case_decide. Qed.

Lemma links_at_insert (m : gmap Z TxLinks) (k x : Z) (l : TxLinks) :
  links_at (<[x := l]> m) k = if decide (k = x) then l else links_at m k.
Proof.
  unfold links_at. case_decide as Hk.
  - subst k. by rewrite lookup_insert_eq.
  - by rewrite lookup_insert_ne.
Qed.

Lemma foreach_UpdateChild_false h l p :
  (forall x, x ∈ l -> is_Some (mapTx p !! x)) ->
  exists p',
    foreach (fun p phash => _ ← deref (mapTx p !! phash);
                            Ok (UpdateChild p phash h false)) l p = Ok p'
    /\ mapTx p' = mapTx p /\ mapNextTx p' = mapNextTx p
    /\ (forall k, is_Some (mapLinks p !! k) -> is_Some (mapLinks p' !! k))
    /\ (forall k, parents_of p' k = parents_of p k)
    /\ (forall k, children_of p' k
                  = if decide (k ∈ l) then children_of p k ∖ {[h]} else children_of p k).
Proof.
  revert p. induction l as [|x l IH]; intros p Hl; cbn [foreach].
  - exists p. by repeat split.
  - destruct (Hl x) as [ex Hx]; [by left|]. rewrite Hx. cbn [deref]. rewrite !Ok_bind.
    destruct (UpdateChild_false_spec p x h) as (HM & HN & HL).
    destruct (IH (UpdateChild p x h false)) as (p' & Hrun & HM' & HN' & HS' & HP' & HC').
    { intros y Hy. rewrite HM. apply Hl. by right. }
    exists p'. split; [done|]. split; [congruence|]. split; [congruence|].
    split; [|split].
    + intros k Hk. apply HS'. rewrite HL.
      destruct (decide (k = x)) as [->|Hne];
        [rewrite lookup_insert_eq; eauto|by rewrite lookup_insert_ne].
    + intros k. rewrite HP'. unfold parents_of at 1. rewrite HL, links_at_insert.
      by case_decide; subst.
    + intros k. rewrite HC'. unfold children_of at 1 2. rewrite HL, !links_at_insert.
      fold (children_of p k).
      destruct (decide (k = x)) as [->|Hne]; cbn [children].
      * rewrite (decide_True (P := x ∈ x :: l)) by by left.
        case_decide; set_solver.
      * destruct (decide (k ∈ l)) as [Hin|Hout].
        -- by rewrite (decide_True (P := k ∈ x :: l)) by by right.
        -- rewrite (decide_False (P := k ∈ x :: l)); [done|].
           by intros [?|?]%elem_of_cons.
Qed.

Lemma foreach_UpdateParent_false h l p :
  (forall x, x ∈ l -> is_Some (mapTx p !! x)) ->
  exists p',
    foreach (fun p updateIt => _ ← deref (mapTx p !! updateIt);
                               Ok (UpdateParent p updateIt h false)) l p = Ok p'
    /\ mapTx p' = mapTx p /\ mapNextTx p' = mapNextTx p
    /\ (forall k, is_Some (mapLinks p !! k) -> is_Some (mapLinks p' !! k))
    /\ (forall k, children_of p' k = children_of p k)
    /\ (forall k, parents_of p' k
                  = if decide (k ∈ l) then parents_of p k ∖ {[h]} else parents_of p k).
Proof.
  revert p. induction l as [|x l IH]; intros p Hl; cbn [foreach].
  - exists p. by repeat split.
  - destruct (Hl x) as [ex Hx]; [by left|]. rewrite Hx. cbn [deref]. rewrite !Ok_bind.
    destruct (UpdateParent_false_spec p x h) as (HM & HN & HL).
    destruct (IH (UpdateParent p x h false)) as (p' & Hrun & HM' & HN' & HS' & HC' & HP').
    { intros y Hy. rewrite HM. apply Hl. by right. }
    exists p'. split; [done|]. split; [congruence|]. split; [congruence|].
    split; [|split].
    + intros k Hk. apply HS'. rewrite HL.
      destruct (decide (k = x)) as [->|Hne];
        [rewrite lookup_insert_eq; eauto|by rewrite lookup_insert_ne].
    + intros k. rewrite HC'. unfold children_of at 1. rewrite HL, links_at_insert.
      by case_decide; subst.
    + intros k. rewrite HP'. unfold parents_of at 1 2. rewrite HL, !links_at_insert.
      fold (parents_of p k).
      destruct (decide (k = x)) as [->|Hne]; cbn [parents].
      * rewrite (decide_True (P := x ∈ x :: l)) by by left.
        case_decide; set_solver.
      * destruct (decide (k ∈ l)) as [Hin|Hout].
        -- by rewrite (decide_True (P := k ∈ x :: l)) by by right.
        -- rewrite (decide_False (P := k ∈ x :: l)); [done|].
           by intros [?|?]%elem_of_cons.
Qed.

Lemma foreach_modify_runs ms mf mc l p :
  (forall a, a ∈ l -> is_Some (mapTx p !! a)) ->
  exists p',
    foreach (modify_descendant_state ms mf mc) l p = Ok p'
    /\ mapLinks p' = mapLinks p /\ mapNextTx p' = mapNextTx p
    /\ forall k, GetTx <$> mapTx p' !! k = GetTx <$> mapTx p !! k.
Proof.
  revert p. induction l as [|a l IH]; intros p Hl; cbn [foreach].
  - by exists p.
  - destruct (Hl a) as [e He]; [by left|].
    assert (modify_descendant_state ms mf mc p a
            = Ok (set_mapTx (insert a (UpdateState e ms mf mc)) p)) as ->
      by (unfold modify_descendant_state; by rewrite He).
    rewrite Ok_bind.
    destruct (IH (set_mapTx (insert a (UpdateState e ms mf mc)) p))
      as (p' & Hrun & HL & HN & HT).
    { intros b Hb. cbn [set_mapTx mapTx]. destruct (decide (b = a)) as [->|Hne].
      - rewrite lookup_insert_eq. eauto.
      - rewrite lookup_insert_ne by done. apply Hl. by right. }
    exists p'. split; [done|]. split; [done|]. split; [done|].
    intros k. rewrite HT. cbn [set_mapTx mapTx].
    destruct (decide (k = a)) as [->|Hne].
    + rewrite lookup_insert_eq, He. cbn. by rewrite GetTx_UpdateState.
    + by rewrite lookup_insert_ne.
Qed.

Lemma UpdateAncestorsOf_false_runs p h SA e l :
  mapTx p !! h = Some e -> mapLinks p !! h = Some l ->
  (forall x, x ∈ parents l -> is_Some (mapTx p !! x)) ->
  (forall a, a ∈ SA -> is_Some (mapTx p !! a)) ->
  exists p',
    UpdateAncestorsOf p false h SA = Ok p'
    /\ (forall k, GetTx <$> mapTx p' !! k = GetTx <$> mapTx p !! k)
    /\ mapNextTx p' = mapNextTx p
    /\ (forall k, is_Some (mapLinks p !! k) -> is_Some (mapLinks p' !! k))
    /\ (forall k, parents_of p' k = parents_of p k)
    /\ (forall k, children_of p' k
                  = if decide (k ∈ parents l) then children_of p k ∖ {[h]}
                    else children_of p k).
Proof.
  intros He Hl Hpar HSA. unfold UpdateAncestorsOf, GetMemPoolParents.
  rewrite He, Hl. cbn [deref]. rewrite !Ok_bind.
  destruct (foreach_UpdateChild_false h (sorted_elements (parents l)) p)
    as (p1 & -> & HM1 & HN1 & HS1 & HP1 & HC1).
  { intros x Hx%elem_of_sorted_elements. by apply Hpar. }
  rewrite Ok_bind, HM1, He. cbn [deref]. rewrite Ok_bind.
  destruct (foreach_modify_runs (i64 (-1 * nTxSize e)) (i64 (-1 * nFee e)) (-1)
              (sorted_elements SA) p1) as (p2 & -> & HL2 & HN2 & HT2).
  { intros a Ha%elem_of_sorted_elements. rewrite HM1. by apply HSA. }
  exists p2. split; [done|]. split; [|split; [|split; [|split]]].
  - intros k. by rewrite HT2, HM1.
  - congruence.
  - intros k Hk. rewrite HL2. by apply HS1.
  - intros k. unfold parents_of at 1. rewrite HL2. apply HP1.
  - intros k. unfold children_of at 1. rewrite HL2. fold (children_of p1 k).
    rewrite HC1. destruct (decide (k ∈ parents l)) as [Hin|Hout].
    + by rewrite decide_True by by apply elem_of_sorted_elements.
    + rewrite decide_False; [done|]. by intros ?%elem_of_sorted_elements.
Qed.

Lemma UpdateChildrenForRemoval_runs p h e l :
  mapTx p !! h = Some e -> mapLinks p !! h = Some l ->
  (forall c, c ∈ children l -> is_Some (mapTx p !! c)) ->
  exists p',
    UpdateChildrenForRemoval p h = Ok p'
    /\ mapTx p' = mapTx p /\ mapNextTx p' = mapNextTx p
    /\ (forall k, is_Some (mapLinks p !! k) -> is_Some (mapLinks p' !! k))
    /\ (forall k, children_of p' k = children_of p k)
    /\ (forall k, parents_of p' k
                  = if decide (k ∈ children l) then parents_of p k ∖ {[h]}
                    else parents_of p k).
Proof.
  intros He Hl Hch. unfold UpdateChildrenForRemoval, GetMemPoolChildren.
  rewrite He, Hl. cbn [deref]. rewrite !Ok_bind.
  destruct (foreach_UpdateParent_false h (sorted_elements (children l)) p)
    as (p1 & -> & HM1 & HN1 & HS1 & HC1 & HP1).
  { intros x Hx%elem_of_sorted_elements. by apply Hch. }
  exists p1. repeat (split; [done|]).
  intros k. rewrite HP1. destruct (decide (k ∈ children l)) as [Hin|Hout].
  - by rewrite decide_True by by apply elem_of_sorted_elements.
  - rewrite decide_False; [done|]. by intros ?%elem_of_sorted_elements.
Qed.

(** ** The two loops of [UpdateForRemoveFromMempool] *)

(** The pool after the entries of [S] were taken out of the [children]
    of their parents. *)
Definition after_detach (S : gset Z) (p0 p : CTxMemPool) : Prop :=
  (forall k, GetTx <$> mapTx p !! k = GetTx <$> mapTx p0 !! k)
  /\ mapNextTx p = mapNextTx p0
  /\ (forall k, is_Some (mapLinks p0 !! k) -> is_Some (mapLinks p !! k))
  /\ (forall k, parents_of p k = parents_of p0 k)
  /\ (forall k, is_Some (mapTx p0 !! k) -> children_of p k = children_of p0 k ∖ S).

Lemma same_txs_is_Some (p0 p : CTxMemPool) (k : Z) :
  (forall k, GetTx <$> mapTx p !! k = GetTx <$> mapTx p0 !! k) ->
  is_Some (mapTx p !! k) <-> is_Some (mapTx p0 !! k).
Proof. intros H. by rewrite <- !(fmap_is_Some GetTx), H. Qed.

Lemma same_txs_spends (p0 p : CTxMemPool) (tx : CTransaction) (x : Z) :
  (forall k, GetTx <$> mapTx p !! k = GetTx <$> mapTx p0 !! k) ->
  spends (mapTx p) tx x <-> spends (mapTx p0) tx x.
Proof. intros H. unfold spends. by rewrite (same_txs_is_Some p0 p x H). Qed.

Lemma after_detach_links_are_parents S p0 p :
  links_are_parents p0 -> after_detach S p0 p -> links_are_parents p.
Proof.
  intros Hlinks (HT & _ & HS & HP & _) h e He.
  assert (exists e0, mapTx p0 !! h = Some e0 /\ GetTx e0 = GetTx e) as (e0 & He0 & Htx).
  { specialize (HT h). rewrite He in HT. cbn in HT.
    destruct (mapTx p0 !! h) as [e0|]; [|done]. exists e0. split; [done|].
    cbn in HT. congruence. }
  destruct (Hlinks h e0 He0) as (l0 & Hl0 & Hpar).
  destruct (HS h) as [l Hl]; [by rewrite Hl0|]. exists l. split; [done|].
  intros x. specialize (HP h). unfold parents_of, links_at in HP.
  rewrite Hl, Hl0 in HP. cbn in HP. rewrite HP, Hpar, Htx.
  symmetry. by apply same_txs_spends.
Qed.

Lemma detach_all (p0 : CTxMemPool) (l : list Z) (S : gset Z) (p : CTxMemPool) :
  graph_consistent p0 -> after_detach S p0 p ->
  (forall h, h ∈ l -> is_Some (mapTx p0 !! h)) ->
  exists p',
    foreach (fun p removeHash =>
               entry ← deref (mapTx p !! removeHash);
               '(setAncestors, _) ←
                 CalculateMemPoolAncestors p entry ∅ nNoLimit nNoLimit nNoLimit nNoLimit;
               UpdateAncestorsOf p false removeHash setAncestors) l p = Ok p'
    /\ after_detach (S ∪ list_to_set l) p0 p'.
Proof.
  intros Hcons. revert S p. induction l as [|h l IH]; intros S p Hp Hl; cbn [foreach].
  - exists p. split; [done|]. by rewrite list_to_set_nil, (right_id_L ∅ (∪)).
  - pose proof (after_detach_links_are_parents S p0 p (gc_parents _ Hcons) Hp) as Hlinks.
    destruct Hp as (HT & HN & HS & HP & HC).
    destruct (proj2 (same_txs_is_Some p0 p h HT)) as [e He]; [apply Hl; by left|].
    rewrite He. cbn [deref]. rewrite Ok_bind.
    destruct (CalculateMemPoolAncestors_nolimit p e Hlinks) as (SA & -> & HSA).
    rewrite Ok_bind. destruct (Hlinks h e He) as (lk & Hlk & Hpar).
    destruct (UpdateAncestorsOf_false_runs p h SA e lk He Hlk)
      as (p1 & -> & HT1 & HN1 & HS1 & HP1 & HC1).
    { intros x Hx%Hpar. by destruct Hx. }
    { intros a Ha%HSA. by apply ancestor_of_in_pool in Ha. }
    destruct (IH (S ∪ {[h]}) p1) as (p' & Hrun & Hp').
    + split; [|split; [|split; [|split]]].
      * intros k. by rewrite HT1.
      * congruence.
      * intros k Hk. by apply HS1, HS.
      * intros k. by rewrite HP1.
      * intros k Hk. rewrite HC1, (HC k Hk).
        assert (parents lk = parents_of p0 h) as Hlk0.
        { rewrite <- HP. unfold parents_of, links_at. by rewrite Hlk. }
        destruct (decide (k ∈ parents lk)) as [Hin|Hout]; [set_solver|].
        assert (h ∉ children_of p0 k); [|set_solver].
        intros Hh. apply (gc_children _ Hcons k h Hk) in Hh as [_ Hh].
        apply Hout. by rewrite Hlk0.
    + intros x Hx. apply Hl. by right.
    + exists p'. split; [done|].
      replace (S ∪ list_to_set (h :: l)) with (S ∪ {[h]} ∪ list_to_set l); [done|].
      rewrite list_to_set_cons. set_solver.
Qed.

(** The pool after, besides, the entries of [S] were taken out of the
    [parents] of the children that stay. *)
Definition after_orphan (stage S : gset Z) (p0 p : CTxMemPool) : Prop :=
  (forall k, GetTx <$> mapTx p !! k = GetTx <$> mapTx p0 !! k)
  /\ mapNextTx p = mapNextTx p0
  /\ (forall k, is_Some (mapLinks p0 !! k) -> is_Some (mapLinks p !! k))
  /\ (forall k, is_Some (mapTx p0 !! k) -> children_of p k = children_of p0 k ∖ stage)
  /\ (forall k, is_Some (mapTx p0 !! k) -> k ∉ stage ->
        parents_of p k = parents_of p0 k ∖ S).

Lemma orphan_all (p0 : CTxMemPool) (stage : gset Z) (l : list Z) (S : gset Z)
    (p : CTxMemPool) :
  graph_consistent p0 -> after_orphan stage S p0 p ->
  (forall h, h ∈ l -> is_Some (mapTx p0 !! h)) ->
  exists p',
    foreach UpdateChildrenForRemoval l p = Ok p'
    /\ after_orphan stage (S ∪ list_to_set l) p0 p'.
Proof.
  intros Hcons. revert S p. induction l as [|h l IH]; intros S p Hp Hl; cbn [foreach].
  - exists p. split; [done|]. by rewrite list_to_set_nil, (right_id_L ∅ (∪)).
  - destruct Hp as (HT & HN & HS & HC & HP).
    assert (is_Some (mapTx p0 !! h)) as Hh0 by (apply Hl; by left).
    destruct (proj2 (same_txs_is_Some p0 p h HT) Hh0) as [e He].
    destruct Hh0 as [e0 He0].
    destruct (gc_parents _ Hcons h e0 He0) as (l0 & Hl0 & _).
    destruct (HS h) as [lk Hlk]; [by rewrite Hl0|].
    assert (children lk = children_of p0 h ∖ stage) as Hch.
    { rewrite <- HC by by rewrite He0. unfold children_of, links_at. by rewrite Hlk. }
    destruct (UpdateChildrenForRemoval_runs p h e lk He Hlk)
      as (p1 & -> & HM1 & HN1 & HS1 & HC1 & HP1).
    { intros c Hc. rewrite Hch in Hc. apply elem_of_difference in Hc as [Hc _].
      apply (gc_children _ Hcons h c) in Hc as [Hc _]; [|by rewrite He0].
      by apply (same_txs_is_Some p0 p c HT). }
    rewrite Ok_bind.
    destruct (IH (S ∪ {[h]}) p1) as (p' & Hrun & Hp').
    + split; [|split; [|split; [|split]]].
      * intros k. by rewrite HM1.
      * congruence.
      * intros k Hk. by apply HS1, HS.
      * intros k Hk. by rewrite HC1, HC.
      * intros k Hk Hns. rewrite HP1, (HP k Hk Hns).
        destruct (decide (k ∈ children lk)) as [Hin|Hout]; [set_solver|].
        assert (h ∉ parents_of p0 k); [|set_solver].
        intros Hh. apply Hout. rewrite Hch. apply elem_of_difference. split; [|done].
        apply (gc_children _ Hcons h k); [by rewrite He0|done].
    + intros x Hx. apply Hl. by right.
    + exists p'. split; [done|].
      replace (S ∪ list_to_set (h :: l)) with (S ∪ {[h]} ∪ list_to_set l); [done|].
      rewrite list_to_set_cons. set_solver.
Qed.

(** ** The loop over [removeUnchecked] *)

Lemma lookup_fold_delete (ins : list COutPoint) (m : gmap (Z * Z) CInPoint)
    (o : Z * Z) :
  fold_left (fun m prevout => delete prevout m) ins m !! o
  = if decide (o ∈ ins) then None else m !! o.
Proof.
  revert m. induction ins as [|x ins IH]; intros m; cbn [fold_left].
  - by rewrite decide_False by apply not_elem_of_nil.
  - rewrite IH. destruct (decide (o ∈ ins)) as [Hin|Hout].
    + by rewrite decide_True by by right.
    + destruct (decide (o = x)) as [->|Hne].
      * rewrite lookup_delete_eq. by rewrite decide_True by by left.
      * rewrite lookup_delete_ne by done.
        rewrite decide_False; [done|]. by intros [?|?]%elem_of_cons.
Qed.

Lemma removeUnchecked_runs (p : CTxMemPool) (h : Z) (e : CTxMemPoolEntry) :
  mapTx p !! h = Some e ->
  exists p1,
    removeUnchecked p h = Ok p1
    /\ mapTx p1 = delete h (mapTx p)
    /\ mapLinks p1 = delete h (mapLinks p)
    /\ mapNextTx p1
       = fold_left (fun m prevout => delete prevout m) (vin (GetTx e)) (mapNextTx p).
Proof. intros He. unfold removeUnchecked. rewrite He. cbn [deref]. rewrite Ok_bind. eauto. Qed.

Lemma removeUnchecked_all (l : list Z) (p : CTxMemPool) :
  NoDup l -> (forall h, h ∈ l -> is_Some (mapTx p !! h)) ->
  exists p',
    foreach removeUnchecked l p = Ok p'
    /\ (forall k, mapTx p' !! k = if decide (k ∈ l) then None else mapTx p !! k)
    /\ (forall k, mapLinks p' !! k = if decide (k ∈ l) then None else mapLinks p !! k)
    /\ (forall o : Z * Z,
          mapNextTx p' !! o = None \/ mapNextTx p' !! o = mapNextTx p !! o)
    /\ (forall (o : Z * Z) h e, h ∈ l -> mapTx p !! h = Some e -> o ∈ vin (GetTx e) ->
          mapNextTx p' !! o = None)
    /\ (forall o : Z * Z,
          (forall h e, h ∈ l -> mapTx p !! h = Some e -> o ∉ vin (GetTx e)) ->
          mapNextTx p' !! o = mapNextTx p !! o).
Proof.
  revert p. induction l as [|h l IH]; intros p Hnd Hl; cbn [foreach].
  - exists p. split; [done|]. repeat split; try done.
    + by right.
    + by intros o h e ?%elem_of_nil.
  - apply NoDup_cons in Hnd as [Hh Hnd].
    destruct (Hl h) as [e He]; [by left|].
    destruct (removeUnchecked_runs p h e He) as (p1 & -> & HM1' & HL1 & HNX1).
    rewrite Ok_bind.
    assert (forall k, k ≠ h -> mapTx p1 !! k = mapTx p !! k) as HM1
      by (intros k Hk; rewrite HM1'; by rewrite lookup_delete_ne).
    destruct (IH p1 Hnd) as (p' & Hrun & HM & HL & HN1 & HN2 & HN3).
    { intros x Hx. rewrite HM1; [apply Hl; by right|]. by intros ->. }
    exists p'. split; [done|]. split; [|split; [|split; [|split]]].
    + intros k. rewrite HM. destruct (decide (k ∈ l)) as [Hin|Hout].
      * by rewrite decide_True by by right.
      * destruct (decide (k = h)) as [->|Hne].
        -- rewrite decide_True by by left. by rewrite HM1', lookup_delete_eq.
        -- rewrite HM1 by done. rewrite decide_False; [done|].
           by intros [?|?]%elem_of_cons.
    + intros k. rewrite HL. destruct (decide (k ∈ l)) as [Hin|Hout].
      * by rewrite decide_True by by right.
      * rewrite HL1. destruct (decide (k = h)) as [->|Hne].
        -- rewrite decide_True by by left. by rewrite lookup_delete_eq.
        -- rewrite lookup_delete_ne by done. rewrite decide_False; [done|].
           by intros [?|?]%elem_of_cons.
    + intros o. destruct (HN1 o) as [Hn|Hn]; [by left|]. rewrite Hn.
      rewrite HNX1, lookup_fold_delete. case_decide; auto.
    + intros o x ex [->|Hx]%elem_of_cons Hex Ho.
      * rewrite He in Hex. injection Hex as <-.
        destruct (HN1 o) as [Hn|Hn]; [done|].
        rewrite Hn, HNX1, lookup_fold_delete. by rewrite decide_True.
      * apply (HN2 o x ex Hx); [|done]. rewrite HM1; [done|]. by intros ->.
    + intros o Ho. rewrite HN3.
      * rewrite HNX1, lookup_fold_delete.
        rewrite decide_False; [done|]. apply (Ho h e); [by left|done].
      * intros x ex Hx Hex. apply (Ho x ex); [by right|].
        rewrite <- HM1; [done|]. by intros ->.
Qed.

Lemma same_txs_lookup (p0 p : CTxMemPool) (k : Z) (e : CTxMemPoolEntry) :
  (forall k, GetTx <$> mapTx p !! k = GetTx <$> mapTx p0 !! k) ->
  mapTx p !! k = Some e ->
  exists e0, mapTx p0 !! k = Some e0 /\ GetTx e0 = GetTx e.
Proof.
  intros HT He. specialize (HT k). rewrite He in HT.
  destruct (mapTx p0 !! k) as [e0|]; [|done]. exists e0. split; [done|].
  cbn in HT. congruence.
Qed.

Lemma RemoveStaged_graph_consistent (pool : CTxMemPool) (stage : gset Z) :
  graph_consistent pool ->
  (forall h, h ∈ stage -> is_Some (mapTx pool !! h)) ->
  exists pool',
    RemoveStaged pool stage = Ok pool'
    /\ (forall k, GetTx <$> mapTx pool' !! k
                  = if decide (k ∈ stage) then None else GetTx <$> mapTx pool !! k)
    /\ graph_consistent pool'.
Proof.
  intros Hcons Hstage. unfold RemoveStaged, UpdateForRemoveFromMempool.
  assert (forall h, h ∈ sorted_elements stage -> is_Some (mapTx pool !! h)) as Hl
    by (intros h Hh%elem_of_sorted_elements; by apply Hstage).
  destruct (detach_all pool (sorted_elements stage) ∅ pool Hcons) as (p1 & -> & Hp1);
    [|done|].
  { repeat split; try done. intros k _. set_solver. }
  rewrite Ok_bind.
  rewrite (left_id_L ∅ (∪)), list_to_set_sorted_elements in Hp1.
  destruct (orphan_all pool stage (sorted_elements stage) ∅ p1 Hcons) as (p2 & -> & Hp2);
    [|done|].
  { destruct Hp1 as (HT & HN & HS & HP & HC). repeat split; try done.
    intros k _ _. rewrite HP. set_solver. }
  rewrite Ok_bind.
  rewrite (left_id_L ∅ (∪)), list_to_set_sorted_elements in Hp2.
  destruct Hp2 as (HT & HN & HS & HC & HP).
  destruct (removeUnchecked_all (sorted_elements stage) p2 (NoDup_sorted_elements _))
    as (p' & -> & HM & HL & HN1 & HN2 & HN3).
  { intros h Hh. apply (same_txs_is_Some pool p2 h HT). by apply Hl. }
  exists p'. split; [done|].
  assert (forall k, mapTx p' !! k = if decide (k ∈ stage) then None else mapTx p2 !! k)
    as HM'.
  { intros k. rewrite HM. destruct (decide (k ∈ stage)).
    - by rewrite decide_True by by apply elem_of_sorted_elements.
    - rewrite decide_False; [done|]. by intros ?%elem_of_sorted_elements. }
  assert (forall k, k ∉ stage -> mapLinks p' !! k = mapLinks p2 !! k) as HL'.
  { intros k Hk. rewrite HL. rewrite decide_False; [done|].
    by intros ?%elem_of_sorted_elements. }
  assert (forall k e', mapTx p' !! k = Some e' ->
            k ∉ stage /\ mapTx p2 !! k = Some e'
            /\ exists e0, mapTx pool !! k = Some e0 /\ GetTx e0 = GetTx e') as Hin.
  { intros k e' Hk. rewrite HM' in Hk. case_decide; [done|].
    split; [done|]. split; [done|]. by apply (same_txs_lookup pool p2). }
  assert (forall k, is_Some (mapTx p' !! k)
                    <-> k ∉ stage /\ is_Some (mapTx pool !! k)) as Hsome.
  { intros k. rewrite HM'. case_decide.
    - split; [by intros [? ?]|by intros [? _]].
    - rewrite (same_txs_is_Some pool p2 k HT). tauto. }
  assert (forall k, k ∉ stage -> is_Some (mapTx pool !! k) ->
            parents_of p' k = parents_of pool k ∖ stage
            /\ children_of p' k = children_of pool k ∖ stage) as Hlinks.
  { intros k Hk Hk0. unfold parents_of at 1, children_of at 1, links_at.
    rewrite (HL' k Hk). fold (links_at (mapLinks p2) k).
    fold (parents_of p2 k). fold (children_of p2 k).
    by rewrite HP, HC. }
  split.
  { intros k. rewrite HM'. case_decide; [done|]. apply HT. }
  split.
  - intros h e' (Hh & He2 & e0 & He0 & Htx)%Hin.
    destruct (gc_parents _ Hcons h e0 He0) as (l0 & Hl0 & Hpar).
    destruct (HS h) as [l2 Hl2]; [by rewrite Hl0|].
    exists l2. split; [by rewrite HL'|].
    destruct (Hlinks h Hh) as [Hp' _]; [by rewrite He0|].
    unfold parents_of at 1, links_at in Hp'. rewrite (HL' h Hh), Hl2 in Hp'.
    cbn in Hp'. intros x. rewrite Hp'. unfold parents_of, links_at. rewrite Hl0. cbn.
    rewrite elem_of_difference, Hpar, Htx. unfold spends. rewrite Hsome. tauto.
  - intros h c [Hh Hh0]%Hsome.
    destruct (Hlinks h Hh Hh0) as [_ ->].
    rewrite elem_of_difference, (gc_children _ Hcons h c Hh0), Hsome.
    split.
    + intros [[Hc0 Hpar] Hc]. split; [done|].
      destruct (Hlinks c Hc Hc0) as [-> _]. by apply elem_of_difference.
    + intros [[Hc Hc0] Hpar]. destruct (Hlinks c Hc Hc0) as [Hp' _].
      rewrite Hp' in Hpar. apply elem_of_difference in Hpar as [Hpar _]. done.
  - intros h e' o (Hh & He2 & e0 & He0 & Htx)%Hin Ho.
    destruct (gc_inputs _ Hcons h e0 o He0) as [i Hi]; [by rewrite Htx|].
    exists i. rewrite HN3, HN; [done|].
    intros x ex Hx%elem_of_sorted_elements Hex Hox.
    destruct (same_txs_lookup pool p2 x ex HT Hex) as (ex0 & Hex0 & Htx').
    destruct (gc_inputs _ Hcons x ex0 o Hex0) as [i' Hi']; [by rewrite Htx'|].
    rewrite Hi in Hi'. injection Hi' as -> _. done.
  - intros o c i Hoc. destruct (HN1 o) as [Hn|Hn]; [by rewrite Hn in Hoc|].
    rewrite Hn, HN in Hoc.
    destruct (gc_spenders _ Hcons o c i Hoc) as (e0 & He0 & Ho).
    assert (is_Some (mapTx p2 !! c)) as [e2 He2]
      by (apply (same_txs_is_Some pool p2 c HT); by rewrite He0).
    destruct (same_txs_lookup pool p2 c e2 HT He2) as (e0' & He0' & Htx).
    rewrite He0 in He0'. injection He0' as <-.
    destruct (decide (c ∈ stage)) as [Hc|Hc].
    + assert (mapNextTx p' !! o = None) as Hnone.
      { apply (HN2 o c e2); [by apply elem_of_sorted_elements|done|by rewrite <- Htx]. }
      rewrite Hnone, HN, Hoc in Hn. done.
    + exists e2. split; [|by rewrite <- Htx]. rewrite HM'. by rewrite decide_False.
Qed.

(** ** No stray links records *)

Definition links_in_pool (pool : CTxMemPool) : Prop :=
  forall h, is_Some (mapLinks pool !! h) -> is_Some (mapTx pool !! h).

Lemma links_in_pool_UpdateChild p ph h (add : bool) :
  is_Some (mapTx p !! ph) -> links_in_pool p -> links_in_pool (UpdateChild p ph h add).
Proof.
  intros Hph Hp k. rewrite dom_mapTx_UpdateChild.
  unfold UpdateChild. destruct add; case_decide; cbn [mapLinks set_mapLinks
    set_cachedInnerUsage]; (destruct (decide (k = ph)) as [->|Hne];
    [done|rewrite lookup_insert_ne by done; apply Hp]).
Qed.

Lemma links_in_pool_UpdateParent p c h (add : bool) :
  is_Some (mapTx p !! c) -> links_in_pool p -> links_in_pool (UpdateParent p c h add).
Proof.
  intros Hc Hp k. rewrite dom_mapTx_UpdateParent.
  unfold UpdateParent. destruct add; case_decide; cbn [mapLinks set_mapLinks
    set_cachedInnerUsage]; (destruct (decide (k = c)) as [->|Hne];
    [done|rewrite lookup_insert_ne by done; apply Hp]).
Qed.

Lemma links_in_pool_modify ms mf mc p h p' :
  modify_descendant_state ms mf mc p h = Ok p' -> links_in_pool p -> links_in_pool p'.
Proof.
  unfold modify_descendant_state. intros H Hp k Hk.
  apply bind_Ok in H as (e & He%deref_Ok & H). apply Ok_inj in H as <-.
  cbn [set_mapTx mapTx mapLinks] in *. destruct (decide (k = h)) as [->|Hne].
  - rewrite lookup_insert_eq. eauto.
  - rewrite lookup_insert_ne by done. by apply Hp.
Qed.

Lemma links_in_pool_UpdateAncestorsOf p (add : bool) h SA p' :
  UpdateAncestorsOf p add h SA = Ok p' -> links_in_pool p -> links_in_pool p'.
Proof.
  unfold UpdateAncestorsOf. intros H Hp.
  apply bind_Ok in H as (ps & _ & H). apply bind_Ok in H as (p1 & H1 & H).
  apply bind_Ok in H as (it & _ & H).
  assert (links_in_pool p1) as Hp1.
  { revert H1. apply foreach_inv; [|done]. intros s1 a s2 _ Hs1 Hstep.
    apply bind_Ok in Hstep as (ea & Hea%deref_Ok & Hstep). apply Ok_inj in Hstep as <-.
    apply links_in_pool_UpdateChild; [by rewrite Hea|done]. }
  revert H. apply foreach_inv; [|done]. intros s1 a s2 _ Hs1 Hstep.
  by apply links_in_pool_modify in Hstep.
Qed.

Lemma links_in_pool_UpdateChildrenForRemoval p h p' :
  UpdateChildrenForRemoval p h = Ok p' -> links_in_pool p -> links_in_pool p'.
Proof.
  unfold UpdateChildrenForRemoval. intros H Hp.
  apply bind_Ok in H as (cs & _ & H).
  revert H. apply foreach_inv; [|done]. intros s1 a s2 _ Hs1 Hstep.
  apply bind_Ok in Hstep as (ea & Hea%deref_Ok & Hstep). apply Ok_inj in Hstep as <-.
  apply links_in_pool_UpdateParent; [by rewrite Hea|done].
Qed.

Lemma links_in_pool_removeUnchecked p h p' :
  removeUnchecked p h = Ok p' -> links_in_pool p -> links_in_pool p'.
Proof.
  unfold removeUnchecked. intros H Hp k.
  apply bind_Ok in H as (e & _ & H). apply Ok_inj in H as <-. cbn [mapTx mapLinks].
  destruct (decide (k = h)) as [->|Hne].
  - rewrite lookup_delete_eq. by intros [? ?].
  - rewrite !lookup_delete_ne by done. apply Hp.
Qed.

Lemma links_in_pool_RemoveStaged p stage p' :
  RemoveStaged p stage = Ok p' -> links_in_pool p -> links_in_pool p'.
Proof.
  unfold RemoveStaged, UpdateForRemoveFromMempool. intros H Hp.
  apply bind_Ok in H as (p2 & H2 & H). apply bind_Ok in H2 as (p1 & H1 & H2).
  assert (links_in_pool p1) as Hp1.
  { revert H1. apply foreach_inv; [|done]. intros s1 a s2 _ Hs1 Hstep.
    apply bind_Ok in Hstep as (ea & _ & Hstep).
    apply bind_Ok in Hstep as ([sa err] & _ & Hstep).
    by apply links_in_pool_UpdateAncestorsOf in Hstep. }
  assert (links_in_pool p2) as Hp2.
  { revert H2. apply foreach_inv; [|done]. intros s1 a s2 _ Hs1 Hstep.
    by apply links_in_pool_UpdateChildrenForRemoval in Hstep. }
  revert H. apply foreach_inv; [|done]. intros s1 a s2 _ Hs1 Hstep.
  by apply links_in_pool_removeUnchecked in Hstep.
Qed.

Lemma RemoveStaged_consistent (pool : CTxMemPool) (stage : gset Z) :
  consistent pool ->
  (forall h, h ∈ stage -> is_Some (mapTx pool !! h)) ->
  exists pool',
    RemoveStaged pool stage = Ok pool'
    /\ (forall k, GetTx <$> mapTx pool' !! k
                  = if decide (k ∈ stage) then None else GetTx <$> mapTx pool !! k)
    /\ consistent pool'.
Proof.
  intros Hcons Hstage.
  destruct (RemoveStaged_graph_consistent pool stage (consistent_graph _ Hcons) Hstage)
    as (pool' & Hrun & HT & [H1 H2 H3 H4]).
  exists pool'. split; [done|]. split; [done|]. split; try done.
  apply (links_in_pool_RemoveStaged pool stage pool' Hrun).
  exact (cons_links_dom _ Hcons).
Qed.

(** X9.  [RemoveStaged(stage)] on a consistent pool, for any set of
    entries of the pool, returns; the staged transactions are gone and
    every other entry still holds its transaction; and the pool is
    consistent again: the links of the entries that stay no longer
    mention a removed entry, and [mapNextTx] has lost exactly the inputs
    of the removed transactions. *)
Theorem RemoveStaged_keeps_consistent (pool : CTxMemPool) (stage : gset Z) :
  consistent pool ->
  (forall h, h ∈ stage -> is_Some (mapTx pool !! h)) ->
  exists pool',
    RemoveStaged pool stage = Ok pool'
    /\ (forall k, GetTx <$> mapTx pool' !! k
                  = if decide (k ∈ stage) then None else GetTx <$> mapTx pool !! k)
    /\ consistent pool'.
Proof. apply RemoveStaged_consistent. Qed.
(** * [remove], [Expire] and [removeConflicts] on a consistent pool *)

Lemma consistent_children_linked pool : consistent pool -> children_linked pool.
Proof.
  intros Hcons h c Hh Hc. apply (cons_children _ Hcons h c Hh) in Hc as [[ec Hec] _].
  split; [by rewrite Hec|].
  destruct (cons_parents _ Hcons c ec Hec) as (l & Hl & _). by rewrite Hl.
Qed.

Lemma consistent_links pool h :
  consistent pool -> is_Some (mapTx pool !! h) -> is_Some (mapLinks pool !! h).
Proof.
  intros Hcons [e He]. destruct (cons_parents _ Hcons h e He) as (l & Hl & _).
  by rewrite Hl.
Qed.

(** In a consistent pool the children of [h] are the entries that spend
    from it. *)
Lemma consistent_child pool h c :
  consistent pool -> is_Some (mapTx pool !! h) ->
  c ∈ children_of pool h
  <-> exists ec, mapTx pool !! c = Some ec /\ spends (mapTx pool) (GetTx ec) h.
Proof.
  intros Hcons Hh. rewrite (cons_children _ Hcons h c Hh). split.
  - intros [[ec Hec] Hpar]. exists ec. split; [done|].
    destruct (cons_parents _ Hcons c ec Hec) as (l & Hl & Hspends).
    apply Hspends. unfold parents_of, links_at in Hpar. by rewrite Hl in Hpar.
  - intros (ec & Hec & Hsp). split; [by rewrite Hec|].
    destruct (cons_parents _ Hcons c ec Hec) as (l & Hl & Hspends).
    unfold parents_of, links_at. rewrite Hl. by apply Hspends.
Qed.

Lemma descends_in_pool pool h x :
  consistent pool -> is_Some (mapTx pool !! h) -> descends pool h x ->
  is_Some (mapTx pool !! x).
Proof.
  intros Hcons Hh Hx. induction Hx as [|d c _ IH Hc]; [done|].
  by apply (cons_children _ Hcons d c IH) in Hc as [Hc _].
Qed.

Lemma ancestor_of_spends_trans (m : gmap Z CTxMemPoolEntry) (tx : CTransaction)
    (d : Z) (ed : CTxMemPoolEntry) (h : Z) :
  spends m tx d -> m !! d = Some ed -> ancestor_of m (GetTx ed) h -> ancestor_of m tx h.
Proof.
  intros Hsp Hd Hanc. induction Hanc as [p Hp|a e p _ IH Ha Hp].
  - apply ancestor_step with d ed; [by apply ancestor_parent|done|done].
  - by apply ancestor_step with a e.
Qed.

(** The descendants of [h] by the links are [h] and the entries that have
    [h] among their in-mempool ancestors. *)
Lemma descends_iff_ancestor pool h x ex :
  consistent pool -> is_Some (mapTx pool !! h) -> mapTx pool !! x = Some ex ->
  descends pool h x <-> x = h \/ ancestor_of (mapTx pool) (GetTx ex) h.
Proof.
  intros Hcons Hh Hx. split.
  - intros Hd. revert ex Hx. induction Hd as [|d c Hd IH Hc]; intros ex Hx; [by left|].
    right. pose proof (descends_in_pool pool h d Hcons Hh Hd) as [ed Hed].
    apply (consistent_child pool d c Hcons) in Hc as (ec & Hec & Hsp);
      [|by rewrite Hed].
    rewrite Hx in Hec. injection Hec as <-.
    destruct (IH ed Hed) as [->|Hanc]; [by apply ancestor_parent|].
    by apply ancestor_of_spends_trans with d ed.
  - intros [->|Hanc]; [apply descends_self|].
    revert Hh. induction Hanc as [p Hp|a e p Hanc IH Ha Hp]; intros Hh.
    + apply descends_child with p; [apply descends_self|].
      apply (consistent_child pool p x Hcons Hh). by exists ex.
    + apply descends_trans with a.
      * apply descends_child with p; [apply descends_self|].
        apply (consistent_child pool p a Hcons Hh). by exists e.
      * apply IH. by rewrite Ha.
Qed.

(** The loop of [remove] that copies the transactions to [removed]. *)
Lemma collect_removed pool (l : list Z) (removed : list CTransaction) :
  (forall h, h ∈ l -> is_Some (mapTx pool !! h)) ->
  foreach (fun r hash => e ← deref (mapTx pool !! hash); Ok (r ++ [GetTx e])) l removed
  = Ok (removed ++ omap (fun h => GetTx <$> mapTx pool !! h) l).
Proof.
  revert removed. induction l as [|h l IH]; intros removed Hl;
    cbn [foreach omap list_omap].
  - by rewrite app_nil_r.
  - destruct (Hl h) as [e He]; [by left|]. rewrite He. cbn [deref].
    rewrite !Ok_bind, IH by (intros x Hx; apply Hl; by right).
    cbn. by rewrite <- app_assoc.
Qed.

Lemma remove_recursive_spec (pool : CTxMemPool)
    (origTx : CTransaction) (removed : list CTransaction) :
  consistent pool ->
  is_Some (mapTx pool !! GetHash origTx) ->
  exists pool' setAllRemoves,
    remove pool origTx removed true
    = Ok (pool', removed ++ omap (fun h => GetTx <$> mapTx pool !! h)
                              (sorted_elements setAllRemoves))
    /\ (forall x, x ∈ setAllRemoves <->
          x = GetHash origTx
          \/ exists ex, mapTx pool !! x = Some ex
               /\ ancestor_of (mapTx pool) (GetTx ex) (GetHash origTx))
    /\ (forall k, GetTx <$> mapTx pool' !! k
                  = if decide (k ∈ setAllRemoves) then None
                    else GetTx <$> mapTx pool !! k)
    /\ consistent pool'.
Proof.
  intros Hcons Hin. pose proof Hin as [e He]. unfold remove. rewrite He.
  rewrite sorted_elements_singleton. cbn [foreach].
  destruct (CalculateDescendants_descends pool (GetHash origTx) ∅) as (SD & -> & HSD).
  { by apply consistent_children_linked. }
  { done. }
  { by apply consistent_links. }
  { by intros d c ?%elem_of_empty. }
  rewrite !Ok_bind.
  assert (forall x, x ∈ SD -> is_Some (mapTx pool !! x)) as HSDin.
  { intros x [?%elem_of_empty|Hx]%HSD; [done|]. by apply descends_in_pool with (GetHash origTx). }
  rewrite collect_removed by (intros h Hh%elem_of_sorted_elements; by apply HSDin).
  rewrite Ok_bind.
  destruct (RemoveStaged_consistent pool SD Hcons HSDin) as (pool' & -> & HT & Hcons').
  rewrite Ok_bind. exists pool', SD. split; [done|]. split; [|by split].
  intros x. rewrite HSD. split.
  - intros [?%elem_of_empty|Hx]; [done|].
    pose proof (descends_in_pool pool _ x Hcons Hin Hx) as [ex Hex].
    destruct (proj1 (descends_iff_ancestor pool _ x ex Hcons Hin Hex) Hx)
      as [Heq|Hanc]; [by left|].
    right. by exists ex.
  - intros [->|(ex & Hex & Hx)]; right; [apply descends_self|].
    apply (descends_iff_ancestor pool _ x ex Hcons Hin Hex). by right.
Qed.

(** X10.  [remove(origTx, removed, true)] for a transaction of a
    consistent pool returns; it takes out of the pool the transaction
    and exactly the entries that have it among their in-mempool
    ancestors, appends their transactions to [removed] in the order of
    their hashes, leaves the transaction of every other entry in place,
    and the pool is consistent again. *)
Theorem remove_recursive_removes_descendants (pool : CTxMemPool)
    (origTx : CTransaction) (removed : list CTransaction) :
  consistent pool ->
  is_Some (mapTx pool !! GetHash origTx) ->
  exists pool' setAllRemoves,
    remove pool origTx removed true
    = Ok (pool', removed ++ omap (fun h => GetTx <$> mapTx pool !! h)
                              (sorted_elements setAllRemoves))
    /\ (forall x, x ∈ setAllRemoves <->
          x = GetHash origTx
          \/ exists ex, mapTx pool !! x = Some ex
               /\ ancestor_of (mapTx pool) (GetTx ex) (GetHash origTx))
    /\ (forall k, GetTx <$> mapTx pool' !! k
                  = if decide (k ∈ setAllRemoves) then None
                    else GetTx <$> mapTx pool !! k)
    /\ consistent pool'.
Proof. apply remove_recursive_spec. Qed.

Lemma RemoveStaged_empty pool : RemoveStaged pool ∅ = Ok pool.
Proof.
  unfold RemoveStaged, UpdateForRemoveFromMempool. by rewrite sorted_elements_empty.
Qed.

(** [remove(origTx, removed, false)] *)
Lemma remove_single_spec (pool : CTxMemPool) (origTx : CTransaction)
    (removed : list CTransaction) :
  consistent pool ->
  exists pool',
    remove pool origTx removed false
    = Ok (pool', removed ++ match mapTx pool !! GetHash origTx with
                            | Some e => [GetTx e]
                            | None => []
                            end)
    /\ (forall k, GetTx <$> mapTx pool' !! k
                  = if decide (k = GetHash origTx) then None
                    else GetTx <$> mapTx pool !! k)
    /\ consistent pool'.
Proof.
  intros Hcons. unfold remove. destruct (mapTx pool !! GetHash origTx) as [e|] eqn:He.
  - rewrite Ok_bind, sorted_elements_singleton. cbn [foreach]. rewrite He. cbn [deref].
    rewrite !Ok_bind.
    destruct (RemoveStaged_consistent pool {[GetHash origTx]} Hcons)
      as (pool' & -> & HT & Hcons').
    { intros h ->%elem_of_singleton. by rewrite He. }
    rewrite Ok_bind. exists pool'. split; [done|]. split; [|done].
    intros k. rewrite HT. destruct (decide (k = GetHash origTx)) as [->|Hne].
    + by rewrite decide_True by by apply elem_of_singleton.
    + rewrite decide_False; [done|]. by intros ?%elem_of_singleton.
  - rewrite Ok_bind, sorted_elements_empty. cbn [foreach].
    rewrite Ok_bind, RemoveStaged_empty, Ok_bind. exists pool.
    split; [by rewrite app_nil_r|]. split; [|done].
    intros k. case_decide as Hk; [|done]. subst k. by rewrite He.
Qed.
(** * Conflicts, blocks and expiry *)

(** The entries are stored under the hash of their transaction. *)
Definition keyed_by_txid (pool : CTxMemPool) : Prop :=
  forall h e, mapTx pool !! h = Some e -> entry_hash e = h.

(** [p'] holds some of the entries of [p], each with the transaction it
    had. *)
Definition pool_shrinks (p p' : CTxMemPool) : Prop :=
  forall k, mapTx p' !! k = None \/ GetTx <$> mapTx p' !! k = GetTx <$> mapTx p !! k.

Lemma pool_shrinks_refl p : pool_shrinks p p.
Proof. intros k. by right. Qed.

Lemma pool_shrinks_trans p1 p2 p3 :
  pool_shrinks p1 p2 -> pool_shrinks p2 p3 -> pool_shrinks p1 p3.
Proof.
  intros H12 H23 k. destruct (H23 k) as [?|H3]; [by left|].
  destruct (H12 k) as [H2|H2].
  - left. rewrite H2 in H3. by destruct (mapTx p3 !! k).
  - right. congruence.
Qed.

Lemma pool_shrinks_removed (p p' : CTxMemPool) (S : gset Z) :
  (forall k, GetTx <$> mapTx p' !! k
             = if decide (k ∈ S) then None else GetTx <$> mapTx p !! k) ->
  pool_shrinks p p'.
Proof.
  intros H k. specialize (H k). case_decide; [left|by right].
  by destruct (mapTx p' !! k).
Qed.

Lemma pool_shrinks_lookup p p' k e' :
  pool_shrinks p p' -> mapTx p' !! k = Some e' ->
  exists e, mapTx p !! k = Some e /\ GetTx e = GetTx e'.
Proof.
  intros H He'. destruct (H k) as [Hk|Hk]; [congruence|].
  rewrite He' in Hk. destruct (mapTx p !! k) as [e|]; [|done].
  exists e. split; [done|]. cbn in Hk. congruence.
Qed.

Lemma pool_shrinks_keyed p p' :
  pool_shrinks p p' -> keyed_by_txid p -> keyed_by_txid p'.
Proof.
  intros H Hkey k e' He'. destruct (pool_shrinks_lookup p p' k e' H He') as (e & He & Htx).
  unfold entry_hash. rewrite <- Htx. by apply Hkey.
Qed.

(** What [mapNextTx] holds after a removal, it held before. *)
Lemma pool_shrinks_next p p' (o : Z * Z) c i :
  consistent p -> consistent p' -> pool_shrinks p p' ->
  mapNextTx p' !! o = Some (c, i) :> option CInPoint ->
  is_Some (mapTx p' !! c) /\ exists i', mapNextTx p !! o = Some (c, i').
Proof.
  intros Hcons Hcons' H Hoc.
  destruct (cons_spenders _ Hcons' o c i Hoc) as (e' & He' & Ho).
  split; [by rewrite He'|].
  destruct (pool_shrinks_lookup p p' c e' H He') as (e & He & Htx).
  apply (cons_inputs _ Hcons c e o He). by rewrite Htx.
Qed.

Lemma next_agree (m : gmap (Z * Z) CInPoint) (o : Z * Z) (x y : CInPoint) :
  m !! o = Some x -> m !! o = Some y -> x = y.
Proof. congruence. Qed.

Lemma next_not_None (m : gmap (Z * Z) CInPoint) (o : Z * Z) (x : CInPoint) :
  m !! o = Some x -> m !! o = None -> False.
Proof. congruence. Qed.

(** ** [removeConflicts] *)

(** One round of the loop of [removeConflicts]. *)
Definition conflict_step (tx : CTransaction)
  : CTxMemPool * list CTransaction -> COutPoint
    -> result (CTxMemPool * list CTransaction) :=
  fun '(p, r) prevout =>
  match mapNextTx p !! prevout with
  | Some (ptx, _) =>
      conflicting ← deref (mapTx p !! ptx);
      let txConflict := GetTx conflicting in
      if decide (GetHash txConflict = GetHash tx) then Ok (p, r)
      else remove p txConflict r true
  | None => Ok (p, r)
  end.

Lemma removeConflicts_steps pool tx removed :
  removeConflicts pool tx removed = foreach (conflict_step tx) (vin tx) (pool, removed).
Proof. reflexivity. Qed.

Lemma conflict_step_spec (tx : CTransaction) (o : Z * Z) (p : CTxMemPool)
    (r : list CTransaction) :
  consistent p -> keyed_by_txid p ->
  exists p1 r1,
    conflict_step tx (p, r) o = Ok (p1, r1)
    /\ consistent p1 /\ pool_shrinks p p1
    /\ forall c i, mapNextTx p1 !! o = Some (c, i) :> option CInPoint -> c = GetHash tx.
Proof.
  intros Hcons Hkey. unfold conflict_step. cbv beta iota.
  match goal with
  | |- context [match ?x with Some _ => _ | None => _ end] =>
      destruct x as [[ptx n]|] eqn:Hnext
  end.
  - destruct (cons_spenders _ Hcons o ptx n Hnext) as (e & He & Ho).
    rewrite He. cbn [deref]. rewrite Ok_bind. cbv zeta.
    pose proof (Hkey ptx e He) as Hptx. unfold entry_hash in Hptx.
    case_decide as Hsame.
    + exists p, r. split; [done|]. split; [done|]. split; [apply pool_shrinks_refl|].
      intros c i Hc. pose proof (next_agree _ _ _ _ Hc Hnext) as Heq.
      injection Heq as -> _. congruence.
    + destruct (remove_recursive_spec p (GetTx e) r Hcons)
        as (p1 & SD & -> & HSD & HT & Hcons1); [by rewrite Hptx, He|].
      eexists p1, _. split; [done|]. split; [done|].
      split; [by apply pool_shrinks_removed with SD|].
      intros c i Hc.
      destruct (pool_shrinks_next p p1 o c i Hcons Hcons1) as [[e1 He1] [i' Hi']];
        [by apply pool_shrinks_removed with SD|done|].
      pose proof (next_agree _ _ _ _ Hi' Hnext) as Heq. injection Heq as -> _.
      specialize (HT ptx). rewrite He1 in HT.
      rewrite decide_True in HT by (apply HSD; by left). done.
  - exists p, r. split; [done|]. split; [done|]. split; [apply pool_shrinks_refl|].
    intros c i Hc. by destruct (next_not_None _ _ _ Hc Hnext).
Qed.

Lemma removeConflicts_loop (tx : CTransaction) (ins : list COutPoint)
    (p : CTxMemPool) (r : list CTransaction) :
  consistent p -> keyed_by_txid p ->
  exists p' r',
    foreach (conflict_step tx) ins (p, r) = Ok (p', r')
    /\ consistent p' /\ pool_shrinks p p'
    /\ forall (o : Z * Z) c i, o ∈ ins ->
         mapNextTx p' !! o = Some (c, i) :> option CInPoint -> c = GetHash tx.
Proof.
  revert p r. induction ins as [|o ins IH]; intros p r Hcons Hkey; cbn [foreach].
  - exists p, r. split; [done|]. split; [done|]. split; [apply pool_shrinks_refl|].
    by intros o c i ?%elem_of_nil.
  - destruct (conflict_step_spec tx o p r Hcons Hkey)
      as (p1 & r1 & -> & Hcons1 & Hsh1 & Ho1).
    rewrite Ok_bind.
    destruct (IH p1 r1 Hcons1 (pool_shrinks_keyed p p1 Hsh1 Hkey))
      as (p' & r' & -> & Hcons' & Hsh' & Hins).
    exists p', r'. split; [done|]. split; [done|].
    split; [by apply pool_shrinks_trans with p1|].
    intros o' c i [->|Ho']%elem_of_cons Hc; [|by apply (Hins o' c i)].
    destruct (pool_shrinks_next p1 p' o c i Hcons1 Hcons' Hsh' Hc) as [_ [i' Hi']].
    by apply (Ho1 c i').
Qed.

Lemma removeConflicts_spec (pool : CTxMemPool) (tx : CTransaction)
    (removed : list CTransaction) :
  consistent pool -> keyed_by_txid pool ->
  exists pool' removed',
    removeConflicts pool tx removed = Ok (pool', removed')
    /\ consistent pool'
    /\ pool_shrinks pool pool'
    /\ forall (o : Z * Z) c i, o ∈ vin tx ->
         mapNextTx pool' !! o = Some (c, i) :> option CInPoint -> c = GetHash tx.
Proof. intros Hcons Hkey. rewrite removeConflicts_steps. by apply removeConflicts_loop. Qed.

(** X11.  [removeConflicts(tx, removed)] on a consistent pool returns
    and leaves no other spender of the inputs of [tx]: whatever
    [mapNextTx] still holds for an input of [tx] is [tx] itself.  The
    entries that stay keep their transactions, and the pool is
    consistent again. *)
Theorem removeConflicts_clears_spenders (pool : CTxMemPool) (tx : CTransaction)
    (removed : list CTransaction) :
  consistent pool -> keyed_by_txid pool ->
  exists pool' removed',
    removeConflicts pool tx removed = Ok (pool', removed')
    /\ consistent pool'
    /\ pool_shrinks pool pool'
    /\ forall (o : Z * Z) c i, o ∈ vin tx ->
         mapNextTx pool' !! o = Some (c, i) :> option CInPoint -> c = GetHash tx.
Proof. apply removeConflicts_spec. Qed.

(** ** [removeForBlock] *)

Lemma consistent_ClearPrioritisation pool hash :
  consistent pool -> consistent (ClearPrioritisation pool hash).
Proof. intros [H1 H2 H3 H4 H5]. by split. Qed.

(** One round of the second loop of [removeForBlock]. *)
Definition block_step
  : CTxMemPool * list CTransaction -> CTransaction
    -> result (CTxMemPool * list CTransaction) :=
  fun '(p, c) tx =>
    '(p1, _) ← remove p tx [] false;
    '(p2, c') ← removeConflicts p1 tx c;
    Ok (ClearPrioritisation p2 (GetHash tx), c').

Lemma block_step_spec (tx : CTransaction) (p : CTxMemPool) (c : list CTransaction) :
  consistent p -> keyed_by_txid p ->
  exists p' c',
    block_step (p, c) tx = Ok (p', c')
    /\ consistent p' /\ pool_shrinks p p'
    /\ mapTx p' !! GetHash tx = None
    /\ forall o : Z * Z, o ∈ vin tx -> mapNextTx p' !! o = None.
Proof.
  intros Hcons Hkey. unfold block_step. cbv beta iota.
  destruct (remove_single_spec p tx [] Hcons) as (p1 & -> & HT1 & Hcons1).
  rewrite Ok_bind. cbv beta iota.
  assert (pool_shrinks p p1) as Hsh1.
  { intros k. specialize (HT1 k). case_decide; [left|by right].
    by destruct (mapTx p1 !! k). }
  assert (mapTx p1 !! GetHash tx = None) as Hgone.
  { specialize (HT1 (GetHash tx)). rewrite decide_True in HT1 by done.
    by destruct (mapTx p1 !! GetHash tx). }
  destruct (removeConflicts_spec p1 tx c Hcons1 (pool_shrinks_keyed p p1 Hsh1 Hkey))
    as (p2 & c' & -> & Hcons2 & Hsh2 & Hins).
  rewrite Ok_bind. cbv beta iota.
  exists (ClearPrioritisation p2 (GetHash tx)), c'. split; [done|].
  split; [by apply consistent_ClearPrioritisation|].
  split; [by apply pool_shrinks_trans with p1|].
  assert (mapTx p2 !! GetHash tx = None) as Hgone2.
  { destruct (Hsh2 (GetHash tx)) as [?|H2]; [done|]. rewrite Hgone in H2.
    by destruct (mapTx p2 !! GetHash tx). }
  split; [done|]. intros o Ho. cbn [ClearPrioritisation set_mapDeltas mapNextTx].
  destruct (mapNextTx p2 !! o) as [[s i]|] eqn:Hs; [|done].
  pose proof (Hins o s i Ho Hs) as ->.
  destruct (cons_spenders _ Hcons2 o _ i Hs) as (e & He & _). congruence.
Qed.

Lemma removeForBlock_steps pool vtx conflicts :
  removeForBlock pool vtx conflicts
  = '(pool', conflicts') ← foreach block_step vtx (pool, conflicts);
    Ok (pool', conflicts',
        fold_left (fun es tx => match mapTx pool !! GetHash tx with
                                | Some e => es ++ [e]
                                | None => es
                                end) vtx []).
Proof. reflexivity. Qed.

Lemma block_steps_spec (vtx : list CTransaction) (p : CTxMemPool)
    (c : list CTransaction) :
  consistent p -> keyed_by_txid p ->
  exists p' c',
    foreach block_step vtx (p, c) = Ok (p', c')
    /\ consistent p' /\ pool_shrinks p p'
    /\ (forall tx, tx ∈ vtx -> mapTx p' !! GetHash tx = None)
    /\ forall tx (o : Z * Z), tx ∈ vtx -> o ∈ vin tx -> mapNextTx p' !! o = None.
Proof.
  revert p c. induction vtx as [|tx vtx IH]; intros p c Hcons Hkey; cbn [foreach].
  - exists p, c. split; [done|]. split; [done|]. split; [apply pool_shrinks_refl|].
    split; [by intros tx ?%elem_of_nil|by intros tx o ?%elem_of_nil].
  - destruct (block_step_spec tx p c Hcons Hkey)
      as (p1 & c1 & -> & Hcons1 & Hsh1 & Hgone & Hfree).
    rewrite Ok_bind.
    destruct (IH p1 c1 Hcons1 (pool_shrinks_keyed p p1 Hsh1 Hkey))
      as (p' & c' & -> & Hcons' & Hsh' & Hgone' & Hfree').
    exists p', c'. split; [done|]. split; [done|].
    split; [by apply pool_shrinks_trans with p1|]. split.
    + intros x [->|Hx]%elem_of_cons; [|by apply Hgone'].
      destruct (Hsh' (GetHash tx)) as [?|H2]; [done|]. rewrite Hgone in H2.
      by destruct (mapTx p' !! GetHash tx).
    + intros x o [->|Hx]%elem_of_cons Ho; [|by apply (Hfree' x)].
      destruct (mapNextTx p' !! o) as [[s i]|] eqn:Hs; [|done].
      destruct (pool_shrinks_next p1 p' o s i Hcons1 Hcons' Hsh' Hs) as [_ [i' Hi']].
      by destruct (next_not_None _ _ _ Hi' (Hfree o Ho)).
Qed.

(** X12.  [removeForBlock(vtx, ...)] on a consistent pool returns; after
    it no transaction of the block is in the pool and no input of a
    transaction of the block is spent by a pool transaction; the entries
    that stay keep their transactions and the pool is consistent
    again. *)
Theorem removeForBlock_clears_block (pool : CTxMemPool) (vtx : list CTransaction)
    (conflicts : list CTransaction) :
  consistent pool -> keyed_by_txid pool ->
  exists pool' conflicts' entries,
    removeForBlock pool vtx conflicts = Ok (pool', conflicts', entries)
    /\ consistent pool'
    /\ pool_shrinks pool pool'
    /\ (forall tx, tx ∈ vtx -> mapTx pool' !! GetHash tx = None)
    /\ forall tx (o : Z * Z), tx ∈ vtx -> o ∈ vin tx -> mapNextTx pool' !! o = None.
Proof.
  intros Hcons Hkey. rewrite removeForBlock_steps.
  destruct (block_steps_spec vtx pool conflicts Hcons Hkey) as (p' & c' & -> & H).
  rewrite Ok_bind. cbv beta iota. by eexists p', c', _.
Qed.

(** ** [Expire] *)

Lemma elem_of_older_than (time : Z) (l : list CTxMemPoolEntry) (h : Z) :
  h ∈ older_than time l -> exists e, e ∈ l /\ entry_hash e = h /\ nTime e < time.
Proof.
  induction l as [|a l IH]; cbn [older_than]; [by intros ?%elem_of_empty|].
  destruct (nTime a <? time) eqn:Ha; [|by intros ?%elem_of_empty].
  intros [->%elem_of_singleton|Hh]%elem_of_union.
  - exists a. split; [by left|]. split; [done|lia].
  - destruct (IH Hh) as (e & He & Heq & Hlt). exists e. split; [by right|done].
Qed.

Lemma older_than_sorted (time : Z) (l : list CTxMemPoolEntry) (e : CTxMemPoolEntry) :
  StronglySorted (fun a b => nTime a <= nTime b) l ->
  e ∈ l -> nTime e < time -> entry_hash e ∈ older_than time l.
Proof.
  induction l as [|a l IH]; intros Hsorted He Hlt; [by apply elem_of_nil in He|].
  apply StronglySorted_inv in Hsorted as [Hsorted Hall]. cbn [older_than].
  rewrite Forall_forall in Hall.
  apply elem_of_cons in He as [->|He].
  - replace (nTime a <? time) with true by lia. by apply elem_of_union_l, elem_of_singleton.
  - assert (nTime a <= nTime e) by (by apply Hall).
    replace (nTime a <? time) with true by lia. apply elem_of_union_r. by apply IH.
Qed.

Lemma descendants_of_all (pool : CTxMemPool) (l : list Z) (S : gset Z) :
  consistent pool ->
  (forall h, h ∈ l -> is_Some (mapTx pool !! h)) ->
  (forall d c, d ∈ S -> c ∈ children_of pool d -> c ∈ S) ->
  exists S',
    foreach (fun s hash => CalculateDescendants pool hash s) l S = Ok S'
    /\ forall x, x ∈ S' <-> x ∈ S \/ exists h, h ∈ l /\ descends pool h x.
Proof.
  intros Hcons. revert S. induction l as [|h l IH]; intros S Hl Hclosed; cbn [foreach].
  - exists S. split; [done|]. intros x. split; [by left|].
    by intros [?|(h & ?%elem_of_nil & _)].
  - destruct (CalculateDescendants_descends pool h S) as (S1 & -> & HS1).
    { by apply consistent_children_linked. }
    { apply Hl. by left. }
    { apply consistent_links; [done|]. apply Hl. by left. }
    { done. }
    rewrite Ok_bind. destruct (IH S1) as (S' & -> & HS').
    + intros x Hx. apply Hl. by right.
    + intros d c [Hd|Hd]%HS1 Hc; apply HS1.
      * left. by apply (Hclosed d).
      * right. by apply descends_child with d.
    + exists S'. split; [done|]. intros x. rewrite HS', HS1. split.
      * intros [[Hx|Hx]|(h' & Hh' & Hx)]; [by left| |].
        -- right. exists h. split; [by left|done].
        -- right. exists h'. split; [by right|done].
      * intros [Hx|(h' & [->|Hh']%elem_of_cons & Hx)]; [by left; left|by left; right|].
        right. by exists h'.
Qed.

(** X13.  [Expire(time)] on a consistent pool whose entry-time index
    lists the entries by ascending time returns the number of entries it
    removed: these are the entries older than [time] and the entries
    that have one of them among their in-mempool ancestors.  The others
    keep their transactions, and the pool is consistent again. *)
Theorem Expire_removes_old_and_descendants (pool : CTxMemPool) (time : Z) :
  consistent pool ->
  keyed_by_txid pool ->
  (forall e, e ∈ index_entry_time (mapTx pool) <-> exists h, mapTx pool !! h = Some e) ->
  StronglySorted (fun a b => nTime a <= nTime b) (index_entry_time (mapTx pool)) ->
  exists pool' stage,
    Expire pool time = Ok (pool', i32 (zsize stage))
    /\ (forall x, x ∈ stage <->
          exists h e ex, mapTx pool !! h = Some e /\ nTime e < time
            /\ mapTx pool !! x = Some ex
            /\ (x = h \/ ancestor_of (mapTx pool) (GetTx ex) h))
    /\ (forall k, GetTx <$> mapTx pool' !! k
                  = if decide (k ∈ stage) then None else GetTx <$> mapTx pool !! k)
    /\ consistent pool'.
Proof.
  intros Hcons Hkey Hidx Hsorted. unfold Expire.
  set (old := older_than time (index_entry_time (mapTx pool))).
  assert (forall h, h ∈ old <-> exists e, mapTx pool !! h = Some e /\ nTime e < time)
    as Hold.
  { intros h. split.
    - intros (e & He & Heq & Hlt)%elem_of_older_than.
      apply Hidx in He as [h' He]. rewrite (Hkey h' e He) in Heq. subst h'. by exists e.
    - intros (e & He & Hlt). rewrite <- (Hkey h e He).
      apply older_than_sorted; [done| |done]. apply Hidx. by exists h. }
  destruct (descendants_of_all pool (sorted_elements old) ∅ Hcons) as (stage & -> & Hst).
  { intros h Hh%elem_of_sorted_elements. apply Hold in Hh as (e & He & _).
    by rewrite He. }
  { by intros d c ?%elem_of_empty. }
  rewrite Ok_bind.
  assert (forall x, x ∈ stage -> is_Some (mapTx pool !! x)) as Hin.
  { intros x [?%elem_of_empty|(h & Hh%elem_of_sorted_elements & Hx)]%Hst; [done|].
    apply Hold in Hh as (e & He & _).
    apply descends_in_pool with h; [done|by rewrite He|done]. }
  destruct (RemoveStaged_consistent pool stage Hcons Hin) as (pool' & -> & HT & Hcons').
  rewrite Ok_bind. exists pool', stage. split; [done|]. split; [|by split].
  intros x. rewrite Hst. split.
  - intros [?%elem_of_empty|(h & Hh%elem_of_sorted_elements & Hx)]; [done|].
    apply Hold in Hh as (e & He & Hlt).
    assert (is_Some (mapTx pool !! h)) as Hh by by rewrite He.
    destruct (descends_in_pool pool h x Hcons Hh Hx) as [ex Hex].
    exists h, e, ex. repeat (split; [done|]).
    by apply (descends_iff_ancestor pool h x ex Hcons Hh Hex).
  - intros (h & e & ex & He & Hlt & Hex & Hx). right. exists h. split.
    + apply elem_of_sorted_elements, Hold. by exists e.
    + apply (descends_iff_ancestor pool h x ex Hcons); [by rewrite He|done|done].
Qed.
(** * [addUnchecked] keeps the pool consistent *)

Lemma lookup_register_inputs (h : Z) (ins : list (Z * Z)) (i : Z)
    (next : gmap (Z * Z) CInPoint) (spt : gset Z) (o : Z * Z) :
  (o ∈ ins /\ exists j, fst (register_inputs h ins i next spt) !! o = Some (h, j))
  \/ (o ∉ ins /\ fst (register_inputs h ins i next spt) !! o = next !! o).
Proof.
  revert i next spt. induction ins as [|a ins IH]; intros i next spt;
    cbn [register_inputs].
  - right. split; [apply not_elem_of_nil|done].
  - destruct (IH (i + 1) (<[a := (h, i)]> next) ({[outpoint_hash a]} ∪ spt))
      as [[Hin Hj]|[Hout Heq]].
    + left. split; [by right|done].
    + destruct (decide (o = a)) as [->|Hne].
      * left. split; [by left|]. exists i.
        etransitivity; [exact Heq|apply lookup_insert_eq].
      * right. split; [by intros [?|?]%elem_of_cons|].
        etransitivity; [exact Heq|by apply lookup_insert_ne].
Qed.

Section AddConsistent.

Variables (M : gmap Z CTxMemPoolEntry) (ML : gmap Z TxLinks)
  (NX : gmap (Z * Z) CInPoint) (MD : gmap Z (double * Z)) (T U N : Z)
  (e : CTxMemPoolEntry) (SA : gset Z).

Notation h := (entry_hash e).
Notation pool := (mkPool M ML NX MD T U N).
Notation pool1 := (added M ML NX MD T U N e SA).

Hypothesis Hcons : consistent pool.
Hypothesis Hnew : M !! h = None.
Hypothesis Hfree : forall o, o ∈ vin (GetTx e) -> NX !! o = None.
Hypothesis Hself : forall o, o ∈ vin (GetTx e) -> outpoint_hash o ≠ h.
Hypothesis Hnone :
  forall k ek o, M !! k = Some ek -> o ∈ vin (GetTx ek) -> outpoint_hash o ≠ h.
Hypothesis HSA : forall p, p ∈ SA <-> ancestor_of M (GetTx e) p.

Lemma added_is_Some (k : Z) :
  is_Some (mapTx pool1 !! k) <-> k = h \/ is_Some (M !! k).
Proof.
  rewrite (lookup_added M ML NX MD T U N e Hnew SA HSA).
  destruct (decide (k = h)) as [->|Hne].
  - split; [by left|eauto].
  - case_decide; rewrite ?fmap_is_Some; split; auto; by intros [?|?].
Qed.

Lemma added_GetTx (k : Z) (ek : CTxMemPoolEntry) :
  mapTx pool1 !! k = Some ek ->
  (k = h /\ ek = e) \/ (k ≠ h /\ exists e0, M !! k = Some e0 /\ GetTx e0 = GetTx ek).
Proof.
  rewrite (lookup_added M ML NX MD T U N e Hnew SA HSA).
  destruct (decide (k = h)) as [->|Hne]; [intros [= <-]; by left|].
  intros Hk. right. split; [done|]. case_decide.
  - destruct (M !! k) as [e0|]; [|done]. cbn in Hk. injection Hk as <-.
    exists e0. split; [done|]. by rewrite GetTx_UpdateState.
  - by exists ek.
Qed.

Lemma added_parents_of (k : Z) :
  k ≠ h -> parents_of pool1 k = parents_of pool k.
Proof.
  intros Hne. unfold parents_of, links_at.
  rewrite (links_added M ML NX MD T U N e Hnew Hself SA).
  rewrite decide_False by done. by case_decide.
Qed.

Lemma added_parents_of_new : parents_of pool1 h = new_parents M e.
Proof.
  unfold parents_of, links_at.
  rewrite (links_added M ML NX MD T U N e Hnew Hself SA). by rewrite decide_True.
Qed.

Lemma added_children_of (k : Z) :
  children_of pool1 k
  = if decide (k = h) then ∅
    else if decide (k ∈ new_parents M e) then {[h]} ∪ children_of pool k
         else children_of pool k.
Proof.
  unfold children_of, links_at.
  rewrite (links_added M ML NX MD T U N e Hnew Hself SA).
  by repeat case_decide.
Qed.

Lemma added_consistent : consistent pool1.
Proof.
  split.
  - apply added_links_are_parents; try done. apply (cons_parents _ Hcons).
  - intros k c Hk. apply added_is_Some in Hk. rewrite added_children_of, added_is_Some.
    assert (forall c, c ≠ h -> is_Some (M !! c) -> h ∉ parents_of pool c) as Hnopar.
    { intros c' Hc' [ec Hec] Hpar.
      destruct (cons_parents _ Hcons c' ec Hec) as (l & Hl & Hsp).
      unfold parents_of, links_at in Hpar. cbn [mapLinks] in Hl, Hpar.
      rewrite Hl in Hpar. apply Hsp in Hpar as [[? Hh] _].
      cbn [mapTx] in Hh. congruence. }
    assert (forall k', is_Some (M !! k') -> h ∉ children_of pool k') as Hnochild.
    { intros k' Hk' Hc. apply (cons_children _ Hcons k' h Hk') in Hc as [[? Hh] _].
      cbn [mapTx] in Hh. congruence. }
    destruct (decide (k = h)) as [->|Hne].
    + split; [by intros ?%elem_of_empty|]. intros [[->|Hc] Hpar].
      * rewrite added_parents_of_new in Hpar.
        by apply (new_parents_in_pool M e Hnew Hself) in Hpar as [_ ?].
      * assert (c ≠ h) as Hch by (intros ->; rewrite Hnew in Hc; by destruct Hc).
        rewrite added_parents_of in Hpar by done. by destruct (Hnopar c Hch Hc Hpar).
    + destruct Hk as [?|Hk]; [done|].
      destruct (decide (c = h)) as [->|Hch].
      * rewrite added_parents_of_new. case_decide as Hkp.
        -- split; [intros _; split; [by left|done]|]. intros _.
           by apply elem_of_union_l, elem_of_singleton.
        -- split; [|by intros [_ ?]]. intros Hc. by destruct (Hnochild k Hk Hc).
      * rewrite added_parents_of by done.
        pose proof (cons_children _ Hcons k c Hk) as Hsym. cbn [mapTx] in Hsym.
        case_decide.
        -- rewrite elem_of_union, elem_of_singleton, Hsym. split.
           ++ intros [?|[? ?]]; [done|]. split; [by right|done].
           ++ intros [[?|?] ?]; [done|]. right. by split.
        -- rewrite Hsym. split.
           ++ intros [? ?]. split; [by right|done].
           ++ intros [[?|?] ?]; [done|]. by split.
  - intros k ek o Hk Ho. cbn [added mapNextTx].
    destruct (lookup_register_inputs h (vin (GetTx e)) 0 NX ∅ o) as [[Hin [j Hj]]|[Hout Heq]].
    + apply added_GetTx in Hk as [[-> ->]|(Hne & e0 & He0 & Htx)]; [by exists j|].
      destruct (cons_inputs _ Hcons k e0 o He0) as [i Hi]; [by rewrite Htx|].
      cbn [mapNextTx] in Hi. by destruct (next_not_None _ _ _ Hi (Hfree o Hin)).
    + apply added_GetTx in Hk as [[-> ->]|(Hne & e0 & He0 & Htx)]; [done|].
      destruct (cons_inputs _ Hcons k e0 o He0) as [i Hi]; [by rewrite Htx|].
      exists i. etransitivity; [exact Heq|exact Hi].
  - intros o c i Hoc. cbn [added mapNextTx] in Hoc.
    destruct (lookup_register_inputs h (vin (GetTx e)) 0 NX ∅ o) as [[Hin [j Hj]]|[Hout Heq]].
    + pose proof (next_agree _ _ _ _ Hoc Hj) as Hc. injection Hc as -> _.
      exists e. split; [|done].
      rewrite (lookup_added M ML NX MD T U N e Hnew SA HSA). by rewrite decide_True.
    + assert (NX !! o = Some (c, i)) as Hold
        by (etransitivity; [symmetry; exact Heq|exact Hoc]).
      destruct (cons_spenders _ Hcons o c i Hold) as (ec & Hec & Ho).
      cbn [mapTx] in Hec.
      assert (c ≠ h) as Hne by (intros ->; congruence).
      rewrite (lookup_added M ML NX MD T U N e Hnew SA HSA).
      rewrite decide_False by done. case_decide.
      * rewrite Hec. eexists. split; [done|]. by rewrite GetTx_UpdateState.
      * by exists ec.
  - intros k Hk. apply added_is_Some.
    rewrite (links_added M ML NX MD T U N e Hnew Hself SA) in Hk.
    destruct (decide (k = h)) as [->|Hne]; [by left|]. right.
    case_decide as Hkp.
    + by apply (new_parents_in_pool M e Hnew Hself) in Hkp as [? _].
    + by apply (cons_links_dom _ Hcons) in Hk.
Qed.

End AddConsistent.

(** X14.  [addUnchecked(hash, entry)] for a transaction that is not in a
    consistent pool, has no input that a pool transaction spends, does
    not spend from itself and has no spender in the pool, returns; the
    new pool has the entry, is consistent again, and the size, the fee
    and the count of the new entry have been added to the descendant
    aggregates of exactly its in-mempool ancestors: every other entry is
    what it was. *)
Theorem addUnchecked_keeps_consistent (pool : CTxMemPool) (e : CTxMemPoolEntry) :
  consistent pool ->
  mapTx pool !! entry_hash e = None ->
  (forall o, o ∈ vin (GetTx e) -> mapNextTx pool !! o = None) ->
  (forall o, o ∈ vin (GetTx e) -> outpoint_hash o ≠ entry_hash e) ->
  (forall k ek o, mapTx pool !! k = Some ek -> o ∈ vin (GetTx ek) ->
                  outpoint_hash o ≠ entry_hash e) ->
  exists pool1,
    addUnchecked_noAncestors pool (entry_hash e) e = Ok pool1
    /\ consistent pool1
    /\ mapTx pool1 !! entry_hash e = Some e
    /\ (forall k ek, mapTx pool !! k = Some ek ->
          ancestor_of (mapTx pool) (GetTx e) k ->
          mapTx pool1 !! k
          = Some (UpdateState ek (i64 (nTxSize e)) (i64 (nFee e)) 1))
    /\ (forall k, k ≠ entry_hash e -> ~ ancestor_of (mapTx pool) (GetTx e) k ->
          mapTx pool1 !! k = mapTx pool !! k).
Proof.
  destruct pool as [M ML NX MD T U N]. cbn [mapTx mapNextTx].
  intros Hcons Hnew Hfree Hself Hnone.
  pose proof (cons_parents _ Hcons) as Hlinks.
  assert (ML !! entry_hash e = None) as Hnolinks.
  { destruct (ML !! entry_hash e) as [l|] eqn:Hl; [|done].
    destruct (cons_links_dom _ Hcons (entry_hash e)) as [x Hx];
      [cbn [mapLinks]; by rewrite Hl|].
    cbn [mapTx] in Hx. congruence. }
  assert (forall p l, ML !! p = Some l -> entry_hash e ∉ children l) as Hnochild.
  { intros p l Hl Hc.
    assert (is_Some (M !! p)) as Hp
      by (apply (cons_links_dom _ Hcons p); cbn [mapLinks]; by rewrite Hl).
    assert (entry_hash e ∈ children_of (mkPool M ML NX MD T U N) p) as Hc'
      by (unfold children_of, links_at; cbn [mapLinks]; by rewrite Hl).
    apply (cons_children _ Hcons p _ Hp) in Hc' as [[x Hx] _].
    cbn [mapTx] in Hx. congruence. }
  unfold addUnchecked_noAncestors.
  destruct (CalculateMemPoolAncestors_nolimit (mkPool M ML NX MD T U N) e Hlinks)
    as (SA & -> & HSA).
  cbn [mapTx] in HSA. rewrite Ok_bind.
  rewrite (addUnchecked_added M ML NX MD T U N e Hlinks Hnew Hnolinks Hnochild Hfree
             Hself Hnone SA)
    by (intros a Ha%HSA; by apply ancestor_of_in_pool in Ha).
  exists (added M ML NX MD T U N e SA). split; [done|].
  split; [by apply added_consistent|].
  pose proof (lookup_added M ML NX MD T U N e Hnew SA HSA) as Hlk.
  split; [|split].
  - rewrite Hlk. by rewrite decide_True.
  - intros k ek Hk Hanc. rewrite Hlk.
    rewrite decide_False by (intros ->; congruence).
    rewrite decide_True by by apply HSA. rewrite Hk. cbn.
    by rewrite !Z.mul_1_l.
  - intros k Hne Hanc. rewrite Hlk. rewrite decide_False by done.
    rewrite decide_False; [done|]. by intros ?%HSA.
Qed.
(** * Eviction leaves no orphan *)





(** * A compact block and back *)

(** ** The buckets of the map of short ids *)

Lemma bucket_filter_fst (nbuckets : nat) (key : Z) (l : list (Z * Z)) :
  length (filter (fun kv => unordered_map_bucket nbuckets (fst kv)
                            = unordered_map_bucket nbuckets key) l)
  = length (filter (fun id => unordered_map_bucket nbuckets id
                              = unordered_map_bucket nbuckets key) (map fst l)).
Proof.
  induction l as [|[a b] l IH]; [done|]. cbn [map fst].
  rewrite !filter_cons. cbn [fst]. case_decide; cbn [length]; by rewrite IH.
Qed.

Lemma bucket_size_le (nbuckets : nat) (m : gmap Z Z) (key : Z) (all : list Z) :
  (forall id, id ∈ dom m -> id ∈ all) ->
  (length (filter (fun id => unordered_map_bucket nbuckets id
                             = unordered_map_bucket nbuckets key) all) <= 12)%nat ->
  (bucket_size nbuckets m key <= 12)%nat.
Proof.
  intros Hdom Hall. unfold bucket_size.
  rewrite bucket_filter_fst.
  etransitivity; [|exact Hall]. apply submseteq_length, NoDup_submseteq.
  - apply NoDup_filter, NoDup_fst_map_to_list.
  - intros id [Hb Hid]%list_elem_of_filter. apply list_elem_of_filter. split; [done|].
    apply Hdom. apply elem_of_dom. apply list_elem_of_fmap in Hid as ([k v] & -> & Hkv).
    apply elem_of_map_to_list in Hkv. by exists v.
Qed.

(** ** The map of short ids when the coinbase alone is prefilled *)

(** The map after the short ids [ids], the first of them for slot
    [first]. *)
Fixpoint index_from (first : nat) (ids : list Z) (m : gmap Z Z) : gmap Z Z :=
  match ids with
  | [] => m
  | id :: ids' => index_from (S first) ids' (<[id := Z.of_nat first]> m)
  end.

Lemma index_from_other first ids m id :
  id ∉ ids -> index_from first ids m !! id = m !! id.
Proof.
  revert first m. induction ids as [|x ids IH]; intros first m Hid; [done|].
  cbn [index_from]. rewrite IH by (intros ?; apply Hid; by right).
  apply lookup_insert_ne. intros ->. apply Hid. by left.
Qed.

Lemma index_from_lookup first ids m j id :
  NoDup ids -> ids !! j = Some id ->
  index_from first ids m !! id = Some (Z.of_nat (first + j)).
Proof.
  revert first m j. induction ids as [|x ids IH]; intros first m j Hnd Hj; [done|].
  apply NoDup_cons in Hnd as [Hx Hnd]. cbn [index_from]. destruct j as [|j].
  - injection Hj as ->. rewrite index_from_other by done.
    rewrite lookup_insert_eq. do 2 f_equal. lia.
  - rewrite (IH (S first) _ j) by done. do 2 f_equal. lia.
Qed.

Lemma dom_index_from first ids m :
  dom (index_from first ids m) = dom m ∪ list_to_set ids.
Proof.
  revert first m. induction ids as [|x ids IH]; intros first m; cbn [index_from].
  - set_solver.
  - rewrite IH, dom_insert_L. set_solver.
Qed.

Section CoinbasePrefilled.

Variable cb : CTransaction.
Variable n : nat.
Hypothesis Hn : Z.of_nat n < 65535.

Notation avail1 := (Some cb :: replicate n None).

Lemma skip_available_coinbase (fuel i : nat) :
  (i < n)%nat ->
  skip_available (S fuel) avail1 i (if (i =? 0)%nat then 0 else 1) = Ok 1.
Proof.
  intros Hi.
  assert (forall k, (k < n)%nat -> avail1 !! S k = Some None) as Hempty.
  { intros k Hk. change (replicate n (@None CTransaction) !! k = Some None).
    by apply lookup_replicate_2. }
  assert (forall f k, (k < n)%nat -> skip_available f avail1 k 1 = Ok 1) as Hstop.
  { intros f k Hk. destruct f; cbn [skip_available];
      (replace (k + Z.to_nat 1)%nat with (S k) by lia); by rewrite Hempty. }
  destruct i as [|i]; cbn [Nat.eqb]; [|by apply Hstop].
  cbn [skip_available]. change (0 + Z.to_nat 0)%nat with 0%nat.
  change (avail1 !! 0%nat) with (Some (Some cb)). cbv beta iota.
  change (u16 (0 + 1)) with 1. by apply Hstop.
Qed.

Lemma index_shorttxids_coinbase (nbuckets : nat) (all ids : list Z) (i : nat)
    (m : gmap Z Z) :
  (i + length ids <= n)%nat ->
  (forall key,
     (length (filter (fun id => unordered_map_bucket nbuckets id
                                = unordered_map_bucket nbuckets key) all) <= 12)%nat) ->
  (forall id, id ∈ ids -> id ∈ all) ->
  (forall id, id ∈ dom m -> id ∈ all) ->
  index_shorttxids nbuckets avail1 ids i (if (i =? 0)%nat then 0 else 1) m
  = Ok (inr (index_from (S i) ids m)).
Proof.
  revert i m. induction ids as [|id ids IH]; intros i m Hlen Hbucket Hids Hm; [done|].
  cbn [index_shorttxids length index_from] in *.
  rewrite skip_available_coinbase by lia. rewrite Ok_bind.
  assert (u16 (Z.of_nat i + 1) = Z.of_nat (S i)) as ->.
  { unfold u16. rewrite Z.mod_small; lia. }
  assert (forall x, x ∈ dom (<[id := Z.of_nat (S i)]> m) -> x ∈ all) as Hm'.
  { intros x. rewrite dom_insert_L.
    intros [->%elem_of_singleton|Hx]%elem_of_union; [apply Hids; by left|by apply Hm]. }
  replace (12 <? bucket_size nbuckets (<[id := Z.of_nat (S i)]> m) id)%nat with false.
  - apply (IH (S i)); [lia|done| |done]. intros x Hx. apply Hids. by right.
  - symmetry. apply Nat.ltb_ge. by apply bucket_size_le with all.
Qed.

(** ** The scan of the mempool *)

Variable txs : list CTransaction.
Hypothesis Htxs : length txs = n.
Variable cmpctblock : CBlockHeaderAndShortTxIDs.
Variable m : gmap Z Z.

(** The map sends the short id of the [j]-th transaction to slot
    [j + 1], and has nothing else. *)
Hypothesis Hm : forall id idx, m !! id = Some idx ->
  exists j tx, txs !! j = Some tx /\ id = GetShortID cmpctblock (GetHash tx)
               /\ idx = Z.of_nat (S j).

(** What holds of the slots: the coinbase is in the first, and every
    other is empty or has the transaction of the block. *)
Definition slots_of_block (avail : list (option CTransaction)) : Prop :=
  length avail = S n
  /\ avail !! 0%nat = Some (Some cb)
  /\ forall j tx, txs !! j = Some tx ->
       avail !! S j = Some None \/ avail !! S j = Some (Some tx).

Lemma slots_of_block_insert avail j tx (slot : option CTransaction) :
  slots_of_block avail -> txs !! j = Some tx -> slot = None \/ slot = Some tx ->
  slots_of_block (<[S j := slot]> avail).
Proof.
  intros (Hlen & H0 & Hslots) Hj Hslot. split; [by rewrite length_insert|].
  split; [by rewrite list_lookup_insert_ne|].
  intros j' tx' Hj'. destruct (decide (j' = j)) as [->|Hne].
  - assert (tx' = tx) as -> by congruence.
    rewrite list_lookup_insert_eq.
    + destruct Hslot as [->| ->]; auto.
    + rewrite Hlen. apply lookup_lt_Some in Hj. lia.
  - rewrite list_lookup_insert_ne by lia. by apply Hslots.
Qed.

Lemma match_mempool_slots (vTxHashes : list (Z * CTransaction))
    (avail : list (option CTransaction)) (have_txn : list bool) (count : Z) :
  (forall hash tx tx', (hash, tx) ∈ vTxHashes -> tx' ∈ txs ->
     GetShortID cmpctblock hash = GetShortID cmpctblock (GetHash tx') -> tx = tx') ->
  slots_of_block avail -> length have_txn = S n ->
  exists avail' count',
    match_mempool cmpctblock m vTxHashes avail have_txn count = Ok (avail', count')
    /\ slots_of_block avail'.
Proof.
  revert avail have_txn count.
  induction vTxHashes as [|[hash tx] pool IH]; intros avail have_txn count Hpool Hav Hhave.
  - by exists avail, count.
  - cbn [match_mempool].
    assert (exists avail1 have1 count1,
              match m !! GetShortID cmpctblock hash with
              | Some idx =>
                  have ← deref (have_txn !! Z.to_nat idx);
                  if negb have
                  then Ok (<[Z.to_nat idx := Some tx]> avail,
                           <[Z.to_nat idx := true]> have_txn, u64 (count + 1))
                  else
                    slot ← deref (avail !! Z.to_nat idx);
                    match slot with
                    | Some _ => Ok (<[Z.to_nat idx := None]> avail, have_txn,
                                    u64 (count - 1))
                    | None => Ok (avail, have_txn, count)
                    end
              | None => Ok (avail, have_txn, count)
              end = Ok (avail1, have1, count1)
              /\ slots_of_block avail1 /\ length have1 = S n)
      as (av1 & hv1 & c1 & -> & Hav1 & Hhv1).
    { destruct (m !! GetShortID cmpctblock hash) as [idx|] eqn:Hidx;
        [|by exists avail, have_txn, count].
      destruct (Hm _ _ Hidx) as (j & txj & Hj & Hid & ->).
      rewrite Nat2Z.id.
      assert (tx = txj) as ->.
      { apply (Hpool hash tx txj); [by left| |done]. by apply list_elem_of_lookup_2 in Hj. }
      pose proof (lookup_lt_Some _ _ _ Hj) as Hjn. rewrite Htxs in Hjn.
      destruct (lookup_lt_is_Some_2 have_txn (S j)) as [have Hhv]; [lia|].
      rewrite Hhv. cbn [deref]. rewrite Ok_bind. destruct have; cbn [negb].
      - destruct Hav as (Hlen & H0 & Hslots).
        destruct (lookup_lt_is_Some_2 avail (S j)) as [slot Hslot]; [lia|].
        rewrite Hslot. cbn [deref]. rewrite Ok_bind. destruct slot as [t|].
        + eexists _, _, _. split; [done|]. split; [|done].
          apply slots_of_block_insert with txj; [done|done|by left].
        + by exists avail, have_txn, count.
      - eexists _, _, _. split; [done|]. split; [|by rewrite length_insert].
        apply slots_of_block_insert with txj; [done|done|by right]. }
    rewrite Ok_bind. cbv beta iota.
    destruct (c1 =? Z.of_nat (size m)); [by exists av1, c1|].
    apply IH; [|done|done]. intros h t t' Hin. apply Hpool. by right.
Qed.

End CoinbasePrefilled.

(** ** [FillBlock] on the slots of a block *)

(** The transactions of [block] whose slot is empty, in the order of the
    block: what the receiver has to ask for. *)
Definition missing_slots (avail : list (option CTransaction))
    (block : list CTransaction) : list CTransaction :=
  map snd (filter (fun p : option CTransaction * CTransaction => fst p = None)
             (zip avail block)).

Lemma fill_slots_block (avail : list (option CTransaction)) (block : list CTransaction) :
  length avail = length block ->
  (forall j slot tx, avail !! j = Some slot -> block !! j = Some tx ->
     slot = None \/ slot = Some tx) ->
  fill_slots avail (missing_slots avail block) = (true, map Some block, []).
Proof.
  revert block. induction avail as [|slot avail IH]; intros [|tx block] Hlen Hslots;
    try done.
  cbn [length] in Hlen. unfold missing_slots. cbn [zip zip_with].
  assert (fill_slots avail (missing_slots avail block) = (true, map Some block, []))
    as Hrest.
  { apply IH; [lia|]. intros j s t Hs Ht. by apply (Hslots (S j)). }
  destruct (Hslots 0%nat slot tx) as [->| ->]; try done.
  - rewrite filter_cons_True by done. cbn [map snd fill_slots].
    fold (missing_slots avail block). by rewrite Hrest.
  - rewrite filter_cons_False by done. cbn [fill_slots].
    fold (missing_slots avail block). by rewrite Hrest.
Qed.

(** The message before its lists are filled: it has the keys of the
    short ids. *)
Definition selector_of (header_hash rand : Z) : CBlockHeaderAndShortTxIDs :=
  mkCmpct false header_hash (fst (ShortTxIDSelector header_hash rand))
    (snd (ShortTxIDSelector header_hash rand)) rand [] [].

Lemma size_index_from (ids : list Z) :
  NoDup ids -> size (index_from 1 ids ∅) = length ids.
Proof.
  intros Hnd. rewrite <- size_dom, dom_index_from, dom_empty_L, (left_id_L ∅ (∪)).
  by apply size_list_to_set.
Qed.

Lemma compact_block_decodes (header_hash rand : Z) (cb : CTransaction)
    (txs : list CTransaction) (vTxHashes : list (Z * CTransaction)) :
  IsNull_tx cb = false ->
  Z.of_nat (S (length txs)) <= max_block_tx_count ->
  Z.of_nat (length txs) < 65535 ->
  NoDup (map (fun tx => GetShortID (selector_of header_hash rand) (GetHash tx)) txs) ->
  (forall key,
     (length (filter (fun id => unordered_map_bucket (length txs) id
                                = unordered_map_bucket (length txs) key)
                (map (fun tx => GetShortID (selector_of header_hash rand) (GetHash tx))
                   txs)) <= 12)%nat) ->
  (forall hash tx tx', (hash, tx) ∈ vTxHashes -> tx' ∈ txs ->
     GetShortID (selector_of header_hash rand) hash
     = GetShortID (selector_of header_hash rand) (GetHash tx') -> tx = tx') ->
  exists cmpctblock this,
    newCBlockHeaderAndShortTxIDs false header_hash (cb :: txs) rand = Ok cmpctblock
    /\ InitData (mkPartial [] 0 0 None) vTxHashes cmpctblock = Ok (READ_STATUS_OK, this)
    /\ header this = Some header_hash
    /\ slots_of_block cb (length txs) txs (txn_available this).
Proof.
  intros Hcb Hmax Hn Hnd Hbucket Hpool.
  set (sid := fun tx => GetShortID (selector_of header_hash rand) (GetHash tx)) in *.
  set (ids := map sid txs) in *.
  assert (length ids = length txs) as Hlen by (unfold ids; by rewrite length_map).
  pose (c := mkCmpct false header_hash (fst (ShortTxIDSelector header_hash rand))
               (snd (ShortTxIDSelector header_hash rand)) rand ids [mkPrefilled 0 cb]).
  assert (forall h, GetShortID c h = GetShortID (selector_of header_hash rand) h) as Hsid
    by done.
  exists c.
  cut (exists this,
         InitData (mkPartial [] 0 0 None) vTxHashes c = Ok (READ_STATUS_OK, this)
         /\ header this = Some header_hash
         /\ slots_of_block cb (length txs) txs (txn_available this)).
  { intros (this & ? & ? & ?). by exists this. }
  unfold InitData.
  assert (BlockTxCount c = S (length txs)) as Hcount.
  { unfold BlockTxCount, c. cbn [shorttxids prefilledtxn length]. lia. }
  change (cmpct_header_IsNull c) with false. change (prefilledtxn c) with [mkPrefilled 0 cb].
  change (shorttxids c) with ids. change (cmpct_header c) with header_hash.
  rewrite (bool_decide_eq_false_2 ([mkPrefilled 0 cb] = [])) by done.
  rewrite andb_false_r. cbn [orb]. rewrite Hcount.
  replace (max_block_tx_count <? Z.of_nat (S (length txs))) with false
    by (symmetry; by apply Z.ltb_ge).
  cbn [header txn_available mempool_count prefilled_count].
  rewrite !bool_decide_eq_true_2 by done. cbn [andb assert]. rewrite Ok_bind.
  cbn [replicate place_prefilled index prefilled_tx]. rewrite Hcb.
  change (i32 (-1 + (0 + 1))) with 0. change (65535 <? 0) with false.
  change (u32 0) with 0.
  replace (Z.of_nat (length ids + 0) <? 0) with false
    by (symmetry; apply Z.ltb_ge; lia).
  rewrite bool_decide_eq_true_2
    by (cbn [length]; rewrite length_replicate; lia).
  cbn [assert]. rewrite !Ok_bind. change (Z.to_nat 0) with 0%nat.
  cbn [insert list_insert]. cbv beta iota.
  rewrite Hlen.
  rewrite (index_shorttxids_coinbase cb (length txs) Hn (length txs) ids ids 0 ∅);
    [|lia|done|done|by intros id ?%elem_of_dom_2%not_elem_of_empty].
  rewrite Ok_bind. cbv beta iota.
  rewrite size_index_from by done. rewrite Hlen, Nat.eqb_refl. cbn [negb].
  destruct (match_mempool_slots cb (length txs) txs eq_refl c (index_from 1 ids ∅))
    with (vTxHashes := vTxHashes) (avail := Some cb :: replicate (length txs) None)
         (have_txn := replicate (length (Some cb :: replicate (length txs) None)) false)
         (count := 0)
    as (avail2 & count2 & -> & Hslots).
  - intros id idx Hidx.
    assert (id ∈ ids) as Hin.
    { apply elem_of_dom_2 in Hidx. rewrite dom_index_from, dom_empty_L in Hidx.
      set_solver. }
    apply list_elem_of_lookup_1 in Hin as [j Hj].
    rewrite (index_from_lookup 1 ids ∅ j id Hnd Hj) in Hidx. injection Hidx as <-.
    unfold ids in Hj. rewrite list_lookup_fmap in Hj.
    destruct (txs !! j) as [tx|] eqn:Htx; [|done]. injection Hj as <-.
    exists j, tx. split; [done|]. split; [by rewrite Hsid|done].
  - intros hash tx tx' Hin Htx'. rewrite !Hsid. by apply Hpool.
  - split; [cbn [length]; by rewrite length_replicate|]. split; [done|].
    intros j tx Hj. left. change (replicate (length txs) (@None CTransaction) !! j = Some None).
    apply lookup_replicate_2. by apply lookup_lt_Some in Hj.
  - cbn [length]. by rewrite !length_replicate.
  - rewrite Ok_bind. cbv beta iota. eexists. split; [done|]. split; [done|].
    exact Hslots.
Qed.

(** X16.  A block whose coinbase is not null, sent as a compact block and
    read by [InitData] on a fresh object, then completed by [FillBlock]
    with the transactions whose slots [InitData] left empty, is the block
    again, with the status that [CheckBlock] gives it.  This holds
    when the short ids of the block are distinct and no more than 12 of
    them share a bucket, the block has fewer than 65536 transactions and
    no more than the maximum, and a mempool transaction that has the
    short id of a block transaction is that transaction. *)
Theorem compact_block_round_trip (header_hash rand : Z) (cb : CTransaction)
    (txs : list CTransaction) (vTxHashes : list (Z * CTransaction)) :
  IsNull_tx cb = false ->
  Z.of_nat (S (length txs)) <= max_block_tx_count ->
  Z.of_nat (length txs) < 65535 ->
  NoDup (map (fun tx => GetShortID (selector_of header_hash rand) (GetHash tx)) txs) ->
  (forall key,
     (length (filter (fun id => unordered_map_bucket (length txs) id
                                = unordered_map_bucket (length txs) key)
                (map (fun tx => GetShortID (selector_of header_hash rand) (GetHash tx))
                   txs)) <= 12)%nat) ->
  (forall hash tx tx', (hash, tx) ∈ vTxHashes -> tx' ∈ txs ->
     GetShortID (selector_of header_hash rand) hash
     = GetShortID (selector_of header_hash rand) (GetHash tx') -> tx = tx') ->
  exists cmpctblock this,
    newCBlockHeaderAndShortTxIDs false header_hash (cb :: txs) rand = Ok cmpctblock
    /\ InitData (mkPartial [] 0 0 None) vTxHashes cmpctblock = Ok (READ_STATUS_OK, this)
    /\ FillBlock this (missing_slots (txn_available this) (cb :: txs))
       = Ok (match CheckBlock header_hash (map Some (cb :: txs)) with
             | (true, _) => READ_STATUS_OK
             | (false, true) => READ_STATUS_FAILED
             | (false, false) => READ_STATUS_INVALID
             end,
             map Some (cb :: txs)).
Proof.
  intros Hcb Hmax Hn Hnd Hbucket Hpool.
  destruct (compact_block_decodes header_hash rand cb txs vTxHashes)
    as (c & this & Hc & Hinit & Hhdr & Hlen & H0 & Hslots); try done.
  exists c, this. split; [done|]. split; [done|].
  unfold FillBlock. rewrite Hhdr. cbn [deref]. rewrite Ok_bind.
  rewrite fill_slots_block.
  - cbn [negb]. cbv iota. rewrite bool_decide_eq_true_2 by done. cbn [negb].
    by destruct (CheckBlock header_hash _) as [[|] [|]].
  - by rewrite Hlen.
  - intros [|j] slot tx Hs Ht.
    + rewrite H0 in Hs. injection Hs as <-. injection Ht as <-. by right.
    + cbn in Ht. destruct (Hslots j tx Ht) as [Hj|Hj]; rewrite Hj in Hs;
        injection Hs as <-; auto.
Qed.
(** * The block template *)

(** The fee and the sigop cost of a mempool entry, as [AddToBlock] reads
    them. *)
Definition fee_of (h : Z) : Z :=
  match miner_mapTx !! h with Some it => GetFee it | None => 0 end.

Definition sigops_of (h : Z) : Z :=
  match miner_mapTx !! h with Some it => GetSigOpCost it | None => 0 end.

(** What holds of the working state while the block is filled: after the
    place of the coinbase the block has the mempool transactions [l],
    each once, with their fees and sigop costs beside them; each has
    passed the tests of [TestPackageTransactions]. *)
Record block_ok (ba : BlockAssembler) (ws : WorkingState) (l : list Z) : Prop :=
  mkBlockOk {
  bo_vtx : vtx ws = NullTx :: map MempoolTx l;
  bo_fees : vTxFees ws = -1 :: map fee_of l;
  bo_sigops : vTxSigOpsCost ws = -1 :: map sigops_of l;
  bo_nodup : NoDup l;
  bo_inBlock : inBlock ws = list_to_set l;
  bo_known : forall h, h ∈ l -> is_Some (miner_mapTx !! h);
  bo_nFees : nFees ws = fold_left (fun acc h => i64 (acc + fee_of h)) l 0;
  bo_final : forall h, h ∈ l ->
    IsFinalTx h (nHeight_of ba) (nLockTimeCutoff ba) = true;
  bo_witness : fIncludeWitness ba = false ->
    forall h it, h ∈ l -> miner_mapTx !! h = Some it -> HasWitness it = false
}.

(** What [TestPackageTransactions] has tested of an entry. *)
Definition tx_tested (ba : BlockAssembler) (h : Z) : Prop :=
  is_Some (miner_mapTx !! h)
  /\ IsFinalTx h (nHeight_of ba) (nLockTimeCutoff ba) = true
  /\ (fIncludeWitness ba = false ->
      forall it, miner_mapTx !! h = Some it -> HasWitness it = false).

Lemma TestPackageTransactions_from_true ba package n :
  TestPackageTransactions_from ba package n = Ok true ->
  forall h, h ∈ package -> tx_tested ba h.
Proof.
  revert n. induction package as [|x package IH]; intros n H h Hh;
    [by apply elem_of_nil in Hh|].
  cbn [TestPackageTransactions_from] in H.
  apply bind_Ok in H as (it & Hit%deref_Ok & H).
  destruct (IsFinalTx x (nHeight_of ba) (nLockTimeCutoff ba)) eqn:Hfinal;
    cbn [negb] in H; [|done].
  destruct (negb (fIncludeWitness ba) && HasWitness it) eqn:Hwit; [done|].
  assert (forall n', TestPackageTransactions_from ba package n' = Ok true ->
                     tx_tested ba h) as Hrest.
  { intros n' Hn'. apply elem_of_cons in Hh as [->|Hh]; [|by apply (IH n')].
    split; [by rewrite Hit|]. split; [done|]. intros Hno it' Hit'.
    rewrite Hit in Hit'. injection Hit' as <-. rewrite Hno in Hwit. done. }
  destruct (fNeedSizeAccounting ba); [|by apply (Hrest n)].
  destruct (nBlockMaxSize ba <=? u64 (n + GetSerializeSize it)); [done|].
  by apply (Hrest (u64 (n + GetSerializeSize it))).
Qed.

Lemma SortForBlock_keyed (l : list Z) (acc keyed : list (Z * Z)) :
  foreach (fun acc h => it ← deref (miner_mapTx !! h);
                        Ok (acc ++ [(GetCountWithAncestors it, h)])) l acc = Ok keyed ->
  map snd keyed = map snd acc ++ l.
Proof.
  revert acc. induction l as [|h l IH]; intros acc H; cbn [foreach] in H.
  - apply Ok_inj in H as <-. by rewrite app_nil_r.
  - apply bind_Ok in H as (acc1 & Hstep & H). apply bind_Ok in Hstep as (it & _ & Hstep).
    apply Ok_inj in Hstep as <-. apply IH in H. rewrite H, map_app. cbn.
    by rewrite <- app_assoc.
Qed.

Lemma SortForBlock_Permutation (package : gset Z) (sortedEntries : list Z) :
  SortForBlock package = Ok sortedEntries ->
  sortedEntries ≡ₚ sorted_elements package.
Proof.
  unfold SortForBlock. intros H. apply bind_Ok in H as (keyed & Hkeyed & H).
  apply Ok_inj in H as <-. apply SortForBlock_keyed in Hkeyed. cbn in Hkeyed.
  rewrite <- Hkeyed. apply fmap_Permutation, merge_sort_Permutation.
Qed.

(** One [AddToBlock], with the entry erased from [mapModifiedTx]. *)
Definition add_step (ba : BlockAssembler)
  : WorkingState * gmap Z CTxMemPoolModifiedEntry -> Z
    -> result (WorkingState * gmap Z CTxMemPoolModifiedEntry) :=
  fun '(ws, m) e => ws' ← AddToBlock ba ws e; Ok (ws', delete e m).

Lemma AddToBlock_ok ba ws l e ws' :
  AddToBlock ba ws e = Ok ws' -> block_ok ba ws l -> e ∉ l -> tx_tested ba e ->
  block_ok ba ws' (l ++ [e]).
Proof.
  unfold AddToBlock. intros H [Hvtx Hfees Hsig Hnd Hin Hknown HnFees Hfinal Hwit] He
    (Hsome & Hfin & Hw).
  apply bind_Ok in H as (it & Hit%deref_Ok & H). apply Ok_inj in H as <-.
  assert (fee_of e = GetFee it) as Hfee by (unfold fee_of; by rewrite Hit).
  assert (sigops_of e = GetSigOpCost it) as Hso by (unfold sigops_of; by rewrite Hit).
  split; cbn [vtx vTxFees vTxSigOpsCost inBlock nFees].
  - by rewrite Hvtx, map_app.
  - rewrite Hfees, map_app. cbn [map app]. by rewrite Hfee.
  - rewrite Hsig, map_app. cbn [map app]. by rewrite Hso.
  - apply NoDup_app. split; [done|]. split; [|apply NoDup_singleton].
    intros x Hx Hx'. apply list_elem_of_singleton in Hx' as ->. done.
  - rewrite Hin, list_to_set_app_L. cbn. set_solver.
  - intros h Hh. apply elem_of_app in Hh as [Hh|Hh]; [by apply Hknown|].
    by apply list_elem_of_singleton in Hh as ->.
  - rewrite fold_left_app, <- HnFees. cbn [fold_left]. by rewrite Hfee.
  - intros h Hh. apply elem_of_app in Hh as [Hh|Hh]; [by apply Hfinal|].
    by apply list_elem_of_singleton in Hh as ->.
  - intros Hno h it' Hh Hit'. apply elem_of_app in Hh as [Hh|Hh];
      [by apply (Hwit Hno h)|].
    apply list_elem_of_singleton in Hh as ->. by apply (Hw Hno).
Qed.

Lemma add_all_ok ba (entries : list Z) ws m l ws' m' :
  foreach (add_step ba) entries (ws, m) = Ok (ws', m') ->
  block_ok ba ws l -> NoDup entries ->
  (forall e, e ∈ entries -> e ∉ l /\ tx_tested ba e) ->
  block_ok ba ws' (l ++ entries).
Proof.
  revert ws m l. induction entries as [|e entries IH]; intros ws m l H Hok Hnd Hent;
    cbn [foreach] in H.
  - apply Ok_inj in H. injection H as <- _. by rewrite app_nil_r.
  - apply NoDup_cons in Hnd as [He Hnd].
    apply bind_Ok in H as ([ws1 m1] & Hstep & H). unfold add_step in Hstep.
    cbv beta iota in Hstep. apply bind_Ok in Hstep as (ws1' & Hadd & Hstep).
    apply Ok_inj in Hstep. injection Hstep as <- _.
    destruct (Hent e) as [Hel Htest]; [by left|].
    pose proof (AddToBlock_ok ba ws l e ws1' Hadd Hok Hel Htest) as Hok1.
    replace (l ++ e :: entries) with ((l ++ [e]) ++ entries)
      by (by rewrite <- app_assoc).
    apply (IH ws1' m1); [done|done|done|].
    intros x Hx. destruct (Hent x) as [Hxl Hxt]; [by right|]. split; [|done].
    intros Hx'. apply elem_of_app in Hx' as [Hx'|Hx']; [done|].
    by apply list_elem_of_singleton in Hx' as ->.
Qed.

Lemma addPackageTxs_loop_ok fuel ba fIncludeRecentTransactions s s' :
  addPackageTxs_loop fuel ba fIncludeRecentTransactions s = Ok s' ->
  (exists l, block_ok ba (workState_of s) l) ->
  exists l', block_ok ba (workState_of s') l'.
Proof.
  revert s. induction fuel as [|fuel IH]; intros s H Hok; cbn [addPackageTxs_loop] in H.
  - destruct (bool_decide (mi s = []) && bool_decide (mapModifiedTx s = ∅)); [|done].
    by apply Ok_inj in H as <-.
  - destruct (bool_decide (mi s = []) && bool_decide (mapModifiedTx s = ∅));
      [by apply Ok_inj in H as <-|].
    apply bind_Ok in H as (skip & _ & H). destruct skip; [by apply IH in H|].
    apply bind_Ok in H as ([[h fUsingModified] mi'] & _ & H). cbv beta iota in H.
    apply bind_Ok in H as (_ & Hnew%assert_Ok & H).
    apply negb_true_iff, bool_decide_eq_false in Hnew.
    apply bind_Ok in H as (it & Hit & H).
    apply bind_Ok in H as ([[packageSize packageFees] packageSigOpsCost] & _ & H).
    cbv beta iota in H.
    destruct (packageFees <? _); [by apply Ok_inj in H as <-|].
    destruct (negb (TestPackage ba (workState_of s) packageSize packageSigOpsCost)).
    { cbv zeta in H. destruct (_ && _); [by apply Ok_inj in H as <-|].
      by apply IH in H. }
    cbv zeta in H. apply bind_Ok in H as (final & Hfinal & H).
    destruct final; cbn [negb] in H; [|by apply IH in H].
    apply bind_Ok in H as (sortedEntries & Hsorted & H).
    apply bind_Ok in H as ([ws' modified'] & Hadd & H). cbv beta iota in H.
    apply bind_Ok in H as ([modified'' updated] & _ & H). cbv beta iota in H.
    apply IH in H; [done|]. cbn [workState_of]. destruct Hok as [l Hok].
    exists (l ++ sortedEntries).
    apply SortForBlock_Permutation in Hsorted.
    apply (add_all_ok ba sortedEntries (workState_of s) (mapModifiedTx s) l ws' modified');
      [exact Hadd|done| |].
    + rewrite Hsorted. apply NoDup_sorted_elements.
    + intros e He. rewrite Hsorted in He. apply elem_of_sorted_elements in He.
      split.
      * intros Hel.
        assert (e ∈ inBlock (workState_of s)) as Hin
          by (rewrite (bo_inBlock _ _ _ Hok); by apply elem_of_list_to_set).
        unfold onlyUnconfirmed in He. set_solver.
      * unfold TestPackageTransactions in Hfinal.
        apply (TestPackageTransactions_from_true _ _ _ Hfinal).
        by apply elem_of_sorted_elements.
Qed.

Lemma block_ok_start ba :
  block_ok ba (mkWorking [NullTx] [-1] [-1] reserved_size reserved_weight 0
                 reserved_sigops 0 ∅) [].
Proof.
  split; cbn [vtx vTxFees vTxSigOpsCost inBlock nFees map fold_left]; try done.
  - apply NoDup_nil_2.
  - intros h Hh. by apply elem_of_nil in Hh.
  - intros h Hh. by apply elem_of_nil in Hh.
  - intros _ h it Hh. by apply elem_of_nil in Hh.
Qed.

(** The template is the working state the loop ends in, with the coinbase
    and its fee and sigop places filled in. *)
Lemma CreateNewBlock_block_ok (ba : BlockAssembler) (tipHeight lockTimeCutoff : Z)
    (witnessEnabled fMineWitnessTx : bool) (coinbaseSigOps : Z) (t : CBlockTemplate) :
  CreateNewBlock ba tipHeight lockTimeCutoff witnessEnabled fMineWitnessTx
    coinbaseSigOps = Ok t ->
  exists ws l,
    block_ok (mkAssembler (blockMinFeeRate ba) (nBlockMaxWeight ba) (nBlockMaxSize ba)
                (fNeedSizeAccounting ba) (i32 (tipHeight + 1)) lockTimeCutoff
                (witnessEnabled && fMineWitnessTx)) ws l
    /\ t = mkTemplate
             (<[O := CoinbaseTx (i64 (nFees ws + GetBlockSubsidy (i32 (tipHeight + 1))))
                       (i32 (tipHeight + 1))]> (vtx ws))
             (<[O := i64 (- nFees ws)]> (vTxFees ws))
             (<[O := i64 (WITNESS_SCALE_FACTOR * coinbaseSigOps)]> (vTxSigOpsCost ws)).
Proof.
  unfold CreateNewBlock. cbv zeta. intros H.
  apply bind_Ok in H as (s & Hs & H). apply bind_Ok in H as (_ & _ & H).
  apply Ok_inj in H as <-. unfold addPackageTxs in Hs.
  apply addPackageTxs_loop_ok in Hs as [l Hl].
  - by exists (workState_of s), l.
  - exists []. cbn [workState_of]. apply block_ok_start.
Qed.

(** X17. Every template that CreateNewBlock returns starts with the
    coinbase and goes on with transactions of the mempool, none of them
    twice; the fee and sigop lists have one number for each of them, in
    the same order: the fee and the sigop cost of its mempool entry.  The
    coinbase pays the sum of these fees and the subsidy, and its place in
    the fee list has the negated sum. *)
Theorem CreateNewBlock_lists_each_tx_once (ba : BlockAssembler)
    (tipHeight lockTimeCutoff : Z) (witnessEnabled fMineWitnessTx : bool)
    (coinbaseSigOps : Z) (t : CBlockTemplate) :
  CreateNewBlock ba tipHeight lockTimeCutoff witnessEnabled fMineWitnessTx
    coinbaseSigOps = Ok t ->
  exists l : list Z,
    NoDup l
    /\ (forall h, h ∈ l -> is_Some (miner_mapTx !! h))
    /\ block_vtx t
       = CoinbaseTx (i64 (fold_left (fun acc h => i64 (acc + fee_of h)) l 0
                          + GetBlockSubsidy (i32 (tipHeight + 1))))
           (i32 (tipHeight + 1)) :: map MempoolTx l
    /\ template_vTxFees t
       = i64 (- fold_left (fun acc h => i64 (acc + fee_of h)) l 0) :: map fee_of l
    /\ template_vTxSigOpsCost t
       = i64 (WITNESS_SCALE_FACTOR * coinbaseSigOps) :: map sigops_of l.
Proof.
  intros H. apply CreateNewBlock_block_ok in H as (ws & l & Hok & ->).
  destruct Hok as [Hvtx Hfees Hsig Hnd _ Hknown HnFees _ _].
  exists l. cbn [block_vtx template_vTxFees template_vTxSigOpsCost].
  rewrite Hvtx, Hfees, Hsig, HnFees. by repeat split.
Qed.

(** X18. Every mempool transaction in a template that CreateNewBlock
    returns is final at the height after the tip and the lock time cutoff;
    and unless witnesses are enabled and fMineWitnessTx is set, none has a
    witness. *)
Theorem CreateNewBlock_txs_final_and_witness_ok (ba : BlockAssembler)
    (tipHeight lockTimeCutoff : Z) (witnessEnabled fMineWitnessTx : bool)
    (coinbaseSigOps : Z) (t : CBlockTemplate) :
  CreateNewBlock ba tipHeight lockTimeCutoff witnessEnabled fMineWitnessTx
    coinbaseSigOps = Ok t ->
  forall h, MempoolTx h ∈ block_vtx t ->
    exists it, miner_mapTx !! h = Some it
      /\ IsFinalTx h (i32 (tipHeight + 1)) lockTimeCutoff = true
      /\ (witnessEnabled && fMineWitnessTx = false -> HasWitness it = false).
Proof.
  intros H h Hh. apply CreateNewBlock_block_ok in H as (ws & l & Hok & ->).
  cbn [block_vtx] in Hh. rewrite (bo_vtx _ _ _ Hok) in Hh. cbn in Hh.
  apply elem_of_cons in Hh as [Hh|Hh]; [done|].
  apply list_elem_of_fmap in Hh as (h' & Heq & Hh'). injection Heq as <-.
  destruct (bo_known _ _ _ Hok h Hh') as [it Hit]. exists it. split; [done|].
  split; [exact (bo_final _ _ _ Hok h Hh')|].
  intros Hno. exact (bo_witness _ _ _ Hok Hno h it Hh' Hit).
Qed.
(** * [CreateNewBlock] returns *)

Lemma bind_runs {A B : Type} (P : A -> Prop) (r : result A) (k : A -> result B) :
  (exists a, r = Ok a /\ P a) ->
  (forall a, r = Ok a -> P a -> exists b, k a = Ok b) ->
  exists b, r ≫= k = Ok b.
Proof.
  intros (a & Hr & Ha) Hk. destruct (Hk a Hr Ha) as [b Hb]. exists b.
  by rewrite Hr, Ok_bind.
Qed.

Lemma bind_returns {A B : Type} (P : A -> Prop) (Q : B -> Prop) (r : result A)
    (k : A -> result B) :
  (exists a, r = Ok a /\ P a) ->
  (forall a, r = Ok a -> P a -> exists b, k a = Ok b /\ Q b) ->
  exists b, r ≫= k = Ok b /\ Q b.
Proof.
  intros (a & Hr & Ha) Hk. destruct (Hk a Hr Ha) as (b & Hb & HQ). exists b.
  by rewrite Hr, Ok_bind.
Qed.

(** What the block assembler takes for granted of the mempool it reads:
    the index lists entries of [mapTx], none twice; the ancestors and the
    descendants of an entry are entries; an ancestor of an ancestor is an
    ancestor; and an entry is an ancestor of each of its descendants but
    itself. *)
Record view_consistent : Prop := mkViewConsistent {
  vc_index : forall h, h ∈ ancestor_score_index -> is_Some (miner_mapTx !! h);
  vc_index_once : NoDup ancestor_score_index;
  vc_ancestors : forall h a, is_Some (miner_mapTx !! h) ->
    a ∈ miner_ancestors h -> is_Some (miner_mapTx !! a);
  vc_ancestors_trans : forall h a b, is_Some (miner_mapTx !! h) ->
    a ∈ miner_ancestors h -> b ∈ miner_ancestors a -> b ∈ miner_ancestors h;
  vc_descendants : forall h d, is_Some (miner_mapTx !! h) ->
    d ∈ miner_descendants h -> is_Some (miner_mapTx !! d);
  vc_descendant_of : forall h d, is_Some (miner_mapTx !! h) ->
    d ∈ miner_descendants h -> d = h \/ h ∈ miner_ancestors d
}.

(** What holds of the locals of [addPackageTxs] at the head of its
    loop: a modified entry is keyed by its [iter], which is in the mempool
    and not in the block; the block has its transactions' ancestors. *)
Record round_inv (s : PackageState) : Prop := mkRoundInv {
  ri_mi : forall h, h ∈ mi s -> is_Some (miner_mapTx !! h);
  ri_modified : forall k e, mapModifiedTx s !! k = Some e ->
    iter e = k /\ is_Some (miner_mapTx !! k) /\ k ∉ inBlock (workState_of s);
  ri_inBlock : forall h, h ∈ inBlock (workState_of s) -> is_Some (miner_mapTx !! h);
  ri_closed : forall h a, h ∈ inBlock (workState_of s) -> a ∈ miner_ancestors h ->
    a ∈ inBlock (workState_of s)
}.

(** A bound on the rounds that are left. *)
Definition rounds_left (s : PackageState) : nat :=
  (length (mi s) + size (mapModifiedTx s)
   + (size miner_mapTx - size (inBlock (workState_of s))) * S (size miner_mapTx))%nat.

Lemma best_of_list (l : list CTxMemPoolModifiedEntry)
    (init : option CTxMemPoolModifiedEntry) :
  (l = [] /\ fold_left (fun best e =>
                          match best with
                          | None => Some e
                          | Some b => if CompareModifiedEntry e b then Some e else Some b
                          end) l init = init)
  \/ (exists e, fold_left (fun best e =>
                             match best with
                             | None => Some e
                             | Some b => if CompareModifiedEntry e b then Some e else Some b
                             end) l init = Some e
                /\ (e ∈ l \/ init = Some e)).
Proof.
  revert init. induction l as [|a l IH]; intros init; [by left|]. right.
  cbn [fold_left].
  destruct (IH (match init with
                | None => Some a
                | Some b => if CompareModifiedEntry a b then Some a else Some b
                end)) as [[-> ->]|(e & -> & [He|He])].
  - destruct init as [b|]; [|exists a; split; [done|left; by left]].
    destruct (CompareModifiedEntry a b);
      [exists a; split; [done|left; by left]|exists b; split; [done|by right]].
  - exists e. split; [done|]. left. by right.
  - exists e. split; [done|]. destruct init as [b|].
    + destruct (CompareModifiedEntry a b); injection He as <-; [left; by left|by right].
    + injection He as <-. left. by left.
Qed.

Lemma best_modified_Some (M : gmap Z CTxMemPoolModifiedEntry) (m : CTxMemPoolModifiedEntry) :
  best_modified M = Some m -> exists k, M !! k = Some m.
Proof.
  unfold best_modified. intros H.
  destruct (best_of_list (map snd (map_to_list M)) None) as [[_ Hnone]|(e & He & [Hin|?])];
    [congruence| |done].
  rewrite H in He. injection He as <-.
  apply list_elem_of_fmap in Hin as ([k e] & -> & Hin). exists k.
  by apply elem_of_map_to_list.
Qed.

Lemma best_modified_nonempty (M : gmap Z CTxMemPoolModifiedEntry) :
  M ≠ ∅ -> exists m, best_modified M = Some m.
Proof.
  intros HM. unfold best_modified.
  destruct (best_of_list (map snd (map_to_list M)) None) as [[Hnil _]|(e & He & _)];
    [|by exists e].
  apply fmap_nil_inv in Hnil. by apply map_to_list_empty_iff in Hnil.
Qed.

Lemma SkipMapTxEntry_runs ws h (M : gmap Z CTxMemPoolModifiedEntry) (F : gset Z) b :
  is_Some (miner_mapTx !! h) ->
  exists skip, SkipMapTxEntry ws h M F b = Ok skip /\ (skip = false -> h ∉ inBlock ws).
Proof.
  intros [it Hit]. unfold SkipMapTxEntry. rewrite Hit. cbn [deref]. rewrite Ok_bind.
  destruct (bool_decide (is_Some (M !! h))); cbn [orb]; [by exists true|].
  case_bool_decide as Hin; cbn [orb]; [by exists true|].
  destruct (bool_decide (h ∈ F)); [by exists true|].
  match goal with |- context [if ?c then _ else _] => destruct c end;
    [by exists true|by exists false].
Qed.

Lemma TestPackageTransactions_from_runs ba (package : list Z) (n : Z) :
  (forall h, h ∈ package -> is_Some (miner_mapTx !! h)) ->
  exists final, TestPackageTransactions_from ba package n = Ok final.
Proof.
  revert n. induction package as [|x package IH]; intros n Hp;
    cbn [TestPackageTransactions_from]; [by eexists|].
  destruct (Hp x) as [it Hit]; [by left|]. rewrite Hit. cbn [deref]. rewrite Ok_bind.
  assert (forall n', exists final, TestPackageTransactions_from ba package n' = Ok final)
    as Hrest by (intros n'; apply IH; intros h Hh; apply Hp; by right).
  destruct (negb (IsFinalTx x (nHeight_of ba) (nLockTimeCutoff ba))); [by eexists|].
  destruct (negb (fIncludeWitness ba) && HasWitness it); [by eexists|].
  destruct (fNeedSizeAccounting ba); [|apply Hrest].
  destruct (nBlockMaxSize ba <=? u64 (n + GetSerializeSize it)); [by eexists|].
  apply Hrest.
Qed.

Lemma SortForBlock_runs (package : gset Z) :
  (forall h, h ∈ package -> is_Some (miner_mapTx !! h)) ->
  exists sortedEntries, SortForBlock package = Ok sortedEntries.
Proof.
  intros Hp. unfold SortForBlock.
  apply (bind_runs (fun _ => True)); [|by eexists].
  destruct (foreach_runs
              (fun (acc : list (Z * Z)) h =>
                 it ← deref (miner_mapTx !! h); Ok (acc ++ [(GetCountWithAncestors it, h)]))
              (sorted_elements package) []) as [keyed Hkeyed]; [|by exists keyed].
  intros acc h Hh. destruct (Hp h) as [it Hit]; [by apply elem_of_sorted_elements|].
  rewrite Hit. by eexists.
Qed.

Lemma add_all_runs ba (l : list Z) ws (m : gmap Z CTxMemPoolModifiedEntry) :
  (forall e, e ∈ l -> is_Some (miner_mapTx !! e)) ->
  exists ws' m',
    foreach (add_step ba) l (ws, m) = Ok (ws', m')
    /\ inBlock ws' = list_to_set l ∪ inBlock ws
    /\ (forall k, m' !! k = if decide (k ∈ l) then None else m !! k).
Proof.
  revert ws m. induction l as [|e l IH]; intros ws m Hl; cbn [foreach].
  - exists ws, m. split; [done|]. split; [set_solver|]. intros k.
    by rewrite decide_False by apply not_elem_of_nil.
  - destruct (Hl e) as [it Hit]; [by left|].
    assert (add_step ba (ws, m) e
            = Ok (mkWorking (vtx ws ++ [MempoolTx e]) (vTxFees ws ++ [GetFee it])
                    (vTxSigOpsCost ws ++ [GetSigOpCost it])
                    (if fNeedSizeAccounting ba
                     then u64 (nBlockSize ws + GetSerializeSize it)
                     else nBlockSize ws)
                    (u64 (nBlockWeight ws + GetTxWeight it))
                    (u64 (nBlockTx ws + 1))
                    (i64 (nBlockSigOpsCost ws + GetSigOpCost it))
                    (i64 (nFees ws + GetFee it))
                    ({[e]} ∪ inBlock ws), delete e m)) as ->
      by (unfold add_step, AddToBlock; by rewrite Hit).
    rewrite Ok_bind.
    match goal with |- context [foreach _ l (?w, _)] =>
      destruct (IH w (delete e m)) as (ws' & m' & -> & HinB & Hm')
    end; [intros x Hx; apply Hl; by right|].
    exists ws', m'. split; [done|]. cbn [inBlock] in HinB. split; [set_solver|].
    intros k. rewrite Hm'. destruct (decide (k = e)) as [->|Hne].
    + rewrite lookup_delete_eq. rewrite (decide_True (P := e ∈ e :: l)) by by left.
      by destruct (decide (e ∈ l)).
    + rewrite lookup_delete_ne by done.
      destruct (decide (k ∈ l)) as [Hk|Hk].
      * by rewrite decide_True by by right.
      * rewrite decide_False; [done|]. by intros [?|?]%elem_of_cons.
Qed.

(** The keys of [mapModifiedTx] after [UpdatePackagesForAdded]: those it
    had, and descendants of the added entries that were not added. *)
Definition updated_keys (added : gset Z) (m m'' : gmap Z CTxMemPoolModifiedEntry) : Prop :=
  forall k e, m'' !! k = Some e ->
    (exists e0, m !! k = Some e0 /\ iter e = iter e0)
    \/ (iter e = k /\ is_Some (miner_mapTx !! k) /\ k ∉ added
        /\ exists a, a ∈ added /\ k ∈ miner_descendants a).

Lemma UpdatePackagesForAdded_keys (added : gset Z)
    (m m'' : gmap Z CTxMemPoolModifiedEntry) (u : Z) :
  UpdatePackagesForAdded added m = Ok (m'', u) -> updated_keys added m m''.
Proof.
  unfold UpdatePackagesForAdded. intros H.
  apply (foreach_inv (fun acc => updated_keys added m (fst acc)) _ _ _ _) in H;
    [exact H| |].
  - intros acc a acc' Ha Hacc Hstep. apply elem_of_sorted_elements in Ha.
    apply bind_Ok in Hstep as (it & _ & Hstep).
    apply (foreach_inv (fun acc => updated_keys added m (fst acc)) _ _ _ _) in Hstep;
      [exact Hstep| |exact Hacc].
    intros [m1 n1] d [m2 n2] Hd Hm1 Hd'. apply elem_of_sorted_elements in Hd.
    cbv beta iota in Hd'. cbn [fst] in *.
    destruct (decide (d ∈ added)) as [|Hnot];
      [apply Ok_inj in Hd'; by injection Hd' as <- _|].
    destruct (m1 !! d) as [mit|] eqn:Hmit.
    + apply Ok_inj in Hd'. injection Hd' as <- _. intros k e.
      destruct (decide (k = d)) as [->|Hne];
        [|rewrite lookup_insert_ne by done; apply Hm1].
      rewrite lookup_insert_eq. intros [= <-]. cbn [update_for_parent_inclusion iter].
      apply (Hm1 d mit Hmit).
    + apply bind_Ok in Hd' as (dd & Hdd%deref_Ok & Hd'). apply Ok_inj in Hd'.
      injection Hd' as <- _. intros k e.
      destruct (decide (k = d)) as [->|Hne];
        [|rewrite lookup_insert_ne by done; apply Hm1].
      rewrite lookup_insert_eq. intros [= <-]. right.
      cbn [update_for_parent_inclusion newModifiedEntry iter].
      split; [done|]. split; [by rewrite Hdd|]. split; [done|]. by exists a.
  - intros k e Hk. left. by exists e.
Qed.

Lemma UpdatePackagesForAdded_runs (added : gset Z) (m : gmap Z CTxMemPoolModifiedEntry) :
  (forall h, h ∈ added -> is_Some (miner_mapTx !! h)) ->
  (forall h d, h ∈ added -> d ∈ miner_descendants h -> is_Some (miner_mapTx !! d)) ->
  exists r, UpdatePackagesForAdded added m = Ok r.
Proof.
  intros Hadded Hdesc. unfold UpdatePackagesForAdded. apply foreach_runs.
  intros acc h Hh. apply elem_of_sorted_elements in Hh.
  destruct (Hadded h Hh) as [it Hit]. rewrite Hit. cbn [deref]. rewrite Ok_bind.
  apply foreach_runs. intros [m1 n1] d Hd. apply elem_of_sorted_elements in Hd.
  cbv beta iota. destruct (decide (d ∈ added)); [by eexists|].
  destruct (m1 !! d); [by eexists|].
  destruct (Hdesc h d Hh Hd) as [dd Hdd]. rewrite Hdd. by eexists.
Qed.

Lemma round_inv_sizes (s : PackageState) :
  round_inv s ->
  (size (mapModifiedTx s) <= size miner_mapTx)%nat
  /\ (size (inBlock (workState_of s)) <= size miner_mapTx)%nat.
Proof.
  intros Hinv. split.
  - rewrite <- (size_dom (D := gset Z) (mapModifiedTx s)),
      <- (size_dom (D := gset Z) miner_mapTx).
    apply subseteq_size. intros k [e Hk]%elem_of_dom. apply elem_of_dom.
    by apply (ri_modified _ Hinv k e).
  - rewrite <- (size_dom (D := gset Z) miner_mapTx).
    apply subseteq_size. intros k Hk. apply elem_of_dom.
    by apply (ri_inBlock _ Hinv).
Qed.

(** The entry that a round has selected. *)
Definition selected (s : PackageState) (h : Z) (fUsingModified : bool)
    (mi' : list Z) : Prop :=
  h ∉ inBlock (workState_of s)
  /\ is_Some (miner_mapTx !! h)
  /\ (forall x, x ∈ mi' -> x ∈ mi s)
  /\ if fUsingModified
     then (exists m, best_modified (mapModifiedTx s) = Some m
                     /\ mapModifiedTx s !! h = Some m)
          /\ (length mi' <= length (mi s))%nat
     else (length mi' < length (mi s))%nat.

Lemma drop_failed_inv (s : PackageState) (h : Z) (fUsingModified : bool)
    (mi' : list Z) (failed : Z) :
  round_inv s -> selected s h fUsingModified mi' ->
  round_inv (drop_failed fUsingModified h s mi' failed)
  /\ (rounds_left (drop_failed fUsingModified h s mi' failed) < rounds_left s)%nat.
Proof.
  intros Hinv (Hnew & Hh & Hsub & Huse). split.
  - split; cbn [drop_failed mi mapModifiedTx workState_of].
    + intros x Hx. apply (ri_mi _ Hinv). by apply Hsub.
    + intros k e Hk. apply (ri_modified _ Hinv k e).
      destruct fUsingModified; [|done].
      destruct (decide (k = h)) as [->|Hne]; [by rewrite lookup_delete_eq in Hk|].
      by rewrite lookup_delete_ne in Hk.
    + apply (ri_inBlock _ Hinv).
    + apply (ri_closed _ Hinv).
  - unfold rounds_left. cbn [drop_failed mi mapModifiedTx workState_of].
    destruct fUsingModified; [|lia].
    destruct Huse as [(m & _ & Hm) Hlen].
    rewrite map_size_delete_Some by by rewrite Hm.
    assert (size (mapModifiedTx s) ≠ 0%nat)
      by (apply (map_size_ne_0_lookup_2 _ h); by rewrite Hm).
    lia.
Qed.

Lemma added_inv (s : PackageState) (h : Z) (fUsingModified : bool) (mi' : list Z)
    (sortedEntries : list Z) (ws' : WorkingState)
    (m' m'' : gmap Z CTxMemPoolModifiedEntry) (np nd : Z) :
  view_consistent -> round_inv s -> selected s h fUsingModified mi' ->
  sortedEntries
    ≡ₚ sorted_elements ({[h]} ∪ onlyUnconfirmed (workState_of s) (miner_ancestors h)) ->
  inBlock ws' = list_to_set sortedEntries ∪ inBlock (workState_of s) ->
  (forall k, m' !! k = if decide (k ∈ sortedEntries) then None
                       else mapModifiedTx s !! k) ->
  updated_keys ({[h]} ∪ onlyUnconfirmed (workState_of s) (miner_ancestors h)) m' m'' ->
  round_inv (mkPackages mi' m'' (failedTx s) 0 ws' np nd)
  /\ (rounds_left (mkPackages mi' m'' (failedTx s) 0 ws' np nd) < rounds_left s)%nat.
Proof.
  intros Hview Hinv (Hnew & Hh & Hsub & Huse) Hperm HinB Hm' Hkeys.
  assert (forall x, x ∈ sortedEntries
                    <-> x = h \/ (x ∈ miner_ancestors h /\ x ∉ inBlock (workState_of s)))
    as Hpkg.
  { intros x. rewrite Hperm, elem_of_sorted_elements. unfold onlyUnconfirmed.
    set_solver. }
  assert (forall x, x ∈ inBlock ws'
                    <-> x ∈ sortedEntries \/ x ∈ inBlock (workState_of s)) as HinB'.
  { intros x. rewrite HinB. set_solver. }
  assert (forall x, x ∈ sortedEntries -> is_Some (miner_mapTx !! x)) as Hpool.
  { intros x [->|[Hx _]]%Hpkg; [done|]. by apply (vc_ancestors Hview h). }
  assert (forall a, a ∈ miner_ancestors h -> a ∈ inBlock ws') as Hanc.
  { intros a Ha. apply HinB'.
    destruct (decide (a ∈ inBlock (workState_of s))); [by right|].
    left. apply Hpkg. by right. }
  assert (round_inv (mkPackages mi' m'' (failedTx s) 0 ws' np nd)) as Hinv'.
  { split; cbn [mi mapModifiedTx workState_of].
    - intros x Hx. apply (ri_mi _ Hinv). by apply Hsub.
    - intros k e Hk. destruct (Hkeys k e Hk) as [(e0 & Hk0 & Hiter)|(Hiter & Hk0 & Hnot & a & Ha & Hd)].
      + rewrite Hm' in Hk0. destruct (decide (k ∈ sortedEntries)) as [|Hnot]; [done|].
        destruct (ri_modified _ Hinv k e0 Hk0) as (Hi & Hp & Hb).
        split; [congruence|]. split; [done|]. by intros [?|?]%HinB'.
      + split; [done|]. split; [done|].
        assert (k ∉ sortedEntries) as Hnot'.
        { intros Hx. apply Hnot. apply elem_of_sorted_elements.
          by rewrite <- Hperm. }
        assert (a ∈ sortedEntries) as Ha'.
        { rewrite Hperm. by apply elem_of_sorted_elements. }
        assert (a ∉ inBlock (workState_of s)) as Hab.
        { apply Hpkg in Ha' as [->|[_ ?]]; done. }
        intros [Hx|Hx]%HinB'; [done|].
        destruct (vc_descendant_of Hview a k (Hpool a Ha') Hd) as [->|Hak]; [done|].
        apply Hab. by apply (ri_closed _ Hinv k a).
    - intros x [Hx|Hx]%HinB'; [by apply Hpool|by apply (ri_inBlock _ Hinv)].
    - intros x a Hx Ha. apply HinB' in Hx as [Hx|Hx].
      + apply Hanc. apply Hpkg in Hx as [->|[Hx _]]; [done|].
        by apply (vc_ancestors_trans Hview h x a).
      + apply HinB'. right. by apply (ri_closed _ Hinv x a). }
  split; [done|].
  destruct (round_inv_sizes _ Hinv') as [Hm Hb].
  cbn [mapModifiedTx workState_of] in Hm, Hb.
  assert (S (size (inBlock (workState_of s))) <= size (inBlock ws'))%nat as Hgrow.
  { assert (size ({[h]} ∪ inBlock (workState_of s))
            = S (size (inBlock (workState_of s)))) as <-.
    { rewrite size_union by set_solver. by rewrite size_singleton. }
    apply subseteq_size. intros x [->%elem_of_singleton|Hx]%elem_of_union; apply HinB'.
    - left. apply Hpkg. by left.
    - by right. }
  assert (length mi' <= length (mi s))%nat as Hlen
    by (destruct fUsingModified; [by destruct Huse|lia]).
  unfold rounds_left. cbn [mi mapModifiedTx workState_of]. nia.
Qed.

Lemma moved_inv (s : PackageState) (mi' : list Z) (failed np nd : Z) :
  round_inv s -> (forall x, x ∈ mi' -> x ∈ mi s) ->
  round_inv (mkPackages mi' (mapModifiedTx s) (failedTx s) failed (workState_of s) np nd).
Proof.
  intros Hinv Hsub. split; cbn [mi mapModifiedTx workState_of];
    [|apply (ri_modified _ Hinv)|apply (ri_inBlock _ Hinv)|apply (ri_closed _ Hinv)].
  intros x Hx. apply (ri_mi _ Hinv). by apply Hsub.
Qed.

Lemma addPackageTxs_loop_returns (fuel : nat) (ba : BlockAssembler)
    (fIncludeRecentTransactions : bool) (s : PackageState) :
  view_consistent -> round_inv s -> (rounds_left s < fuel)%nat ->
  exists s', addPackageTxs_loop fuel ba fIncludeRecentTransactions s = Ok s'
             /\ round_inv s'.
Proof.
  intros Hview. revert s. induction fuel as [|fuel IH]; intros s Hinv Hfuel; [lia|].
  cbn [addPackageTxs_loop].
  destruct (bool_decide (mi s = []) && bool_decide (mapModifiedTx s = ∅)) eqn:Hend;
    [by exists s|].
  apply (bind_returns (fun skip : bool =>
           if skip then mi s ≠ []
           else forall h rest, mi s = h :: rest -> h ∉ inBlock (workState_of s))
           round_inv).
  { destruct (mi s) as [|h0 rest] eqn:Hmi; [by exists false|].
    destruct (SkipMapTxEntry_runs (workState_of s) h0 (mapModifiedTx s) (failedTx s)
                (negb fIncludeRecentTransactions)) as (skip & -> & Hskip);
      [apply (ri_mi _ Hinv); rewrite Hmi; by left|].
    exists skip. split; [done|]. destruct skip; [done|].
    intros h' rest' [= <- <-]. by apply Hskip. }
  intros skip _ Hskip. destruct skip.
  { apply IH.
    - apply moved_inv; [done|]. intros h Hh. destruct (mi s); [done|by right].
    - unfold rounds_left in *. cbn [mi mapModifiedTx workState_of].
      destruct (mi s); [done|]. cbn [tail length] in *. lia. }
  cbv zeta.
  apply (bind_returns (fun x : Z * bool * list Z =>
                         selected s (fst (fst x)) (snd (fst x)) (snd x)) round_inv).
  { destruct (mi s) as [|h0 rest] eqn:Hmi.
    - assert (mapModifiedTx s ≠ ∅) as Hne.
      { intros HM. rewrite HM in Hend. by rewrite !bool_decide_eq_true_2 in Hend. }
      destruct (best_modified_nonempty _ Hne) as [m Hbest]. rewrite Hbest.
      destruct (best_modified_Some _ _ Hbest) as [k Hk].
      destruct (ri_modified _ Hinv k m Hk) as (Hiter & Hpool & Hnot).
      exists (iter m, true, []). split; [done|]. cbn [fst snd]. rewrite Hiter.
      unfold selected. rewrite Hmi. split; [done|]. split; [done|].
      split; [done|]. split; [by exists m|done].
    - destruct (ri_mi _ Hinv h0) as [e He]; [rewrite Hmi; by left|].
      rewrite He. cbn [deref]. rewrite Ok_bind.
      assert (selected s h0 false rest) as Hmi_sel.
      { unfold selected. rewrite Hmi. split; [by apply (Hskip h0 rest)|].
        split; [by rewrite He|]. split; [intros x Hx; by right|]. cbn [length]. lia. }
      destruct (best_modified (mapModifiedTx s)) as [m|] eqn:Hbest;
        [|by exists (h0, false, rest)].
      destruct (CompareModifiedEntry m (newModifiedEntry h0 e));
        [|by exists (h0, false, rest)].
      destruct (best_modified_Some _ _ Hbest) as [k Hk].
      destruct (ri_modified _ Hinv k m Hk) as (Hiter & Hpool & Hnot).
      exists (iter m, true, h0 :: rest). split; [done|]. cbn [fst snd]. rewrite Hiter.
      unfold selected. rewrite Hmi. split; [done|]. split; [done|].
      split; [done|]. split; [by exists m|done]. }
  intros [[h fUsingModified] mi'] _ Hsel. cbn [fst snd] in Hsel. cbv beta iota.
  pose proof Hsel as (Hnew & [it Hit] & Hsub & Huse).
  apply (bind_returns (fun _ => True) round_inv).
  { exists tt. split; [|done]. by rewrite bool_decide_eq_false_2. }
  intros _ _ _. rewrite Hit. cbn [deref]. rewrite Ok_bind.
  apply (bind_returns (fun _ => True) round_inv).
  { destruct fUsingModified; [|by eexists].
    destruct Huse as [(m & -> & _) _]. by eexists. }
  intros [[packageSize packageFees] packageSigOpsCost] _ _. cbv beta iota.
  destruct (packageFees <? CFeeRate_GetFee (blockMinFeeRate ba) packageSize).
  { eexists. split; [done|]. by apply moved_inv. }
  destruct (negb (TestPackage ba (workState_of s) packageSize packageSigOpsCost)).
  { destruct (drop_failed_inv s h fUsingModified mi' (i64 (nConsecutiveFailed s + 1))
                Hinv Hsel) as [Hinv' Hless].
    match goal with |- context [if ?c then _ else _] => destruct c end;
      [by eexists|].
    apply IH; [done|lia]. }
  assert (forall x,
            x ∈ {[h]} ∪ onlyUnconfirmed (workState_of s) (miner_ancestors h) ->
            is_Some (miner_mapTx !! x)) as Hpool.
  { intros x [->%elem_of_singleton|Hx]%elem_of_union; [by rewrite Hit|].
    apply (vc_ancestors Hview h); [by rewrite Hit|].
    unfold onlyUnconfirmed in Hx. set_solver. }
  apply (bind_returns (fun _ => True) round_inv).
  { destruct (TestPackageTransactions_from_runs ba
                (sorted_elements
                   ({[h]} ∪ onlyUnconfirmed (workState_of s) (miner_ancestors h)))
                (nBlockSize (workState_of s))) as [final Hfinal];
      [intros x Hx; by apply Hpool, elem_of_sorted_elements|by exists final]. }
  intros final _ _. destruct final; cbn [negb].
  2:{ destruct (drop_failed_inv s h fUsingModified mi' (nConsecutiveFailed s)
                  Hinv Hsel) as [Hinv' Hless].
      apply IH; [done|lia]. }
  apply (bind_returns (fun sortedEntries =>
           sortedEntries
             ≡ₚ sorted_elements
                  ({[h]} ∪ onlyUnconfirmed (workState_of s) (miner_ancestors h)))
           round_inv).
  { destruct (SortForBlock_runs _ Hpool) as [sortedEntries Hsorted].
    exists sortedEntries. split; [done|]. by apply SortForBlock_Permutation. }
  intros sortedEntries _ Hperm.
  assert (forall e, e ∈ sortedEntries -> is_Some (miner_mapTx !! e)) as Hpool'.
  { intros e He. apply Hpool. apply elem_of_sorted_elements. by rewrite <- Hperm. }
  apply (bind_returns (fun x : WorkingState * gmap Z CTxMemPoolModifiedEntry =>
           inBlock (fst x) = list_to_set sortedEntries ∪ inBlock (workState_of s)
           /\ forall k, snd x !! k = if decide (k ∈ sortedEntries) then None
                                     else mapModifiedTx s !! k)
           round_inv).
  { destruct (add_all_runs ba sortedEntries (workState_of s) (mapModifiedTx s) Hpool')
      as (ws' & m' & Hadd & HinB & Hm').
    exists (ws', m'). split; [exact Hadd|done]. }
  intros [ws' m'] _ [HinB Hm']. cbn [fst snd] in HinB, Hm'. cbv beta iota.
  apply (bind_returns (fun x : gmap Z CTxMemPoolModifiedEntry * Z =>
           updated_keys ({[h]} ∪ onlyUnconfirmed (workState_of s) (miner_ancestors h))
             m' (fst x))
           round_inv).
  { destruct (UpdatePackagesForAdded_runs
                ({[h]} ∪ onlyUnconfirmed (workState_of s) (miner_ancestors h)) m')
      as [[m'' u] Hupd]; [done| |].
    - intros a d Ha Hd. by apply (vc_descendants Hview a d (Hpool a Ha)).
    - exists (m'', u). split; [done|]. by apply (UpdatePackagesForAdded_keys _ _ _ u). }
  intros [m'' updated] _ Hkeys. cbn [fst] in Hkeys. cbv beta iota.
  destruct (added_inv s h fUsingModified mi' sortedEntries ws' m' m''
              (i32 (nPackagesSelected s + 1)) (i32 (nDescendantsUpdated s + updated))
              Hview Hinv Hsel Hperm HinB Hm' Hkeys) as [Hinv' Hless].
  apply IH; [done|lia].
Qed.

(** The loop that [CreateNewBlock] starts returns, in a state that keeps
    what holds at the head of the loop. *)
Lemma CreateNewBlock_loop_returns (ba : BlockAssembler) :
  view_consistent ->
  exists s l,
    addPackageTxs ba (mkWorking [NullTx] [-1] [-1] reserved_size reserved_weight 0
                        reserved_sigops 0 ∅) 0 0 true ∅ = Ok s
    /\ round_inv s /\ block_ok ba (workState_of s) l.
Proof.
  intros Hview. unfold addPackageTxs.
  match goal with |- context [addPackageTxs_loop ?fuel ?b ?f ?s0] =>
    destruct (addPackageTxs_loop_returns fuel b f s0 Hview) as (s & Hs & Hinv)
  end.
  - split; cbn [mi mapModifiedTx workState_of inBlock].
    + apply (vc_index Hview).
    + intros k e Hk. by rewrite lookup_empty in Hk.
    + intros h Hh. by apply elem_of_empty in Hh.
    + intros h a Hh. by apply elem_of_empty in Hh.
  - unfold rounds_left, addPackageTxs_fuel.
    cbn [mi mapModifiedTx workState_of inBlock].
    rewrite map_size_empty, size_empty.
    assert (length ancestor_score_index <= size miner_mapTx)%nat.
    { rewrite <- (size_dom (D := gset Z) miner_mapTx),
        <- (size_list_to_set (C := gset Z) _ (vc_index_once Hview)).
      apply subseteq_size. intros h Hh%elem_of_list_to_set. apply elem_of_dom.
      by apply (vc_index Hview). }
    nia.
  - destruct (addPackageTxs_loop_ok _ _ _ _ _ Hs) as [l Hok];
      [exists []; apply block_ok_start|].
    by exists s, l.
Qed.

(** X19. On a mempool whose index, ancestor sets and descendant sets are
    consistent, CreateNewBlock returns a template whenever TestBlockValidity
    accepts a coinbase followed by distinct mempool transactions: the loop
    of addPackageTxs ends, within the rounds the model gives it, no entry is
    looked up that the mempool does not have, and the assertion that the
    selected entry is not yet in the block holds in every round. *)
Theorem CreateNewBlock_returns (ba : BlockAssembler) (tipHeight lockTimeCutoff : Z)
    (witnessEnabled fMineWitnessTx : bool) (coinbaseSigOps : Z) :
  view_consistent ->
  (forall coinbase l, NoDup l -> (forall h, h ∈ l -> is_Some (miner_mapTx !! h)) ->
     TestBlockValidity (coinbase :: map MempoolTx l) = true) ->
  exists t, CreateNewBlock ba tipHeight lockTimeCutoff witnessEnabled fMineWitnessTx
              coinbaseSigOps = Ok t.
Proof.
  intros Hview Hvalid. unfold CreateNewBlock. cbv zeta.
  match goal with |- context [addPackageTxs ?b _ _ _ _ _] =>
    destruct (CreateNewBlock_loop_returns b Hview) as (s & l & -> & _ & Hok)
  end.
  rewrite Ok_bind, (bo_vtx _ _ _ Hok).
  change (<[0%nat := ?c]> (NullTx :: ?r)) with (c :: r).
  rewrite Hvalid; [by eexists|exact (bo_nodup _ _ _ Hok)|exact (bo_known _ _ _ Hok)].
Qed.

(** X20. On such a mempool, a template that CreateNewBlock returns has,
    with each of its transactions, all the in-mempool ancestors of that
    transaction. *)
Theorem CreateNewBlock_has_ancestors (ba : BlockAssembler)
    (tipHeight lockTimeCutoff : Z) (witnessEnabled fMineWitnessTx : bool)
    (coinbaseSigOps : Z) (t : CBlockTemplate) :
  view_consistent ->
  CreateNewBlock ba tipHeight lockTimeCutoff witnessEnabled fMineWitnessTx
    coinbaseSigOps = Ok t ->
  forall h a, MempoolTx h ∈ block_vtx t -> a ∈ miner_ancestors h ->
    MempoolTx a ∈ block_vtx t.
Proof.
  intros Hview H h a Hh Ha. unfold CreateNewBlock in H. cbv zeta in H.
  match type of H with context [addPackageTxs ?b _ _ _ _ _] =>
    destruct (CreateNewBlock_loop_returns b Hview) as (s & l & Hs & Hinv & Hok)
  end.
  rewrite Hs, Ok_bind in H. apply bind_Ok in H as (_ & _ & H).
  apply Ok_inj in H as <-. cbn [block_vtx] in *.
  rewrite (bo_vtx _ _ _ Hok) in *.
  change (<[0%nat := ?c]> (NullTx :: ?r)) with (c :: r) in *.
  apply elem_of_cons in Hh as [Hh|Hh]; [done|].
  apply list_elem_of_fmap in Hh as (h' & Heq & Hh'). injection Heq as <-.
  apply elem_of_cons. right. apply list_elem_of_fmap. exists a. split; [done|].
  apply (elem_of_list_to_set (C := gset Z)). rewrite <- (bo_inBlock _ _ _ Hok).
  apply (ri_closed _ Hinv h a); [|done].
  rewrite (bo_inBlock _ _ _ Hok). by apply elem_of_list_to_set.
Qed.
(** * What [InitData] makes available *)

Lemma place_prefilled_sound nshort pre i last avail early avail1 :
  place_prefilled nshort pre i last avail = Ok (early, avail1) ->
  length avail1 = length avail
  /\ early ≠ Some READ_STATUS_OK
  /\ forall k tx, avail1 !! k = Some (Some tx) ->
       avail !! k = Some (Some tx)
       \/ exists p, p ∈ pre /\ prefilled_tx p = tx /\ IsNull_tx tx = false.
Proof.
  revert i last avail. induction pre as [|p pre IH]; intros i last avail H;
    cbn [place_prefilled] in H.
  - apply Ok_inj in H. injection H as <- <-. split; [done|]. split; [done|]. by left.
  - destruct (IsNull_tx (prefilled_tx p)) eqn:Hnull.
    { apply Ok_inj in H. injection H as <- <-. split; [done|]. split; [done|]. by left. }
    destruct (65535 <? i32 (last + (index p + 1))).
    { apply Ok_inj in H. injection H as <- <-. split; [done|]. split; [done|]. by left. }
    destruct (Z.of_nat (nshort + i) <? u32 (i32 (last + (index p + 1)))).
    { apply Ok_inj in H. injection H as <- <-. split; [done|]. split; [done|]. by left. }
    apply bind_Ok in H as (_ & _ & H). apply IH in H as (Hlen & Hearly & Hslots).
    rewrite length_insert in Hlen. split; [done|]. split; [done|].
    intros k tx Hk. destruct (Hslots k tx Hk) as [Hk'|(q & Hq & Htx & Hnn)].
    + destruct (decide (k = Z.to_nat (i32 (last + (index p + 1))))) as [->|Hne].
      * apply list_lookup_insert_Some in Hk' as [(_ & Heq & _)|[? _]]; [|done].
        injection Heq as <-. right. exists p. split; [by left|done].
      * rewrite list_lookup_insert_ne in Hk' by done. by left.
    + right. exists q. split; [by right|done].
Qed.

Lemma index_shorttxids_keys nbuckets avail ids i o (m : gmap Z Z) r :
  index_shorttxids nbuckets avail ids i o m = Ok r ->
  match r with
  | inl status => status = READ_STATUS_FAILED
  | inr m' => forall k, is_Some (m' !! k) -> is_Some (m !! k) \/ k ∈ ids
  end.
Proof.
  revert i o m. induction ids as [|id ids IH]; intros i o m H;
    cbn [index_shorttxids] in H.
  - apply Ok_inj in H as <-. intros k Hk. by left.
  - apply bind_Ok in H as (o' & _ & H). cbv zeta in H.
    match type of H with (if ?c then _ else _) = _ => destruct c end;
      [by apply Ok_inj in H as <-|].
    apply IH in H. destruct r as [status|m']; [done|].
    intros k Hk. destruct (H k Hk) as [Hk'|Hk']; [|right; by right].
    destruct (decide (k = id)) as [->|Hne]; [right; by left|].
    rewrite lookup_insert_ne in Hk' by done. by left.
Qed.

Lemma match_mempool_sound cmpctblock (m : gmap Z Z) vTxHashes avail have_txn count
    avail2 count2 :
  match_mempool cmpctblock m vTxHashes avail have_txn count = Ok (avail2, count2) ->
  length avail2 = length avail
  /\ forall k tx, avail2 !! k = Some (Some tx) ->
       avail !! k = Some (Some tx)
       \/ exists hash, (hash, tx) ∈ vTxHashes
                       /\ is_Some (m !! GetShortID cmpctblock hash).
Proof.
  revert avail have_txn count.
  induction vTxHashes as [|[hash tx0] rest IH]; intros avail have_txn count H;
    cbn [match_mempool] in H.
  - apply Ok_inj in H. injection H as <- _. split; [done|]. by left.
  - apply bind_Ok in H as ([[avail' have'] count'] & Hstep & H). cbv beta iota in H.
    assert (length avail' = length avail
            /\ forall k tx, avail' !! k = Some (Some tx) ->
                 avail !! k = Some (Some tx)
                 \/ (tx = tx0 /\ is_Some (m !! GetShortID cmpctblock hash)))
      as [Hlen' Hslots'].
    { destruct (m !! GetShortID cmpctblock hash) as [idx|] eqn:Hidx.
      2:{ apply Ok_inj in Hstep. injection Hstep as <- _ _. split; [done|]. by left. }
      apply bind_Ok in Hstep as (have & _ & Hstep). destruct have; cbn [negb] in Hstep.
      - apply bind_Ok in Hstep as (slot & _ & Hstep). destruct slot.
        + apply Ok_inj in Hstep. injection Hstep as <- _ _.
          rewrite length_insert. split; [done|]. intros k tx Hk.
          destruct (decide (k = Z.to_nat idx)) as [->|Hne].
          * by apply list_lookup_insert_Some in Hk as [(_ & ? & _)|[? _]].
          * rewrite list_lookup_insert_ne in Hk by done. by left.
        + apply Ok_inj in Hstep. injection Hstep as <- _ _. split; [done|]. by left.
      - apply Ok_inj in Hstep. injection Hstep as <- _ _.
        rewrite length_insert. split; [done|]. intros k tx Hk.
        destruct (decide (k = Z.to_nat idx)) as [->|Hne].
        + apply list_lookup_insert_Some in Hk as [(_ & Heq & _)|[? _]]; [|done].
          injection Heq as <-. right. split; [done|]. by eexists.
        + rewrite list_lookup_insert_ne in Hk by done. by left. }
    assert (forall k tx, avail' !! k = Some (Some tx) ->
              avail !! k = Some (Some tx)
              \/ exists hash', (hash', tx) ∈ (hash, tx0) :: rest
                               /\ is_Some (m !! GetShortID cmpctblock hash')) as Hhere.
    { intros k tx Hk. destruct (Hslots' k tx Hk) as [?|[-> ?]]; [by left|].
      right. exists hash. split; [by left|done]. }
    destruct (count' =? Z.of_nat (size m)).
    + apply Ok_inj in H. injection H as <- _. done.
    + apply IH in H as [Hlen Hslots]. split; [congruence|].
      intros k tx Hk. destruct (Hslots k tx Hk) as [Hk'|(hash' & Hin & Hm)].
      * by apply Hhere.
      * right. exists hash'. split; [by right|done].
Qed.

(** X21. When InitData returns READ_STATUS_OK, the header is the one of
    the compact block, txn_available has one slot for each of its
    transactions, and a slot is filled only with a prefilled transaction,
    which is not null, or with a mempool transaction whose short id is
    among the short ids of the compact block. *)
Theorem InitData_fills_only_announced (this this' : PartiallyDownloadedBlock)
    (vTxHashes : list (Z * CTransaction)) (cmpctblock : CBlockHeaderAndShortTxIDs) :
  InitData this vTxHashes cmpctblock = Ok (READ_STATUS_OK, this') ->
  header this' = Some (cmpct_header cmpctblock)
  /\ length (txn_available this') = BlockTxCount cmpctblock
  /\ forall k tx, txn_available this' !! k = Some (Some tx) ->
       (exists p, p ∈ prefilledtxn cmpctblock /\ prefilled_tx p = tx
                  /\ IsNull_tx tx = false)
       \/ (exists hash, (hash, tx) ∈ vTxHashes
                        /\ GetShortID cmpctblock hash ∈ shorttxids cmpctblock).
Proof.
  unfold InitData. intros H.
  destruct (cmpct_header_IsNull cmpctblock || _); [by apply Ok_inj in H|].
  destruct (max_block_tx_count <? _); [by apply Ok_inj in H|].
  apply bind_Ok in H as (_ & _ & H). cbv zeta in H.
  apply bind_Ok in H as ([early avail1] & Hpre & H). cbv beta iota in H.
  apply place_prefilled_sound in Hpre as (Hlen1 & Hearly & Hslots1).
  rewrite length_replicate in Hlen1.
  destruct early as [status|].
  { apply Ok_inj in H. injection H as -> _. done. }
  apply bind_Ok in H as (indexed & Hidx & H). apply index_shorttxids_keys in Hidx.
  destruct indexed as [status|m].
  { apply Ok_inj in H. injection H as -> _. done. }
  destruct (negb _); [by apply Ok_inj in H|].
  apply bind_Ok in H as ([avail2 count] & Hmatch & H). cbv beta iota in H.
  apply Ok_inj in H. injection H as <-. cbn [header txn_available].
  apply match_mempool_sound in Hmatch as [Hlen2 Hslots2].
  split; [done|]. split; [congruence|].
  intros k tx Hk. destruct (Hslots2 k tx Hk) as [Hk1|(hash & Hin & Hm)].
  - destruct (Hslots1 k tx Hk1) as [Hk0|Hp]; [|by left].
    apply lookup_replicate in Hk0 as [? _]. done.
  - right. exists hash. split; [done|].
    destruct (Hidx _ Hm) as [Hempty|?]; [|done].
    rewrite lookup_empty in Hempty. by destruct Hempty.
Qed.
(** * [UpdateForDescendants] *)

Lemma foreach_until_ind {A S : Type} (P : list A -> S -> Prop)
    (f : S -> A -> result (option S)) (l : list A) (s s' : S) :
  P [] s ->
  (forall pre a s1 s2, a ∈ l -> P pre s1 -> f s1 a = Ok (Some s2) -> P (pre ++ [a]) s2) ->
  foreach_until f l s = Ok (Some s') -> P l s'.
Proof.
  intros H0 Hstep.
  cut (forall pre s1, (forall a, a ∈ l -> a ∈ l) -> P pre s1 ->
         forall l2, (forall a, a ∈ l2 -> a ∈ l) ->
           foreach_until f l2 s1 = Ok (Some s') -> P (pre ++ l2) s').
  { intros Hcut H. by apply (Hcut [] s (fun a Ha => Ha) H0 l (fun a Ha => Ha)). }
  intros pre s1 _ Hpre l2. revert pre s1 Hpre.
  induction l2 as [|a l2 IH]; intros pre s1 Hpre Hsub H; cbn [foreach_until] in H.
  - apply Ok_inj in H. injection H as <-. by rewrite app_nil_r.
  - apply bind_Ok in H as (r & Hr & H). destruct r as [s2|]; [|done].
    replace (pre ++ a :: l2) with ((pre ++ [a]) ++ l2) by (by rewrite <- app_assoc).
    apply (IH _ s2); [|intros b Hb; apply Hsub; by right|done].
    apply (Hstep pre a s1 s2); [apply Hsub; by left|done|done].
Qed.

Lemma foreach_ind {A S : Type} (P : list A -> S -> Prop)
    (f : S -> A -> result S) (l : list A) (s s' : S) :
  P [] s ->
  (forall pre a s1 s2, a ∈ l -> P pre s1 -> f s1 a = Ok s2 -> P (pre ++ [a]) s2) ->
  foreach f l s = Ok s' -> P l s'.
Proof.
  intros H0 Hstep.
  cut (forall l2 pre s1, P pre s1 -> (forall a, a ∈ l2 -> a ∈ l) ->
         foreach f l2 s1 = Ok s' -> P (pre ++ l2) s').
  { intros Hcut H. by apply (Hcut l [] s H0 (fun a Ha => Ha)). }
  induction l2 as [|a l2 IH]; intros pre s1 Hpre Hsub H; cbn [foreach] in H.
  - apply Ok_inj in H as <-. by rewrite app_nil_r.
  - apply bind_Ok in H as (s2 & Hs2 & H).
    replace (pre ++ a :: l2) with ((pre ++ [a]) ++ l2) by (by rewrite <- app_assoc).
    apply (IH _ s2); [|intros b Hb; apply Hsub; by right|done].
    apply (Hstep pre a s1 s2); [apply Hsub; by left|done|done].
Qed.

(** [d] is a descendant of [u], and not [u] at the end of no link. *)
Definition strictly_descends (pool : CTxMemPool) (u d : Z) : Prop :=
  exists c, c ∈ children_of pool u /\ descends pool c d.

Lemma descends_head pool c z :
  descends pool c z -> z = c \/ strictly_descends pool c z.
Proof.
  induction 1 as [|d z Hd IH Hz]; [by left|]. right.
  destruct IH as [->|(c1 & Hc1 & Hd1)].
  - exists z. split; [done|constructor].
  - exists c1. split; [done|]. by apply descends_child with d.
Qed.

Lemma strictly_descends_step pool u x y :
  strictly_descends pool u x -> descends pool x y -> strictly_descends pool u y.
Proof.
  intros (c & Hc & Hx) Hy. exists c. split; [done|]. by apply descends_trans with x.
Qed.

Lemma strictly_descends_child pool u x c :
  strictly_descends pool u x -> c ∈ children_of pool x -> strictly_descends pool u c.
Proof.
  intros Hx Hc. apply (strictly_descends_step pool u x c Hx).
  apply descends_child with x; [constructor|done].
Qed.

Lemma strictly_descends_trans pool u x y :
  strictly_descends pool u x -> strictly_descends pool x y -> strictly_descends pool u y.
Proof.
  intros Hx (c & Hc & Hy). apply (strictly_descends_step pool u c y); [|done].
  by apply (strictly_descends_child pool u x c).
Qed.

(** The cache that [UpdateTransactionsFromBlock] keeps: its keys are
    excluded entries, and the set under a key has the descendants of the
    key that are not excluded. *)
Definition cache_exact (pool : CTxMemPool) (setExclude : gset Z)
    (cachedDescendants : cacheMap) : Prop :=
  forall c ds, cachedDescendants !! c = Some ds ->
    c ∈ setExclude
    /\ forall d, d ∈ ds <-> strictly_descends pool c d /\ d ∉ setExclude.

Section Visit.

Variables (pool : CTxMemPool) (cachedDescendants : cacheMap) (setExclude : gset Z)
  (maxDescendantsToVisit : Z).

(** [c], a child of an entry of the stage, has been seen: it is in
    [setAllDescendants] or in [entriesToAdd], or it is cached and what is
    cached for it is in [setAllDescendants]. *)
Definition handled (st : VisitState) (c : Z) : Prop :=
  c ∈ setAllDescendants st \/ c ∈ entriesToAdd st
  \/ exists ds, cachedDescendants !! c = Some ds /\ ds ⊆ setAllDescendants st.

(** From [st] to [st'] the children [cs] have been seen, and nothing
    else has been added. *)
Record visited (cs : Z -> Prop) (st st' : VisitState) : Prop := mkVisited {
  vs_all : setAllDescendants st ⊆ setAllDescendants st';
  vs_toAdd : entriesToAdd st ⊆ entriesToAdd st';
  vs_handled : forall c, cs c -> handled st' c;
  vs_cached : forall y, y ∈ setAllDescendants st' ->
    y ∈ setAllDescendants st
    \/ exists c ds, cs c /\ cachedDescendants !! c = Some ds /\ y ∈ ds
                    /\ ds ⊆ setAllDescendants st';
  vs_added : forall y, y ∈ entriesToAdd st' ->
    y ∈ entriesToAdd st
    \/ (cs y /\ y ∉ setAllDescendants st /\ is_Some (mapTx pool !! y))
}.

Lemma handled_mono st st' c :
  setAllDescendants st ⊆ setAllDescendants st' -> entriesToAdd st ⊆ entriesToAdd st' ->
  handled st c -> handled st' c.
Proof.
  intros Ha Ht [H|[H|(ds & Hds & H)]]; [left; set_solver|right; left; set_solver|].
  right. right. exists ds. split; [done|set_solver].
Qed.

Lemma visited_refl st : visited (fun _ => False) st st.
Proof. split; try done. - intros y Hy. by left. - intros y Hy. by left. Qed.

Lemma visited_trans cs1 cs2 st st1 st2 :
  visited cs1 st st1 -> visited cs2 st1 st2 ->
  visited (fun c => cs1 c \/ cs2 c) st st2.
Proof.
  intros [Ha1 Ht1 Hh1 Hc1 Hd1] [Ha2 Ht2 Hh2 Hc2 Hd2]. split.
  - set_solver.
  - set_solver.
  - intros c [Hc|Hc]; [|by apply Hh2]. apply (handled_mono st1); [done|done|].
    by apply Hh1.
  - intros y Hy. destruct (Hc2 y Hy) as [Hy1|(c & ds & Hc & Hds & Hin & Hsub)].
    + destruct (Hc1 y Hy1) as [?|(c & ds & Hc & Hds & Hin & Hsub)]; [by left|].
      right. exists c, ds. split; [by left|]. split; [done|]. split; [done|set_solver].
    + right. exists c, ds. split; [by right|done].
  - intros y Hy. destruct (Hd2 y Hy) as [Hy1|(Hc & Hnot & Hpool)].
    + destruct (Hd1 y Hy1) as [?|(Hc & Hnot & Hpool)]; [by left|].
      right. split; [by left|done].
    + right. split; [by right|]. split; [set_solver|done].
Qed.

Lemma visited_ext cs cs' st st' :
  (forall c, cs c <-> cs' c) -> visited cs st st' -> visited cs' st st'.
Proof.
  intros Hext [Ha Ht Hh Hc Hd]. split; [done|done| | |].
  - intros c Hc'. apply Hh. by apply Hext.
  - intros y Hy. destruct (Hc y Hy) as [?|(c & ds & Hcs & H)]; [by left|].
    right. exists c, ds. split; [by apply Hext|done].
  - intros y Hy. destruct (Hd y Hy) as [?|(Hcs & H)]; [by left|].
    right. split; [by apply Hext|done].
Qed.

Lemma visit_cached_spec (cached : gset Z) (st st' : VisitState) :
  visit_cached pool setExclude cached st = Ok st' ->
  setAllDescendants st' = cached ∪ setAllDescendants st
  /\ entriesToAdd st' = entriesToAdd st.
Proof.
  unfold visit_cached. intros H.
  apply (foreach_ind (fun pre st1 =>
           setAllDescendants st1 = list_to_set pre ∪ setAllDescendants st
           /\ entriesToAdd st1 = entriesToAdd st)) in H.
  - by rewrite list_to_set_sorted_elements in H.
  - split; [set_solver|done].
  - intros pre a s1 s2 _ [Hall Hadd] Hstep. rewrite list_to_set_app_L. cbn.
    destruct (decide (a ∈ setAllDescendants s1)) as [Hin|Hin].
    { apply Ok_inj in Hstep as <-. split; [set_solver|done]. }
    apply bind_Ok in Hstep as (e & _ & Hstep).
    match type of Hstep with (if ?c then _ else _) = _ => destruct c end;
      apply Ok_inj in Hstep as <-; cbn [setAllDescendants entriesToAdd];
      (split; [set_solver|done]).
Qed.

Lemma visit_child_spec (st st' : VisitState) (c : Z) :
  visit_child pool cachedDescendants setExclude st c = Ok st' ->
  visited (fun x => x = c) st st'.
Proof.
  unfold visit_child. intros H.
  destruct (cachedDescendants !! c) as [ds|] eqn:Hds.
  - apply visit_cached_spec in H as [Hall Hadd]. split.
    + set_solver.
    + set_solver.
    + intros ? ->. right. right. exists ds. split; [done|set_solver].
    + intros y Hy. rewrite Hall in Hy. apply elem_of_union in Hy as [Hy|Hy]; [|by left].
      right. exists c, ds. split; [done|]. split; [done|]. split; [done|set_solver].
    + intros y Hy. left. by rewrite <- Hadd.
  - destruct (decide (c ∈ setAllDescendants st)) as [Hin|Hin].
    { apply Ok_inj in H as <-. split; [done|done| | |].
      - intros ? ->. by left.
      - intros y Hy. by left.
      - intros y Hy. by left. }
    destruct (decide (c ∈ entriesToAdd st)) as [Hin'|Hin'].
    { apply Ok_inj in H as <-. split; [done|done| | |].
      - intros ? ->. right. by left.
      - intros y Hy. by left.
      - intros y Hy. by left. }
    apply bind_Ok in H as (e & He%deref_Ok & H).
    assert (setAllDescendants st' = setAllDescendants st
            /\ entriesToAdd st' = {[c]} ∪ entriesToAdd st) as [Hall Hadd].
    { match type of H with (if ?b then _ else _) = _ => destruct b end;
        by apply Ok_inj in H as <-. }
    split.
    + set_solver.
    + set_solver.
    + intros ? ->. right. left. set_solver.
    + intros y Hy. left. by rewrite <- Hall.
    + intros y Hy. rewrite Hadd in Hy.
      apply elem_of_union in Hy as [->%elem_of_singleton|Hy]; [|by left].
      right. split; [done|]. split; [done|]. by rewrite He.
Qed.

Lemma visit_children_spec (l : list Z) (st st' : VisitState) :
  foreach_until
    (fun st childEntry =>
       st' ← visit_child pool cachedDescendants setExclude st childEntry;
       if maxDescendantsToVisit <? nChildrenToVisit st' then Ok None
       else Ok (Some st')) l st = Ok (Some st') ->
  visited (fun c => c ∈ l) st st'.
Proof.
  intros H.
  apply (foreach_until_ind (fun pre st1 => visited (fun c => c ∈ pre) st st1)) in H;
    [done| |].
  - apply (visited_ext (fun _ => False)); [|apply visited_refl].
    intros c. split; [done|]. by intros ?%elem_of_nil.
  - intros pre a s1 s2 _ Hpre Hstep. apply bind_Ok in Hstep as (s2' & Hchild & Hstep).
    destruct (maxDescendantsToVisit <? nChildrenToVisit s2'); [done|].
    apply Ok_inj in Hstep. injection Hstep as <-.
    apply visit_child_spec in Hchild.
    apply (visited_ext (fun c => c ∈ pre \/ c = a));
      [|by apply (visited_trans _ _ st s1 s2')].
    intros c. rewrite elem_of_app, list_elem_of_singleton. done.
Qed.

Lemma visit_stage_spec (stageEntries : gset Z) (st st' : VisitState) :
  visit_stage pool maxDescendantsToVisit cachedDescendants setExclude stageEntries st
  = Ok (Some st') ->
  visited (fun c => exists x, x ∈ stageEntries /\ c ∈ children_of pool x) st st'.
Proof.
  unfold visit_stage. intros H.
  apply (foreach_until_ind
           (fun pre st1 =>
              visited (fun c => exists x, x ∈ pre /\ c ∈ children_of pool x) st st1))
    in H.
  - revert H. apply visited_ext. intros c.
    split; intros (x & Hx & Hc); exists x; (split; [|done]);
      by apply elem_of_sorted_elements.
  - apply (visited_ext (fun _ => False)); [|apply visited_refl].
    intros c. split; [done|]. by intros (x & ?%elem_of_nil & _).
  - intros pre a s1 s2 _ Hpre Hstep. apply bind_Ok in Hstep as (e & _ & Hstep).
    destruct (IsDirty e); [done|].
    apply bind_Ok in Hstep as (setChildren & Hch & Hstep).
    apply GetMemPoolChildren_Ok in Hch as (_ & _ & ->).
    apply visit_children_spec in Hstep.
    apply (visited_ext (fun c => (exists x, x ∈ pre /\ c ∈ children_of pool x)
                                 \/ c ∈ sorted_elements (children_of pool a))).
    + intros c. rewrite elem_of_sorted_elements. split.
      * intros [(x & Hx & Hc)|Hc]; [exists x|exists a];
          (split; [|done]); apply elem_of_app; [by left|right; by left].
      * intros (x & [Hx| ->%list_elem_of_singleton]%elem_of_app & Hc);
          [left; by exists x|by right].
    + by apply (visited_trans _ _ st s1 s2).
Qed.

Variable updateIt : Z.

(** What holds of [setAllDescendants] ([A]) and [stageEntries] ([S]) at
    the head of the [while] loop: both have descendants of [updateIt]
    only; an entry of [A] was in a stage, and then its children have been
    seen, or it is in a cached set that is in [A]. *)
Record walk_inv (A S : gset Z) : Prop := mkWalkInv {
  wi_sound : forall y, y ∈ A ∪ S -> strictly_descends pool updateIt y;
  wi_local : forall x, x ∈ A ->
    (forall c, c ∈ children_of pool x ->
       c ∈ A \/ c ∈ S \/ exists ds, cachedDescendants !! c = Some ds /\ ds ⊆ A)
    \/ exists c ds, cachedDescendants !! c = Some ds /\ x ∈ ds /\ ds ⊆ A
}.

Hypothesis Hcache : cache_exact pool setExclude cachedDescendants.

Lemma walk_inv_round (A S : gset Z) (n : Z) (st : VisitState) :
  walk_inv A S ->
  visit_stage pool maxDescendantsToVisit cachedDescendants setExclude S
    (mkVisit (S ∪ A) ∅ n) = Ok (Some st) ->
  A ∪ S ⊆ setAllDescendants st
  /\ walk_inv (setAllDescendants st) (entriesToAdd st)
  /\ (forall y, y ∈ entriesToAdd st -> y ∉ A ∪ S /\ is_Some (mapTx pool !! y)).
Proof.
  intros [Hsound Hlocal] Hstage. apply visit_stage_spec in Hstage.
  destruct Hstage as [Ha Ht Hh Hc Hd]. cbn [setAllDescendants entriesToAdd] in *.
  split; [set_solver|]. split; [split|].
  - intros y [Hy|Hy]%elem_of_union.
    + destruct (Hc y Hy) as [Hy0|(c & ds & (x & Hx & Hcx) & Hds & Hin & _)];
        [apply Hsound; set_solver|].
      apply (strictly_descends_trans pool updateIt c y);
        [|by apply (Hcache c ds Hds)].
      apply (strictly_descends_child pool updateIt x c); [|done].
      apply Hsound. set_solver.
    + destruct (Hd y Hy) as [?%elem_of_empty|((x & Hx & Hcx) & _)]; [done|].
      apply (strictly_descends_child pool updateIt x y); [|done].
      apply Hsound. set_solver.
  - intros x Hx. destruct (Hc x Hx) as [Hx0|(c & ds & _ & Hds & Hin & Hsub)];
      [|right; by exists c, ds].
    apply elem_of_union in Hx0 as [HxS|HxA].
    + left. intros c Hcx.
      destruct (Hh c) as [?|[?|?]]; [by exists x|by left|right; by left|right; by right].
    + destruct (Hlocal x HxA) as [Hch|(c & ds & Hds & Hin & Hsub)].
      * left. intros c Hcx. destruct (Hch c Hcx) as [?|[?|(ds & Hds & Hsub)]];
          [left; set_solver|left; set_solver|].
        right. right. exists ds. split; [done|set_solver].
      * right. exists c, ds. split; [done|]. split; [done|set_solver].
  - intros y Hy. destruct (Hd y Hy) as [?%elem_of_empty|(_ & Hnot & Hpool)]; [done|].
    split; [set_solver|done].
Qed.

Lemma all_descendants_spec (fuel : nat) (S A : gset Z) (n : Z) (R : gset Z) :
  all_descendants fuel pool maxDescendantsToVisit cachedDescendants setExclude S A n
  = Ok (Some R) ->
  walk_inv A S -> A ∪ S ⊆ R /\ walk_inv R ∅.
Proof.
  revert S A n. induction fuel as [|fuel IH]; intros S A n H Hinv;
    cbn [all_descendants] in H.
  - destruct (decide (S = ∅)) as [->|]; [|done].
    apply Ok_inj in H. injection H as <-. split; [set_solver|done].
  - destruct (decide (S = ∅)) as [->|].
    { apply Ok_inj in H. injection H as <-. split; [set_solver|done]. }
    apply bind_Ok in H as (r & Hr & H). destruct r as [st|]; [|done].
    destruct (walk_inv_round A S n st Hinv Hr) as (Hsub & Hinv' & _).
    apply IH in H as [Hsub' HR]; [|done]. split; [set_solver|done].
Qed.

(** A path from the head. *)
Inductive descends_from : Z -> Z -> Prop :=
| descends_from_self x : descends_from x x
| descends_from_step x c z :
    c ∈ children_of pool x -> descends_from c z -> descends_from x z.

Lemma descends_from_snoc x d c :
  descends_from x d -> c ∈ children_of pool d -> descends_from x c.
Proof.
  induction 1 as [x|x c' z Hc' _ IH]; intros Hc.
  - apply descends_from_step with c; [done|constructor].
  - apply descends_from_step with c'; [done|by apply IH].
Qed.

Lemma descends_descends_from x z : descends pool x z -> descends_from x z.
Proof.
  induction 1 as [|d c _ IH Hc]; [constructor|]. by apply descends_from_snoc with d.
Qed.

Lemma descends_from_descends x z : descends_from x z -> descends pool x z.
Proof.
  induction 1 as [x|x c z Hc _ IH]; [constructor|].
  apply descends_trans with c; [|done]. apply descends_child with x; [constructor|done].
Qed.

Lemma walk_closed (R : gset Z) (x z : Z) :
  walk_inv R ∅ -> descends pool x z -> x ∈ R -> z ∉ setExclude -> z ∈ R.
Proof.
  intros [_ Hlocal] Hd%descends_descends_from. induction Hd as [x|x c z Hc Hd IH];
    intros Hx Hz; [done|].
  destruct (Hlocal x Hx) as [Hch|(c' & ds & Hds & Hin & Hsub)].
  - destruct (Hch c Hc) as [?|[?%elem_of_empty|(ds & Hds & Hsub)]]; [by apply IH|done|].
    apply Hsub. destruct (Hcache c ds Hds) as [HcE Hiff]. apply Hiff. split; [|done].
    destruct (descends_head pool c z (descends_from_descends _ _ Hd)) as [->|?];
      done.
  - apply Hsub. destruct (Hcache c' ds Hds) as [_ Hiff]. apply Hiff. split; [|done].
    apply (strictly_descends_step pool c' x z); [by apply Hiff|].
    apply descends_from_descends. by apply descends_from_step with c.
Qed.

(** What the [while] loop of [UpdateForDescendants] leaves in
    [setAllDescendants], when it ends: descendants of [updateIt] only, and
    all of those that are not excluded. *)
Lemma all_descendants_exact (fuel : nat) (n : Z) (R : gset Z) :
  all_descendants fuel pool maxDescendantsToVisit cachedDescendants setExclude
    (children_of pool updateIt) ∅ n = Ok (Some R) ->
  (forall d, d ∈ R -> strictly_descends pool updateIt d)
  /\ (forall d, strictly_descends pool updateIt d -> d ∉ setExclude -> d ∈ R).
Proof.
  intros H. apply all_descendants_spec in H as [Hsub HR].
  - split.
    + intros d Hd. apply (wi_sound _ _ HR). set_solver.
    + intros d (c & Hc & Hd) Hnot. apply (walk_closed R c d HR Hd); [set_solver|done].
  - split; [|set_solver]. intros y Hy. exists y. split; [set_solver|constructor].
Qed.

End Visit.

(** [f] added up over the entries with the hashes [l]. *)
Definition total_of (f : CTxMemPoolEntry -> Z) (pool : CTxMemPool) (l : list Z) : Z :=
  foldr (fun h acc => default 0 (f <$> mapTx pool !! h) + acc) 0 l.

Definition set_total (f : CTxMemPoolEntry -> Z) (pool : CTxMemPool) (D : gset Z) : Z :=
  total_of f pool (elements D).

Lemma total_of_app f pool l1 l2 :
  total_of f pool (l1 ++ l2) = total_of f pool l1 + total_of f pool l2.
Proof. unfold total_of. induction l1 as [|h l1 IH]; cbn; lia. Qed.

Lemma total_of_singleton f pool a e :
  mapTx pool !! a = Some e -> total_of f pool [a] = f e.
Proof. intros He. unfold total_of. cbn. rewrite He. cbn. lia. Qed.

Lemma total_of_Permutation f pool l1 l2 :
  l1 ≡ₚ l2 -> total_of f pool l1 = total_of f pool l2.
Proof.
  unfold total_of. induction 1 as [|x l l' _ IH|x y l|l l' l'' _ IH1 _ IH2]; cbn;
    [done|by rewrite IH|lia|congruence].
Qed.

Lemma sum_descendants_spec (pool : CTxMemPool) (updateIt : Z) (setExclude R : gset Z)
    (cachedDescendants cache' : cacheMap) (modifySize modifyFee modifyCount : Z) :
  keyed_by_txid pool ->
  sum_descendants pool updateIt setExclude R cachedDescendants
  = Ok (modifySize, modifyFee, modifyCount, cache') ->
  modifySize = i64 (set_total nTxSize pool (R ∖ setExclude))
  /\ modifyFee = i64 (set_total nFee pool (R ∖ setExclude))
  /\ modifyCount = i64 (Z.of_nat (size (R ∖ setExclude)))
  /\ cache' = if decide (R ∖ setExclude = ∅) then cachedDescendants
              else <[updateIt := (R ∖ setExclude)
                                 ∪ default ∅ (cachedDescendants !! updateIt)]>
                     cachedDescendants.
Proof.
  intros Hkeyed. unfold sum_descendants. intros H.
  apply (foreach_ind
           (fun pre (x : Z * Z * Z * cacheMap) =>
              let lp := filter (fun d => d ∉ setExclude) pre in
              fst (fst (fst x)) = i64 (total_of nTxSize pool lp)
              /\ snd (fst (fst x)) = i64 (total_of nFee pool lp)
              /\ snd (fst x) = i64 (Z.of_nat (length lp))
              /\ snd x = match lp with
                         | [] => cachedDescendants
                         | _ => <[updateIt := list_to_set lp
                                              ∪ default ∅ (cachedDescendants !! updateIt)]>
                                  cachedDescendants
                         end)) in H.
  - cbv zeta in H. cbn [fst snd] in H. destruct H as (-> & -> & -> & ->).
    assert (filter (fun d => d ∉ setExclude) (sorted_elements R)
            ≡ₚ elements (R ∖ setExclude)) as Hperm.
    { apply NoDup_Permutation;
        [apply NoDup_filter, NoDup_sorted_elements|apply NoDup_elements|].
      intros d. rewrite list_elem_of_filter, elem_of_sorted_elements, elem_of_elements.
      set_solver. }
    assert (list_to_set (filter (fun d => d ∉ setExclude) (sorted_elements R))
            = R ∖ setExclude) as Hset.
    { apply set_eq. intros d.
      rewrite elem_of_list_to_set, list_elem_of_filter, elem_of_sorted_elements.
      set_solver. }
    unfold set_total. rewrite <- !(total_of_Permutation _ _ _ _ Hperm).
    split; [done|]. split; [done|]. split.
    { unfold size, set_size. cbn. by rewrite <- Hperm. }
    destruct (filter (fun d => d ∉ setExclude) (sorted_elements R)) as [|d l] eqn:Hl.
    + rewrite decide_True; [done|]. by rewrite <- Hset.
    + rewrite decide_False; [by rewrite Hset|]. rewrite <- Hset. set_solver.
  - cbv zeta. cbn. done.
  - intros pre a [[[ms mf] mc] c] s2 Ha Hpre Hstep. cbv zeta in Hpre |- *.
    cbn [fst snd] in Hpre. destruct Hpre as (-> & -> & -> & ->).
    cbv beta iota in Hstep. apply bind_Ok in Hstep as (e & He%deref_Ok & Hstep).
    assert (GetHash (GetTx e) = a) as Hhash by (by apply (Hkeyed a e)).
    rewrite Hhash in Hstep. rewrite filter_app, filter_cons, filter_nil.
    case_bool_decide as Hex.
    + apply Ok_inj in Hstep as <-. cbn [fst snd].
      rewrite decide_False by (by intros ?). by rewrite app_nil_r.
    + apply Ok_inj in Hstep as <-. cbn [fst snd]. rewrite decide_True by done.
      rewrite !total_of_app, length_app, !(total_of_singleton _ _ _ _ He).
      cbn [length]. rewrite !i64_add_l. split; [done|]. split; [done|].
      split; [f_equal; lia|].
      destruct (filter (fun d => d ∉ setExclude) pre) as [|d l] eqn:Hl.
      * cbn [app]. f_equal. set_solver.
      * unfold cacheMap in *. rewrite lookup_insert_eq. cbn [default].
        rewrite insert_insert_eq. cbn [app]. f_equal. set_solver.
Qed.

(** What [UpdateForDescendants] has done when it returns true. *)
Lemma UpdateForDescendants_spec (pool pool' : CTxMemPool) (updateIt : Z)
    (maxDescendantsToVisit : Z) (cachedDescendants cache' : cacheMap)
    (setExclude : gset Z) :
  keyed_by_txid pool ->
  cache_exact pool setExclude cachedDescendants ->
  UpdateForDescendants pool updateIt maxDescendantsToVisit cachedDescendants setExclude
  = Ok (true, pool', cache') ->
  exists (e : CTxMemPoolEntry) (D : gset Z),
    mapTx pool !! updateIt = Some e
    /\ (forall d, d ∈ D <-> strictly_descends pool updateIt d /\ d ∉ setExclude)
    /\ pool' = set_mapTx
                 (insert updateIt
                    (UpdateState e (i64 (set_total nTxSize pool D))
                       (i64 (set_total nFee pool D)) (i64 (Z.of_nat (size D)))))
                 pool
    /\ cache' = if decide (D = ∅) then cachedDescendants
                else <[updateIt := D ∪ default ∅ (cachedDescendants !! updateIt)]>
                       cachedDescendants.
Proof.
  intros Hkeyed Hcache H. unfold UpdateForDescendants in H.
  apply bind_Ok in H as (stage & Hstage & H).
  apply GetMemPoolChildren_Ok in Hstage as (_ & _ & ->).
  apply bind_Ok in H as (r & Hr & H). destruct r as [R|]; [|by apply Ok_inj in H].
  apply bind_Ok in H as ([[[ms mf] mc] c] & Hsum & H). cbv beta iota in H.
  apply bind_Ok in H as (p1 & Hmod & H). apply Ok_inj in H. injection H as <- <-.
  unfold modify_descendant_state in Hmod.
  apply bind_Ok in Hmod as (e & He%deref_Ok & Hmod). apply Ok_inj in Hmod as <-.
  apply (all_descendants_exact pool cachedDescendants setExclude maxDescendantsToVisit
           updateIt Hcache) in Hr as [Hsound Hcomplete].
  apply (sum_descendants_spec _ _ _ _ _ _ _ _ _ Hkeyed) in Hsum
    as (-> & -> & -> & ->).
  exists e, (R ∖ setExclude). split; [done|]. split; [|done].
  intros d. rewrite elem_of_difference. split.
  - intros [Hd Hnot]. split; [by apply Hsound|done].
  - intros [Hd Hnot]. split; [by apply Hcomplete|done].
Qed.

(** X22. When UpdateForDescendants returns true, with a cache whose keys
    are excluded entries and whose sets are the not excluded descendants
    of their keys, it has added to the entry's state, by UpdateState, the
    sizes, the fees and the number of exactly the descendants of the entry
    that are not excluded, and has put these descendants into the cache
    under the entry; nothing else of the pool has changed. *)
Theorem UpdateForDescendants_adds_descendants (pool pool' : CTxMemPool) (updateIt : Z)
    (maxDescendantsToVisit : Z) (cachedDescendants cache' : cacheMap)
    (setExclude : gset Z) :
  keyed_by_txid pool ->
  cache_exact pool setExclude cachedDescendants ->
  UpdateForDescendants pool updateIt maxDescendantsToVisit cachedDescendants setExclude
  = Ok (true, pool', cache') ->
  exists (e : CTxMemPoolEntry) (D : gset Z),
    mapTx pool !! updateIt = Some e
    /\ (forall d, d ∈ D <-> strictly_descends pool updateIt d /\ d ∉ setExclude)
    /\ pool' = set_mapTx
                 (insert updateIt
                    (UpdateState e (i64 (set_total nTxSize pool D))
                       (i64 (set_total nFee pool D)) (i64 (Z.of_nat (size D)))))
                 pool
    /\ cache' = if decide (D = ∅) then cachedDescendants
                else <[updateIt := D ∪ default ∅ (cachedDescendants !! updateIt)]>
                       cachedDescendants.
Proof. apply UpdateForDescendants_spec. Qed.

(** ** [UpdateForDescendants] returns *)

Lemma foreach_until_runs {A S : Type} (f : S -> A -> result (option S)) (l : list A)
    (s : S) :
  (forall s1 a, a ∈ l -> exists r, f s1 a = Ok r) ->
  exists r, foreach_until f l s = Ok r.
Proof.
  revert s. induction l as [|a l IH]; intros s Hf; cbn [foreach_until]; [by eexists|].
  destruct (Hf s a) as [r ->]; [by left|]. rewrite Ok_bind.
  destruct r as [s'|]; [|by eexists]. apply IH. intros s1 b Hb. apply Hf. by right.
Qed.

(** The sets of the cache have pool entries. *)
Definition cache_in_pool (pool : CTxMemPool) (cachedDescendants : cacheMap) : Prop :=
  forall c ds d, cachedDescendants !! c = Some ds -> d ∈ ds -> is_Some (mapTx pool !! d).

Section Returns.

Variables (pool : CTxMemPool) (cachedDescendants : cacheMap) (setExclude : gset Z)
  (maxDescendantsToVisit : Z).

Hypothesis Hlinked : children_linked pool.
Hypothesis Hcached : cache_in_pool pool cachedDescendants.

Lemma visit_cached_runs (cached : gset Z) (st : VisitState) :
  (forall d, d ∈ cached -> is_Some (mapTx pool !! d)) ->
  exists st', visit_cached pool setExclude cached st = Ok st'.
Proof.
  intros Hin. apply foreach_runs. intros s1 a Ha%elem_of_sorted_elements.
  destruct (decide (a ∈ setAllDescendants s1)); [by eexists|].
  destruct (Hin a Ha) as [e ->]. cbn [deref]. rewrite Ok_bind.
  match goal with |- context [if ?c then _ else _] => destruct c end; by eexists.
Qed.

Lemma visit_child_runs (st : VisitState) (c : Z) :
  is_Some (mapTx pool !! c) ->
  exists st', visit_child pool cachedDescendants setExclude st c = Ok st'.
Proof.
  intros [e He]. unfold visit_child.
  destruct (cachedDescendants !! c) as [ds|] eqn:Hds.
  - apply visit_cached_runs. intros d Hd. by apply (Hcached c ds d).
  - destruct (decide (c ∈ setAllDescendants st)); [by eexists|].
    destruct (decide (c ∈ entriesToAdd st)); [by eexists|].
    rewrite He. cbn [deref]. rewrite Ok_bind.
    match goal with |- context [if ?b then _ else _] => destruct b end; by eexists.
Qed.

Lemma visit_stage_runs (stageEntries : gset Z) (st : VisitState) :
  (forall x, x ∈ stageEntries ->
     is_Some (mapTx pool !! x) /\ is_Some (mapLinks pool !! x)) ->
  exists r, visit_stage pool maxDescendantsToVisit cachedDescendants setExclude
              stageEntries st = Ok r.
Proof.
  intros Hstage. unfold visit_stage. apply foreach_until_runs.
  intros s1 x Hx%elem_of_sorted_elements. destruct (Hstage x Hx) as [[e He] Hl].
  rewrite He. cbn [deref]. rewrite Ok_bind. destruct (IsDirty e); [by eexists|].
  rewrite (GetMemPoolChildren_runs pool x) by (by rewrite ?He). rewrite Ok_bind.
  apply foreach_until_runs. intros s2 c Hc%elem_of_sorted_elements.
  destruct (visit_child_runs s2 c) as [st' ->];
    [by apply (Hlinked x c); [rewrite He|]|].
  rewrite Ok_bind. destruct (maxDescendantsToVisit <? nChildrenToVisit st'); by eexists.
Qed.

Lemma all_descendants_runs (fuel : nat) (S A : gset Z) (n : Z) :
  (forall x, x ∈ S -> is_Some (mapTx pool !! x) /\ is_Some (mapLinks pool !! x)) ->
  (forall x, x ∈ A -> is_Some (mapTx pool !! x)) ->
  S = ∅ \/ (size (dom (mapTx pool) ∖ (A ∪ S)) < fuel)%nat ->
  exists r,
    all_descendants fuel pool maxDescendantsToVisit cachedDescendants setExclude S A n
    = Ok r
    /\ forall R, r = Some R -> forall x, x ∈ R -> is_Some (mapTx pool !! x).
Proof.
  revert S A n. induction fuel as [|fuel IH]; intros S A n HS HA Hfuel;
    cbn [all_descendants].
  - destruct Hfuel as [->|?]; [|lia]. rewrite decide_True by done.
    exists (Some A). split; [done|]. by intros R [= <-].
  - destruct (decide (S = ∅)) as [->|Hne].
    { exists (Some A). split; [done|]. by intros R [= <-]. }
    destruct Hfuel as [?|Hfuel]; [done|].
    destruct (visit_stage_runs S (mkVisit (S ∪ A) ∅ n) HS) as [r Hr]. rewrite Hr, Ok_bind.
    destruct r as [st|]; [|by exists None].
    apply visit_stage_spec in Hr as [Ha Ht Hh Hc Hd].
    cbn [setAllDescendants entriesToAdd] in *. apply IH.
    + intros y Hy. destruct (Hd y Hy) as [?%elem_of_empty|((x & Hx & Hxy) & _)]; [done|].
      apply (Hlinked x y); [by apply HS|done].
    + intros y Hy. destruct (Hc y Hy) as [Hy0|(c & ds & _ & Hds & Hin & _)].
      * apply elem_of_union in Hy0 as [?|?]; [by apply HS|by apply HA].
      * by apply (Hcached c ds y).
    + destruct (decide (entriesToAdd st = ∅)) as [|Hne']; [by left|]. right.
      apply set_choose_L in Hne' as [y Hy].
      destruct (Hd y Hy) as [?%elem_of_empty|(_ & Hnot & Hpool)]; [done|].
      assert (dom (mapTx pool) ∖ (setAllDescendants st ∪ entriesToAdd st)
              ⊂ dom (mapTx pool) ∖ (A ∪ S)) as Hlt.
      { split; [set_solver|]. intros Hsub. apply elem_of_dom in Hpool.
        assert (y ∈ dom (mapTx pool) ∖ (A ∪ S)) as Hy' by set_solver.
        apply Hsub in Hy'. set_solver. }
      apply subset_size in Hlt. lia.
Qed.

Lemma sum_descendants_runs (updateIt : Z) (R : gset Z) :
  (forall x, x ∈ R -> is_Some (mapTx pool !! x)) ->
  exists r, sum_descendants pool updateIt setExclude R cachedDescendants = Ok r
            /\ cache_in_pool pool (snd r).
Proof.
  intros HR.
  destruct (foreach_runs
              (fun '(modifySize, modifyFee, modifyCount, cache) cit =>
                 e ← deref (mapTx pool !! cit);
                 if bool_decide (GetHash (GetTx e) ∈ setExclude)
                 then Ok (modifySize, modifyFee, modifyCount, cache)
                 else Ok (i64 (modifySize + nTxSize e), i64 (modifyFee + nFee e),
                          i64 (modifyCount + 1),
                          <[updateIt := {[cit]} ∪ default ∅ (cache !! updateIt)]> cache))
              (sorted_elements R) (0, 0, 0, cachedDescendants)) as [r Hr].
  { intros [[[ms mf] mc] c] a Ha%elem_of_sorted_elements.
    destruct (HR a Ha) as [e ->]. cbn [deref]. rewrite Ok_bind.
    destruct (bool_decide (GetHash (GetTx e) ∈ setExclude)); by eexists. }
  exists r. split; [exact Hr|].
  apply (foreach_inv (fun x : Z * Z * Z * cacheMap => cache_in_pool pool (snd x)))
    in Hr; [done| |done].
  intros [[[ms mf] mc] c] a s2 Ha%elem_of_sorted_elements Hc Hstep.
  cbn [snd] in Hc. apply bind_Ok in Hstep as (e & _ & Hstep).
  destruct (bool_decide (GetHash (GetTx e) ∈ setExclude));
    apply Ok_inj in Hstep as <-; cbn [snd]; [done|].
  intros k ds d Hk Hd. unfold cacheMap in *.
  destruct (decide (k = updateIt)) as [->|Hne];
    [|rewrite lookup_insert_ne in Hk by done; by apply (Hc k ds d)].
  rewrite lookup_insert_eq in Hk. injection Hk as <-.
  apply elem_of_union in Hd as [->%elem_of_singleton|Hd]; [by apply HR|].
  destruct (c !! updateIt) as [ds0|] eqn:Hds0; cbn [default] in Hd;
    [by apply (Hc updateIt ds0 d)|by apply elem_of_empty in Hd].
Qed.

(** [UpdateForDescendants] returns; it changes the state of the entry at
    most, and the cache has pool entries again. *)
Lemma UpdateForDescendants_runs (updateIt : Z) :
  is_Some (mapTx pool !! updateIt) -> is_Some (mapLinks pool !! updateIt) ->
  exists ok pool' cache' e e',
    UpdateForDescendants pool updateIt maxDescendantsToVisit cachedDescendants
      setExclude = Ok (ok, pool', cache')
    /\ mapTx pool !! updateIt = Some e
    /\ pool' = set_mapTx (insert updateIt e') pool
    /\ GetTx e' = GetTx e
    /\ cache_in_pool pool cache'.
Proof.
  intros Hu Hl. unfold UpdateForDescendants.
  rewrite (GetMemPoolChildren_runs pool updateIt Hu Hl), Ok_bind.
  destruct Hu as [e He].
  assert (pool = set_mapTx (insert updateIt e) pool) as Hsame.
  { destruct pool as [M ML NX MD T U N]. unfold set_mapTx. cbn in *.
    by rewrite insert_id. }
  destruct (all_descendants_runs (S (size (mapTx pool))) (children_of pool updateIt) ∅ 0)
    as (r & -> & HR).
  - intros x Hx. apply (Hlinked updateIt x); [by rewrite He|done].
  - intros x Hx. by apply elem_of_empty in Hx.
  - right. rewrite <- (size_dom (D := gset Z) (mapTx pool)).
    assert (size (dom (mapTx pool) ∖ (∅ ∪ children_of pool updateIt))
            <= size (dom (mapTx pool)))%nat by (apply subseteq_size; set_solver).
    lia.
  - rewrite Ok_bind. destruct r as [R|]; [|by exists false, pool, cachedDescendants, e, e].
    destruct (sum_descendants_runs updateIt R (HR R eq_refl))
      as ([[[ms mf] mc] c] & -> & Hc).
    rewrite Ok_bind. cbv beta iota. unfold modify_descendant_state.
    rewrite He. cbn [deref]. rewrite !Ok_bind.
    exists true, (set_mapTx (insert updateIt (UpdateState e ms mf mc)) pool), c, e,
      (UpdateState e ms mf mc).
    split; [done|]. split; [done|]. split; [done|]. split; [|done].
    apply GetTx_UpdateState.
Qed.

(** X23. UpdateForDescendants returns, true or false, for an entry of a
    pool in which every child of an entry is an entry with links, with a
    cache that has pool entries: it looks up no entry that is not there,
    and its loop over the stages ends within one round for each entry of
    the pool and one more.  It changes nothing of the pool but the state of
    the entry, which keeps its transaction, and the cache has pool entries
    again. *)
Theorem UpdateForDescendants_returns (updateIt : Z) :
  is_Some (mapTx pool !! updateIt) -> is_Some (mapLinks pool !! updateIt) ->
  exists ok pool' cache' e e',
    UpdateForDescendants pool updateIt maxDescendantsToVisit cachedDescendants
      setExclude = Ok (ok, pool', cache')
    /\ mapTx pool !! updateIt = Some e
    /\ pool' = set_mapTx (insert updateIt e') pool
    /\ GetTx e' = GetTx e
    /\ cache_in_pool pool cache'.
Proof. apply UpdateForDescendants_runs. Qed.

End Returns.
(** * [UpdateTransactionsFromBlock] *)

Lemma UpdateChild_true_spec p h c :
  mapTx (UpdateChild p h c true) = mapTx p
  /\ mapNextTx (UpdateChild p h c true) = mapNextTx p
  /\ mapDeltas (UpdateChild p h c true) = mapDeltas p
  /\ totalTxSize (UpdateChild p h c true) = totalTxSize p
  /\ mapLinks (UpdateChild p h c true)
     = <[h := mkLinks (parents_of p h) ({[c]} ∪ children_of p h)]> (mapLinks p).
Proof. unfold UpdateChild, parents_of, children_of. by case_decide. Qed.

Lemma UpdateParent_true_spec p c h :
  mapTx (UpdateParent p c h true) = mapTx p
  /\ mapNextTx (UpdateParent p c h true) = mapNextTx p
  /\ mapDeltas (UpdateParent p c h true) = mapDeltas p
  /\ totalTxSize (UpdateParent p c h true) = totalTxSize p
  /\ mapLinks (UpdateParent p c h true)
     = <[c := mkLinks ({[h]} ∪ parents_of p c) (children_of p c)]> (mapLinks p).
Proof. unfold UpdateParent, parents_of, children_of. by case_decide. Qed.

(** From [p] to [p'] links have been added, and nothing else of the pool
    but the states of entries has changed: [h] has the new child [c], and
    [c] the new parent [h], where [new h c]. *)
Record relinked (new : Z -> Z -> Prop) (p p' : CTxMemPool) : Prop := mkRelinked {
  rl_next : mapNextTx p' = mapNextTx p;
  rl_deltas : mapDeltas p' = mapDeltas p;
  rl_size : totalTxSize p' = totalTxSize p;
  rl_txs : forall k, GetTx <$> mapTx p' !! k = GetTx <$> mapTx p !! k;
  rl_links : forall k, is_Some (mapLinks p !! k) -> is_Some (mapLinks p' !! k);
  rl_children : forall h c,
    c ∈ children_of p' h <-> c ∈ children_of p h \/ new h c;
  rl_parents : forall c h,
    h ∈ parents_of p' c <-> h ∈ parents_of p c \/ new h c
}.

Lemma relinked_refl p : relinked (fun _ _ => False) p p.
Proof. split; [done|done|done|done|done| |]; intros; tauto. Qed.

Lemma relinked_trans new1 new2 p p1 p2 :
  relinked new1 p p1 -> relinked new2 p1 p2 ->
  relinked (fun h c => new1 h c \/ new2 h c) p p2.
Proof.
  intros [Hn1 Hd1 Hs1 Ht1 Hl1 Hc1 Hp1] [Hn2 Hd2 Hs2 Ht2 Hl2 Hc2 Hp2].
  split; [congruence|congruence|congruence| | | |].
  - intros k. by rewrite Ht2.
  - intros k Hk. by apply Hl2, Hl1.
  - intros h c. rewrite Hc2, Hc1. tauto.
  - intros c h. rewrite Hp2, Hp1. tauto.
Qed.

Lemma relinked_ext new new' p p' :
  (forall h c, new h c <-> new' h c) -> relinked new p p' -> relinked new' p p'.
Proof.
  intros Hext [Hn Hd Hs Ht Hl Hc Hp]. split; [done|done|done|done|done| |].
  - intros h c. by rewrite Hc, Hext.
  - intros c h. by rewrite Hp, Hext.
Qed.

Lemma relinked_link p h c :
  relinked (fun h' c' => h' = h /\ c' = c) p
    (UpdateParent (UpdateChild p h c true) c h true).
Proof.
  destruct (UpdateChild_true_spec p h c) as (Ht1 & Hn1 & Hd1 & Hs1 & Hl1).
  destruct (UpdateParent_true_spec (UpdateChild p h c true) c h)
    as (Ht2 & Hn2 & Hd2 & Hs2 & Hl2).
  assert (forall k, links_at (mapLinks (UpdateChild p h c true)) k
                    = if decide (k = h)
                      then mkLinks (parents_of p h) ({[c]} ∪ children_of p h)
                      else links_at (mapLinks p) k) as Hat1
    by (intros k; by rewrite Hl1, links_at_insert).
  assert (forall k, links_at (mapLinks (UpdateParent (UpdateChild p h c true) c h true)) k
                    = if decide (k = c)
                      then mkLinks ({[h]} ∪ parents_of (UpdateChild p h c true) c)
                             (children_of (UpdateChild p h c true) c)
                      else links_at (mapLinks (UpdateChild p h c true)) k) as Hat2
    by (intros k; by rewrite Hl2, links_at_insert).
  split; [congruence|congruence|congruence| | | |].
  - intros k. by rewrite Ht2, Ht1.
  - intros k Hk. rewrite Hl2, Hl1.
    destruct (decide (k = c)) as [->|?]; [by rewrite lookup_insert_eq|].
    rewrite lookup_insert_ne by done.
    destruct (decide (k = h)) as [->|?]; [by rewrite lookup_insert_eq|].
    by rewrite lookup_insert_ne.
  - intros k x. unfold children_of, parents_of in *. rewrite Hat2, !Hat1.
    clear Hat1 Hat2 Hl1 Hl2 Ht1 Ht2 Hn1 Hn2 Hd1 Hd2 Hs1 Hs2.
    destruct (decide (k = c)) as [->|Hkc]; cbn [children].
    + destruct (decide (c = h)) as [->|Hch]; cbn [children]; set_solver.
    + destruct (decide (k = h)) as [->|Hkh]; cbn [children]; set_solver.
  - intros k x. unfold children_of, parents_of in *. rewrite Hat2, !Hat1.
    clear Hat1 Hat2 Hl1 Hl2 Ht1 Ht2 Hn1 Hn2 Hd1 Hd2 Hs1 Hs2.
    destruct (decide (k = c)) as [->|Hkc]; cbn [parents].
    + destruct (decide (c = h)) as [->|Hch]; cbn [parents]; set_solver.
    + destruct (decide (k = h)) as [->|Hkh]; cbn [parents]; set_solver.
Qed.

(** One round of the loop of [link_children]. *)
Definition link_step (setAlreadyIncluded : gset Z) (hash : Z)
  : CTxMemPool * gset Z -> CInPoint -> result (CTxMemPool * gset Z) :=
  fun '(p, setChildren) spender =>
    let childHash := fst spender in
    _ ← deref (mapTx p !! childHash);
    if decide (childHash ∈ setChildren) then Ok (p, setChildren)
    else if decide (childHash ∈ setAlreadyIncluded)
    then Ok (p, {[childHash]} ∪ setChildren)
    else Ok (UpdateParent (UpdateChild p hash childHash true) childHash hash true,
             {[childHash]} ∪ setChildren).

Lemma link_loop (V : gset Z) (h : Z) (l : list CInPoint) (p : CTxMemPool)
    (setChildren : gset Z) :
  (forall x, x ∈ l -> is_Some (mapTx p !! fst x)) ->
  (forall c, c ∈ setChildren -> c ∉ V -> c ∈ children_of p h /\ h ∈ parents_of p c) ->
  exists p' sc,
    foreach (link_step V h) l (p, setChildren) = Ok (p', sc)
    /\ mapTx p' = mapTx p
    /\ relinked (fun h' c => h' = h /\ c ∉ V /\ c ∈ map fst l) p p'.
Proof.
  revert p setChildren. induction l as [|a l IH]; intros p sc Hl Hsc; cbn [foreach].
  - exists p, sc. split; [done|]. split; [done|].
    apply (relinked_ext (fun _ _ => False)); [|apply relinked_refl].
    intros h' c. split; [done|]. by intros (_ & _ & ?%elem_of_nil).
  - destruct (Hl a) as [e He]; [by left|].
    assert (forall x, x ∈ l -> is_Some (mapTx p !! fst x)) as Hl'
      by (intros x Hx; apply Hl; by right).
    destruct (decide (fst a ∈ sc)) as [Hin|Hin].
    { assert (link_step V h (p, sc) a = Ok (p, sc)) as ->
        by (unfold link_step; cbv beta iota zeta; rewrite He; cbn [deref];
            rewrite Ok_bind; by rewrite decide_True).
      rewrite Ok_bind. destruct (IH p sc Hl' Hsc) as (p' & sc' & -> & Htx & Hadd).
      exists p', sc'. split; [done|]. split; [done|]. destruct Hadd.
      split; [done|done|done|done|done| |].
      - intros h' c. rewrite rl_children0. cbn [map]. split.
        + intros [?|(-> & Hc & Hcl)]; [by left|]. right. split; [done|].
          split; [done|by right].
        + intros [?|(-> & Hc & [->|Hcl]%elem_of_cons)]; [by left| |by right].
          left. by apply Hsc.
      - intros c h'. rewrite rl_parents0. cbn [map]. split.
        + intros [?|(-> & Hc & Hcl)]; [by left|]. right. split; [done|].
          split; [done|by right].
        + intros [?|(-> & Hc & [->|Hcl]%elem_of_cons)]; [by left| |by right].
          left. by apply Hsc. }
    destruct (decide (fst a ∈ V)) as [HV|HV].
    { assert (link_step V h (p, sc) a = Ok (p, {[fst a]} ∪ sc)) as ->
        by (unfold link_step; cbv beta iota zeta; rewrite He; cbn [deref];
            rewrite Ok_bind; rewrite decide_False by done; by rewrite decide_True).
      rewrite Ok_bind.
      destruct (IH p ({[fst a]} ∪ sc) Hl') as (p' & sc' & -> & Htx & Hadd).
      { intros c [->%elem_of_singleton|Hc]%elem_of_union Hnot; [done|by apply Hsc]. }
      exists p', sc'. split; [done|]. split; [done|]. revert Hadd.
      apply relinked_ext. intros h' c. cbn [map]. split.
      - intros (-> & Hc & Hcl). split; [done|]. split; [done|by right].
      - intros (-> & Hc & [->|Hcl]%elem_of_cons); done. }
    assert (link_step V h (p, sc) a
            = Ok (UpdateParent (UpdateChild p h (fst a) true) (fst a) h true,
                  {[fst a]} ∪ sc)) as ->
      by (unfold link_step; cbv beta iota zeta; rewrite He; cbn [deref];
          rewrite Ok_bind; rewrite decide_False by done; by rewrite decide_False).
    rewrite Ok_bind.
    pose proof (relinked_link p h (fst a)) as Hlink.
    destruct (UpdateChild_true_spec p h (fst a)) as (Ht1 & _).
    destruct (UpdateParent_true_spec (UpdateChild p h (fst a) true) (fst a) h)
      as (Ht2 & _).
    destruct (IH (UpdateParent (UpdateChild p h (fst a) true) (fst a) h true)
                ({[fst a]} ∪ sc)) as (p' & sc' & -> & Htx & Hadd).
    { intros x Hx. rewrite Ht2, Ht1. by apply Hl'. }
    { intros c Hc Hnot. rewrite (rl_children _ _ _ Hlink), (rl_parents _ _ _ Hlink).
      apply elem_of_union in Hc as [->%elem_of_singleton|Hc]; [split; by right|].
      destruct (Hsc c Hc Hnot). split; by left. }
    exists p', sc'. split; [done|]. split; [congruence|].
    apply (relinked_ext
             (fun h' c => (h' = h /\ c = fst a)
                          \/ (h' = h /\ c ∉ V /\ c ∈ map fst l)));
      [|exact (relinked_trans _ _ p _ p' Hlink Hadd)].
    intros h' c. cbn [map]. split.
    + intros [[-> ->]|(-> & Hc & Hcl)]; (split; [done|]); (split; [done|]);
        [by left|by right].
    + intros (-> & Hc & [->|Hcl]%elem_of_cons); [by left|by right].
Qed.

Lemma relinked_set_state new p0 p1 h e1 e2 :
  relinked new p0 p1 -> mapTx p1 !! h = Some e1 -> GetTx e2 = GetTx e1 ->
  relinked new p0 (set_mapTx (insert h e2) p1).
Proof.
  intros [Hn Hd Hs Ht Hl Hc Hp] He Htx. split; [done|done|done| |done|done|done].
  intros k. cbn [set_mapTx mapTx]. destruct (decide (k = h)) as [->|Hne].
  - rewrite lookup_insert_eq, <- Ht, He. cbn. by rewrite Htx.
  - rewrite lookup_insert_ne by done. apply Ht.
Qed.

Section Reorg.

Variables (pool0 : CTxMemPool) (V : gset Z).

Hypothesis Hlinked0 : children_linked pool0.
Hypothesis Hspenders0 : spenders_in_pool pool0.
Hypothesis Hlinks0 :
  forall h, is_Some (mapTx pool0 !! h) -> is_Some (mapLinks pool0 !! h).

(** The links that are new when the hashes [X] have been gone through:
    from an entry of [X] to the spenders of its outputs that are not
    among the hashes to update. *)
Definition new_link (X : Z -> Prop) (h c : Z) : Prop :=
  X h /\ is_Some (mapTx pool0 !! h) /\ c ∉ V /\ c ∈ spender_hashes pool0 h.

Lemma relinked_same_dom new p k :
  relinked new pool0 p -> is_Some (mapTx p !! k) <-> is_Some (mapTx pool0 !! k).
Proof. intros H. by rewrite <- !(fmap_is_Some GetTx), (rl_txs _ _ _ H). Qed.

Lemma relinked_children_linked X p :
  relinked (new_link X) pool0 p -> children_linked p.
Proof.
  intros H h c Hh Hc. apply (relinked_same_dom _ _ _ H) in Hh.
  assert (is_Some (mapTx pool0 !! c)) as Hc0.
  { apply (rl_children _ _ _ H) in Hc as [Hc|(_ & _ & _ & Hc)].
    - by apply (Hlinked0 h c).
    - apply elem_of_spender_hashes in Hc as (o & i & _ & Ho).
      by apply (Hspenders0 o c i). }
  split; [by apply (relinked_same_dom _ _ _ H)|].
  by apply (rl_links _ _ _ H), Hlinks0.
Qed.

(** One round of the loop of [UpdateTransactionsFromBlock]. *)
Definition reorg_step : CTxMemPool * cacheMap -> Z -> result (CTxMemPool * cacheMap) :=
  fun '(pool, cache) hash =>
    match mapTx pool !! hash with
    | None => Ok (pool, cache)
    | Some _ =>
        '(pool1, _) ← link_children V hash (spenders_of (mapNextTx pool) hash) pool;
        '(ok, pool2, cache') ← UpdateForDescendants pool1 hash 100 cache V;
        if (ok : bool) then Ok (pool2, cache')
        else
          e ← deref (mapTx pool2 !! hash);
          Ok (set_mapTx (insert hash (SetDirty e)) pool2, cache')
    end.

Lemma reorg_round (X : Z -> Prop) (pk : CTxMemPool) (ck : cacheMap) (h : Z) :
  relinked (new_link X) pool0 pk ->
  (forall k, ~ X k -> mapTx pk !! k = mapTx pool0 !! k) ->
  cache_in_pool pool0 ck ->
  exists p' c',
    reorg_step (pk, ck) h = Ok (p', c')
    /\ relinked (new_link (fun x => X x \/ x = h)) pool0 p'
    /\ (forall k, ~ (X k \/ k = h) -> mapTx p' !! k = mapTx pool0 !! k)
    /\ cache_in_pool pool0 c'.
Proof.
  intros Hrel Hother Hck. unfold reorg_step. cbv beta iota.
  destruct (mapTx pk !! h) as [e|] eqn:He.
  2:{ exists pk, ck. split; [done|]. split; [|split; [|done]].
      - apply (relinked_ext (new_link X)); [|exact Hrel].
        intros h' c. unfold new_link. split.
        + intros (? & ?); split; [by left|done].
        + intros ([?| ->] & Hin & ?); [done|].
          apply (relinked_same_dom _ _ _ Hrel) in Hin. rewrite He in Hin.
          by destruct Hin.
      - intros k Hk. apply Hother. tauto. }
  assert (is_Some (mapTx pool0 !! h)) as Hh0
    by (apply (relinked_same_dom _ _ _ Hrel); by rewrite He).
  destruct (link_loop V h (spenders_of (mapNextTx pk) h) pk ∅)
    as (p1 & sc & Hlink & Htx1 & Hrel1).
  { intros [c i] Hx. apply elem_of_spenders_of in Hx as (o & _ & Ho).
    rewrite (rl_next _ _ _ Hrel) in Ho. apply (relinked_same_dom _ _ _ Hrel).
    by apply (Hspenders0 o c i). }
  { intros c Hc. by apply elem_of_empty in Hc. }
  assert (link_children V h (spenders_of (mapNextTx pk) h) pk = Ok (p1, sc)) as ->
    by exact Hlink.
  rewrite Ok_bind. cbv beta iota.
  assert (relinked (new_link (fun x => X x \/ x = h)) pool0 p1) as Hrel'.
  { apply (relinked_ext
             (fun h' c => new_link X h' c
                          \/ (h' = h /\ c ∉ V
                              /\ c ∈ map fst (spenders_of (mapNextTx pk) h))));
      [|exact (relinked_trans _ _ pool0 pk p1 Hrel Hrel1)].
    intros h' c. unfold new_link, spender_hashes. rewrite (rl_next _ _ _ Hrel).
    split.
    - intros [(? & ?)|(-> & ? & ?)]; [split; [by left|done]|].
      split; [by right|]. done.
    - intros ([?| ->] & ? & ? & ?); [left; done|right; done]. }
  pose proof (relinked_children_linked _ _ Hrel') as Hlinked1.
  assert (cache_in_pool p1 ck) as Hck1.
  { intros c ds d Hc Hd. apply (relinked_same_dom _ _ _ Hrel'). by apply (Hck c ds d). }
  destruct (UpdateForDescendants_runs p1 ck V 100 Hlinked1 Hck1 h)
    as (ok & p2 & c' & e1 & e2 & -> & He1 & -> & Hsame & Hc').
  { by apply (relinked_same_dom _ _ _ Hrel'). }
  { by apply (rl_links _ _ _ Hrel'), Hlinks0. }
  rewrite Ok_bind. cbv beta iota.
  assert (cache_in_pool pool0 c') as Hc0.
  { intros c ds d Hc Hd. apply (relinked_same_dom _ _ _ Hrel'). by apply (Hc' c ds d). }
  assert (forall e3, GetTx e3 = GetTx e1 ->
            relinked (new_link (fun x => X x \/ x = h)) pool0
              (set_mapTx (insert h e3) p1)
            /\ forall k, ~ (X k \/ k = h) ->
                 mapTx (set_mapTx (insert h e3) p1) !! k = mapTx pool0 !! k) as Hfinal.
  { intros e3 He3. split; [by apply (relinked_set_state _ _ _ _ e1)|].
    intros k Hk. cbn [set_mapTx mapTx]. rewrite lookup_insert_ne by (intros ->; tauto).
    rewrite Htx1. apply Hother. tauto. }
  destruct ok.
  - exists (set_mapTx (insert h e2) p1), c'. split; [done|].
    destruct (Hfinal e2 Hsame). done.
  - cbn [set_mapTx mapTx]. rewrite lookup_insert_eq. cbn [deref]. rewrite Ok_bind.
    exists (set_mapTx (insert h (SetDirty e2)) (set_mapTx (insert h e2) p1)), c'.
    split; [done|].
    assert (set_mapTx (insert h (SetDirty e2)) (set_mapTx (insert h e2) p1)
            = set_mapTx (insert h (SetDirty e2)) p1) as ->
      by (unfold set_mapTx; cbn; by rewrite insert_insert_eq).
    destruct (Hfinal (SetDirty e2)); done.
Qed.

Lemma reorg_loop (l : list Z) (X : Z -> Prop) (pk : CTxMemPool) (ck : cacheMap) :
  relinked (new_link X) pool0 pk ->
  (forall k, ~ X k -> mapTx pk !! k = mapTx pool0 !! k) ->
  cache_in_pool pool0 ck ->
  exists r,
    foreach reorg_step l (pk, ck) = Ok r
    /\ relinked (new_link (fun x => X x \/ x ∈ l)) pool0 (fst r)
    /\ (forall k, ~ (X k \/ k ∈ l) -> mapTx (fst r) !! k = mapTx pool0 !! k).
Proof.
  revert X pk ck. induction l as [|h l IH]; intros X pk ck Hrel Hother Hck;
    cbn [foreach].
  - exists (pk, ck). split; [done|]. cbn [fst]. split.
    + revert Hrel. apply relinked_ext. intros h' c. unfold new_link.
      split; [intros (? & ?); split; [by left|done]|].
      intros ([?|?%elem_of_nil] & ?); done.
    + intros k Hk. apply Hother. tauto.
  - destruct (reorg_round X pk ck h Hrel Hother Hck) as (p' & c' & -> & Hrel' & Ho' & Hc').
    rewrite Ok_bind. destruct (IH _ p' c' Hrel' Ho' Hc') as (r & -> & Hr & Hor).
    exists r. split; [done|]. split.
    + revert Hr. apply relinked_ext. intros h' c. unfold new_link.
      rewrite elem_of_cons. tauto.
    + intros k Hk. apply Hor. rewrite elem_of_cons in Hk. tauto.
Qed.

End Reorg.

Lemma elem_of_rev (l : list Z) (x : Z) : x ∈ rev l <-> x ∈ l.
Proof. rewrite !list_elem_of_In. symmetry. apply in_rev. Qed.

(** The new link from [h] to [c]: [h] is a hash to update that is in the
    pool, and [c], which is not to be updated, spends an output of [h]. *)
Definition relinks (pool : CTxMemPool) (vHashesToUpdate : list Z) (h c : Z) : Prop :=
  h ∈ vHashesToUpdate /\ is_Some (mapTx pool !! h) /\ c ∉ vHashesToUpdate
  /\ exists o i, outpoint_hash o = h /\ mapNextTx pool !! o = Some (c, i).

(** X24. UpdateTransactionsFromBlock returns on a pool in which the
    children of entries and the spenders in mapNextTx are entries and
    every entry has links.  It adds, for every hash to update that is in
    the pool, the links to and from the spenders of its outputs that are
    not among the hashes to update, and no other link; it changes neither
    mapNextTx, mapDeltas, the total size nor the transaction of an entry,
    and entries that are not to be updated are as they were. *)
Theorem UpdateTransactionsFromBlock_relinks (pool : CTxMemPool)
    (vHashesToUpdate : list Z) :
  children_linked pool ->
  spenders_in_pool pool ->
  (forall h, is_Some (mapTx pool !! h) -> is_Some (mapLinks pool !! h)) ->
  exists pool',
    UpdateTransactionsFromBlock pool vHashesToUpdate = Ok pool'
    /\ mapNextTx pool' = mapNextTx pool
    /\ mapDeltas pool' = mapDeltas pool
    /\ totalTxSize pool' = totalTxSize pool
    /\ (forall k, GetTx <$> mapTx pool' !! k = GetTx <$> mapTx pool !! k)
    /\ (forall k, k ∉ vHashesToUpdate -> mapTx pool' !! k = mapTx pool !! k)
    /\ (forall h c, c ∈ children_of pool' h
                    <-> c ∈ children_of pool h \/ relinks pool vHashesToUpdate h c)
    /\ (forall c h, h ∈ parents_of pool' c
                    <-> h ∈ parents_of pool c \/ relinks pool vHashesToUpdate h c).
Proof.
  intros Hlinked Hspenders Hlinks. unfold UpdateTransactionsFromBlock. cbv zeta.
  destruct (reorg_loop pool (list_to_set vHashesToUpdate) Hlinked Hspenders Hlinks
              (rev vHashesToUpdate) (fun _ => False) pool ∅)
    as (r & Hr & Hrel & Hother).
  - apply (relinked_ext (fun _ _ => False)); [|apply relinked_refl].
    intros h c. unfold new_link. tauto.
  - done.
  - intros c ds d Hc. by apply lookup_empty_Some in Hc.
  - assert (forall h c,
              new_link pool (list_to_set vHashesToUpdate)
                (fun x => False \/ x ∈ rev vHashesToUpdate) h c
              <-> relinks pool vHashesToUpdate h c) as Hnew.
    { intros h c. unfold new_link, relinks.
      rewrite elem_of_list_to_set, elem_of_spender_hashes, elem_of_rev. tauto. }
    exists (fst r). split.
    { change (foreach (reorg_step (list_to_set vHashesToUpdate)) (rev vHashesToUpdate)
                (pool, ∅) ≫= (fun r => Ok (fst r)) = Ok (fst r)).
      by rewrite Hr. }
    destruct Hrel as [Hn Hd Hs Ht Hl Hc Hp].
    split; [done|]. split; [done|]. split; [done|]. split; [done|]. split.
    + intros k Hk. apply Hother. rewrite elem_of_rev. tauto.
    + split.
      * intros h c. by rewrite Hc, Hnew.
      * intros c h. by rewrite Hp, Hnew.
Qed.

End Mempool.

(** * The theorems at work on the small pool *)

(** The example pools are what [addUnchecked] builds. *)
Lemma pool_A_reached : addUnchecked_noAncestors 48 empty_pool 1 eA = Ok pool_A.
Proof. vm_compute. reflexivity. Qed.

Lemma pool_AB_reached : addUnchecked_noAncestors 48 pool_A 2 eB = Ok pool_AB.
Proof. vm_compute. reflexivity. Qed.

Lemma pool_AC_reached : addUnchecked_noAncestors 48 pool_A 3 eC = Ok pool_AC.
Proof. vm_compute. reflexivity. Qed.

(** ** Facts about [pool_A] *)

Lemma pool_A_entry (h : Z) (e : CTxMemPoolEntry) :
  mapTx pool_A !! h = Some e -> h = 1 /\ e = eA.
Proof. unfold pool_A. cbn [mapTx]. by intros [-> ->]%lookup_singleton_Some. Qed.

Lemma tA_input (o : COutPoint) : o ∈ vin (GetTx eA) -> o = (100, 0).
Proof. cbn. by intros ->%list_elem_of_singleton. Qed.

Lemma tB_input (o : COutPoint) : o ∈ vin (GetTx eB) -> o = (1, 0).
Proof. cbn. by intros ->%list_elem_of_singleton. Qed.

Lemma pool_A_links_are_parents : links_are_parents pool_A.
Proof.
  intros h e [-> ->]%pool_A_entry. exists noLinks. split; [done|].
  intros p. split; [set_solver|].
  intros [Hp (o & ->%tA_input & <-)]. by destruct Hp.
Qed.

Lemma pool_A_ancestors_of_tB (p : Z) :
  p ∈ ({[1]} : gset Z) <-> ancestor_of (mapTx pool_A) (GetTx eB) p.
Proof.
  split.
  - intros ->%elem_of_singleton. apply ancestor_parent. split; [by exists eA|].
    exists (1, 0). split; [by left|done].
  - induction 1 as [p [_ (o & ->%tB_input & <-)]|a e p _ IH He [Hp (o & Ho & <-)]].
    + by apply elem_of_singleton.
    + apply pool_A_entry in He as [-> ->]. apply tA_input in Ho as ->.
      by destruct Hp.
Qed.

(** ** Claim C10 *)

Lemma UpdateState_dirty_frozen_witness :
  IsDirty (SetDirty eA) = true
  /\ fold_left (fun e' '(modifySize, modifyFee, modifyCount) =>
                  UpdateState e' modifySize modifyFee modifyCount)
       [(250, 2000, 1); (-250, -2000, -1)] (SetDirty eA) = SetDirty eA.
Proof.
  split; [reflexivity|].
  apply (UpdateState_dirty_frozen (SetDirty eA) [(250, 2000, 1); (-250, -2000, -1)]).
  reflexivity.
Defined.

(** ** Facts about [pool_AC] *)

Lemma pool_AC_entry (h : Z) (e : CTxMemPoolEntry) :
  mapTx pool_AC !! h = Some e -> (h = 1 /\ e = eA) \/ (h = 3 /\ e = eC).
Proof.
  unfold pool_AC. cbn [mapTx].
  intros [[<- <-]|[_ [<- <-]%lookup_singleton_Some]]%lookup_insert_Some; auto.
Qed.

Lemma tC_input (o : COutPoint) : o ∈ vin (GetTx eC) -> o = (101, 0).
Proof. cbn. by intros ->%list_elem_of_singleton. Qed.

Lemma pool_AC_inputs_registered : inputs_registered pool_AC.
Proof.
  intros h e o [[-> ->]|[-> ->]]%pool_AC_entry.
  - intros ->%tA_input. by exists 0.
  - intros ->%tC_input. by exists 0.
Qed.

Lemma pool_AC_spenders_in_pool : spenders_in_pool pool_AC.
Proof.
  intros o c i. unfold pool_AC. cbn [mapNextTx mapTx].
  intros [[_ [= <- _]]|[_ [_ [= <- _]]%lookup_singleton_Some]]%lookup_insert_Some.
  - by exists eA.
  - by exists eC.
Qed.

Lemma pool_AC_index : by_hash (mapTx pool_AC) = [eA; eC].
Proof. vm_compute. reflexivity. Qed.

Lemma pool_AC_ancestor_of_tD : ancestor_of (mapTx pool_AC) (GetTx eD) 1.
Proof.
  apply ancestor_parent. split; [by exists eA|].
  exists (1, 1). split; [by left|done].
Qed.

(** ** Claim C1: [tD], which spends from [tA], arrives at [pool_AC] when
    the pool is over its limit.  [tA] pays the least of all and is
    spared; [tC] is staged. *)

Lemma StageTrimToSize_spares_tA :
  StageTrimToSize 48 64 64 64 300 by_hash (fun _ => 0) pool_AC 0 eD 0 ∅ 0
  = Ok (true, {[3]}, 5000).
Proof. vm_compute. reflexivity. Qed.

Lemma StageTrimToSize_spares_ancestors_witness :
  ancestor_of (mapTx pool_AC) (GetTx eD) 1
  /\ exists ok stage fees,
       StageTrimToSize 48 64 64 64 300 by_hash (fun _ => 0) pool_AC 0 eD 0 ∅ 0
       = Ok (ok, stage, fees)
       /\ forall a, ancestor_of (mapTx pool_AC) (GetTx eD) a ->
            a ∉ stage
            /\ forall pool', RemoveStaged 48 pool_AC stage = Ok pool' ->
                 is_Some (mapTx pool' !! a).
Proof.
  split; [exact pool_AC_ancestor_of_tD|].
  apply (StageTrimToSize_spares_ancestors 48 64 64 64 300 by_hash (fun _ => 0)
           pool_AC 0 eD 0 0).
  - exact pool_AC_inputs_registered.
  - exact pool_AC_spenders_in_pool.
  - intros it. rewrite pool_AC_index.
    intros [->|H%list_elem_of_singleton]%elem_of_cons; [by exists eA|].
    subst it. by exists eC.
Defined.

(** ** Claim C2: [tB] is added to [pool_A] and removed again. *)

Lemma addUnchecked_then_remove_restores_witness :
  exists pool1 pool2,
    addUnchecked_noAncestors 48 pool_A (entry_hash eB) eB = Ok pool1
    /\ mapTx pool1 !! entry_hash eB = Some eB
    /\ mapDeltas pool1 = mapDeltas pool_A
    /\ remove 48 pool1 (GetTx eB) [] true = Ok (pool2, [GetTx eB])
    /\ mapTx pool2 = mapTx pool_A
    /\ mapNextTx pool2 = mapNextTx pool_A
    /\ mapLinks pool2 = mapLinks pool_A
    /\ totalTxSize pool2 = totalTxSize pool_A
    /\ cachedInnerUsage pool2 = cachedInnerUsage pool_A
    /\ mapDeltas pool2 = mapDeltas pool_A
    /\ nTransactionsUpdated pool2 = u32 (u32 (nTransactionsUpdated pool_A + 1) + 1).
Proof.
  apply (addUnchecked_then_remove_restores 48 pool_A eB).
  - exact pool_A_links_are_parents.
  - reflexivity.
  - reflexivity.
  - intros p l. unfold pool_A. cbn [mapLinks].
    intros [_ <-]%lookup_singleton_Some. cbn. set_solver.
  - by intros o ->%tB_input.
  - by intros o ->%tB_input.
  - by intros k ek o [-> ->]%pool_A_entry ->%tA_input.
  - intros a ea _ [-> ->]%pool_A_entry. vm_compute. repeat split; congruence.
  - vm_compute. split; congruence.
  - vm_compute. split; congruence.
Defined.

(** ** Claim C4: [tB] has the ancestor [tA]; with an ancestor-count limit
    of one the walk fails, and the claim's conditions say so. *)

Lemma CalculateMemPoolAncestors_fails_iff_witness :
  exists setAncestors err,
    CalculateMemPoolAncestors pool_A eB ∅ 1 101000 25 101000 = Ok (setAncestors, err)
    /\ (is_Some err <-> {[1]} ≠ (∅ : gset Z)
                        /\ limit_conditions pool_A eB 1 101000 25 101000 {[1]})
    /\ setAncestors ⊆ {[1]}
    /\ (err = None -> setAncestors = {[1]}).
Proof.
  apply (CalculateMemPoolAncestors_fails_iff pool_A eB 1 101000 25 101000 {[1]}).
  - exact pool_A_links_are_parents.
  - intros h e [-> ->]%pool_A_entry. vm_compute. congruence.
  - vm_compute. congruence.
  - exact pool_A_ancestors_of_tB.
  - vm_compute. reflexivity.
  - vm_compute. reflexivity.
Defined.

(** An entry without parents in the pool is accepted whatever the limits
    are: here [tA] of 250 bytes passes an ancestor-size limit of 100
    bytes, although the size of the entry and its (no) ancestors exceeds
    it. *)
Lemma no_parent_no_limit :
  CalculateMemPoolAncestors empty_pool eA ∅ 25 100 25 101000 = Ok (∅, None)
  /\ (forall p, p ∈ (∅ : gset Z) <-> ancestor_of (mapTx empty_pool) (GetTx eA) p)
  /\ limit_conditions empty_pool eA 25 100 25 101000 ∅.
Proof.
  split; [reflexivity|]. split.
  - intros p. split; [set_solver|].
    intros H. apply ancestor_of_in_pool in H. by destruct H.
  - right. right. right. vm_compute. reflexivity.
Qed.

(** ** Claim C5: one transaction of 250 bytes that pays 1000, and a
    minimum fee rate of 1000000 per 1000 bytes. *)

Definition miner_eA : MinerEntry :=
  mkMinerEntry 1000 1000 250 1000 4 0 250 false 1 250 1000 4.

Lemma CreateNewBlock_only_coinbase_witness :
  CreateNewBlock fee_per_k {[1 := miner_eA]} [1] (fun _ => ∅) (fun _ => ∅) 80000
    (fun _ _ => false) (fun _ _ _ => true) 0 (fun _ => 5000000000) (fun _ => true)
    1000 4000 400
    (mkAssembler 1000000 3996000 996000 false 0 0 false) 100 0 true true 1
  = Ok (mkTemplate [CoinbaseTx (i64 (0 + 5000000000)) (i32 (100 + 1))]
          [i64 (- 0)] [i64 (WITNESS_SCALE_FACTOR * 1)]).
Proof.
  apply (CreateNewBlock_only_coinbase fee_per_k {[1 := miner_eA]} [1]
           (fun _ => ∅) (fun _ => ∅) 80000 (fun _ _ => false) (fun _ _ _ => true) 0
           (fun _ => 5000000000) (fun _ => true) 1000 4000 400
           (mkAssembler 1000000 3996000 996000 false 0 0 false) 100 0 true true 1).
  - intros h ->%list_elem_of_singleton. exists miner_eA. split; [reflexivity|].
    vm_compute. reflexivity.
  - reflexivity.
Defined.

(** C5 as stated fails for a minimum fee rate that is above the fee rate
    of the only entry by less than the rounding of [GetFee]: [miner_e499]
    pays 499 for 250 bytes, 1996 per 1000 bytes, and the minimum is 1999
    per 1000 bytes.  [GetFee] of 250 bytes at that rate is
    1999 * 250 / 1000 = 499, rounded down; the package fee 499 is not
    below it, and the transaction enters the block after the coinbase. *)
Definition miner_e499 : MinerEntry :=
  mkMinerEntry 499 499 250 1000 4 0 250 false 1 250 499 4.

Lemma min_fee_rate_above_entry_still_selected :
  GetModFeesWithAncestors miner_e499 * 1000 / GetSizeWithAncestors miner_e499 = 1996
  /\ GetModifiedFee miner_e499 * 1000 / GetTxSize miner_e499 = 1996
  /\ GetFee miner_e499 * 1000 / GetTxSize miner_e499 = 1996
  /\ 1996 < blockMinFeeRate (mkAssembler 1999 3996000 996000 false 0 0 false)
  /\ GetModFeesWithAncestors miner_e499 * 1000
     < blockMinFeeRate (mkAssembler 1999 3996000 996000 false 0 0 false)
       * GetSizeWithAncestors miner_e499
  /\ fee_per_k 1999 (GetSizeWithAncestors miner_e499) = 499
  /\ CreateNewBlock fee_per_k {[1 := miner_e499]} [1] (fun _ => ∅) (fun _ => ∅) 80000
       (fun _ _ => false) (fun _ _ _ => true) 0 (fun _ => 5000000000) (fun _ => true)
       1000 4000 400
       (mkAssembler 1999 3996000 996000 false 0 0 false) 100 0 true true 1
     = Ok (mkTemplate [CoinbaseTx 5000000499 101; MempoolTx 1] [-499; 499] [4; 4]).
Proof. repeat split; vm_compute; reflexivity. Qed.

(** ** Claim C6: a compact block with one prefilled transaction and the
    short id 5 twice. *)

Definition colliding_block : CBlockHeaderAndShortTxIDs :=
  mkCmpct false 7 0 0 0 [5; 9; 5] [mkPrefilled 0 tA].

Lemma InitData_short_id_collision_witness :
  InitData 100000 (fun _ _ h => h) (fun _ k => k) (mkPartial [] 0 0 None)
    [(1, tA); (2, tB)] colliding_block
  = Ok (READ_STATUS_FAILED, mkPartial [Some tA; None; None; None] 1 0 (Some 7)).
Proof.
  apply (InitData_short_id_collision 100000 (fun _ _ h => h) (fun _ k => k)
           (mkPartial [] 0 0 None) [(1, tA); (2, tB)] colliding_block
           [Some tA; None; None; None]).
  - reflexivity.
  - vm_compute. congruence.
  - reflexivity.
  - reflexivity.
  - vm_compute. reflexivity.
  - vm_compute. reflexivity.
  - intros [Hin _]%NoDup_cons. apply Hin. set_solver.
Defined.

(** ** Claim C7: [pool_AC] is scanned for a transaction that pays 2000
    for 250 bytes.  [tA] pays less per byte and is staged; [tC] pays
    more, and the scan stops there. *)

Definition scan_after_tA : TrimState := mkTrim 776 0 1 {[1]} 1000 1.

Lemma TrimMempool_stops_at_higher_feerate_witness :
  by_hash (mapTx pool_AC) = [eA] ++ eC :: []
  /\ feerate_gt (nFee eC) (nTxSize eC) 2000 250 = true
  /\ exists ok,
       TrimMempool 48 64 64 300 by_hash (fun _ => 0) pool_AC 1000 ∅ 0 250 2000
         true 10 ∅ 0
       = Ok (ok, stage_of scan_after_tA, nFeesRemoved_of scan_after_tA).
Proof.
  split; [vm_compute; reflexivity|]. split; [vm_compute; reflexivity|].
  apply (TrimMempool_stops_at_higher_feerate 48 64 64 300 by_hash (fun _ => 0)
           pool_AC 1000 ∅ 0 250 2000 true 10 ∅ 0 [eA] [] eC scan_after_tA).
  - vm_compute. reflexivity.
  - vm_compute. reflexivity.
  - reflexivity.
  - cbn. set_solver.
  - vm_compute. reflexivity.
Defined.

(** C7 as stated, with worse read as a lower fee rate, fails on the pool
    of [tA] and [tC]: for an incoming transaction that pays 10000 for 250
    bytes [tA], the first candidate considered, pays less per byte, and
    the scan does not end there: [tA] is staged, and [tC] is staged
    after it. *)
Lemma lower_feerate_does_not_stop_scan :
  by_hash (mapTx pool_AC) = [eA; eC]
  /\ nFee eA * 250 < 10000 * nTxSize eA
  /\ feerate_gt (nFee eA) (nTxSize eA) 10000 250 = false
  /\ TrimMempool 48 64 64 300 by_hash (fun _ => 0) pool_AC 1500 ∅ 0 250 10000
       true 10 ∅ 0
     = Ok (true, {[1; 3]}, 6000).
Proof. repeat split; vm_compute; reflexivity. Qed.

(** ** Claim C8: [tA] has a fee delta of 500 and leaves the pool. *)

Lemma prioritisation_persists_except_for_block_witness :
  remove 48 pool_A_prioritised tA [] true
  = Ok (mkPool ∅ ∅ ∅ {[1 := (dzero, 500)]} 0 0 2, [tA])
  /\ ApplyDeltas (mkPool ∅ ∅ ∅ {[1 := (dzero, 500)]} 0 0 2) 1 dzero 0
     = ApplyDeltas pool_A_prioritised 1 dzero 0.
Proof.
  assert (remove 48 pool_A_prioritised tA [] true
          = Ok (mkPool ∅ ∅ ∅ {[1 := (dzero, 500)]} 0 0 2, [tA])) as Hrun
    by (vm_compute; reflexivity).
  split; [exact Hrun|].
  apply (proj1 (prioritisation_persists_except_for_block 48 64 64 300 by_hash by_hash
                  (fun _ => 0) fee_per_k)).
  exact (removal_remove 48 64 64 300 by_hash by_hash (fun _ => 0) fee_per_k
           _ _ tA [] true [tA] Hrun).
Defined.

(** The block that confirms [tA] takes its fee delta away: what
    [ApplyDeltas] gives for it is not what it gave before. *)
Lemma removeForBlock_clears_prioritisation :
  removeForBlock 48 pool_A_prioritised [tA] []
  = Ok (mkPool ∅ ∅ ∅ ∅ 0 0 2, [], [eA])
  /\ ApplyDeltas (mkPool ∅ ∅ ∅ ∅ 0 0 2) 1 dzero 0
     <> ApplyDeltas pool_A_prioritised 1 dzero 0.
Proof.
  split; [vm_compute; reflexivity|].
  intros H. apply (f_equal snd) in H. vm_compute in H. discriminate H.
Qed.

(** ** Claim C9: [check] on [pool_AB]; [tB] waits for [tA]. *)

Definition checked_AB : CheckState := mkCheck 500 696 {[(1, 0); (1, 1)]} [eB].

Lemma pool_AB_entry (h : Z) (e : CTxMemPoolEntry) :
  mapTx pool_AB !! h = Some e -> (h = 1 /\ e = eA_with_child) \/ (h = 2 /\ e = eB).
Proof.
  unfold pool_AB. cbn [mapTx].
  intros [[<- <-]|[_ [<- <-]%lookup_singleton_Some]]%lookup_insert_Some; auto.
Qed.

Lemma pool_AB_index : by_hash (mapTx pool_AB) = [eA_with_child; eB].
Proof. vm_compute. reflexivity. Qed.

Lemma pool_AB_indexed (it : CTxMemPoolEntry) :
  it ∈ by_hash (mapTx pool_AB) -> it = eA_with_child \/ it = eB.
Proof.
  rewrite pool_AB_index. intros [->|H%list_elem_of_singleton]%elem_of_cons; auto.
Qed.

Lemma check_waiting_terminates_witness :
  foreach (check_entry 48 (fun _ _ => true) pool_AB {[(100, 0)]})
    (by_hash (mapTx pool_AB)) (mkCheck 0 0 {[(100, 0)]} []) = Ok checked_AB
  /\ let pending := length (waitingOnDependants checked_AB) in
     exists view rounds,
       check_waiting (fun _ _ => true) (pending * pending)
         (mempoolDuplicate checked_AB) (waitingOnDependants checked_AB) 0 O
       = Ok (view, rounds)
       /\ (rounds <= pending * pending)%nat.
Proof.
  assert (foreach (check_entry 48 (fun _ _ => true) pool_AB {[(100, 0)]})
            (by_hash (mapTx pool_AB)) (mkCheck 0 0 {[(100, 0)]} []) = Ok checked_AB)
    as Hfirst by (vm_compute; reflexivity).
  split; [exact Hfirst|].
  apply (check_waiting_terminates 48 by_hash (fun _ _ => true) pool_AB {[(100, 0)]}
           Z.to_nat checked_AB).
  - by intros h e [[-> ->]|[-> ->]]%pool_AB_entry.
  - intros e. split.
    + intros [->| ->]%pool_AB_indexed; [by exists 1|by exists 2].
    + rewrite pool_AB_index. intros [h [[-> ->]|[-> ->]]%pool_AB_entry]; set_solver.
  - rewrite pool_AB_index. apply NoDup_cons. split; [|apply NoDup_singleton].
    intros H%list_elem_of_singleton. apply (f_equal entry_hash) in H. discriminate H.
  - vm_compute. reflexivity.
  - intros it o [->| ->]%pool_AB_indexed.
    + intros ->%list_elem_of_singleton. vm_compute. congruence.
    + intros ->%list_elem_of_singleton. vm_compute. congruence.
  - intros it o [->| ->]%pool_AB_indexed.
    + intros ->%list_elem_of_singleton [x Hx]. vm_compute in Hx. discriminate Hx.
    + intros ->%list_elem_of_singleton _. vm_compute. lia.
  - reflexivity.
  - exact Hfirst.
Defined.

(** * The further properties at work on the small pool *)

(** ** X1: the ancestors of [tB] in [pool_A], without limits *)

Lemma CalculateMemPoolAncestors_unlimited_witness :
  exists setAncestors,
    CalculateMemPoolAncestors pool_A eB ∅ nNoLimit nNoLimit nNoLimit nNoLimit
    = Ok (setAncestors, None)
    /\ forall p, p ∈ setAncestors <-> ancestor_of (mapTx pool_A) (GetTx eB) p.
Proof.
  apply (CalculateMemPoolAncestors_unlimited pool_A eB).
  exact pool_A_links_are_parents.
Defined.

(** ** X3: two prioritisations of [tA], by 500 and by 250 *)

Lemma PrioritiseTransaction_accumulates_witness :
  snd (ApplyDeltas (prioritise_all pool_A 1 [(dzero, 500); (dzero, 250)]) 1 dzero 1000)
  = i64 (1000 + fee_delta pool_A 1 + fold_right Z.add 0 (map snd [(dzero, 500); (dzero, 250)]))
  /\ forall h' dp nf, h' ≠ 1 ->
       ApplyDeltas (prioritise_all pool_A 1 [(dzero, 500); (dzero, 250)]) h' dp nf
       = ApplyDeltas pool_A h' dp nf.
Proof.
  apply (PrioritiseTransaction_accumulates pool_A 1 [(dzero, 500); (dzero, 250)] dzero 1000).
  unfold in_i64. lia.
Defined.

(** ** X4 and X5: a block of [tA], [tB] and [tC] of which [tB] is missing *)

Definition partial_ABC : PartiallyDownloadedBlock :=
  mkPartial [Some tA; None; Some tC] 1 1 (Some 7).

Lemma FillBlock_wrong_count_witness :
  exists vtx,
    FillBlock (fun _ _ => (true, false)) partial_ABC [tB; tD]
    = Ok (READ_STATUS_INVALID, vtx)
    /\ length vtx = length (txn_available partial_ABC).
Proof.
  apply (FillBlock_wrong_count (fun _ _ => (true, false)) partial_ABC [tB; tD]).
  - by exists 7.
  - cbn. lia.
Defined.

Lemma FillBlock_restores_block_witness :
  FillBlock (fun _ _ => (true, false)) partial_ABC
    (missing_of [(true, tA); (false, tB); (true, tC)])
  = Ok (READ_STATUS_OK, [Some tA; Some tB; Some tC]).
Proof.
  apply (FillBlock_restores_block (fun _ _ => (true, false)) partial_ABC 7
           [(true, tA); (false, tB); (true, tC)]).
  - reflexivity.
  - reflexivity.
Defined.

(** ** Facts about [pool_AB] *)

Lemma pool_AB_children (h c : Z) : c ∈ children_of pool_AB h -> h = 1 /\ c = 2.
Proof.
  unfold children_of, links_at, pool_AB. cbn [mapLinks].
  destruct (decide (h = 1)) as [->|H1].
  - rewrite lookup_insert_eq. cbn. by intros ->%elem_of_singleton.
  - rewrite lookup_insert_ne by done. destruct (decide (h = 2)) as [->|H2].
    + rewrite lookup_singleton_eq. cbn. by intros ?%elem_of_empty.
    + rewrite lookup_singleton_ne by done. cbn. by intros ?%elem_of_empty.
Qed.

Lemma pool_AB_children_linked : children_linked pool_AB.
Proof. intros h c _ [-> ->]%pool_AB_children. split; by eexists. Qed.

(** ** X6: the descendants of [tA] in [pool_AB] *)

Lemma CalculateDescendants_exact_witness :
  exists setDescendants',
    CalculateDescendants pool_AB 1 ∅ = Ok setDescendants'
    /\ forall x, x ∈ setDescendants' <-> x ∈ (∅ : gset Z) \/ descends pool_AB 1 x.
Proof.
  apply (CalculateDescendants_exact pool_AB 1 ∅).
  - exact pool_AB_children_linked.
  - by eexists.
  - by eexists.
  - by intros d c ?%elem_of_empty.
Defined.

(** ** X7: [pool_AC] is trimmed for a transaction that pays 10000 for 250
    bytes *)

Lemma TrimMempool_stage_closed_and_paid_witness :
  exists ok stage' nFeesRemoved',
    TrimMempool 48 64 64 300 by_hash (fun _ => 0) pool_AC 1000 ∅ 0 250 10000
      true 10 ∅ 0 = Ok (ok, stage', nFeesRemoved')
    /\ ∅ ⊆ stage'
    /\ descendant_closed pool_AC stage'
    /\ stage' ## (∅ : gset Z)
    /\ ((stage' = ∅ /\ nFeesRemoved' = 0) \/ i64 (0 + nFeesRemoved') <= 10000).
Proof.
  apply (TrimMempool_stage_closed_and_paid 48 64 64 300 by_hash (fun _ => 0)
           pool_AC 1000 ∅ 0 250 10000 true 10 ∅ 0).
  - exact pool_AC_spenders_in_pool.
  - intros it. rewrite pool_AC_index.
    intros [->|H%list_elem_of_singleton]%elem_of_cons; [by exists eA|].
    subst it. by exists eC.
  - by intros x c ?%elem_of_empty.
  - set_solver.
Defined.

(** ** X8: [check] passes on [pool_AB] *)

Lemma check_passes_means_consistent_witness :
  links_are_parents pool_AB
  /\ (forall h l c, is_Some (mapTx pool_AB !! h) -> mapLinks pool_AB !! h = Some l ->
        (c ∈ children l <-> c ∈ spender_hashes pool_AB h))
  /\ inputs_registered pool_AB
  /\ (forall o c i, mapNextTx pool_AB !! o = Some (c, i) ->
        exists e, mapTx pool_AB !! c = Some e
          /\ nth_error (vin (GetTx e)) (Z.to_nat i) = Some o)
  /\ totalTxSize pool_AB
     = fold_left (fun t e => u64 (t + nTxSize e)) (by_hash (mapTx pool_AB)) 0.
Proof.
  apply (check_passes_means_consistent 48 by_hash (fun _ _ => true) pool_AB
           {[(100, 0)]} 1%nat).
  - by intros h e [[-> ->]|[-> ->]]%pool_AB_entry.
  - intros h e. rewrite pool_AB_index. intros [[-> ->]|[-> ->]]%pool_AB_entry; set_solver.
  - vm_compute. reflexivity.
Defined.

Lemma pool_AB_consistent : consistent pool_AB.
Proof.
  apply (checked_consistent 48 by_hash (fun _ _ => true) pool_AB {[(100, 0)]}
           checked_AB tt).
  - by intros h e [[-> ->]|[-> ->]]%pool_AB_entry.
  - intros h e. rewrite pool_AB_index. intros [[-> ->]|[-> ->]]%pool_AB_entry; set_solver.
  - intros h. unfold pool_AB. cbn [mapLinks mapTx].
    destruct (decide (h = 1)) as [->|H1]; [by eexists|].
    rewrite lookup_insert_ne by done.
    destruct (decide (h = 2)) as [->|H2]; [by eexists|].
    rewrite lookup_singleton_ne by done. by intros [? ?].
  - vm_compute. reflexivity.
  - vm_compute. reflexivity.
Qed.

(** ** X9: [tB] is removed from [pool_AB] *)

Lemma RemoveStaged_keeps_consistent_witness :
  exists pool',
    RemoveStaged 48 pool_AB {[2]} = Ok pool'
    /\ (forall k, GetTx <$> mapTx pool' !! k
                  = if decide (k ∈ ({[2]} : gset Z)) then None
                    else GetTx <$> mapTx pool_AB !! k)
    /\ consistent pool'.
Proof.
  apply (RemoveStaged_keeps_consistent 48 pool_AB {[2]}).
  - exact pool_AB_consistent.
  - intros h ->%elem_of_singleton. by eexists.
Defined.

Lemma pool_AB_keyed : keyed_by_txid pool_AB.
Proof. by intros h e [[-> ->]|[-> ->]]%pool_AB_entry. Qed.

(** ** X10: [tA] is removed from [pool_AB] with its descendants *)

Lemma remove_recursive_removes_descendants_witness :
  exists pool' setAllRemoves,
    remove 48 pool_AB tA [] true
    = Ok (pool', [] ++ omap (fun h => GetTx <$> mapTx pool_AB !! h)
                         (sorted_elements setAllRemoves))
    /\ (forall x, x ∈ setAllRemoves <->
          x = GetHash tA
          \/ exists ex, mapTx pool_AB !! x = Some ex
               /\ ancestor_of (mapTx pool_AB) (GetTx ex) (GetHash tA))
    /\ (forall k, GetTx <$> mapTx pool' !! k
                  = if decide (k ∈ setAllRemoves) then None
                    else GetTx <$> mapTx pool_AB !! k)
    /\ consistent pool'.
Proof.
  apply (remove_recursive_removes_descendants 48 pool_AB tA []).
  - exact pool_AB_consistent.
  - by eexists.
Defined.

(** ** X11: a transaction that spends the output [tB] spends arrives *)

Definition tB_conflict : CTransaction := mkCTransaction 5 [(1, 0)] [30].

Lemma removeConflicts_clears_spenders_witness :
  exists pool' removed',
    removeConflicts 48 pool_AB tB_conflict [] = Ok (pool', removed')
    /\ consistent pool'
    /\ pool_shrinks pool_AB pool'
    /\ forall (o : Z * Z) c i, o ∈ vin tB_conflict ->
         mapNextTx pool' !! o = Some (c, i) :> option CInPoint ->
         c = GetHash tB_conflict.
Proof.
  apply (removeConflicts_clears_spenders 48 pool_AB tB_conflict []).
  - exact pool_AB_consistent.
  - exact pool_AB_keyed.
Defined.

(** ** X12: a block with [tA] and [tB_conflict] is connected *)

Lemma removeForBlock_clears_block_witness :
  exists pool' conflicts' entries,
    removeForBlock 48 pool_AB [tA; tB_conflict] [] = Ok (pool', conflicts', entries)
    /\ consistent pool'
    /\ pool_shrinks pool_AB pool'
    /\ (forall tx, tx ∈ [tA; tB_conflict] -> mapTx pool' !! GetHash tx = None)
    /\ forall tx (o : Z * Z), tx ∈ [tA; tB_conflict] -> o ∈ vin tx ->
         mapNextTx pool' !! o = None.
Proof.
  apply (removeForBlock_clears_block 48 pool_AB [tA; tB_conflict] []).
  - exact pool_AB_consistent.
  - exact pool_AB_keyed.
Defined.

(** ** X13: the entries of [pool_AB], of time 0, expire at time 1 *)

Lemma Expire_removes_old_and_descendants_witness :
  exists pool' stage,
    Expire 48 by_hash pool_AB 1 = Ok (pool', i32 (zsize stage))
    /\ (forall x, x ∈ stage <->
          exists h e ex, mapTx pool_AB !! h = Some e /\ nTime e < 1
            /\ mapTx pool_AB !! x = Some ex
            /\ (x = h \/ ancestor_of (mapTx pool_AB) (GetTx ex) h))
    /\ (forall k, GetTx <$> mapTx pool' !! k
                  = if decide (k ∈ stage) then None else GetTx <$> mapTx pool_AB !! k)
    /\ consistent pool'.
Proof.
  apply (Expire_removes_old_and_descendants 48 by_hash pool_AB 1).
  - exact pool_AB_consistent.
  - exact pool_AB_keyed.
  - intros e. split.
    + intros [->| ->]%pool_AB_indexed; [by exists 1|by exists 2].
    + rewrite pool_AB_index. intros [h [[-> ->]|[-> ->]]%pool_AB_entry]; set_solver.
  - rewrite pool_AB_index. repeat constructor. cbn. lia.
Defined.

(** ** X14: [tB] is added to [pool_A] *)

Lemma pool_A_consistent : consistent pool_A.
Proof.
  apply (checked_consistent 48 by_hash (fun _ _ => true) pool_A {[(100, 0)]}
           (mkCheck 250 300 {[(1, 0); (1, 1)]} []) tt).
  - by intros h e [-> ->]%pool_A_entry.
  - intros h e [-> ->]%pool_A_entry. vm_compute. set_solver.
  - intros h. unfold pool_A. cbn [mapLinks mapTx].
    destruct (decide (h = 1)) as [->|H1]; [by eexists|].
    rewrite lookup_singleton_ne by done. by intros [? ?].
  - vm_compute. reflexivity.
  - vm_compute. reflexivity.
Qed.

Lemma addUnchecked_keeps_consistent_witness :
  exists pool1,
    addUnchecked_noAncestors 48 pool_A (entry_hash eB) eB = Ok pool1
    /\ consistent pool1
    /\ mapTx pool1 !! entry_hash eB = Some eB
    /\ (forall k ek, mapTx pool_A !! k = Some ek ->
          ancestor_of (mapTx pool_A) (GetTx eB) k ->
          mapTx pool1 !! k
          = Some (UpdateState ek (i64 (nTxSize eB)) (i64 (nFee eB)) 1))
    /\ (forall k, k ≠ entry_hash eB -> ~ ancestor_of (mapTx pool_A) (GetTx eB) k ->
          mapTx pool1 !! k = mapTx pool_A !! k).
Proof.
  apply (addUnchecked_keeps_consistent 48 pool_A eB).
  - exact pool_A_consistent.
  - reflexivity.
  - by intros o ->%tB_input.
  - by intros o ->%tB_input.
  - by intros k ek o [-> ->]%pool_A_entry ->%tA_input.
Defined.

(** ** X15: a periodic trim of [pool_AB] *)


(** ** X16: the block of [tA], [tB] and [tC] as a compact block, for a
    receiver that has [tB] in its mempool *)

Lemma compact_block_round_trip_witness :
  exists cmpctblock this,
    newCBlockHeaderAndShortTxIDs (fun _ _ h => h) (fun h r => (h, r)) false 7
      (tA :: [tB; tC]) 3 = Ok cmpctblock
    /\ InitData 100000 (fun _ _ h => h) (fun _ k => k) (mkPartial [] 0 0 None)
         [(2, tB)] cmpctblock = Ok (READ_STATUS_OK, this)
    /\ FillBlock (fun _ _ => (true, false)) this
         (missing_slots (txn_available this) (tA :: [tB; tC]))
       = Ok (match (true, false) with
             | (true, _) => READ_STATUS_OK
             | (false, true) => READ_STATUS_FAILED
             | (false, false) => READ_STATUS_INVALID
             end,
             map Some (tA :: [tB; tC])).
Proof.
  apply (compact_block_round_trip 100000 (fun _ _ h => h) (fun _ k => k)
           (fun _ _ => (true, false)) (fun h r => (h, r)) 7 3 tA [tB; tC] [(2, tB)]).
  - reflexivity.
  - vm_compute. congruence.
  - vm_compute. reflexivity.
  - vm_compute. repeat constructor; set_solver.
  - intros key. etransitivity; [apply length_filter|]. cbn. lia.
  - intros hash tx tx' [= -> ->]%list_elem_of_singleton
      [->|[->|?%elem_of_nil]%elem_of_cons]%elem_of_cons; [done| |done].
    vm_compute. congruence.
Defined.

(** ** X17, X18: a mempool of a parent 1 and its child 2, which pays
    more; the child's package is taken first, the parent before the
    child *)

Definition miner_eP : MinerEntry :=
  mkMinerEntry 1000 1000 250 1000 4 0 250 false 1 250 1000 4.

Definition miner_eC : MinerEntry :=
  mkMinerEntry 3000 3000 200 800 4 0 200 false 2 450 4000 8.

Definition miner_PC : gmap Z MinerEntry := {[1 := miner_eP; 2 := miner_eC]}.

Definition ancestors_PC (h : Z) : gset Z := if h =? 2 then {[1]} else ∅.

Definition descendants_PC (h : Z) : gset Z := if h =? 1 then {[1; 2]} else {[h]}.

Definition template_PC : CBlockTemplate :=
  mkTemplate [CoinbaseTx 5000004000 101; MempoolTx 1; MempoolTx 2]
    [-4000; 1000; 3000] [4; 4; 4].

Lemma CreateNewBlock_PC :
  CreateNewBlock fee_per_k miner_PC [2; 1] ancestors_PC descendants_PC 80000
    (fun _ _ => false) (fun _ _ _ => true) 0 (fun _ => 5000000000) (fun _ => true)
    1000 4000 400 (mkAssembler 1000 3996000 996000 false 0 0 false) 100 0 true true 1
  = Ok template_PC.
Proof. vm_compute. reflexivity. Qed.

Lemma CreateNewBlock_lists_each_tx_once_witness :
  exists l : list Z,
    NoDup l
    /\ (forall h, h ∈ l -> is_Some (miner_PC !! h))
    /\ block_vtx template_PC
       = CoinbaseTx (i64 (fold_left (fun acc h => i64 (acc + fee_of miner_PC h)) l 0
                          + 5000000000))
           (i32 (100 + 1)) :: map MempoolTx l
    /\ template_vTxFees template_PC
       = i64 (- fold_left (fun acc h => i64 (acc + fee_of miner_PC h)) l 0)
         :: map (fee_of miner_PC) l
    /\ template_vTxSigOpsCost template_PC
       = i64 (WITNESS_SCALE_FACTOR * 1) :: map (sigops_of miner_PC) l.
Proof.
  apply (CreateNewBlock_lists_each_tx_once fee_per_k miner_PC [2; 1] ancestors_PC
           descendants_PC 80000 (fun _ _ => false) (fun _ _ _ => true) 0
           (fun _ => 5000000000) (fun _ => true) 1000 4000 400
           (mkAssembler 1000 3996000 996000 false 0 0 false) 100 0 true true 1
           template_PC).
  exact CreateNewBlock_PC.
Defined.

Lemma CreateNewBlock_PC_no_witness :
  CreateNewBlock fee_per_k miner_PC [2; 1] ancestors_PC descendants_PC 80000
    (fun _ _ => false) (fun _ _ _ => true) 0 (fun _ => 5000000000) (fun _ => true)
    1000 4000 400 (mkAssembler 1000 3996000 996000 false 0 0 false) 100 0 false true 1
  = Ok template_PC.
Proof. vm_compute. reflexivity. Qed.

Lemma CreateNewBlock_txs_final_and_witness_ok_witness :
  exists it, miner_PC !! 2 = Some it
    /\ (fun _ _ _ : Z => true) 2 (i32 (100 + 1)) 0 = true
    /\ (false && true = false -> HasWitness it = false).
Proof.
  apply (CreateNewBlock_txs_final_and_witness_ok fee_per_k miner_PC [2; 1]
           ancestors_PC descendants_PC 80000 (fun _ _ => false) (fun _ _ _ => true) 0
           (fun _ => 5000000000) (fun _ => true) 1000 4000 400
           (mkAssembler 1000 3996000 996000 false 0 0 false) 100 0 false true 1
           template_PC).
  - exact CreateNewBlock_PC_no_witness.
  - cbn. set_solver.
Defined.

(** ** X19, X20: the same mempool *)

Lemma view_PC : view_consistent miner_PC [2; 1] ancestors_PC descendants_PC.
Proof.
  assert (is_Some (miner_PC !! 1)) as H1 by (by eexists).
  assert (is_Some (miner_PC !! 2)) as H2 by (by eexists).
  split.
  - intros h [->|[->|?%elem_of_nil]%elem_of_cons]%elem_of_cons; done.
  - repeat constructor; set_solver.
  - intros h a _. unfold ancestors_PC. destruct (h =? 2); [|set_solver].
    by intros ->%elem_of_singleton.
  - intros h a b _. unfold ancestors_PC. destruct (h =? 2); [|set_solver].
    intros ->%elem_of_singleton. cbn. set_solver.
  - intros h d Hh. unfold descendants_PC. destruct (h =? 1).
    + intros [->%elem_of_singleton| ->%elem_of_singleton]%elem_of_union; done.
    + by intros ->%elem_of_singleton.
  - intros h d _. unfold descendants_PC. destruct (h =? 1) eqn:Hh.
    + apply Z.eqb_eq in Hh as ->.
      intros [->%elem_of_singleton| ->%elem_of_singleton]%elem_of_union; [by left|].
      right. cbn. set_solver.
    + intros ->%elem_of_singleton. by left.
Qed.

Lemma CreateNewBlock_returns_witness :
  exists t,
    CreateNewBlock fee_per_k miner_PC [2; 1] ancestors_PC descendants_PC 80000
      (fun _ _ => false) (fun _ _ _ => true) 0 (fun _ => 5000000000) (fun _ => true)
      1000 4000 400 (mkAssembler 1000 3996000 996000 false 0 0 false) 100 0 true true 1
    = Ok t.
Proof.
  apply (CreateNewBlock_returns fee_per_k miner_PC [2; 1] ancestors_PC descendants_PC
           80000 (fun _ _ => false) (fun _ _ _ => true) 0 (fun _ => 5000000000)
           (fun _ => true) 1000 4000 400
           (mkAssembler 1000 3996000 996000 false 0 0 false) 100 0 true true 1).
  - exact view_PC.
  - reflexivity.
Defined.

Lemma CreateNewBlock_has_ancestors_witness :
  MempoolTx 1 ∈ block_vtx template_PC.
Proof.
  apply (CreateNewBlock_has_ancestors fee_per_k miner_PC [2; 1] ancestors_PC
           descendants_PC 80000 (fun _ _ => false) (fun _ _ _ => true) 0
           (fun _ => 5000000000) (fun _ => true) 1000 4000 400
           (mkAssembler 1000 3996000 996000 false 0 0 false) 100 0 true true 1
           template_PC view_PC CreateNewBlock_PC 2 1).
  - cbn. set_solver.
  - cbn. set_solver.
Defined.

(** ** X21: a compact block of [tA] prefilled and the short ids 2 and 3,
    for a receiver that has [tB] and [tD] in its mempool *)

Definition cmpct_ABC : CBlockHeaderAndShortTxIDs :=
  mkCmpct false 7 0 0 0 [2; 3] [mkPrefilled 0 tA].

Definition partial_AB : PartiallyDownloadedBlock :=
  mkPartial [Some tA; Some tB; None] 1 1 (Some 7).

Lemma InitData_fills_only_announced_witness :
  header partial_AB = Some (cmpct_header cmpct_ABC)
  /\ length (txn_available partial_AB) = BlockTxCount cmpct_ABC
  /\ forall k tx, txn_available partial_AB !! k = Some (Some tx) ->
       (exists p, p ∈ prefilledtxn cmpct_ABC /\ prefilled_tx p = tx
                  /\ IsNull_tx tx = false)
       \/ (exists hash, (hash, tx) ∈ [(2, tB); (9, tD)]
                        /\ GetShortID (fun _ _ h => h) cmpct_ABC hash
                           ∈ shorttxids cmpct_ABC).
Proof.
  apply (InitData_fills_only_announced 100000 (fun _ _ h => h) (fun _ k => k)
           (mkPartial [] 0 0 None) partial_AB [(2, tB); (9, tD)] cmpct_ABC).
  vm_compute. reflexivity.
Defined.

(** ** X22, X23: [UpdateForDescendants] for [tA] in [pool_AB], where
    [tA] is excluded *)

Lemma UpdateForDescendants_AB :
  UpdateForDescendants pool_AB 1 100 ∅ {[1]}
  = Ok (true, set_mapTx (insert 1 (UpdateState eA_with_child 250 2000 1)) pool_AB,
        {[1 := {[2]}]}).
Proof. vm_compute. reflexivity. Qed.

Lemma UpdateForDescendants_adds_descendants_witness :
  exists (e : CTxMemPoolEntry) (D : gset Z),
    mapTx pool_AB !! 1 = Some e
    /\ (forall d, d ∈ D <-> strictly_descends pool_AB 1 d /\ d ∉ ({[1]} : gset Z))
    /\ set_mapTx (insert 1 (UpdateState eA_with_child 250 2000 1)) pool_AB
       = set_mapTx
           (insert 1
              (UpdateState e (i64 (set_total nTxSize pool_AB D))
                 (i64 (set_total nFee pool_AB D)) (i64 (Z.of_nat (size D)))))
           pool_AB
    /\ ({[1 := {[2]}]} : cacheMap)
       = if decide (D = ∅) then ∅
         else <[1 := D ∪ default ∅ ((∅ : cacheMap) !! 1)]> ∅.
Proof.
  apply (UpdateForDescendants_adds_descendants pool_AB _ 1 100 ∅ _ {[1]}).
  - exact pool_AB_keyed.
  - intros c ds Hc. by apply lookup_empty_Some in Hc.
  - exact UpdateForDescendants_AB.
Defined.

Lemma UpdateForDescendants_returns_witness :
  exists ok pool' cache' e e',
    UpdateForDescendants pool_AB 1 100 ∅ {[1]} = Ok (ok, pool', cache')
    /\ mapTx pool_AB !! 1 = Some e
    /\ pool' = set_mapTx (insert 1 e') pool_AB
    /\ GetTx e' = GetTx e
    /\ cache_in_pool pool_AB cache'.
Proof.
  apply (UpdateForDescendants_returns pool_AB ∅ {[1]} 100).
  - exact pool_AB_children_linked.
  - intros c ds d Hc. by apply lookup_empty_Some in Hc.
  - by eexists.
  - by eexists.
Defined.

(** ** X24: [tA] is back in the pool from a disconnected block, and [tB],
    which spends it, has no link to it yet *)

Definition pool_AB_unlinked : CTxMemPool :=
  mkPool (<[1 := eA]> {[2 := eB]})
    (<[1 := noLinks]> {[2 := noLinks]})
    (<[(100, 0) := (1, 0)]> {[(1, 0) := (2, 0)]})
    ∅ 500 600 2.

Lemma UpdateTransactionsFromBlock_relinks_witness :
  exists pool',
    UpdateTransactionsFromBlock 48 pool_AB_unlinked [1] = Ok pool'
    /\ mapNextTx pool' = mapNextTx pool_AB_unlinked
    /\ mapDeltas pool' = mapDeltas pool_AB_unlinked
    /\ totalTxSize pool' = totalTxSize pool_AB_unlinked
    /\ (forall k, GetTx <$> mapTx pool' !! k = GetTx <$> mapTx pool_AB_unlinked !! k)
    /\ (forall k, k ∉ [1] -> mapTx pool' !! k = mapTx pool_AB_unlinked !! k)
    /\ (forall h c, c ∈ children_of pool' h
                    <-> c ∈ children_of pool_AB_unlinked h
                        \/ relinks pool_AB_unlinked [1] h c)
    /\ (forall c h, h ∈ parents_of pool' c
                    <-> h ∈ parents_of pool_AB_unlinked c
                        \/ relinks pool_AB_unlinked [1] h c).
Proof.
  apply (UpdateTransactionsFromBlock_relinks 48 pool_AB_unlinked [1]).
  - intros h c _ Hc. exfalso. revert Hc. unfold children_of, links_at, pool_AB_unlinked.
    cbn [mapLinks]. destruct (decide (h = 1)) as [->|?];
      [by rewrite lookup_insert_eq|].
    rewrite lookup_insert_ne by done. destruct (decide (h = 2)) as [->|?];
      [by rewrite lookup_singleton_eq|].
    by rewrite lookup_singleton_ne.
  - intros o c i. unfold pool_AB_unlinked. cbn [mapNextTx mapTx].
    destruct (decide (o = (100, 0))) as [->|?].
    { rewrite lookup_insert_eq. intros [= <- <-]. by eexists. }
    rewrite lookup_insert_ne by done. destruct (decide (o = (1, 0))) as [->|?].
    { rewrite lookup_singleton_eq. intros [= <- <-]. by eexists. }
    by rewrite lookup_singleton_ne.
  - intros h. unfold pool_AB_unlinked. cbn [mapLinks mapTx].
    destruct (decide (h = 1)) as [->|?]; [by rewrite !lookup_insert_eq|].
    rewrite !lookup_insert_ne by done. destruct (decide (h = 2)) as [->|?];
      [by rewrite !lookup_singleton_eq|].
    by rewrite !lookup_singleton_ne.
Defined.
